(** * Variational empowerment estimators: a shallow embedding

    Source: [variational_empowerment.py].  The two estimator classes
    ([VariationalJointEmpowerment], [VariationalTransferEmpowerment]) are
    embedded as state transformers over an explicit object state, a parameter
    heap, the sampler's random state and a trace of the calls made to the
    external collaborators (approximators, device transfers, logger). *)

From stdpp Require Import prelude strings.
From Stdlib Require Import ZArith QArith.

Local Open Scope string_scope.
Local Open Scope list_scope.
Local Open Scope nat_scope.

(** ** Exceptions and the state-and-exception monad *)

Inductive exn : Type :=
  | IndexError
  | ValueError
  | RuntimeError.

Inductive result (A : Type) : Type :=
  | Return (a : A)
  | Raise (e : exn).
Arguments Return {A} a.
Arguments Raise {A} e.

(** A Python call either returns or raises; in both cases the mutations made
    so far are kept, so the state is threaded through both outcomes. *)
Definition M (S A : Type) : Type := S -> result A * S.

Definition ret {S A : Type} (a : A) : M S A := fun s => (Return a, s).

Definition raise {S A : Type} (e : exn) : M S A := fun s => (Raise e, s).

Definition bind {S A B : Type} (c : M S A) (f : A -> M S B) : M S B :=
  fun s =>
    match c s with
    | (Return a, s') => f a s'
    | (Raise e, s') => (Raise e, s')
    end.

Definition lift {S A : Type} (r : result A) : M S A := fun s => (r, s).

Definition get {S : Type} : M S S := fun s => (Return s, s).

Definition modify {S : Type} (f : S -> S) : M S unit := fun s => (Return tt, f s).

Declare Scope monad_scope.
Delimit Scope monad_scope with monad.
Notation "x <- c1 ;; c2" := (bind c1 (fun x => c2))
  (at level 100, c1 at next level, right associativity) : monad_scope.
Notation "c1 ;; c2" := (bind c1 (fun _ => c2))
  (at level 100, right associativity) : monad_scope.
Local Open Scope monad_scope.

Fixpoint mapM {S A B : Type} (f : A -> M S B) (l : list A) : M S (list B) :=
  match l with
  | [] => ret []
  | a :: l' => b <- f a ;; bs <- mapM f l' ;; ret (b :: bs)
  end.

(** ** External capabilities

    The tensor library, the approximator class [MLPNetwork] and the sampler
    [gumbel_softmax] are not part of the two source files.  Their numeric
    content is kept abstract: the development holds for every choice of the
    operations below. *)

Class Torch : Type := {
  (** floating-point scalars and the arithmetic used on them *)
  scalar : Type;
  sone : scalar;
  smul : scalar -> scalar -> scalar;
  ssub : scalar -> scalar -> scalar;
  sneg : scalar -> scalar;
  smean : list scalar -> scalar;
  (** the default learning rate [lr=0.01] *)
  lr_default : scalar;
  (** parameter tensors and gradient accumulation *)
  param : Type;
  padd : param -> param -> param;
  (** what [zero_grad] leaves in a gradient slot that held [g] *)
  zero_of : param -> option param;
  (** the global random state *)
  rng : Type;
  (** numeric content of an approximator: entry (row, column) of the output
      for given sizes, mode, weights and input batch *)
  mlp_fn : nat -> nat -> bool -> list param -> list (list scalar) -> nat -> nat -> scalar;
  (** fresh weights of an approximator of the given sizes; an approximator
      owns at least one parameter tensor *)
  mlp_init : nat -> nat -> rng -> list param * rng;
  mlp_init_nonempty : forall i o g, fst (mlp_init i o g) <> [];
  (** what [torch.cat] raises on an empty sequence of tensors: the class of
      this exception depends on the version of the library *)
  cat_empty : exn;
  (** numeric content of the relaxed one-hot sampler *)
  gumbel_fn : list (list scalar) -> string -> bool -> rng -> nat -> nat -> scalar;
  gumbel_next : list (list scalar) -> rng -> rng;
  (** gradient of a named loss with respect to the parameter at an address,
      given the weights in memory, the data tensors and the noise *)
  autograd : string -> list param -> list (list (list scalar)) -> rng -> nat -> param;
  (** Adam's per-parameter state and update rule *)
  slot : Type;
  slot0 : slot;
  adam : scalar -> slot -> param -> param -> param * slot
}.

(** ** Tensors and arrays *)

(** A two-dimensional tensor is the list of its rows (the batch runs along
    dimension 0).  A tensor without rows carries no width. *)
Abbreviation tensor := (list (list scalar)).

Section Tensors.
Context `{T : Torch}.

Definition width (t : tensor) : nat :=
  match t with
  | [] => 0
  | r :: _ => length r
  end.

(** A numeric array: its shape and its items in row-major order. *)
Record ndarray : Type := NDArray {
  shape : list nat;
  items : list scalar
}.

(** [a.shape[k]] *)
Definition shape_at (a : ndarray) (k : nat) : result nat :=
  match shape a !! k with
  | Some d => Return d
  | None => Raise IndexError
  end.

(** [arr[:, i]] on a two-dimensional array of observation vectors *)
Fixpoint column (i : nat) (arr : list (list (list scalar))) : result (list (list scalar)) :=
  match arr with
  | [] => Return []
  | row :: arr' =>
      match row !! i with
      | None => Raise IndexError
      | Some v =>
          match column i arr' with
          | Return vs => Return (v :: vs)
          | Raise e => Raise e
          end
      end
  end.

(** [np.vstack]: at least one vector, all of one length *)
Definition vstack (vs : list (list scalar)) : result tensor :=
  match vs with
  | [] => Raise ValueError
  | v :: rest =>
      if forallb (fun u => length u =? length v) rest
      then Return vs else Raise ValueError
  end.

(** [torch.cat(ts, dim=1)]: at least one tensor, all with the same number of
    rows; the rows are joined left to right. *)
Definition cat1 (ts : list tensor) : result tensor :=
  match ts with
  | [] => Raise cat_empty
  | t :: rest =>
      if forallb (fun u => length u =? length t) rest
      then Return (fold_left (zip_with app) rest t) else Raise RuntimeError
  end.

(** [t[:, a:b]] for [0 <= a], [0 <= b]: out-of-range bounds are clamped. *)
Definition slice_cols (a b : nat) (t : tensor) : tensor :=
  map (fun row => take (b - a) (drop a row)) t.

(** [len(ts[0][0])] *)
Definition len_0_0 (ts : list tensor) : result nat :=
  match ts with
  | [] => Raise IndexError
  | t :: _ =>
      match t with
      | [] => Raise IndexError
      | r :: _ => Return (length r)
      end
  end.

(** Broadcasting of one dimension: equal sizes, or one of them is 1. *)
Definition bdim (a b : nat) : option nat :=
  if a =? b then Some a
  else if a =? 1 then Some b
  else if b =? 1 then Some a
  else None.

Definition expand {A : Type} (n : nat) (l : list A) : list A :=
  match l with
  | [a] => replicate n a
  | _ => l
  end.

(** Elementwise binary operation with broadcasting *)
Definition ewise (op : scalar -> scalar -> scalar) (x y : tensor) : result tensor :=
  match bdim (length x) (length y), bdim (width x) (width y) with
  | Some R, Some C =>
      Return (zip_with (zip_with op)
                (expand R (map (expand C) x)) (expand R (map (expand C) y)))
  | _, _ => Raise RuntimeError
  end.

(** [t.mean()]: the mean over all entries *)
Definition mean (t : tensor) : scalar := smean (concat t).

(** [MSELoss(x, y)] *)
Definition MSELoss (x y : tensor) : result scalar :=
  match ewise ssub x y with
  | Return d => Return (smean (map (fun v => smul v v) (concat d)))
  | Raise e => Raise e
  end.

(** [torch.ones((r, c))] *)
Definition ones (r c : nat) : tensor := replicate r (replicate c sone).

(** a zero-dimensional tensor times a tensor *)
Definition scale (s : scalar) (t : tensor) : tensor := map (map (smul s)) t.

(** [t.numpy()] *)
Definition numpy (t : tensor) : ndarray :=
  {| shape := [length t; width t]; items := concat t |}.

(** Entries (row, column) for [0 <= row < r], [0 <= column < c] *)
Definition tabulate (r c : nat) (f : nat -> nat -> scalar) : tensor :=
  map (fun i => map (f i) (seq 0 c)) (seq 0 r).

End Tensors.

(** ** Parameters, approximators, optimizers and the world *)

Section World.
Context `{T : Torch}.

(** A parameter tensor in memory: its value and its [.grad] slot. *)
Record cell : Type := Cell {
  value : param;
  grad : option param
}.

(** Modelled from the spec: the approximator class [MLPNetwork] of
    [utils.networks], which is not among the source files.  An approximator
    has an input and an output dimensionality, owns parameters (held by
    address, so that optimizers can share them), and has a current mode and
    a current device. *)
Record MLPNetwork : Type := mkMLP {
  input_dim : nat;
  out_dim : nat;
  parameters : list nat;
  training : bool;
  placed : string
}.

(** [torch.optim.Adam]: the parameters it updates, its learning rate and its
    per-parameter state. *)
Record Adam : Type := mkAdam {
  param_groups : list nat;
  rate : scalar;
  slots : list slot
}.

(** Calls made to the external collaborators, in order. *)
Inductive event : Type :=
  | Forward (net : MLPNetwork) (x : tensor)
  | ToCuda (net : MLPNetwork)
  | ToCpu (net : MLPNetwork)
  | AddScalars (logger : nat) (tag : string)
               (scalars : list (string * scalar)) (global_step : nat).

Record World : Type := mkWorld {
  heap : list cell;
  torch_rng : rng;
  trace : list event
}.

Definition emit (e : event) : M World unit :=
  modify (fun w => mkWorld (heap w) (torch_rng w) (trace w ++ [e])).

Definition modify_heap (f : list cell -> list cell) : M World unit :=
  modify (fun w => mkWorld (f (heap w)) (torch_rng w) (trace w)).

Definition weights (h : list cell) (net : MLPNetwork) : list param :=
  omap (fun a => value <$> h !! a) (parameters net).

(** Modelled from the spec: [MLPNetwork(input_dim, out_dim, recurrent=True)]
    creates an approximator of the given sizes with freshly allocated
    parameters, in training mode, on the host. *)
Definition MLPNetwork_new (i o : nat) : M World MLPNetwork :=
  fun w =>
    let (ps, g) := mlp_init i o (torch_rng w) in
    (Return (mkMLP i o (seq (length (heap w)) (length ps)) true "cpu"),
     mkWorld (heap w ++ map (fun v => Cell v None) ps) g (trace w)).

(** Modelled from the spec: forward evaluation [net(x)] maps a batch of
    feature vectors of width [input_dim] to a batch of vectors of width
    [out_dim]; a wrong feature width is a dimension-mismatch failure.
    Evaluation reads the parameters and changes nothing. *)
Definition forward_value (net : MLPNetwork) (h : list cell) (x : tensor) : tensor :=
  tabulate (length x) (out_dim net)
           (mlp_fn (input_dim net) (out_dim net) (training net) (weights h net) x).

Definition forward (net : MLPNetwork) (x : tensor) : M World tensor :=
  emit (Forward net x) ;;
  w <- get ;;
  if forallb (fun row => length row =? input_dim net) x
  then ret (forward_value net (heap w) x)
  else raise RuntimeError.

(** Modelled from the spec: [gumbel_softmax(logits, device=d, hard=h)] of
    [utils.misc] draws a relaxed one-hot sample of the shape of the logits
    and advances the random state. *)
Definition gumbel_softmax (logits : tensor) (device : string) (hard : bool)
  : M World tensor :=
  fun w =>
    (Return (imap (fun r row =>
                     imap (fun c _ => gumbel_fn logits device hard (torch_rng w) r c) row)
                  logits),
     mkWorld (heap w) (gumbel_next logits (torch_rng w)) (trace w)).

(** [net.train()], [net.eval()], [net.cuda()], [net.cpu()] *)
Definition train (net : MLPNetwork) : MLPNetwork :=
  mkMLP (input_dim net) (out_dim net) (parameters net) true (placed net).

Definition eval (net : MLPNetwork) : MLPNetwork :=
  mkMLP (input_dim net) (out_dim net) (parameters net) false (placed net).

Definition cuda (net : MLPNetwork) : M World MLPNetwork :=
  emit (ToCuda net) ;;
  ret (mkMLP (input_dim net) (out_dim net) (parameters net) (training net) "cuda").

Definition cpu (net : MLPNetwork) : M World MLPNetwork :=
  emit (ToCpu net) ;;
  ret (mkMLP (input_dim net) (out_dim net) (parameters net) (training net) "cpu").

(** The input and output dimensionality of an approximator. *)
Definition dims (net : MLPNetwork) : nat * nat := (input_dim net, out_dim net).

(** [Adam(params, lr=lr)]: an empty parameter list is refused. *)
Definition Adam_new (params : list nat) (lr : scalar) : result Adam :=
  match params with
  | [] => Raise ValueError
  | _ :: _ => Return (mkAdam params lr (replicate (length params) slot0))
  end.

(** [optimizer.zero_grad()] *)
Definition zero_grad (opt : Adam) (h : list cell) : list cell :=
  fold_left (fun h a => alter (fun c => Cell (value c) (grad c ≫= zero_of)) a h)
            (param_groups opt) h.

(** [loss.backward()]: the gradient of the loss is accumulated into the
    [.grad] slot of every parameter the loss was computed from. *)
Definition backward (loss : string) (leaves : list nat) (data : list tensor)
    (noise : rng) (h : list cell) : list cell :=
  let ws := map value h in
  fold_left
    (fun h a =>
       alter (fun c =>
                let g := autograd loss ws data noise a in
                Cell (value c)
                     (Some (match grad c with Some g0 => padd g0 g | None => g end)))
             a h)
    leaves h.

(** [optimizer.step()]: every parameter of the optimizer that has a gradient
    is overwritten with its Adam update; nothing else is written. *)
Fixpoint adam_step (lr : scalar) (refs : list nat) (st : list slot)
    (h : list cell) : list slot * list cell :=
  match refs, st with
  | a :: refs', s :: st' =>
      match h !! a with
      | Some (Cell v (Some g)) =>
          let (v', s') := adam lr s v g in
          let (ss, h') := adam_step lr refs' st' (<[a := Cell v' (Some g)]> h) in
          (s' :: ss, h')
      | _ =>
          let (ss, h') := adam_step lr refs' st' h in
          (s :: ss, h')
      end
  | _, _ => (st, h)
  end.

Definition step (opt : Adam) (h : list cell) : Adam * list cell :=
  let (ss, h') := adam_step (rate opt) (param_groups opt) (slots opt) h in
  (mkAdam (param_groups opt) (rate opt) ss, h').

(** [logger.add_scalars(tag, scalars, global_step)] *)
Definition add_scalars (logger : nat) (tag : string)
    (scalars : list (string * scalar)) (global_step : nat) : M World unit :=
  emit (AddScalars logger tag scalars global_step).

(** Methods run on the estimator object together with the world. *)
Definition in_world {E A : Type} (c : M World A) : M (E * World) A :=
  fun st => let (r, w) := c (snd st) in (r, (fst st, w)).

Definition get_self {E : Type} : M (E * World) E :=
  fun st => (Return (fst st), st).

Definition modify_self {E : Type} (f : E -> E) : M (E * World) unit :=
  fun st => (Return tt, (f (fst st), snd st)).

Definition get_rng {E : Type} : M (E * World) rng :=
  fun st => (Return (torch_rng (snd st)), st).

(** [self.<optimizer>.step()] for the optimizer held in a field of [self] *)
Definition optimizer_step {E : Type} (opt_of : E -> Adam) (set_opt : Adam -> E -> E)
  : M (E * World) unit :=
  fun st =>
    let (opt', h') := step (opt_of (fst st)) (heap (snd st)) in
    (Return tt,
     (set_opt opt' (fst st), mkWorld h' (torch_rng (snd st)) (trace (snd st)))).

End World.

(** ** The environment's spaces *)

Module gym.

(** A discrete action space with [n] actions. *)
Record Discrete : Type := mkDiscrete { n : nat }.

(** An observation space of feature arrays; its shape is a non-empty tuple,
    given as its first dimension and the remaining ones. *)
Record Box : Type := mkBox { shape : nat * list nat }.

Record Env : Type := mkEnv {
  action_space : list Discrete;
  observation_space : list Box
}.

End gym.

(** A training batch: [(obs, acs, rews, emps, next_obs, dones)], each a
    sequence of per-agent tensors. *)
Definition Sample `{T : Torch} : Type :=
  (list tensor * list tensor * list tensor * list tensor * list tensor * list tensor)%type.

(** ** The joint estimator *)

Module Joint.
Section Estimator.
Context `{T : Torch}.

Record init_params : Type := mkParams {
  num_in_src : nat;
  num_in_plan : nat;
  num_in_trans : nat;
  num_out_src : nat;
  num_out_plan : nat;
  num_out_trans : nat
}.

Record VariationalJointEmpowerment : Type := mkJoint {
  transition : MLPNetwork;
  source : MLPNetwork;
  planning : MLPNetwork;
  transition_optimizer : Adam;
  planning_optimizer : Adam;
  source_optimizer : Adam;
  trans_dev : string;
  source_dev : string;
  plan_dev : string;
  niter : nat;
  init_dict : option init_params
}.

Local Abbreviation St := (VariationalJointEmpowerment * World)%type.

Definition set_transition (x : MLPNetwork) (s : VariationalJointEmpowerment) :=
  mkJoint x (source s) (planning s) (transition_optimizer s) (planning_optimizer s)
          (source_optimizer s) (trans_dev s) (source_dev s) (plan_dev s) (niter s) (init_dict s).
Definition set_source (x : MLPNetwork) (s : VariationalJointEmpowerment) :=
  mkJoint (transition s) x (planning s) (transition_optimizer s) (planning_optimizer s)
          (source_optimizer s) (trans_dev s) (source_dev s) (plan_dev s) (niter s) (init_dict s).
Definition set_planning (x : MLPNetwork) (s : VariationalJointEmpowerment) :=
  mkJoint (transition s) (source s) x (transition_optimizer s) (planning_optimizer s)
          (source_optimizer s) (trans_dev s) (source_dev s) (plan_dev s) (niter s) (init_dict s).
Definition set_transition_optimizer (x : Adam) (s : VariationalJointEmpowerment) :=
  mkJoint (transition s) (source s) (planning s) x (planning_optimizer s)
          (source_optimizer s) (trans_dev s) (source_dev s) (plan_dev s) (niter s) (init_dict s).
Definition set_planning_optimizer (x : Adam) (s : VariationalJointEmpowerment) :=
  mkJoint (transition s) (source s) (planning s) (transition_optimizer s) x
          (source_optimizer s) (trans_dev s) (source_dev s) (plan_dev s) (niter s) (init_dict s).
Definition set_source_optimizer (x : Adam) (s : VariationalJointEmpowerment) :=
  mkJoint (transition s) (source s) (planning s) (transition_optimizer s) (planning_optimizer s)
          x (trans_dev s) (source_dev s) (plan_dev s) (niter s) (init_dict s).
Definition set_trans_dev (x : string) (s : VariationalJointEmpowerment) :=
  mkJoint (transition s) (source s) (planning s) (transition_optimizer s) (planning_optimizer s)
          (source_optimizer s) x (source_dev s) (plan_dev s) (niter s) (init_dict s).
Definition set_source_dev (x : string) (s : VariationalJointEmpowerment) :=
  mkJoint (transition s) (source s) (planning s) (transition_optimizer s) (planning_optimizer s)
          (source_optimizer s) (trans_dev s) x (plan_dev s) (niter s) (init_dict s).
Definition set_plan_dev (x : string) (s : VariationalJointEmpowerment) :=
  mkJoint (transition s) (source s) (planning s) (transition_optimizer s) (planning_optimizer s)
          (source_optimizer s) (trans_dev s) (source_dev s) x (niter s) (init_dict s).
Definition set_niter (x : nat) (s : VariationalJointEmpowerment) :=
  mkJoint (transition s) (source s) (planning s) (transition_optimizer s) (planning_optimizer s)
          (source_optimizer s) (trans_dev s) (source_dev s) (plan_dev s) x (init_dict s).
Definition set_init_dict (x : init_params) (s : VariationalJointEmpowerment) :=
  mkJoint (transition s) (source s) (planning s) (transition_optimizer s) (planning_optimizer s)
          (source_optimizer s) (trans_dev s) (source_dev s) (plan_dev s) (niter s) (Some x).

(** [__init__(self, init_params, lr=0.01)] *)
Definition init (p : init_params) (lr : scalar) : M World VariationalJointEmpowerment :=
  transition <- MLPNetwork_new (num_in_trans p) (num_out_trans p) ;;
  source <- MLPNetwork_new (num_in_src p) (num_out_src p) ;;
  planning <- MLPNetwork_new (num_in_plan p) (num_out_plan p) ;;
  transition_optimizer <- lift (Adam_new (parameters transition) lr) ;;
  planning_optimizer <- lift (Adam_new (parameters planning) lr) ;;
  source_optimizer <- lift (Adam_new (parameters source ++ parameters planning) lr) ;;
  ret (mkJoint transition source planning
         transition_optimizer planning_optimizer source_optimizer
         "cpu" "cpu" "cpu" 0 None).

(** The two sampling passes over the agents (lines 52-54 and 96-98). *)
Fixpoint source_loop (next_obs : list tensor) : M St (list tensor * list tensor) :=
  match next_obs with
  | [] => ret ([], [])
  | no :: rest =>
      self <- get_self ;;
      logits <- in_world (forward (source self) no) ;;
      a <- in_world (gumbel_softmax logits (source_dev self) true) ;;
      logits <- in_world (forward (source self) no) ;;
      p <- in_world (gumbel_softmax logits (source_dev self) false) ;;
      r <- source_loop rest ;;
      ret (a :: fst r, p :: snd r)
  end.

(** The planning pass (lines 60-63 and 104-107): agent [i] receives the
    block [i * n_obs : (i + 1) * n_obs] of the transition output. *)
Fixpoint plan_loop (trans_out : tensor) (n_obs : nat) (i : nat)
    (next_obs : list tensor) : M St (list tensor) :=
  match next_obs with
  | [] => ret []
  | no :: rest =>
      let nno := slice_cols (i * n_obs) ((i + 1) * n_obs) trans_out in
      plan_in <- lift (cat1 [no; nno]) ;;
      self <- get_self ;;
      logits <- in_world (forward (planning self) plan_in) ;;
      p <- in_world (gumbel_softmax logits (plan_dev self) false) ;;
      ps <- plan_loop trans_out n_obs (S i) rest ;;
      ret (p :: ps)
  end.

(** [compute(self, rewards, next_obs)] *)
Definition compute (rewards : ndarray) (next_obs : list (list (list scalar)))
  : M St ndarray :=
  agents <- lift (shape_at rewards 1) ;;
  next_obs <- mapM (fun i => col <- lift (column i next_obs) ;; lift (vstack col))
                   (seq 0 agents) ;;
  src <- source_loop next_obs ;;
  let (acs_src, prob_src) := src in
  trans_in <- lift (cat1 (next_obs ++ acs_src)) ;;
  self <- get_self ;;
  trans_out <- in_world (forward (transition self) trans_in) ;;
  n_obs <- lift (len_0_0 next_obs) ;;
  prob_plan <- plan_loop trans_out n_obs 0 next_obs ;;
  prob_plan <- lift (cat1 prob_plan) ;;
  prob_src <- lift (cat1 prob_src) ;;
  acs_src <- lift (cat1 acs_src) ;;
  a <- lift (ewise smul acs_src prob_plan) ;;
  b <- lift (ewise smul acs_src prob_src) ;;
  E <- lift (ewise ssub a b) ;;
  ret (numpy (scale (mean E) (ones 1 agents))).

(** Step 1 of [update] (lines 75-80): the transition model. *)
Definition update_transition (obs acs next_obs : list tensor) : M St scalar :=
  self <- get_self ;;
  in_world (modify_heap (zero_grad (transition_optimizer self))) ;;
  noise <- get_rng ;;
  trans_in <- lift (cat1 (obs ++ acs)) ;;
  next_obs_pred <- in_world (forward (transition self) trans_in) ;;
  target <- lift (cat1 next_obs) ;;
  trans_loss <- lift (MSELoss next_obs_pred target) ;;
  in_world (modify_heap (backward "trans_loss" (parameters (transition self))
                                  (obs ++ acs ++ next_obs) noise)) ;;
  optimizer_step transition_optimizer set_transition_optimizer ;;
  ret trans_loss.

(** The loop of step 2 (lines 84-86) over [zip(obs, next_obs)]. *)
Fixpoint acs_plan_loop (pairs : list (tensor * tensor)) : M St (list tensor) :=
  match pairs with
  | [] => ret []
  | (o, no) :: rest =>
      plan_in <- lift (cat1 [o; no]) ;;
      self <- get_self ;;
      logits <- in_world (forward (planning self) plan_in) ;;
      a <- in_world (gumbel_softmax logits (plan_dev self) true) ;;
      acs <- acs_plan_loop rest ;;
      ret (a :: acs)
  end.

(** Step 2 of [update] (lines 82-91): the planning network. *)
Definition update_planning (obs acs next_obs : list tensor) : M St scalar :=
  self <- get_self ;;
  in_world (modify_heap (zero_grad (planning_optimizer self))) ;;
  noise <- get_rng ;;
  acs_plan <- acs_plan_loop (zip obs next_obs) ;;
  acs_plan <- lift (cat1 acs_plan) ;;
  acs_torch <- lift (cat1 acs) ;;
  plan_loss <- lift (MSELoss acs_plan acs_torch) ;;
  in_world (modify_heap (backward "plan_loss" (parameters (planning self))
                                  (obs ++ acs ++ next_obs) noise)) ;;
  optimizer_step planning_optimizer set_planning_optimizer ;;
  ret plan_loss.

(** Step 3 of [update] (lines 93-115): the source objective. *)
Definition update_source (next_obs : list tensor) : M St scalar :=
  self <- get_self ;;
  in_world (modify_heap (zero_grad (source_optimizer self))) ;;
  noise <- get_rng ;;
  src <- source_loop next_obs ;;
  let (acs_src, prob_src) := src in
  trans_in <- lift (cat1 (next_obs ++ acs_src)) ;;
  trans_out <- in_world (forward (transition self) trans_in) ;;
  n_obs <- lift (len_0_0 next_obs) ;;
  prob_plan <- plan_loop trans_out n_obs 0 next_obs ;;
  prob_plan <- lift (cat1 prob_plan) ;;
  prob_src <- lift (cat1 prob_src) ;;
  acs_src <- lift (cat1 acs_src) ;;
  a <- lift (ewise smul acs_src prob_plan) ;;
  b <- lift (ewise smul acs_src prob_src) ;;
  E <- lift (ewise ssub a b) ;;
  let i_rews := sneg (mean E) in
  in_world (modify_heap (backward "i_rews"
                                  (parameters (source self) ++ parameters (planning self))
                                  next_obs noise)) ;;
  optimizer_step source_optimizer set_source_optimizer ;;
  ret i_rews.

(** [update(self, sample, logger=None)] *)
Definition update (sample : Sample) (logger : option nat) : M St unit :=
  let '(obs, acs, rews, emps, next_obs, dones) := sample in
  trans_loss <- update_transition obs acs next_obs ;;
  plan_loss <- update_planning obs acs next_obs ;;
  i_rews <- update_source next_obs ;;
  match logger with
  | Some lg =>
      self <- get_self ;;
      in_world (add_scalars lg "empowerment/losses"
                  [("trans_loss", trans_loss); ("plan_loss", plan_loss); ("i_rews", i_rews)]
                  (niter self))
  | None => ret tt
  end ;;
  modify_self (fun self => set_niter (niter self + 1) self).

(** [fn = lambda x: x.cuda()] or [lambda x: x.cpu()] *)
Definition fn (device : string) : MLPNetwork -> M World MLPNetwork :=
  if bool_decide (device = "gpu") then cuda else cpu.

(** The device part shared by [prep_training] and [prep_rollouts]
    (lines 130-142 and 148-161). *)
Definition move_groups (device : string) : M St unit :=
  self <- get_self ;;
  (if negb (bool_decide (trans_dev self = device)) then
     x <- in_world (fn device (transition self)) ;;
     modify_self (set_transition x) ;;
     modify_self (set_trans_dev device)
   else ret tt) ;;
  self <- get_self ;;
  (if negb (bool_decide (source_dev self = device)) then
     x <- in_world (fn device (source self)) ;;
     modify_self (set_source x) ;;
     modify_self (set_source_dev device)
   else ret tt) ;;
  self <- get_self ;;
  (if negb (bool_decide (plan_dev self = device)) then
     x <- in_world (fn device (planning self)) ;;
     modify_self (set_planning x) ;;
     modify_self (set_plan_dev device)
   else ret tt).

(** [prep_training(self, device='gpu')] *)
Definition prep_training (device : string) : M St unit :=
  modify_self (fun self => set_transition (train (transition self)) self) ;;
  modify_self (fun self => set_source (train (source self)) self) ;;
  modify_self (fun self => set_planning (train (planning self)) self) ;;
  move_groups device.

(** [prep_rollouts(self, device='cpu')] *)
Definition prep_rollouts (device : string) : M St unit :=
  modify_self (fun self => set_transition (eval (transition self)) self) ;;
  modify_self (fun self => set_source (eval (source self)) self) ;;
  modify_self (fun self => set_planning (eval (planning self)) self) ;;
  move_groups device.

(** The sizing loop of [init_from_env] (lines 165-176): one iteration. *)
Definition sizing_step (v : init_params) (sp : gym.Discrete * gym.Box) : init_params :=
  let (acsp, obsp) := sp in
  {| num_in_src := fst (gym.shape obsp);
     num_out_src := gym.n acsp;
     num_in_plan := 2 * fst (gym.shape obsp);
     num_out_plan := gym.n acsp;
     num_in_trans := num_in_trans v + (fst (gym.shape obsp) + gym.n acsp);
     num_out_trans := num_out_trans v + fst (gym.shape obsp) |}.

Definition sizing (env : gym.Env) : init_params :=
  fold_left sizing_step
            (zip (gym.action_space env) (gym.observation_space env))
            (mkParams 0 0 0 0 0 0).

(** [init_from_env(cls, env)] *)
Definition init_from_env (env : gym.Env) : M World VariationalJointEmpowerment :=
  let init_params := sizing env in
  instance <- init init_params lr_default ;;
  ret (set_init_dict init_params instance).

(** The dimensionalities of the three approximators. *)
Definition architecture (self : VariationalJointEmpowerment) : list (nat * nat) :=
  [dims (transition self); dims (source self); dims (planning self)].

(** A training loop: [update] on each batch in turn, with one logger. *)
Fixpoint updates (samples : list Sample) (logger : option nat) : M St unit :=
  match samples with
  | [] => ret tt
  | sample :: rest => update sample logger ;; updates rest logger
  end.

End Estimator.
End Joint.

(** ** The transfer (per-agent) estimator *)

Module Transfer.
Section Estimator.
Context `{T : Torch}.

(** One sizing record per agent. *)
Record agent_params : Type := mkParams {
  num_in_src : nat;
  num_in_plan : nat;
  num_out_src : nat;
  num_out_plan : nat
}.

(** The stored [init_dict]: the keyword arguments of the constructor. *)
Record InitDict : Type := mkInitDict {
  lr : scalar;
  hidden_dim : nat;
  init_params : list agent_params;
  num_in_trans : nat;
  num_out_trans : nat;
  recurrent : bool;
  convolutional : bool
}.

Record VariationalTransferEmpowerment : Type := mkTransfer {
  transition : MLPNetwork;
  source : list MLPNetwork;
  planning : list MLPNetwork;
  transition_optimizer : Adam;
  planning_optimizer : Adam;
  source_optimizer : Adam;
  trans_dev : string;
  source_dev : string;
  plan_dev : string;
  niter : nat;
  init_dict : option InitDict
}.

Local Abbreviation St := (VariationalTransferEmpowerment * World)%type.

Definition set_transition (x : MLPNetwork) (s : VariationalTransferEmpowerment) :=
  mkTransfer x (source s) (planning s) (transition_optimizer s) (planning_optimizer s)
          (source_optimizer s) (trans_dev s) (source_dev s) (plan_dev s) (niter s) (init_dict s).
Definition set_source (x : list MLPNetwork) (s : VariationalTransferEmpowerment) :=
  mkTransfer (transition s) x (planning s) (transition_optimizer s) (planning_optimizer s)
          (source_optimizer s) (trans_dev s) (source_dev s) (plan_dev s) (niter s) (init_dict s).
Definition set_planning (x : list MLPNetwork) (s : VariationalTransferEmpowerment) :=
  mkTransfer (transition s) (source s) x (transition_optimizer s) (planning_optimizer s)
          (source_optimizer s) (trans_dev s) (source_dev s) (plan_dev s) (niter s) (init_dict s).
Definition set_transition_optimizer (x : Adam) (s : VariationalTransferEmpowerment) :=
  mkTransfer (transition s) (source s) (planning s) x (planning_optimizer s)
          (source_optimizer s) (trans_dev s) (source_dev s) (plan_dev s) (niter s) (init_dict s).
Definition set_planning_optimizer (x : Adam) (s : VariationalTransferEmpowerment) :=
  mkTransfer (transition s) (source s) (planning s) (transition_optimizer s) x
          (source_optimizer s) (trans_dev s) (source_dev s) (plan_dev s) (niter s) (init_dict s).
Definition set_source_optimizer (x : Adam) (s : VariationalTransferEmpowerment) :=
  mkTransfer (transition s) (source s) (planning s) (transition_optimizer s) (planning_optimizer s)
          x (trans_dev s) (source_dev s) (plan_dev s) (niter s) (init_dict s).
Definition set_trans_dev (x : string) (s : VariationalTransferEmpowerment) :=
  mkTransfer (transition s) (source s) (planning s) (transition_optimizer s) (planning_optimizer s)
          (source_optimizer s) x (source_dev s) (plan_dev s) (niter s) (init_dict s).
Definition set_source_dev (x : string) (s : VariationalTransferEmpowerment) :=
  mkTransfer (transition s) (source s) (planning s) (transition_optimizer s) (planning_optimizer s)
          (source_optimizer s) (trans_dev s) x (plan_dev s) (niter s) (init_dict s).
Definition set_plan_dev (x : string) (s : VariationalTransferEmpowerment) :=
  mkTransfer (transition s) (source s) (planning s) (transition_optimizer s) (planning_optimizer s)
          (source_optimizer s) (trans_dev s) (source_dev s) x (niter s) (init_dict s).
Definition set_niter (x : nat) (s : VariationalTransferEmpowerment) :=
  mkTransfer (transition s) (source s) (planning s) (transition_optimizer s) (planning_optimizer s)
          (source_optimizer s) (trans_dev s) (source_dev s) (plan_dev s) x (init_dict s).
Definition set_init_dict (x : InitDict) (s : VariationalTransferEmpowerment) :=
  mkTransfer (transition s) (source s) (planning s) (transition_optimizer s) (planning_optimizer s)
          (source_optimizer s) (trans_dev s) (source_dev s) (plan_dev s) (niter s) (Some x).

(** [__init__(self, init_params, num_in_trans, num_out_trans, lr=0.01,
    hidden_dim=64, recurrent=False, convolutional=False)] *)
Definition init (init_params : list agent_params) (num_in_trans num_out_trans : nat)
    (lr : scalar) (hidden_dim : nat) (recurrent convolutional : bool)
  : M World VariationalTransferEmpowerment :=
  transition <- MLPNetwork_new num_in_trans num_out_trans ;;
  source <- mapM (fun p => MLPNetwork_new (num_in_src p) (num_out_src p)) init_params ;;
  planning <- mapM (fun p => MLPNetwork_new (num_in_plan p) (num_out_plan p)) init_params ;;
  transition_optimizer <- lift (Adam_new (parameters transition) lr) ;;
  let params_planning := concat (map parameters planning) in
  planning_optimizer <- lift (Adam_new params_planning lr) ;;
  let params_source := concat (map parameters source) in
  source_optimizer <- lift (Adam_new params_source lr) ;;
  ret (mkTransfer transition source planning
         transition_optimizer planning_optimizer source_optimizer
         "cpu" "cpu" "cpu" 0 None).

(** The sampling pass over [zip(next_obs, self.source)]
    (lines 218-220 and 263-265). *)
Fixpoint source_loop (zipped : list (tensor * MLPNetwork))
  : M St (list tensor * list tensor) :=
  match zipped with
  | [] => ret ([], [])
  | (no, source) :: rest =>
      self <- get_self ;;
      logits <- in_world (forward source no) ;;
      a <- in_world (gumbel_softmax logits (source_dev self) true) ;;
      logits <- in_world (forward source no) ;;
      p <- in_world (gumbel_softmax logits (source_dev self) false) ;;
      r <- source_loop rest ;;
      ret (a :: fst r, p :: snd r)
  end.

(** The planning pass of [compute] (lines 225-230): [start] is set to 0
    before the loop and is not advanced in its body. *)
Fixpoint compute_plan_loop (trans_out : tensor) (start : nat)
    (zipped : list (tensor * MLPNetwork)) : M St (list tensor) :=
  match zipped with
  | [] => ret []
  | (no, planning) :: rest =>
      let len := width no in
      let nno := slice_cols start (start + len) trans_out in
      plan_in <- lift (cat1 [no; nno]) ;;
      self <- get_self ;;
      logits <- in_world (forward planning plan_in) ;;
      p <- in_world (gumbel_softmax logits (plan_dev self) false) ;;
      ps <- compute_plan_loop trans_out start rest ;;
      ret (p :: ps)
  end.

(** The planning pass of [update] (lines 270-276): [start += length] at the
    end of the body. *)
Fixpoint update_plan_loop (trans_out : tensor) (start : nat)
    (zipped : list (tensor * MLPNetwork)) : M St (list tensor) :=
  match zipped with
  | [] => ret []
  | (no, planning) :: rest =>
      let len := width no in
      let nno := slice_cols start (start + len) trans_out in
      plan_in <- lift (cat1 [no; nno]) ;;
      self <- get_self ;;
      logits <- in_world (forward planning plan_in) ;;
      p <- in_world (gumbel_softmax logits (plan_dev self) false) ;;
      ps <- update_plan_loop trans_out (start + len) rest ;;
      ret (p :: ps)
  end.

(** [compute(self, rewards, next_obs)] *)
Definition compute (rewards : ndarray) (next_obs : list (list (list scalar)))
  : M St ndarray :=
  agents <- lift (shape_at rewards 1) ;;
  next_obs <- mapM (fun i => col <- lift (column i next_obs) ;; lift (vstack col))
                   (seq 0 agents) ;;
  self <- get_self ;;
  src <- source_loop (zip next_obs (source self)) ;;
  let (acs_src, prob_src) := src in
  trans_in <- lift (cat1 (next_obs ++ acs_src)) ;;
  trans_out <- in_world (forward (transition self) trans_in) ;;
  prob_plan <- compute_plan_loop trans_out 0 (zip next_obs (planning self)) ;;
  prob_plan <- lift (cat1 prob_plan) ;;
  prob_src <- lift (cat1 prob_src) ;;
  acs_src <- lift (cat1 acs_src) ;;
  a <- lift (ewise smul acs_src prob_plan) ;;
  b <- lift (ewise smul acs_src prob_src) ;;
  E <- lift (ewise ssub a b) ;;
  ret (numpy (scale (mean E) (ones 1 agents))).

(** Step 1 of [update] (lines 242-247): the transition model. *)
Definition update_transition (obs acs next_obs : list tensor) : M St scalar :=
  self <- get_self ;;
  in_world (modify_heap (zero_grad (transition_optimizer self))) ;;
  noise <- get_rng ;;
  trans_in <- lift (cat1 (obs ++ acs)) ;;
  next_obs_pred <- in_world (forward (transition self) trans_in) ;;
  target <- lift (cat1 next_obs) ;;
  trans_loss <- lift (MSELoss next_obs_pred target) ;;
  in_world (modify_heap (backward "trans_loss" (parameters (transition self))
                                  (obs ++ acs ++ next_obs) noise)) ;;
  optimizer_step transition_optimizer set_transition_optimizer ;;
  ret trans_loss.

(** The loop of step 2 (lines 251-253) over [zip(obs, next_obs, self.planning)]. *)
Fixpoint acs_plan_loop (zipped : list (tensor * (tensor * MLPNetwork)))
  : M St (list tensor) :=
  match zipped with
  | [] => ret []
  | (o, (no, planning)) :: rest =>
      plan_in <- lift (cat1 [o; no]) ;;
      self <- get_self ;;
      logits <- in_world (forward planning plan_in) ;;
      a <- in_world (gumbel_softmax logits (plan_dev self) true) ;;
      acs <- acs_plan_loop rest ;;
      ret (a :: acs)
  end.

(** Step 2 of [update] (lines 249-258): the planning networks. *)
Definition update_planning (obs acs next_obs : list tensor) : M St scalar :=
  self <- get_self ;;
  in_world (modify_heap (zero_grad (planning_optimizer self))) ;;
  noise <- get_rng ;;
  let zipped := zip obs (zip next_obs (planning self)) in
  acs_plan <- acs_plan_loop zipped ;;
  acs_plan <- lift (cat1 acs_plan) ;;
  acs_torch <- lift (cat1 acs) ;;
  plan_loss <- lift (MSELoss acs_plan acs_torch) ;;
  in_world (modify_heap (backward "plan_loss"
                                  (concat (map (fun z => parameters (snd (snd z))) zipped))
                                  (obs ++ acs ++ next_obs) noise)) ;;
  optimizer_step planning_optimizer set_planning_optimizer ;;
  ret plan_loss.

(** Step 3 of [update] (lines 260-284): the source objective. *)
Definition update_source (next_obs : list tensor) : M St scalar :=
  self <- get_self ;;
  in_world (modify_heap (zero_grad (source_optimizer self))) ;;
  noise <- get_rng ;;
  src <- source_loop (zip next_obs (source self)) ;;
  let (acs_src, prob_src) := src in
  trans_in <- lift (cat1 (next_obs ++ acs_src)) ;;
  trans_out <- in_world (forward (transition self) trans_in) ;;
  prob_plan <- update_plan_loop trans_out 0 (zip next_obs (planning self)) ;;
  prob_plan <- lift (cat1 prob_plan) ;;
  prob_src <- lift (cat1 prob_src) ;;
  acs_src <- lift (cat1 acs_src) ;;
  a <- lift (ewise smul acs_src prob_plan) ;;
  b <- lift (ewise smul acs_src prob_src) ;;
  E <- lift (ewise ssub a b) ;;
  let i_rews := sneg (mean E) in
  in_world (modify_heap (backward "i_rews"
              (concat (map (fun z => parameters (snd z)) (zip next_obs (source self)))
               ++ concat (map (fun z => parameters (snd z)) (zip next_obs (planning self))))
              next_obs noise)) ;;
  optimizer_step source_optimizer set_source_optimizer ;;
  ret i_rews.

(** [update(self, sample, logger=None)] *)
Definition update (sample : Sample) (logger : option nat) : M St unit :=
  let '(obs, acs, rews, emps, next_obs, dones) := sample in
  trans_loss <- update_transition obs acs next_obs ;;
  plan_loss <- update_planning obs acs next_obs ;;
  i_rews <- update_source next_obs ;;
  match logger with
  | Some lg =>
      self <- get_self ;;
      in_world (add_scalars lg "empowerment/losses"
                  [("trans_loss", trans_loss); ("plan_loss", plan_loss); ("i_rews", i_rews)]
                  (niter self))
  | None => ret tt
  end ;;
  modify_self (fun self => set_niter (niter self + 1) self).

(** [fn = lambda x: x.cuda()] or [lambda x: x.cpu()] *)
Definition fn (device : string) : MLPNetwork -> M World MLPNetwork :=
  if bool_decide (device = "gpu") then cuda else cpu.

(** [prep_training(self, device='gpu')] (lines 294-312): the per-agent
    networks are put in training mode inside the device branches. *)
Definition prep_training (device : string) : M St unit :=
  modify_self (fun self => set_transition (train (transition self)) self) ;;
  self <- get_self ;;
  (if negb (bool_decide (trans_dev self = device)) then
     x <- in_world (fn device (transition self)) ;;
     modify_self (set_transition x) ;;
     modify_self (set_trans_dev device)
   else ret tt) ;;
  self <- get_self ;;
  (if negb (bool_decide (source_dev self = device)) then
     xs <- in_world (mapM (fun source => x <- fn device source ;; ret (train x))
                          (source self)) ;;
     modify_self (set_source xs) ;;
     modify_self (set_source_dev device)
   else ret tt) ;;
  self <- get_self ;;
  (if negb (bool_decide (plan_dev self = device)) then
     xs <- in_world (mapM (fun planning => x <- fn device planning ;; ret (train x))
                          (planning self)) ;;
     modify_self (set_planning xs) ;;
     modify_self (set_plan_dev device)
   else ret tt).

(** [prep_rollouts(self, device='cpu')] (lines 314-336) *)
Definition prep_rollouts (device : string) : M St unit :=
  modify_self (fun self => set_transition (eval (transition self)) self) ;;
  self <- get_self ;;
  (if negb (bool_decide (trans_dev self = device)) then
     x <- in_world (fn device (transition self)) ;;
     modify_self (set_transition x) ;;
     modify_self (set_trans_dev device)
   else ret tt) ;;
  modify_self (fun self => set_transition (eval (transition self)) self) ;;
  self <- get_self ;;
  (if negb (bool_decide (source_dev self = device)) then
     xs <- in_world (mapM (fn device) (source self)) ;;
     modify_self (set_source xs) ;;
     modify_self (set_source_dev device)
   else ret tt) ;;
  modify_self (fun self => set_source (map eval (source self)) self) ;;
  self <- get_self ;;
  (if negb (bool_decide (plan_dev self = device)) then
     xs <- in_world (mapM (fn device) (planning self)) ;;
     modify_self (set_planning xs) ;;
     modify_self (set_plan_dev device)
   else ret tt) ;;
  modify_self (fun self => set_planning (map eval (planning self)) self).

(** The sizing loop of [init_from_env] (lines 346-360): one iteration on
    [(init_params, num_in_transition, num_out_transition)]. *)
Definition sizing_step (v : list agent_params * nat * nat)
    (sp : gym.Discrete * gym.Box) : list agent_params * nat * nat :=
  let '(init_params, num_in_transition, num_out_transition) := v in
  let (acsp, obsp) := sp in
  let num_in_source := fst (gym.shape obsp) in
  let num_out_source := gym.n acsp in
  let num_in_planning := 2 * fst (gym.shape obsp) in
  let num_out_planning := gym.n acsp in
  (init_params ++ [{| num_in_src := num_in_source;
                      num_in_plan := num_in_planning;
                      num_out_src := num_out_source;
                      num_out_plan := num_out_planning |}],
   num_in_transition + (fst (gym.shape obsp) + gym.n acsp),
   num_out_transition + fst (gym.shape obsp)).

Definition sizing (env : gym.Env) : list agent_params * nat * nat :=
  fold_left sizing_step
            (zip (gym.action_space env) (gym.observation_space env))
            ([], 0, 0).

(** The constructor called with the entries of a stored [init_dict] as its
    keyword arguments. *)
Definition from_init_dict (d : InitDict) : M World VariationalTransferEmpowerment :=
  init (init_params d) (num_in_trans d) (num_out_trans d) (lr d) (hidden_dim d)
       (recurrent d) (convolutional d).

(** [init_from_env(cls, env, lr=0.01, hidden_dim=64, recurrent=False,
    convolutional=False)] *)
Definition init_from_env (env : gym.Env) (lr : scalar) (hidden_dim : nat)
    (recurrent convolutional : bool) : M World VariationalTransferEmpowerment :=
  let '(params, num_in_transition, num_out_transition) := sizing env in
  let init_dict := mkInitDict lr hidden_dim params num_in_transition
                              num_out_transition recurrent convolutional in
  instance <- from_init_dict init_dict ;;
  ret (set_init_dict init_dict instance).

(** The dimensionalities of the transition approximator and of the
    per-agent source and planning approximators. *)
Definition architecture (self : VariationalTransferEmpowerment)
  : (nat * nat) * list (nat * nat) * list (nat * nat) :=
  (dims (transition self), map dims (source self), map dims (planning self)).

(** A training loop: [update] on each batch in turn, with one logger. *)
Fixpoint updates (samples : list Sample) (logger : option nat) : M St unit :=
  match samples with
  | [] => ret tt
  | sample :: rest => update sample logger ;; updates rest logger
  end.

End Estimator.
End Transfer.

(** * The plotting utility: a shallow embedding

    Source: [plot_training_curve.py].  [load_data] is embedded from the
    dictionary that [json.load] returns on; [plot_data] as a state
    transformer on the calls made to the axes object. *)

(** The numbers of the arrays, the row statistics of [numpy] and the colours
    are kept abstract. *)
Class Numpy : Type := {
  (** the elements of the arrays *)
  num : Type;
  (** the numbers of a JSON document *)
  json_number : Type;
  (** the element of [np.array(value)] that holds a given number of
      [value]: the array has one element type, chosen from all the numbers
      of [value], and every number is stored converted to it *)
  np_element : list (list json_number) -> json_number -> num;
  (** [np.mean] and [np.std] of one row *)
  np_mean : list num -> num;
  np_std : list num -> num;
  np_add : num -> num -> num;
  np_sub : num -> num -> num;
  (** the literal [0.2] *)
  alpha_0_2 : num;
  (** a row of the table [colors] *)
  rgb : Type;
  (** what [np.array] raises on rows of unequal lengths: recent versions
      refuse to build the array, older ones build a one-dimensional array of
      objects on which the indexing that follows fails *)
  ragged : exn
}.

Module PlotTrainingCurve.
Import Stdlib.Strings.Ascii.

(** The separator of the logged keys. *)
Definition slash : ascii := "/"%char.

Section Functions.
Context `{N : Numpy}.

(** [s.split(sep)] for a one-character separator: the pieces between the
    separators, in order; there is always at least one piece. *)
Fixpoint split (sep : Ascii.ascii) (s : string) : list string :=
  match s with
  | EmptyString => [EmptyString]
  | String c s' =>
      if Ascii.eqb c sep then EmptyString :: split sep s'
      else match split sep s' with
           | [] => [String c EmptyString]
           | piece :: rest => String c piece :: rest
           end
  end.

(** [l[-1]] *)
Definition last_item {A : Type} (l : list A) : result A :=
  match last l with
  | Some x => Return x
  | None => Raise IndexError
  end.

(** [d[:, 2]] on a two-dimensional array given by its rows *)
Fixpoint column_2 (rows : list (list num)) : result (list num) :=
  match rows with
  | [] => Return []
  | r :: rest =>
      match r !! 2 with
      | None => Raise IndexError
      | Some v =>
          match column_2 rest with
          | Return vs => Return (v :: vs)
          | Raise e => Raise e
          end
      end
  end.

(** [cast(value)[:, 2]] for a JSON array of arrays of numbers.  An empty
    outer array gives a one-dimensional array, which has no second axis. *)
Definition cast_column_2 (value : list (list json_number)) : result (list num) :=
  match value with
  | [] => Raise IndexError
  | row :: rest =>
      if forallb (fun r => length r =? length row) rest
      then column_2 (map (map (np_element value)) value)
      else Raise ragged
  end.

(** [load_data(file_path, name, agent_num=0)] from the dictionary that
    [json.load] returned, given by its items in order: the loop of lines
    19-22, and [None] when it ends without a match. *)
Fixpoint load_data (data : list (string * list (list json_number))) (name : string)
    (agent_num : nat) : result (option (list num)) :=
  match data with
  | [] => Return None
  | (key, value) :: rest =>
      match last_item (split slash key) with
      | Raise e => Raise e
      | Return segment =>
          if bool_decide (segment = name) then
            match cast_column_2 value with
            | Return d => Return (Some d)
            | Raise e => Raise e
            end
          else load_data rest name agent_num
      end
  end.

(** Calls on an axes object. *)
Inductive call : Type :=
  | plot (x : list nat) (y : list num) (color : rgb) (label : string)
  | fill_between (x : list nat) (y1 y2 : list num) (color : rgb) (alpha : num)
  | grid (b : string)
  | set_xlabel (xlabel : string).

(** The rows of [y.reshape(-1, 50)] when there are [k] of them. *)
Fixpoint rows_of_50 (k : nat) (y : list num) : list (list num) :=
  match k with
  | 0 => []
  | S k' => take 50 y :: rows_of_50 k' (drop 50 y)
  end.

(** [y.reshape(-1, 50)] on a one-dimensional array *)
Definition reshape_50 (y : list num) : result (list (list num)) :=
  if length y mod 50 =? 0 then Return (rows_of_50 (length y / 50) y)
  else Raise ValueError.

(** [plot_data(y, alg_name, color, ax)]; the state is the list of calls
    made on [ax]. *)
Definition plot_data (y : list num) (alg_name : string) (color : rgb)
  : M (list call) unit :=
  (rows <- lift (reshape_50 y) ;;
   let mean := map np_mean rows in
   rows <- lift (reshape_50 y) ;;
   let std := map np_std rows in
   modify (fun ax => ax ++ [plot (seq 0 (length mean)) mean color alg_name]) ;;
   modify (fun ax => ax ++ [fill_between (seq 0 (length mean))
                              (zip_with np_sub mean std) (zip_with np_add mean std)
                              color alpha_0_2]) ;;
   modify (fun ax => ax ++ [grid "on"]) ;;
   modify (fun ax => ax ++ [set_xlabel "TrainSteps"]))%monad.

End Functions.
End PlotTrainingCurve.

(** ** Vocabulary of the properties *)

Section Vocabulary.
Context `{T : Torch}.

(** A relation between the state before and after a computation, whatever
    its outcome. *)
Definition preserves {S A : Type} (R : S -> S -> Prop) (c : M S A) : Prop :=
  forall s, R s (snd (c s)).

(** Two states agree on an observation. *)
Definition on {E X : Type} (f : E -> X) : relation E := fun e e' => f e' = f e.

(** A relation on the estimator object and one on the world. *)
Definition both {E : Type} (RE : relation E) (RW : relation World)
  : relation (E * World) :=
  fun s s' => RE (fst s) (fst s') /\ RW (snd s) (snd s').

(** Parameter memory is untouched. *)
Definition same_heap : relation World := on heap.

(** Parameter memory is untouched outside the addresses [A]. *)
Definition frame_outside (A : list nat) : relation World :=
  fun w w' =>
    length (heap w') = length (heap w) /\
    forall a, a ∉ A -> heap w' !! a = heap w !! a.

(** Under the condition that the observation [f] of the object is [k]: the
    observation stays [k] and the worlds are related. *)
Definition guarded_on {E X : Type} (f : E -> X) (k : X) (RW : relation World)
  : relation (E * World) :=
  fun s s' => f (fst s) = k -> f (fst s') = k /\ RW (snd s) (snd s').

(** The parameters of the joint estimator's approximators and optimizers. *)
Definition joint_wiring (self : Joint.VariationalJointEmpowerment)
  : list (list nat) :=
  [parameters (Joint.transition self);
   parameters (Joint.source self);
   parameters (Joint.planning self);
   param_groups (Joint.transition_optimizer self);
   param_groups (Joint.planning_optimizer self);
   param_groups (Joint.source_optimizer self)].

(** The wiring the constructor sets up: the transition and planning
    optimizers hold the parameters of their approximator, the source
    optimizer those of the source and of the planning approximator, and the
    three approximators share no parameter. *)
Definition joint_wired (self : Joint.VariationalJointEmpowerment) : Prop :=
  param_groups (Joint.transition_optimizer self) = parameters (Joint.transition self) /\
  param_groups (Joint.planning_optimizer self) = parameters (Joint.planning self) /\
  param_groups (Joint.source_optimizer self) =
    parameters (Joint.source self) ++ parameters (Joint.planning self) /\
  NoDup (parameters (Joint.transition self) ++ parameters (Joint.source self)
         ++ parameters (Joint.planning self)).

(** The joint estimator is sized for [n] agents of observation width [wd]
    with [a] actions each, as the factory sizes it for such an environment. *)
Definition joint_sized (self : Joint.VariationalJointEmpowerment) (n wd a : nat) : Prop :=
  dims (Joint.transition self) = (n * (wd + a), n * wd) /\
  dims (Joint.source self) = (wd, a) /\
  dims (Joint.planning self) = (2 * wd, a).

(** The transfer estimator is sized for agents of the given observation
    widths and action cardinalities, as the factory sizes it. *)
Definition transfer_sized (self : Transfer.VariationalTransferEmpowerment)
    (agents : list (nat * nat)) : Prop :=
  dims (Transfer.transition self) =
    (sum_list (map (fun wa => fst wa + snd wa) agents), sum_list (map fst agents)) /\
  map dims (Transfer.source self) = agents /\
  map dims (Transfer.planning self) = map (fun wa => (2 * fst wa, snd wa)) agents.

(** The calls the sampling pass makes: the source approximator twice on
    each agent's next observation. *)
Definition source_calls (nets_nos : list (MLPNetwork * tensor)) : list event :=
  flat_map (fun z => [Forward (fst z) (snd z); Forward (fst z) (snd z)]) nets_nos.

(** The block of the transition output the joint variant pairs with agent
    [i], and the segment that is agent [i]'s own when the agents' segments
    of widths [ws] lie side by side: each a pair (first column, end). *)
Definition uniform_block (n_obs i : nat) : nat * nat := (i * n_obs, (i + 1) * n_obs).

Definition cumulative_block (ws : list nat) (i : nat) : nat * nat :=
  (sum_list (take i ws), sum_list (take i ws) + default 0 (ws !! i)).

(** The planning call for one agent: its next observation joined with the
    columns [block] of the transition output. *)
Definition planning_call (net : MLPNetwork) (no trans_out : tensor)
    (block : nat * nat) : event :=
  Forward net (zip_with app no (slice_cols (fst block) (snd block) trans_out)).

#[global] Instance MLPNetwork_eq_dec : EqDecision MLPNetwork.
Proof. solve_decision. Defined.

(** The inputs of the calls made to the approximators [nets], in order. *)
Definition inputs_to (nets : list MLPNetwork) (tr : list event) : list tensor :=
  omap (fun e => match e with
                 | Forward net x => if bool_decide (net ∈ nets) then Some x else None
                 | _ => None
                 end) tr.

(** The device transfer [fn] performs for a requested device. *)
Definition transfer_event (device : string) (net : MLPNetwork) : event :=
  if bool_decide (device = "gpu") then ToCuda net else ToCpu net.

(** An approximator after that transfer. *)
Definition moved (device : string) (net : MLPNetwork) : MLPNetwork :=
  mkMLP (input_dim net) (out_dim net) (parameters net) (training net)
        (if bool_decide (device = "gpu") then "cuda" else "cpu").

Definition is_log (e : event) : bool :=
  match e with
  | AddScalars _ _ _ _ => true
  | _ => false
  end.

Definition not_log (e : event) : bool := negb (is_log e).

Definition is_transfer (e : event) : bool :=
  match e with
  | ToCuda _ | ToCpu _ => true
  | _ => false
  end.

(** The trace grows by events that satisfy [ok] only. *)
Definition grows_by (ok : event -> bool) : relation World :=
  fun w w' => exists evs, trace w' = trace w ++ evs /\ forallb ok evs = true.

(** The step indices passed to the logger, in order. *)
Definition logged_steps (tr : list event) : list nat :=
  omap (fun e => match e with
                 | AddScalars _ _ _ k => Some k
                 | _ => None
                 end) tr.

(** A tensor of [r] rows and [c] columns. *)
Definition has_shape (r c : nat) (t : tensor) : Prop :=
  length t = r /\ Forall (fun row => length row = c) t.

(** The input of [compute]: [B] rows, one observation vector per agent in
    each, the vector of agent [i] of width [ws !! i]. *)
Definition batch_of (B : nat) (ws : list nat) (next_obs : list (list (list scalar)))
  : Prop :=
  length next_obs = B /\
  Forall (fun row => Forall2 (fun v wd => length v = wd) row ws) next_obs.

(** What one call of [update] with a logger does to the trace and to the
    counter, on both outcomes.  [step1], [step2] and [step3] are the three
    steps of the call, each returning its loss.  A call that returns has run
    the three steps one after the other and has then made one call to the
    logger, with the three losses these steps returned and the value of the
    counter before the call; the steps themselves have not called the
    logger.  A call that raises has not called the logger. *)
Definition logged_once {E : Type} (niter : E -> nat)
    (step1 step2 step3 : M (E * World) scalar) (lg : nat)
    (st : E * World) (out : result unit * (E * World)) : Prop :=
  match out with
  | (Return _, st') =>
      exists trans_loss plan_loss i_rews s1 s2 s3 evs,
        step1 st = (Return trans_loss, s1) /\
        step2 s1 = (Return plan_loss, s2) /\
        step3 s2 = (Return i_rews, s3) /\
        trace (snd s3) = trace (snd st) ++ evs /\
        forallb not_log evs = true /\
        trace (snd st') =
          trace (snd s3) ++
          [AddScalars lg "empowerment/losses"
             [("trans_loss", trans_loss); ("plan_loss", plan_loss); ("i_rews", i_rews)]
             (niter (fst st))] /\
        niter (fst st') = niter (fst st) + 1
  | (Raise _, st') =>
      exists evs,
        trace (snd st') = trace (snd st) ++ evs /\
        forallb not_log evs = true /\
        niter (fst st') = niter (fst st)
  end.

(** What a training loop with a logger does: the logged step indices are
    consecutive from the counter's value before the loop up to its value
    after it, and a loop that returns has advanced the counter by the number
    of batches. *)
Definition logged_in_order {E : Type} (niter : E -> nat) (samples : list Sample)
    (st : E * World) (out : result unit * (E * World)) : Prop :=
  exists evs,
    trace (snd (snd out)) = trace (snd st) ++ evs /\
    logged_steps evs =
      seq (niter (fst st)) (niter (fst (snd out)) - niter (fst st)) /\
    niter (fst st) <= niter (fst (snd out)) /\
    (fst out = Return tt -> niter (fst (snd out)) = niter (fst st) + length samples).

(** A sample the relaxed one-hot sampler returns for the logits, on some
    random state. *)
Definition drawn (logits : tensor) (device : string) (hard : bool) (y : tensor) : Prop :=
  exists g,
    y = imap (fun r row => imap (fun c _ => gumbel_fn logits device hard g r c) row) logits.

(** [np.vstack(next_obs[:, i])] for the agents [i < n]. *)
Definition stacked (n : nat) (next_obs : list (list (list scalar))) (nos : list tensor)
  : Prop :=
  Forall2 (fun i no => exists col, column i next_obs = Return col /\ vstack col = Return no)
          (seq 0 n) nos.

(** [E = acs_src * prob_plan - acs_src * prob_src], for the per-agent
    samples joined along dimension 1 (lines 64-67 and 231-234). *)
Definition E_of (acs probs plans : list tensor) (E : tensor) : Prop :=
  exists prob_plan prob_src acs_src a b,
    cat1 plans = Return prob_plan /\
    cat1 probs = Return prob_src /\
    cat1 acs = Return acs_src /\
    ewise smul acs_src prob_plan = Return a /\
    ewise smul acs_src prob_src = Return b /\
    ewise ssub a b = Return E.

(** The samples [compute] of the joint variant draws for the stacked
    observations [nos] with the parameters [h]: per agent a hard and a soft
    sample of the source approximator's output on the agent's observation,
    and a soft sample of the planning approximator's output on the
    observation joined with the agent's block of the transition output. *)
Definition joint_samples (self : Joint.VariationalJointEmpowerment) (h : list cell)
    (nos acs probs plans : list tensor) : Prop :=
  Forall2 (fun no y => drawn (forward_value (Joint.source self) h no)
                             (Joint.source_dev self) true y) nos acs /\
  Forall2 (fun no y => drawn (forward_value (Joint.source self) h no)
                             (Joint.source_dev self) false y) nos probs /\
  exists trans_in n_obs,
    cat1 (nos ++ acs) = Return trans_in /\
    len_0_0 nos = Return n_obs /\
    Forall2 (fun ino y =>
               drawn (forward_value (Joint.planning self) h
                        (zip_with app (snd ino)
                           (slice_cols (fst ino * n_obs) ((fst ino + 1) * n_obs)
                              (forward_value (Joint.transition self) h trans_in))))
                     (Joint.plan_dev self) false y)
            (imap pair nos) plans.

(** The same for the transfer variant, over [zip(next_obs, self.source)]
    and [zip(next_obs, self.planning)]; every agent's observation is joined
    with the columns of the transition output from 0 on. *)
Definition transfer_samples (self : Transfer.VariationalTransferEmpowerment)
    (h : list cell) (nos acs probs plans : list tensor) : Prop :=
  Forall2 (fun z y => drawn (forward_value (snd z) h (fst z))
                            (Transfer.source_dev self) true y)
          (zip nos (Transfer.source self)) acs /\
  Forall2 (fun z y => drawn (forward_value (snd z) h (fst z))
                            (Transfer.source_dev self) false y)
          (zip nos (Transfer.source self)) probs /\
  exists trans_in,
    cat1 (nos ++ acs) = Return trans_in /\
    Forall2 (fun z y =>
               drawn (forward_value (snd z) h
                        (zip_with app (fst z)
                           (slice_cols 0 (0 + width (fst z))
                              (forward_value (Transfer.transition self) h trans_in))))
                     (Transfer.plan_dev self) false y)
            (zip nos (Transfer.planning self)) plans.

(** [E] as [compute] forms it for [n] agents from the input [next_obs]. *)
Definition joint_E (self : Joint.VariationalJointEmpowerment) (h : list cell) (n : nat)
    (next_obs : list (list (list scalar))) (E : tensor) : Prop :=
  exists nos acs probs plans,
    stacked n next_obs nos /\
    joint_samples self h nos acs probs plans /\
    E_of acs probs plans E.

Definition transfer_E (self : Transfer.VariationalTransferEmpowerment) (h : list cell)
    (n : nat) (next_obs : list (list (list scalar))) (E : tensor) : Prop :=
  exists nos acs probs plans,
    stacked n next_obs nos /\
    transfer_samples self h nos acs probs plans /\
    E_of acs probs plans E.

End Vocabulary.
(** ** Further vocabulary: device transfers, parameter values, wiring of the
    transfer estimator, training batches *)

Section VocabularyMore.
Context `{T : Torch}.

Definition is_to_cpu (e : event) : bool :=
  match e with
  | ToCpu _ => true
  | _ => false
  end.

Definition is_to_cuda (e : event) : bool :=
  match e with
  | ToCuda _ => true
  | _ => false
  end.

(** Parameter values are untouched outside the addresses [A]; gradient
    slots may change anywhere. *)
Definition values_outside (A : list nat) : relation World :=
  fun w w' =>
    length (heap w') = length (heap w) /\
    forall a, a ∉ A -> value <$> heap w' !! a = value <$> heap w !! a.

(** The parameters of all approximators of a list. *)
Definition parameters_of (nets : list MLPNetwork) : list nat :=
  concat (map parameters nets).

(** The parameters of the transfer estimator's approximators and
    optimizers. *)
Definition transfer_wiring (self : Transfer.VariationalTransferEmpowerment)
  : list (list nat) :=
  [parameters (Transfer.transition self);
   parameters_of (Transfer.source self);
   parameters_of (Transfer.planning self);
   param_groups (Transfer.transition_optimizer self);
   param_groups (Transfer.planning_optimizer self);
   param_groups (Transfer.source_optimizer self)].

(** The wiring the transfer constructor sets up: each optimizer holds the
    parameters of its own group of approximators, and no parameter belongs
    to two approximators. *)
Definition transfer_wired (self : Transfer.VariationalTransferEmpowerment) : Prop :=
  param_groups (Transfer.transition_optimizer self) = parameters (Transfer.transition self) /\
  param_groups (Transfer.planning_optimizer self) = parameters_of (Transfer.planning self) /\
  param_groups (Transfer.source_optimizer self) = parameters_of (Transfer.source self) /\
  NoDup (parameters (Transfer.transition self) ++ parameters_of (Transfer.source self)
         ++ parameters_of (Transfer.planning self)).

(** What [update] never changes in the joint estimator object: the
    approximators with their modes and devices, the device tags, the stored
    [init_dict], and the parameters and learning rate of each optimizer. *)
Definition joint_fixed (self : Joint.VariationalJointEmpowerment) :=
  (Joint.transition self, Joint.source self, Joint.planning self,
   (Joint.trans_dev self, Joint.source_dev self, Joint.plan_dev self),
   Joint.init_dict self,
   (param_groups (Joint.transition_optimizer self), rate (Joint.transition_optimizer self)),
   (param_groups (Joint.planning_optimizer self), rate (Joint.planning_optimizer self)),
   (param_groups (Joint.source_optimizer self), rate (Joint.source_optimizer self))).

Definition transfer_fixed (self : Transfer.VariationalTransferEmpowerment) :=
  (Transfer.transition self, Transfer.source self, Transfer.planning self,
   (Transfer.trans_dev self, Transfer.source_dev self, Transfer.plan_dev self),
   Transfer.init_dict self,
   (param_groups (Transfer.transition_optimizer self),
    rate (Transfer.transition_optimizer self)),
   (param_groups (Transfer.planning_optimizer self),
    rate (Transfer.planning_optimizer self)),
   (param_groups (Transfer.source_optimizer self),
    rate (Transfer.source_optimizer self))).

(** A training batch of [B] transitions for agents of the given observation
    widths and action cardinalities: per agent an observation, an action
    and a next-observation tensor of [B] rows. *)
Definition sample_of (B : nat) (agents : list (nat * nat)) (sample : Sample) : Prop :=
  let '(obs, acs, rews, emps, next_obs, dones) := sample in
  Forall2 (has_shape B) (map fst agents) obs /\
  Forall2 (has_shape B) (map snd agents) acs /\
  Forall2 (has_shape B) (map fst agents) next_obs.

End VocabularyMore.

(** Vocabulary for the plotting utility. *)

(** The character occurs in the string. *)
Fixpoint occurs (c : Ascii.ascii) (s : string) : bool :=
  match s with
  | EmptyString => false
  | String c' s' => Ascii.eqb c' c || occurs c s'
  end.

(** [sep.join(pieces)] *)
Fixpoint join (sep : Ascii.ascii) (pieces : list string) : string :=
  match pieces with
  | [] => EmptyString
  | [piece] => piece
  | piece :: rest => String.append piece (String sep (join sep rest))
  end.

(** The key is the name, or ends with a slash followed by the name. *)
Definition ends_with_segment (key name : string) : Prop :=
  key = name \/ exists dir, key = String.append dir (String PlotTrainingCurve.slash name).

(** A key of the logged dictionary is one [load_data] selects for [name]. *)
Definition selects (name key : string) : Prop :=
  PlotTrainingCurve.last_item (PlotTrainingCurve.split PlotTrainingCurve.slash key)
    = Return name.

Definition not_transfer `{T : Torch} (e : event) : bool := negb (is_transfer e).

(** All approximators of the joint estimator are in the given mode, and the
    three tags name the given device. *)
Definition joint_settled `{T : Torch} (mode : bool) (device : string)
    (self : Joint.VariationalJointEmpowerment) : Prop :=
  Joint.trans_dev self = device /\ Joint.source_dev self = device /\
  Joint.plan_dev self = device /\
  training (Joint.transition self) = mode /\
  training (Joint.source self) = mode /\
  training (Joint.planning self) = mode.

Definition transfer_settled `{T : Torch} (mode : bool) (device : string)
    (self : Transfer.VariationalTransferEmpowerment) : Prop :=
  Transfer.trans_dev self = device /\ Transfer.source_dev self = device /\
  Transfer.plan_dev self = device /\
  training (Transfer.transition self) = mode /\
  Forall (fun net => training net = mode) (Transfer.source self) /\
  Forall (fun net => training net = mode) (Transfer.planning self).


(** ** A stub backend

    Rational scalars, approximators whose output entry is its column index,
    a sampler that returns its logits and counts its calls, unit gradients
    and plain gradient descent.  It serves to run the model on concrete
    inputs. *)

Module Stub.

Definition qmean (l : list Q) : Q :=
  Qred (fold_right Qplus 0%Q l / inject_Z (Z.of_nat (length l))).

Definition entry (t : list (list Q)) (r c : nat) : Q :=
  default 0%Q (t !! r ≫= (.!! c)).

#[export] Instance torch : Torch := {|
  scalar := Q;
  sone := 1%Q;
  smul := fun a b => Qred (a * b);
  ssub := fun a b => Qred (a - b);
  sneg := fun a => Qred (- a);
  smean := qmean;
  lr_default := (1 # 100)%Q;
  param := Q;
  padd := fun a b => Qred (a + b);
  zero_of := fun _ => None;
  rng := nat;
  mlp_fn := fun _ _ _ _ _ _ c => inject_Z (Z.of_nat c);
  mlp_init := fun _ _ g => ([1%Q; 0%Q], S g);
  mlp_init_nonempty := fun _ _ _ => ltac:(discriminate);
  cat_empty := ValueError;
  gumbel_fn := fun logits _ _ _ r c => entry logits r c;
  gumbel_next := fun _ g => S g;
  autograd := fun _ _ _ _ _ => 1%Q;
  slot := nat;
  slot0 := 0;
  adam := fun lr s v g => (Qred (v - lr * g), S s)
|}.

(** An empty world. *)
Definition world0 : World := mkWorld [] 0 [].

(** Two agents with observation width 4 and 3 actions each. *)
Definition env_4_4 : gym.Env :=
  gym.mkEnv [gym.mkDiscrete 3; gym.mkDiscrete 3]
            [gym.mkBox (4, []); gym.mkBox (4, [])].

(** Three agents with observation widths 3, 5 and 2 and 2 actions each. *)
Definition env_3_5_2 : gym.Env :=
  gym.mkEnv [gym.mkDiscrete 2; gym.mkDiscrete 2; gym.mkDiscrete 2]
            [gym.mkBox (3, []); gym.mkBox (5, []); gym.mkBox (2, [])].

(** A batch of two transitions for the two agents of [env_4_4]. *)
Definition obs_4 : list (list (@scalar torch)) := [[1; 2; 3; 4]; [5; 6; 7; 8]]%Q.
Definition acs_3 : list (list (@scalar torch)) := [[1; 0; 0]; [0; 1; 0]]%Q.
Definition sample_4_4 : Sample :=
  ([obs_4; obs_4], [acs_3; acs_3], [], [], [obs_4; obs_4], []).

(** A batch of one transition for the three agents of [env_3_5_2]. *)
Definition next_obs_3_5_2 : list (list (@scalar torch)) :=
  [[100; 101; 102]; [200; 201; 202; 203; 204]; [300; 301]]%Q.
Definition sample_3_5_2 : Sample :=
  ([[[100; 101; 102]]; [[200; 201; 202; 203; 204]]; [[300; 301]]]%Q,
   [[[1; 0]]; [[0; 1]]; [[1; 0]]]%Q, [], [],
   [[[100; 101; 102]]; [[200; 201; 202; 203; 204]]; [[300; 301]]]%Q, []).

(** The inputs of [compute] for these environments: the rewards of two
    rollout steps of two agents with their next observations, and those of
    one rollout step of three agents. *)
Definition rewards_2_2 : @ndarray torch := NDArray [2; 2] [0; 0; 0; 0]%Q.
Definition next_obs_4_4 : list (list (list (@scalar torch))) :=
  [[[1; 2; 3; 4]; [5; 6; 7; 8]]; [[9; 10; 11; 12]; [13; 14; 15; 16]]]%Q.
Definition rewards_1_3 : @ndarray torch := NDArray [1; 3] [0; 0; 0]%Q.
Definition rewards_0_3 : @ndarray torch := NDArray [0; 3] [].

(** The estimators the factories build for these environments, with the
    world they are built in. *)
Definition joint_of (env : gym.Env) : Joint.VariationalJointEmpowerment * World :=
  match Joint.init_from_env env world0 with
  | (Return inst, w) => (inst, w)
  | (Raise _, w) => (Joint.mkJoint (mkMLP 0 0 [] true "cpu") (mkMLP 0 0 [] true "cpu")
                       (mkMLP 0 0 [] true "cpu") (mkAdam [] lr_default [])
                       (mkAdam [] lr_default []) (mkAdam [] lr_default [])
                       "cpu" "cpu" "cpu" 0 None, w)
  end.

Definition joint_4_4 : Joint.VariationalJointEmpowerment * World := joint_of env_4_4.

Definition transfer_of (env : gym.Env) : Transfer.VariationalTransferEmpowerment * World :=
  match Transfer.init_from_env env lr_default 64 false false world0 with
  | (Return inst, w) => (inst, w)
  | (Raise _, w) => (Transfer.mkTransfer (mkMLP 0 0 [] true "cpu") [] []
                       (mkAdam [] lr_default []) (mkAdam [] lr_default [])
                       (mkAdam [] lr_default []) "cpu" "cpu" "cpu" 0 None, w)
  end.

End Stub.

(** Further inputs for the stub backend. *)

Module StubMore.

(** A batch for the two agents of [Stub.env_4_4] whose next observations are
    malformed: one tensor of width 1 instead of two of width 4. *)
Definition sample_bad_next : @Sample Stub.torch :=
  ([Stub.obs_4; Stub.obs_4], [Stub.acs_3; Stub.acs_3], [], [],
   [[[1]; [2]]]%Q, []).

(** Rewards without a second axis. *)
Definition rewards_flat : @ndarray Stub.torch := @NDArray Stub.torch [3] [0; 0; 0]%Q.

(** One rollout step in which the third agent's observation is missing. *)
Definition next_obs_short : list (list (list (@scalar Stub.torch))) :=
  [[[100; 101; 102]; [200; 201; 202; 203; 204]]]%Q.

(** Rational numbers for the plotting utility; the spread of a row is
    stubbed by 0. *)
#[export] Instance numpy : Numpy := {|
  num := Q;
  json_number := Q;
  np_element := fun _ q => q;
  np_mean := Stub.qmean;
  np_std := fun _ => 0%Q;
  np_add := fun a b => Qred (a + b);
  np_sub := fun a b => Qred (a - b);
  alpha_0_2 := (1 # 5)%Q;
  rgb := nat;
  ragged := ValueError
|}.

(** A logged dictionary: two series of three records (wall time, step,
    value) each. *)
Definition logged : list (string * list (list Q)) :=
  [("run1/logs/agent0/losses/pol_loss", [[10; 0; 5]; [11; 1; 4]; [12; 2; 3]]%Q);
   ("run1/logs/agent0/rew_loss", [[10; 0; 7]; [11; 1; 8]; [12; 2; 9]]%Q)].

End StubMore.

(** * Properties *)

(** ** The monad *)

Section MonadFacts.
Context {S : Type}.

Lemma bind_Return {A B : Type} (c : M S A) (f : A -> M S B) s b s' :
  bind c f s = (Return b, s') ->
  exists a s1, c s = (Return a, s1) /\ f a s1 = (Return b, s').
Proof.
  unfold bind. destruct (c s) as [[a|e] s1]; intros H.
  - exists a, s1. split; [reflexivity | exact H].
  - discriminate H.
Qed.

Lemma bind_eq_Return {A B : Type} (c : M S A) (f : A -> M S B) s a s1 :
  c s = (Return a, s1) -> bind c f s = f a s1.
Proof. unfold bind. intros ->. reflexivity. Qed.

Lemma bind_eq_Raise {A B : Type} (c : M S A) (f : A -> M S B) s e s1 :
  c s = (Raise e, s1) -> bind c f s = (Raise e, s1).
Proof. unfold bind. intros ->. reflexivity. Qed.

Context (R : S -> S -> Prop) `{!PreOrder R}.

Lemma preserves_ret {A : Type} (a : A) : preserves R (ret a).
Proof. intros s. simpl. reflexivity. Qed.

Lemma preserves_raise {A : Type} (e : exn) : preserves R (@raise S A e).
Proof. intros s. simpl. reflexivity. Qed.

Lemma preserves_lift {A : Type} (r : result A) : preserves R (lift r).
Proof. intros s. simpl. reflexivity. Qed.

Lemma preserves_bind {A B : Type} (c : M S A) (f : A -> M S B) :
  preserves R c -> (forall a, preserves R (f a)) -> preserves R (bind c f).
Proof.
  intros Hc Hf s. unfold bind. specialize (Hc s).
  destruct (c s) as [[a|e] s1]; simpl in *.
  - transitivity s1; [exact Hc | apply Hf].
  - exact Hc.
Qed.

Lemma preserves_mapM {A B : Type} (f : A -> M S B) (l : list A) :
  (forall a, preserves R (f a)) -> preserves R (mapM f l).
Proof.
  intros Hf. induction l as [|a l IH]; simpl.
  - apply preserves_ret.
  - apply preserves_bind; [apply Hf | intros b].
    apply preserves_bind; [exact IH | intros bs]. apply preserves_ret.
Qed.

End MonadFacts.


(** ** Construction *)

Section Construction.
Context `{T : Torch}.

Lemma MLPNetwork_new_eq (i o : nat) (w : World) :
  MLPNetwork_new i o w =
  (Return (mkMLP i o (seq (length (heap w)) (length (fst (mlp_init i o (torch_rng w)))))
                 true "cpu"),
   mkWorld (heap w ++ map (fun v => Cell v None) (fst (mlp_init i o (torch_rng w))))
           (snd (mlp_init i o (torch_rng w))) (trace w)).
Proof. unfold MLPNetwork_new. destruct (mlp_init i o (torch_rng w)). reflexivity. Qed.

Lemma MLPNetwork_new_dims (i o : nat) (w : World) :
  exists net w', MLPNetwork_new i o w = (Return net, w') /\ dims net = (i, o).
Proof. rewrite MLPNetwork_new_eq. eexists _, _. split; reflexivity. Qed.

Lemma mapM_MLPNetwork_new_dims {A : Type} (f g : A -> nat) (l : list A) (w : World) :
  exists nets w',
    mapM (fun p => MLPNetwork_new (f p) (g p)) l w = (Return nets, w') /\
    map dims nets = map (fun p => (f p, g p)) l.
Proof.
  revert w. induction l as [|p l IH]; intros w; simpl.
  - eexists _, _. split; reflexivity.
  - destruct (MLPNetwork_new_dims (f p) (g p) w) as (net & w1 & E1 & D1).
    destruct (IH w1) as (nets & w2 & E2 & D2).
    exists (net :: nets), w2. split.
    + rewrite (bind_eq_Return _ _ _ _ _ E1), (bind_eq_Return _ _ _ _ _ E2). reflexivity.
    + simpl. rewrite D1, D2. reflexivity.
Qed.

(** A new approximator owns parameters, so an optimizer over them is
    accepted. *)

Lemma Adam_new_eq (params : list nat) (lr : scalar) :
  params <> [] ->
  Adam_new params lr = Return (mkAdam params lr (replicate (length params) slot0)).
Proof. destruct params; [congruence | reflexivity]. Qed.

Lemma bind_lift_eq {S A B : Type} (r : result A) (k : A -> M S B) (a : A) (s : S) :
  r = Return a -> bind (lift r) k s = k a s.
Proof. intros ->. reflexivity. Qed.

Lemma MLPNetwork_new_owns (i o : nat) (w : World) :
  exists net w',
    MLPNetwork_new i o w = (Return net, w') /\ dims net = (i, o) /\ parameters net <> [].
Proof.
  rewrite MLPNetwork_new_eq. eexists _, _. split; [reflexivity|]. split; [reflexivity|].
  simpl. pose proof (mlp_init_nonempty i o (torch_rng w)) as Hne.
  destruct (fst (mlp_init i o (torch_rng w))); [congruence | discriminate].
Qed.

Lemma mapM_MLPNetwork_new_owns {A : Type} (f g : A -> nat) (l : list A) (w : World) :
  exists nets w',
    mapM (fun p => MLPNetwork_new (f p) (g p)) l w = (Return nets, w') /\
    map dims nets = map (fun p => (f p, g p)) l /\
    (l <> [] -> concat (map parameters nets) <> []).
Proof.
  revert w. induction l as [|p l IH]; intros w; simpl.
  - eexists _, _. split; [reflexivity|]. split; [reflexivity | congruence].
  - destruct (MLPNetwork_new_owns (f p) (g p) w) as (net & w1 & E1 & D1 & P1).
    destruct (IH w1) as (nets & w2 & E2 & D2 & _).
    exists (net :: nets), w2. split; [|split].
    + rewrite (bind_eq_Return _ _ _ _ _ E1), (bind_eq_Return _ _ _ _ _ E2). reflexivity.
    + simpl. rewrite D1, D2. reflexivity.
    + intros _. simpl. destruct (parameters net); [congruence | discriminate].
Qed.

Lemma Joint_init_architecture (p : Joint.init_params) (lr : scalar) (w : World) :
  exists inst w',
    Joint.init p lr w = (Return inst, w') /\
    Joint.architecture inst =
      [(Joint.num_in_trans p, Joint.num_out_trans p);
       (Joint.num_in_src p, Joint.num_out_src p);
       (Joint.num_in_plan p, Joint.num_out_plan p)] /\
    Joint.niter inst = 0 /\ Joint.init_dict inst = None.
Proof.
  unfold Joint.init.
  destruct (MLPNetwork_new_owns (Joint.num_in_trans p) (Joint.num_out_trans p) w)
    as (n1 & w1 & E1 & D1 & P1).
  destruct (MLPNetwork_new_owns (Joint.num_in_src p) (Joint.num_out_src p) w1)
    as (n2 & w2 & E2 & D2 & P2).
  destruct (MLPNetwork_new_owns (Joint.num_in_plan p) (Joint.num_out_plan p) w2)
    as (n3 & w3 & E3 & D3 & P3).
  assert (P4 : parameters n2 ++ parameters n3 <> []).
  { destruct (parameters n2); [congruence | discriminate]. }
  eexists _, w3. split.
  - rewrite (bind_eq_Return _ _ _ _ _ E1), (bind_eq_Return _ _ _ _ _ E2),
      (bind_eq_Return _ _ _ _ _ E3).
    rewrite (bind_lift_eq _ _ _ _ (Adam_new_eq _ lr P1)),
      (bind_lift_eq _ _ _ _ (Adam_new_eq _ lr P3)),
      (bind_lift_eq _ _ _ _ (Adam_new_eq _ lr P4)). reflexivity.
  - unfold Joint.architecture. simpl. rewrite D1, D2, D3. auto.
Qed.

Lemma Joint_init_from_env_spec (env : gym.Env) (w : World) :
  exists inst w',
    Joint.init_from_env env w = (Return inst, w') /\
    Joint.init_dict inst = Some (Joint.sizing env) /\
    Joint.architecture inst =
      [(Joint.num_in_trans (Joint.sizing env), Joint.num_out_trans (Joint.sizing env));
       (Joint.num_in_src (Joint.sizing env), Joint.num_out_src (Joint.sizing env));
       (Joint.num_in_plan (Joint.sizing env), Joint.num_out_plan (Joint.sizing env))] /\
    Joint.niter inst = 0.
Proof.
  unfold Joint.init_from_env.
  destruct (Joint_init_architecture (Joint.sizing env) lr_default w)
    as (inst & w' & E & A & N & _).
  eexists _, w'. split; [|split; [|split]].
  - rewrite (bind_eq_Return _ _ _ _ _ E). reflexivity.
  - reflexivity.
  - exact A.
  - exact N.
Qed.

(** The sizing loops in closed form. *)

Lemma Joint_sizing_last (agents : list (gym.Discrete * gym.Box)) acsp obsp v :
  let r := fold_left Joint.sizing_step (agents ++ [(acsp, obsp)]) v in
  Joint.num_in_src r = fst (gym.shape obsp) /\
  Joint.num_out_src r = gym.n acsp /\
  Joint.num_in_plan r = 2 * fst (gym.shape obsp) /\
  Joint.num_out_plan r = gym.n acsp.
Proof. simpl. rewrite fold_left_app. simpl. auto. Qed.

Lemma Joint_sizing_sums (agents : list (gym.Discrete * gym.Box)) v :
  let r := fold_left Joint.sizing_step agents v in
  Joint.num_in_trans r =
    Joint.num_in_trans v
    + sum_list (map (fun sp => fst (gym.shape (snd sp)) + gym.n (fst sp)) agents) /\
  Joint.num_out_trans r =
    Joint.num_out_trans v + sum_list (map (fun sp => fst (gym.shape (snd sp))) agents).
Proof.
  revert v. induction agents as [|[a o] agents IH]; intros v; simpl.
  - split; lia.
  - destruct (IH (Joint.sizing_step v (a, o))) as [H1 H2].
    simpl in H1, H2. rewrite H1, H2. simpl. split; lia.
Qed.

Lemma Transfer_sizing_closed (agents : list (gym.Discrete * gym.Box)) ps i o :
  fold_left Transfer.sizing_step agents (ps, i, o) =
  (ps ++ map (fun sp => Transfer.mkParams (fst (gym.shape (snd sp)))
                          (2 * fst (gym.shape (snd sp)))
                          (gym.n (fst sp)) (gym.n (fst sp))) agents,
   i + sum_list (map (fun sp => fst (gym.shape (snd sp)) + gym.n (fst sp)) agents),
   o + sum_list (map (fun sp => fst (gym.shape (snd sp))) agents)).
Proof.
  revert ps i o. induction agents as [|[a b] agents IH]; intros ps i o; simpl.
  - rewrite app_nil_r. f_equal; [f_equal|]; lia.
  - rewrite IH. rewrite <- app_assoc. simpl.
    f_equal; [f_equal|]; first [lia | reflexivity].
Qed.

Lemma Transfer_init_architecture (ps : list Transfer.agent_params) (i o : nat)
    (lr : scalar) (hd : nat) (r c : bool) (w : World) :
  ps <> [] ->
  exists inst w',
    Transfer.init ps i o lr hd r c w = (Return inst, w') /\
    Transfer.architecture inst =
      ((i, o),
       map (fun p => (Transfer.num_in_src p, Transfer.num_out_src p)) ps,
       map (fun p => (Transfer.num_in_plan p, Transfer.num_out_plan p)) ps) /\
    Transfer.niter inst = 0 /\ Transfer.init_dict inst = None.
Proof.
  intros Hps. unfold Transfer.init.
  destruct (MLPNetwork_new_owns i o w) as (n1 & w1 & E1 & D1 & P1).
  destruct (mapM_MLPNetwork_new_owns Transfer.num_in_src Transfer.num_out_src ps w1)
    as (src & w2 & E2 & D2 & P2).
  destruct (mapM_MLPNetwork_new_owns Transfer.num_in_plan Transfer.num_out_plan ps w2)
    as (pl & w3 & E3 & D3 & P3).
  eexists _, w3. split.
  - rewrite (bind_eq_Return _ _ _ _ _ E1), (bind_eq_Return _ _ _ _ _ E2),
      (bind_eq_Return _ _ _ _ _ E3).
    rewrite (bind_lift_eq _ _ _ _ (Adam_new_eq _ lr P1)),
      (bind_lift_eq _ _ _ _ (Adam_new_eq _ lr (P3 Hps))),
      (bind_lift_eq _ _ _ _ (Adam_new_eq _ lr (P2 Hps))). reflexivity.
  - unfold Transfer.architecture. simpl. rewrite D1, D2, D3. auto.
Qed.

(** Without agents there is nothing for the optimizer of the planning
    networks to optimize, and the constructor fails there. *)

Lemma Transfer_init_no_agents (i o : nat) (lr : scalar) (hd : nat) (r c : bool)
    (w : World) :
  exists w', Transfer.init [] i o lr hd r c w = (Raise ValueError, w').
Proof.
  unfold Transfer.init.
  destruct (MLPNetwork_new_owns i o w) as (n1 & w1 & E1 & D1 & P1).
  exists w1. rewrite (bind_eq_Return _ _ _ _ _ E1).
  unfold bind, lift. simpl. rewrite (Adam_new_eq _ lr P1). reflexivity.
Qed.

Lemma Transfer_init_from_env_spec (env : gym.Env) (lr : scalar) (hd : nat)
    (r c : bool) (w : World) :
  let agents := zip (gym.action_space env) (gym.observation_space env) in
  let ps := map (fun sp => Transfer.mkParams (fst (gym.shape (snd sp)))
                             (2 * fst (gym.shape (snd sp)))
                             (gym.n (fst sp)) (gym.n (fst sp))) agents in
  let i := sum_list (map (fun sp => fst (gym.shape (snd sp)) + gym.n (fst sp)) agents) in
  let o := sum_list (map (fun sp => fst (gym.shape (snd sp))) agents) in
  agents <> [] ->
  exists inst w',
    Transfer.init_from_env env lr hd r c w = (Return inst, w') /\
    Transfer.init_dict inst = Some (Transfer.mkInitDict lr hd ps i o r c) /\
    Transfer.architecture inst =
      ((i, o),
       map (fun p => (Transfer.num_in_src p, Transfer.num_out_src p)) ps,
       map (fun p => (Transfer.num_in_plan p, Transfer.num_out_plan p)) ps) /\
    Transfer.niter inst = 0.
Proof.
  intros agents ps i o Hne. unfold Transfer.init_from_env, Transfer.sizing.
  rewrite Transfer_sizing_closed. simpl. fold agents. fold ps. fold i. fold o.
  unfold Transfer.from_init_dict. simpl.
  assert (Hps : ps <> []) by (subst ps; destruct agents; [congruence | discriminate]).
  destruct (Transfer_init_architecture ps i o lr hd r c w Hps)
    as (inst & w' & E & A & N & _).
  eexists _, w'. split; [|split; [|split]].
  - rewrite (bind_eq_Return _ _ _ _ _ E). reflexivity.
  - reflexivity.
  - exact A.
  - exact N.
Qed.

Lemma Transfer_init_from_env_no_agents (env : gym.Env) (lr : scalar) (hd : nat)
    (r c : bool) (w : World) :
  zip (gym.action_space env) (gym.observation_space env) = [] ->
  exists w', Transfer.init_from_env env lr hd r c w = (Raise ValueError, w').
Proof.
  intros Hnil. unfold Transfer.init_from_env, Transfer.sizing.
  rewrite Transfer_sizing_closed, Hnil. simpl.
  unfold Transfer.from_init_dict. simpl.
  destruct (Transfer_init_no_agents 0 0 lr hd r c w) as (w' & E).
  exists w'. rewrite (bind_eq_Raise _ _ _ _ _ E). reflexivity.
Qed.

(** So the factory returns exactly for an environment with an agent. *)

Lemma Transfer_init_from_env_returns_agents (env : gym.Env) (lr : scalar) (hd : nat)
    (r c : bool) (w : World) inst w' :
  Transfer.init_from_env env lr hd r c w = (Return inst, w') ->
  zip (gym.action_space env) (gym.observation_space env) <> [].
Proof.
  intros E Hnil.
  destruct (Transfer_init_from_env_no_agents env lr hd r c w Hnil) as (w1 & E1).
  congruence.
Qed.

Lemma sum_list_const {A : Type} (f : A -> nat) (c : nat) (l : list A) :
  Forall (fun x => f x = c) l -> sum_list (map f l) = length l * c.
Proof.
  induction 1 as [|x l Hx _ IH]; simpl; [reflexivity|]. rewrite IH, Hx. reflexivity.
Qed.

(** What the factories build is sized for the environment. *)

Lemma Joint_factory_sized (env : gym.Env) (w : World) (wd a : nat) :
  let agents := zip (gym.action_space env) (gym.observation_space env) in
  agents <> [] ->
  Forall (fun sp => fst (gym.shape (snd sp)) = wd /\ gym.n (fst sp) = a) agents ->
  exists inst w',
    Joint.init_from_env env w = (Return inst, w') /\
    joint_sized inst (length agents) wd a.
Proof.
  intros agents Hne Hall.
  destruct (Joint_init_from_env_spec env w) as (inst & w' & E & _ & A & _).
  exists inst, w'. split; [exact E|].
  destruct (exists_last Hne) as (front & [acsp obsp] & Hlast).
  destruct (Joint_sizing_last front acsp obsp (Joint.mkParams 0 0 0 0 0 0))
    as (H1 & H2 & H3 & H4).
  destruct (Joint_sizing_sums agents (Joint.mkParams 0 0 0 0 0 0)) as [H5 H6].
  assert (Hl : fst (gym.shape obsp) = wd /\ gym.n acsp = a).
  { rewrite Hlast in Hall. apply Forall_app in Hall as [_ Hall].
    apply Forall_cons in Hall as [Hx _]. exact Hx. }
  destruct Hl as [Hwd Ha].
  unfold Joint.architecture, dims in A. injection A as A1 A2 A3 A4 A5 A6.
  unfold Joint.sizing in *. fold agents in A1, A2, A3, A4, A5, A6.
  rewrite <- Hlast in H1, H2, H3, H4.
  unfold joint_sized, dims.
  rewrite A1, A2, A3, A4, A5, A6, H1, H2, H3, H4, H5, H6, Hwd, Ha. simpl.
  rewrite (sum_list_const (fun sp => fst (gym.shape (snd sp)) + gym.n (fst sp)) (wd + a))
    by (eapply Forall_impl; [exact Hall|]; simpl; intros ? [-> ->]; reflexivity).
  rewrite (sum_list_const (fun sp => fst (gym.shape (snd sp))) wd)
    by (eapply Forall_impl; [exact Hall|]; simpl; intros ? [-> _]; reflexivity).
  repeat split.
Qed.

Lemma Transfer_factory_sized (env : gym.Env) (lr : scalar) (hd : nat) (r c : bool)
    (w : World) :
  let agents := zip (gym.action_space env) (gym.observation_space env) in
  agents <> [] ->
  exists inst w',
    Transfer.init_from_env env lr hd r c w = (Return inst, w') /\
    transfer_sized inst (map (fun sp => (fst (gym.shape (snd sp)), gym.n (fst sp))) agents).
Proof.
  intros agents Hne.
  destruct (Transfer_init_from_env_spec env lr hd r c w Hne) as (inst & w' & E & _ & A & _).
  exists inst, w'. split; [exact E|].
  fold agents in A. unfold Transfer.architecture in A. unfold transfer_sized.
  pose proof (f_equal (fun x => fst (fst x)) A) as A1.
  pose proof (f_equal (fun x => snd (fst x)) A) as A2.
  pose proof (f_equal snd A) as A3. cbn [fst snd] in A1, A2, A3.
  rewrite A1, A2, A3, !map_map. simpl. repeat split.
Qed.

End Construction.

(** ** Effects of the primitive operations *)

Section Effects.
Context `{T : Torch}.

#[global] Instance on_preorder {E X : Type} (f : E -> X) : PreOrder (on f).
Proof.
  split.
  - intros e. reflexivity.
  - intros a b c Hab Hbc. unfold on in *. congruence.
Qed.

#[global] Instance both_preorder {E : Type} (RE : relation E) (RW : relation World)
    `{!PreOrder RE, !PreOrder RW} : PreOrder (both RE RW).
Proof.
  split.
  - intros s. split; reflexivity.
  - intros a b c [H1 H2] [H3 H4]. split; etransitivity; eassumption.
Qed.

#[global] Instance frame_outside_preorder (A : list nat) : PreOrder (frame_outside A).
Proof.
  split.
  - intros w. split; auto.
  - intros a b c [L1 F1] [L2 F2]. split; [congruence|].
    intros x Hx. rewrite F2, F1; auto.
Qed.

#[global] Instance grows_by_preorder (ok : event -> bool) : PreOrder (grows_by ok).
Proof.
  split.
  - intros w. exists []. split; [symmetry; apply app_nil_r | reflexivity].
  - intros a b c (e1 & E1 & O1) (e2 & E2 & O2). exists (e1 ++ e2). split.
    + rewrite E2, E1, app_assoc. reflexivity.
    + rewrite forallb_app, O1, O2. reflexivity.
Qed.

#[global] Instance guarded_on_preorder {E X : Type} (f : E -> X) (k : X)
    (RW : relation World) `{!PreOrder RW} : PreOrder (guarded_on f k RW).
Proof.
  split.
  - intros s H. split; [exact H | reflexivity].
  - intros a b c H1 H2 Ha. destruct (H1 Ha) as [Hb R1]. destruct (H2 Hb) as [Hc R2].
    split; [exact Hc | etransitivity; eassumption].
Qed.

#[global] Instance True_preorder {X : Type} : PreOrder (fun _ _ : X => True).
Proof. split; intros ?; auto. Qed.

(** *** Memory *)

Lemma fold_alter_length {A : Type} (F : nat -> A -> A) (l : list nat) (h : list A) :
  length (fold_left (fun h a => alter (F a) a h) l h) = length h.
Proof.
  revert h. induction l as [|a l IH]; intros h; simpl; [reflexivity|].
  rewrite IH. apply length_alter.
Qed.

Lemma fold_alter_frame {A : Type} (F : nat -> A -> A) (l : list nat) (h : list A) (x : nat) :
  x ∉ l -> fold_left (fun h a => alter (F a) a h) l h !! x = h !! x.
Proof.
  revert h. induction l as [|a l IH]; intros h Hx; simpl; [reflexivity|].
  apply not_elem_of_cons in Hx as [Hne Hx].
  rewrite IH by exact Hx. apply list_lookup_alter_ne. congruence.
Qed.

Lemma zero_grad_length (opt : Adam) (h : list cell) :
  length (zero_grad opt h) = length h.
Proof. unfold zero_grad. apply (fold_alter_length (fun _ c => Cell (value c) (grad c ≫= zero_of))). Qed.

Lemma zero_grad_frame (opt : Adam) (h : list cell) (x : nat) :
  x ∉ param_groups opt -> zero_grad opt h !! x = h !! x.
Proof.
  unfold zero_grad.
  apply (fold_alter_frame (fun _ c => Cell (value c) (grad c ≫= zero_of))).
Qed.

Lemma backward_length loss leaves data noise (h : list cell) :
  length (backward loss leaves data noise h) = length h.
Proof.
  unfold backward.
  apply (fold_alter_length
           (fun a c => Cell (value c)
                         (Some (match grad c with
                                | Some g0 => padd g0 (autograd loss (map value h) data noise a)
                                | None => autograd loss (map value h) data noise a
                                end)))).
Qed.

Lemma backward_frame loss leaves data noise (h : list cell) (x : nat) :
  x ∉ leaves -> backward loss leaves data noise h !! x = h !! x.
Proof.
  unfold backward.
  apply (fold_alter_frame
           (fun a c => Cell (value c)
                         (Some (match grad c with
                                | Some g0 => padd g0 (autograd loss (map value h) data noise a)
                                | None => autograd loss (map value h) data noise a
                                end)))).
Qed.

Lemma adam_step_length lr refs st (h : list cell) :
  length (snd (adam_step lr refs st h)) = length h.
Proof.
  revert st h. induction refs as [|a refs IH]; intros st h; simpl; [reflexivity|].
  destruct st as [|s st]; [reflexivity|].
  destruct (h !! a) as [[v [g|]]|].
  - destruct (adam lr s v g) as [v' s'].
    specialize (IH st (<[a:=Cell v' (Some g)]> h)).
    destruct (adam_step lr refs st (<[a:=Cell v' (Some g)]> h)) as [ss h'].
    simpl in *. rewrite IH. apply length_insert.
  - specialize (IH st h). destruct (adam_step lr refs st h). exact IH.
  - specialize (IH st h). destruct (adam_step lr refs st h). exact IH.
Qed.

Lemma adam_step_frame lr refs st (h : list cell) (x : nat) :
  x ∉ refs -> snd (adam_step lr refs st h) !! x = h !! x.
Proof.
  revert st h. induction refs as [|a refs IH]; intros st h Hx; simpl; [reflexivity|].
  apply not_elem_of_cons in Hx as [Hne Hx].
  destruct st as [|s st]; [reflexivity|].
  destruct (h !! a) as [[v [g|]]|].
  - destruct (adam lr s v g) as [v' s'].
    specialize (IH st (<[a:=Cell v' (Some g)]> h) Hx).
    destruct (adam_step lr refs st (<[a:=Cell v' (Some g)]> h)) as [ss h'].
    simpl in *. rewrite IH. apply list_lookup_insert_ne. congruence.
  - specialize (IH st h Hx). destruct (adam_step lr refs st h). exact IH.
  - specialize (IH st h Hx). destruct (adam_step lr refs st h). exact IH.
Qed.

Lemma adam_step_writes lr refs st (h : list cell) k a s v g :
  NoDup refs ->
  refs !! k = Some a -> st !! k = Some s -> h !! a = Some (Cell v (Some g)) ->
  snd (adam_step lr refs st h) !! a = Some (Cell (fst (adam lr s v g)) (Some g)).
Proof.
  revert st h k. induction refs as [|a0 refs IH]; intros st h k Hnd Hk Hs Ha;
    [discriminate Hk|].
  apply NoDup_cons in Hnd as [Hnotin Hnd].
  destruct st as [|s0 st]; [discriminate Hs|].
  destruct k as [|k]; simpl in Hk, Hs.
  - injection Hk as ->. injection Hs as ->. simpl. rewrite Ha.
    destruct (adam lr s v g) as [v' s'] eqn:Hadam.
    pose proof (adam_step_frame lr refs st (<[a:=Cell v' (Some g)]> h) a Hnotin) as Hfr.
    destruct (adam_step lr refs st (<[a:=Cell v' (Some g)]> h)) as [ss h']. simpl in *.
    rewrite Hfr. apply list_lookup_insert_eq. apply lookup_lt_Some in Ha. exact Ha.
  - assert (Hne : a0 <> a).
    { intros ->. apply Hnotin. apply list_elem_of_lookup. eauto. }
    simpl. destruct (h !! a0) as [[v0 [g0|]]|].
    + destruct (adam lr s0 v0 g0) as [v' s'].
      assert (Ha' : <[a0:=Cell v' (Some g0)]> h !! a = Some (Cell v (Some g)))
        by (rewrite list_lookup_insert_ne; auto).
      specialize (IH st _ k Hnd Hk Hs Ha').
      destruct (adam_step lr refs st (<[a0:=Cell v' (Some g0)]> h)). exact IH.
    + specialize (IH st h k Hnd Hk Hs Ha). destruct (adam_step lr refs st h). exact IH.
    + specialize (IH st h k Hnd Hk Hs Ha). destruct (adam_step lr refs st h). exact IH.
Qed.

Lemma step_writes (opt : Adam) (h : list cell) k a s v g :
  NoDup (param_groups opt) ->
  param_groups opt !! k = Some a -> slots opt !! k = Some s ->
  h !! a = Some (Cell v (Some g)) ->
  snd (step opt h) !! a = Some (Cell (fst (adam (rate opt) s v g)) (Some g)).
Proof.
  intros Hnd Hk Hs Ha. unfold step.
  pose proof (adam_step_writes (rate opt) _ _ h k a s v g Hnd Hk Hs Ha) as H.
  destruct (adam_step (rate opt) (param_groups opt) (slots opt) h). exact H.
Qed.

Lemma step_param_groups (opt : Adam) (h : list cell) :
  param_groups (fst (step opt h)) = param_groups opt /\
  rate (fst (step opt h)) = rate opt.
Proof.
  unfold step. destruct (adam_step (rate opt) (param_groups opt) (slots opt) h).
  split; reflexivity.
Qed.

Lemma step_length (opt : Adam) (h : list cell) :
  length (snd (step opt h)) = length h.
Proof.
  unfold step. pose proof (adam_step_length (rate opt) (param_groups opt) (slots opt) h) as H.
  destruct (adam_step (rate opt) (param_groups opt) (slots opt) h). exact H.
Qed.

Lemma step_frame (opt : Adam) (h : list cell) (x : nat) :
  x ∉ param_groups opt -> snd (step opt h) !! x = h !! x.
Proof.
  intros Hx. unfold step.
  pose proof (adam_step_frame (rate opt) (param_groups opt) (slots opt) h x Hx) as H.
  destruct (adam_step (rate opt) (param_groups opt) (slots opt) h). exact H.
Qed.

(** *** World-level operations *)

Lemma forward_world (net : MLPNetwork) (x : tensor) (w : World) :
  snd (forward net x w) = mkWorld (heap w) (torch_rng w) (trace w ++ [Forward net x]).
Proof.
  unfold forward, bind, emit, modify, get. simpl.
  destruct (forallb _ x); reflexivity.
Qed.

Lemma gumbel_softmax_world logits device hard (w : World) :
  snd (gumbel_softmax logits device hard w) =
  mkWorld (heap w) (gumbel_next logits (torch_rng w)) (trace w).
Proof. reflexivity. Qed.

Lemma forward_same_heap net x : preserves same_heap (forward net x).
Proof. intros w. rewrite forward_world. reflexivity. Qed.

Lemma gumbel_same_heap l d h : preserves same_heap (gumbel_softmax l d h).
Proof. intros w. reflexivity. Qed.

Lemma forward_frame A net x : preserves (frame_outside A) (forward net x).
Proof. intros w. rewrite forward_world. split; auto. Qed.

Lemma gumbel_frame A l d h : preserves (frame_outside A) (gumbel_softmax l d h).
Proof. intros w. split; auto. Qed.

Lemma forward_grows ok net x :
  (forall n y, ok (Forward n y) = true) -> preserves (grows_by ok) (forward net x).
Proof.
  intros Hok w. rewrite forward_world. exists [Forward net x].
  split; [reflexivity|]. simpl. rewrite Hok. reflexivity.
Qed.

Lemma gumbel_grows ok l d h : preserves (grows_by ok) (gumbel_softmax l d h).
Proof. intros w. exists []. split; [symmetry; apply app_nil_r | reflexivity]. Qed.

Lemma modify_heap_grows ok f : preserves (grows_by ok) (modify_heap f).
Proof. intros w. exists []. split; [symmetry; apply app_nil_r | reflexivity]. Qed.

Lemma zero_grad_frame_outside (A : list nat) (opt : Adam) :
  (forall a, a ∈ param_groups opt -> a ∈ A) ->
  preserves (frame_outside A) (modify_heap (zero_grad opt)).
Proof.
  intros Hsub w. split; simpl.
  - apply zero_grad_length.
  - intros a Ha. apply zero_grad_frame. intros Hin. apply Ha, Hsub, Hin.
Qed.

Lemma backward_frame_outside (A : list nat) loss leaves data noise :
  (forall a, a ∈ leaves -> a ∈ A) ->
  preserves (frame_outside A) (modify_heap (backward loss leaves data noise)).
Proof.
  intros Hsub w. split; simpl.
  - apply backward_length.
  - intros a Ha. apply backward_frame. intros Hin. apply Ha, Hsub, Hin.
Qed.

Lemma forward_True net x : preserves (fun _ _ : World => True) (forward net x).
Proof. intros w. exact I. Qed.

Lemma gumbel_True l d h : preserves (fun _ _ : World => True) (gumbel_softmax l d h).
Proof. intros w. exact I. Qed.

(** *** Operations on the object and the world *)

Section Lifted.
Context {E : Type} (RE : relation E) (RW : relation World).
Context `{!PreOrder RE, !PreOrder RW}.

Lemma preserves_in_world {A : Type} (c : M World A) :
  preserves RW c -> preserves (both RE RW) (@in_world _ E A c).
Proof.
  intros Hc [e w]. unfold in_world. simpl. specialize (Hc w).
  destruct (c w) as [r w']. simpl in *. split; [reflexivity | exact Hc].
Qed.

Lemma preserves_get_self : preserves (both RE RW) (@get_self _ E).
Proof. intros s. simpl. reflexivity. Qed.

Lemma preserves_get_rng : preserves (both RE RW) (@get_rng _ E).
Proof. intros s. simpl. reflexivity. Qed.

Lemma preserves_modify_self (f : E -> E) :
  (forall e, RE e (f e)) -> preserves (both RE RW) (modify_self f).
Proof. intros Hf [e w]. simpl. split; [apply Hf | reflexivity]. Qed.

Lemma preserves_guarded {A X : Type} (f : E -> X) (k : X) (c : M (E * World) A) :
  preserves (both (on f) RW) c -> preserves (guarded_on f k RW) c.
Proof.
  intros Hc s Hk. destruct (Hc s) as [Hf Hw]. unfold on in Hf.
  split; [congruence | exact Hw].
Qed.

Lemma preserves_optimizer_step (opt_of : E -> Adam) (set_opt : Adam -> E -> E) :
  (forall e h, RE e (set_opt (fst (step (opt_of e) h)) e)) ->
  (forall w opt, RW w (mkWorld (snd (step opt (heap w))) (torch_rng w) (trace w))) ->
  preserves (both RE RW) (optimizer_step opt_of set_opt).
Proof.
  intros HE HW [e w]. unfold optimizer_step. simpl.
  specialize (HW w (opt_of e)). specialize (HE e (heap w)).
  destruct (step (opt_of e) (heap w)) as [opt' h']. simpl in *.
  split; [exact HE | exact HW].
Qed.

End Lifted.

End Effects.

(** Compositional proof of [preserves] goals. *)
Ltac pres_step :=
  first
    [ apply preserves_ret; exact _
    | apply preserves_raise; exact _
    | apply preserves_lift; exact _
    | apply preserves_get_self; exact _
    | apply preserves_get_rng; exact _
    | assumption
    | match goal with H : forall _, preserves _ _ |- _ => apply H end
    | match goal with H : forall _ _, preserves _ _ |- _ => apply H end
    | match goal with H : forall _ _ _, preserves _ _ |- _ => apply H end
    | match goal with H : forall _ _ _ _, preserves _ _ |- _ => apply H end
    | apply preserves_in_world; try exact _; solve [eauto]
    | apply preserves_modify_self; try exact _; solve [intros; reflexivity | eauto]
    | apply preserves_bind; try exact _; [| intros ?]
    | match goal with
      | |- preserves _ (let (_, _) := ?x in _) => destruct x
      | |- preserves _ (if ?b then _ else _) => destruct b
      | |- preserves _ (match ?x with _ => _ end) => destruct x
      end ].

Ltac pres := repeat pres_step.

(** ** The passes over the agents and [compute] keep what the approximator
    calls and the sampler keep *)

Section JointPasses.
Context `{T : Torch}.
Context (RE : relation Joint.VariationalJointEmpowerment) (RW : relation World).
Context `{!PreOrder RE, !PreOrder RW}.
Hypothesis Hforward : forall net x, preserves RW (forward net x).
Hypothesis Hgumbel : forall l d h, preserves RW (gumbel_softmax l d h).

Lemma Joint_source_loop_preserves next_obs :
  preserves (both RE RW) (Joint.source_loop next_obs).
Proof. induction next_obs as [|no rest IH]; simpl; pres. Qed.

Lemma Joint_plan_loop_preserves trans_out n_obs i next_obs :
  preserves (both RE RW) (Joint.plan_loop trans_out n_obs i next_obs).
Proof. revert i. induction next_obs as [|no rest IH]; intros i; simpl; pres. Qed.

Lemma Joint_acs_plan_loop_preserves pairs :
  preserves (both RE RW) (Joint.acs_plan_loop pairs).
Proof. induction pairs as [|[o no] rest IH]; simpl; pres. Qed.

Lemma stack_columns_preserves {E : Type} (R : relation (E * World)) `{!PreOrder R}
    (next_obs : list (list (list scalar))) (l : list nat) :
  preserves R (mapM (fun i => col <- lift (column i next_obs) ;; lift (vstack col)) l).
Proof. apply preserves_mapM; [exact _|]. intros i. pres. Qed.

Lemma Joint_compute_preserves rewards next_obs :
  preserves (both RE RW) (Joint.compute rewards next_obs).
Proof.
  unfold Joint.compute.
  pose proof Joint_source_loop_preserves. pose proof Joint_plan_loop_preserves.
  pose proof (fun l => stack_columns_preserves (both RE RW) next_obs l).
  pres.
Qed.

End JointPasses.

Section TransferPasses.
Context `{T : Torch}.
Context (RE : relation Transfer.VariationalTransferEmpowerment) (RW : relation World).
Context `{!PreOrder RE, !PreOrder RW}.
Hypothesis Hforward : forall net x, preserves RW (forward net x).
Hypothesis Hgumbel : forall l d h, preserves RW (gumbel_softmax l d h).

Lemma Transfer_source_loop_preserves zipped :
  preserves (both RE RW) (Transfer.source_loop zipped).
Proof. induction zipped as [|[no net] rest IH]; simpl; pres. Qed.

Lemma Transfer_compute_plan_loop_preserves trans_out start zipped :
  preserves (both RE RW) (Transfer.compute_plan_loop trans_out start zipped).
Proof. induction zipped as [|[no net] rest IH]; simpl; pres. Qed.

Lemma Transfer_update_plan_loop_preserves trans_out start zipped :
  preserves (both RE RW) (Transfer.update_plan_loop trans_out start zipped).
Proof.
  revert start. induction zipped as [|[no net] rest IH]; intros start; simpl; pres.
Qed.

Lemma Transfer_acs_plan_loop_preserves zipped :
  preserves (both RE RW) (Transfer.acs_plan_loop zipped).
Proof. induction zipped as [|[o [no net]] rest IH]; simpl; pres. Qed.

Lemma Transfer_compute_preserves rewards next_obs :
  preserves (both RE RW) (Transfer.compute rewards next_obs).
Proof.
  unfold Transfer.compute.
  pose proof Transfer_source_loop_preserves. pose proof Transfer_compute_plan_loop_preserves.
  pose proof (fun l => stack_columns_preserves (both RE RW) next_obs l).
  pres.
Qed.

End TransferPasses.

(** ** The three steps of [update] keep what memory writes and optimizer
    steps keep *)

Section JointUpdates.
Context `{T : Torch}.
Context (RE : relation Joint.VariationalJointEmpowerment) (RW : relation World).
Context `{!PreOrder RE, !PreOrder RW}.
Hypothesis Hforward : forall net x, preserves RW (forward net x).
Hypothesis Hgumbel : forall l d h, preserves RW (gumbel_softmax l d h).
Hypothesis Hheap : forall f, preserves RW (modify_heap f).
Hypothesis Hstep :
  forall w opt, RW w (mkWorld (snd (step opt (heap w))) (torch_rng w) (trace w)).
Hypothesis Htrans :
  forall e h, RE e (Joint.set_transition_optimizer (fst (step (Joint.transition_optimizer e) h)) e).
Hypothesis Hplan :
  forall e h, RE e (Joint.set_planning_optimizer (fst (step (Joint.planning_optimizer e) h)) e).
Hypothesis Hsrc :
  forall e h, RE e (Joint.set_source_optimizer (fst (step (Joint.source_optimizer e) h)) e).

Lemma Joint_update_transition_preserves obs acs next_obs :
  preserves (both RE RW) (Joint.update_transition obs acs next_obs).
Proof.
  unfold Joint.update_transition.
  pose proof (preserves_optimizer_step RE RW _ _ Htrans Hstep).
  pres.
Qed.

Lemma Joint_update_planning_preserves obs acs next_obs :
  preserves (both RE RW) (Joint.update_planning obs acs next_obs).
Proof.
  unfold Joint.update_planning.
  pose proof (preserves_optimizer_step RE RW _ _ Hplan Hstep).
  pose proof (Joint_acs_plan_loop_preserves RE RW Hforward Hgumbel).
  pres.
Qed.

Lemma Joint_update_source_preserves next_obs :
  preserves (both RE RW) (Joint.update_source next_obs).
Proof.
  unfold Joint.update_source.
  pose proof (preserves_optimizer_step RE RW _ _ Hsrc Hstep).
  pose proof (Joint_source_loop_preserves RE RW Hforward Hgumbel).
  pose proof (Joint_plan_loop_preserves RE RW Hforward Hgumbel).
  pres.
Qed.

End JointUpdates.

Section TransferUpdates.
Context `{T : Torch}.
Context (RE : relation Transfer.VariationalTransferEmpowerment) (RW : relation World).
Context `{!PreOrder RE, !PreOrder RW}.
Hypothesis Hforward : forall net x, preserves RW (forward net x).
Hypothesis Hgumbel : forall l d h, preserves RW (gumbel_softmax l d h).
Hypothesis Hheap : forall f, preserves RW (modify_heap f).
Hypothesis Hstep :
  forall w opt, RW w (mkWorld (snd (step opt (heap w))) (torch_rng w) (trace w)).
Hypothesis Htrans :
  forall e h, RE e (Transfer.set_transition_optimizer (fst (step (Transfer.transition_optimizer e) h)) e).
Hypothesis Hplan :
  forall e h, RE e (Transfer.set_planning_optimizer (fst (step (Transfer.planning_optimizer e) h)) e).
Hypothesis Hsrc :
  forall e h, RE e (Transfer.set_source_optimizer (fst (step (Transfer.source_optimizer e) h)) e).

Lemma Transfer_update_transition_preserves obs acs next_obs :
  preserves (both RE RW) (Transfer.update_transition obs acs next_obs).
Proof.
  unfold Transfer.update_transition.
  pose proof (preserves_optimizer_step RE RW _ _ Htrans Hstep).
  pres.
Qed.

Lemma Transfer_update_planning_preserves obs acs next_obs :
  preserves (both RE RW) (Transfer.update_planning obs acs next_obs).
Proof.
  unfold Transfer.update_planning.
  pose proof (preserves_optimizer_step RE RW _ _ Hplan Hstep).
  pose proof (Transfer_acs_plan_loop_preserves RE RW Hforward Hgumbel).
  pres.
Qed.

Lemma Transfer_update_source_preserves next_obs :
  preserves (both RE RW) (Transfer.update_source next_obs).
Proof.
  unfold Transfer.update_source.
  pose proof (preserves_optimizer_step RE RW _ _ Hsrc Hstep).
  pose proof (Transfer_source_loop_preserves RE RW Hforward Hgumbel).
  pose proof (Transfer_update_plan_loop_preserves RE RW Hforward Hgumbel).
  pres.
Qed.

End TransferUpdates.

(** ** Logging and the step counter *)

Section Logging.
Context `{T : Torch}.

Lemma logged_steps_app (tr1 tr2 : list event) :
  logged_steps (tr1 ++ tr2) = logged_steps tr1 ++ logged_steps tr2.
Proof. unfold logged_steps. apply omap_app. Qed.

Lemma logged_steps_not_log (evs : list event) :
  forallb not_log evs = true -> logged_steps evs = [].
Proof.
  induction evs as [|e evs IH]; simpl; [reflexivity|].
  intros H. apply andb_prop in H as [He Hevs].
  destruct e; try discriminate He; apply IH; exact Hevs.
Qed.

Lemma step_quiet (w : World) (opt : Adam) :
  grows_by not_log w (mkWorld (snd (step opt (heap w))) (torch_rng w) (trace w)).
Proof. exists []. split; [symmetry; apply app_nil_r | reflexivity]. Qed.

Lemma forward_quiet net x : preserves (grows_by not_log) (forward net x).
Proof. apply forward_grows. reflexivity. Qed.

Lemma quiet_niter_Joint_update_steps obs acs next_obs :
  preserves (both (on Joint.niter) (grows_by not_log))
            (Joint.update_transition obs acs next_obs) /\
  preserves (both (on Joint.niter) (grows_by not_log))
            (Joint.update_planning obs acs next_obs) /\
  preserves (both (on Joint.niter) (grows_by not_log))
            (Joint.update_source next_obs).
Proof.
  split; [|split].
  - apply Joint_update_transition_preserves;
      auto using forward_quiet, gumbel_grows, modify_heap_grows, step_quiet; try exact _;
      intros; reflexivity.
  - apply Joint_update_planning_preserves;
      auto using forward_quiet, gumbel_grows, modify_heap_grows, step_quiet; try exact _;
      intros; reflexivity.
  - apply Joint_update_source_preserves;
      auto using forward_quiet, gumbel_grows, modify_heap_grows, step_quiet; try exact _;
      intros; reflexivity.
Qed.

Lemma quiet_niter_Transfer_update_steps obs acs next_obs :
  preserves (both (on Transfer.niter) (grows_by not_log))
            (Transfer.update_transition obs acs next_obs) /\
  preserves (both (on Transfer.niter) (grows_by not_log))
            (Transfer.update_planning obs acs next_obs) /\
  preserves (both (on Transfer.niter) (grows_by not_log))
            (Transfer.update_source next_obs).
Proof.
  split; [|split].
  - apply Transfer_update_transition_preserves;
      auto using forward_quiet, gumbel_grows, modify_heap_grows, step_quiet; try exact _;
      intros; reflexivity.
  - apply Transfer_update_planning_preserves;
      auto using forward_quiet, gumbel_grows, modify_heap_grows, step_quiet; try exact _;
      intros; reflexivity.
  - apply Transfer_update_source_preserves;
      auto using forward_quiet, gumbel_grows, modify_heap_grows, step_quiet; try exact _;
      intros; reflexivity.
Qed.

Lemma Joint_update_logged_once obs acs rews emps next_obs dones lg st :
  logged_once Joint.niter
    (Joint.update_transition obs acs next_obs) (Joint.update_planning obs acs next_obs)
    (Joint.update_source next_obs) lg st
    (Joint.update (obs, acs, rews, emps, next_obs, dones) (Some lg) st).
Proof.
  destruct (quiet_niter_Joint_update_steps obs acs next_obs) as (H1 & H2 & H3).
  unfold Joint.update, bind.
  specialize (H1 st).
  destruct (Joint.update_transition obs acs next_obs st) as [[tl|e] s1] eqn:Q1;
    destruct H1 as [N1 (e1 & E1 & O1)]; simpl in N1, E1;
    [|exists e1; auto].
  specialize (H2 s1).
  destruct (Joint.update_planning obs acs next_obs s1) as [[pl|e] s2] eqn:Q2;
    destruct H2 as [N2 (e2 & E2 & O2)]; simpl in N2, E2;
    [|exists (e1 ++ e2); rewrite E2, E1, app_assoc, forallb_app, O1, O2;
      unfold on in *; repeat split; congruence].
  specialize (H3 s2).
  destruct (Joint.update_source next_obs s2) as [[ir|e] s3] eqn:Q3;
    destruct H3 as [N3 (e3 & E3 & O3)]; simpl in N3, E3;
    [|exists (e1 ++ e2 ++ e3); rewrite E3, E2, E1, !app_assoc, !forallb_app, O1, O2, O3;
      unfold on in *; repeat split; congruence].
  simpl. exists tl, pl, ir, s1, s2, s3, (e1 ++ e2 ++ e3).
  split; [exact Q1|]. split; [exact Q2|]. split; [exact Q3|].
  unfold on in *. rewrite E3, E2, E1, !forallb_app, O1, O2, O3, N3, N2, N1.
  rewrite <- !app_assoc. repeat split; reflexivity.
Qed.

Lemma Transfer_update_logged_once obs acs rews emps next_obs dones lg st :
  logged_once Transfer.niter
    (Transfer.update_transition obs acs next_obs) (Transfer.update_planning obs acs next_obs)
    (Transfer.update_source next_obs) lg st
    (Transfer.update (obs, acs, rews, emps, next_obs, dones) (Some lg) st).
Proof.
  destruct (quiet_niter_Transfer_update_steps obs acs next_obs) as (H1 & H2 & H3).
  unfold Transfer.update, bind.
  specialize (H1 st).
  destruct (Transfer.update_transition obs acs next_obs st) as [[tl|e] s1] eqn:Q1;
    destruct H1 as [N1 (e1 & E1 & O1)]; simpl in N1, E1;
    [|exists e1; auto].
  specialize (H2 s1).
  destruct (Transfer.update_planning obs acs next_obs s1) as [[pl|e] s2] eqn:Q2;
    destruct H2 as [N2 (e2 & E2 & O2)]; simpl in N2, E2;
    [|exists (e1 ++ e2); rewrite E2, E1, app_assoc, forallb_app, O1, O2;
      unfold on in *; repeat split; congruence].
  specialize (H3 s2).
  destruct (Transfer.update_source next_obs s2) as [[ir|e] s3] eqn:Q3;
    destruct H3 as [N3 (e3 & E3 & O3)]; simpl in N3, E3;
    [|exists (e1 ++ e2 ++ e3); rewrite E3, E2, E1, !app_assoc, !forallb_app, O1, O2, O3;
      unfold on in *; repeat split; congruence].
  simpl. exists tl, pl, ir, s1, s2, s3, (e1 ++ e2 ++ e3).
  split; [exact Q1|]. split; [exact Q2|]. split; [exact Q3|].
  unfold on in *. rewrite E3, E2, E1, !forallb_app, O1, O2, O3, N3, N2, N1.
  rewrite <- !app_assoc. repeat split; reflexivity.
Qed.

Lemma seq_cons_shift (k d : nat) : k :: seq (k + 1) d = seq k (S d).
Proof. simpl. rewrite Nat.add_1_r. reflexivity. Qed.

Lemma Joint_updates_logged_in_order samples lg st :
  logged_in_order Joint.niter samples st (Joint.updates samples (Some lg) st).
Proof.
  revert st. induction samples as [|sample rest IH]; intros st.
  - exists []. simpl. rewrite app_nil_r, Nat.sub_diag. simpl.
    repeat split; auto with lia.
  - simpl. unfold bind.
    destruct sample as [[[[[obs acs] rews] emps] next_obs] dones].
    pose proof (Joint_update_logged_once obs acs rews emps next_obs dones lg st) as H1.
    destruct (Joint.update (obs, acs, rews, emps, next_obs, dones) (Some lg) st)
      as [[[]|e] s1]; simpl in H1.
    + destruct H1 as (tl & pl & ir & u1 & u2 & u3 & evs & _ & _ & _ & E0 & O1 & E1 & N1).
      rewrite E0 in E1.
      specialize (IH s1). unfold logged_in_order in *.
      destruct (Joint.updates rest (Some lg) s1) as [r s2]; simpl in *.
      destruct IH as (evs2 & E2 & L2 & Le & Hr).
      eexists. rewrite E2, E1. rewrite <- !app_assoc. split; [reflexivity|].
      rewrite !logged_steps_app, (logged_steps_not_log _ O1), L2. simpl.
      rewrite N1 in *. split; [|split; [lia|intros Hret; rewrite (Hr Hret); lia]].
      replace (Joint.niter s2.1 - Joint.niter st.1)
        with (S (Joint.niter s2.1 - (Joint.niter st.1 + 1))) by lia.
      apply seq_cons_shift.
    + destruct H1 as (evs & E1 & O1 & N1).
      exists evs. simpl. rewrite (logged_steps_not_log _ O1), N1, Nat.sub_diag.
      repeat split; auto; intros; discriminate.
Qed.

Lemma Transfer_updates_logged_in_order samples lg st :
  logged_in_order Transfer.niter samples st (Transfer.updates samples (Some lg) st).
Proof.
  revert st. induction samples as [|sample rest IH]; intros st.
  - exists []. simpl. rewrite app_nil_r, Nat.sub_diag. simpl.
    repeat split; auto with lia.
  - simpl. unfold bind.
    destruct sample as [[[[[obs acs] rews] emps] next_obs] dones].
    pose proof (Transfer_update_logged_once obs acs rews emps next_obs dones lg st) as H1.
    destruct (Transfer.update (obs, acs, rews, emps, next_obs, dones) (Some lg) st)
      as [[[]|e] s1]; simpl in H1.
    + destruct H1 as (tl & pl & ir & u1 & u2 & u3 & evs & _ & _ & _ & E0 & O1 & E1 & N1).
      rewrite E0 in E1.
      specialize (IH s1). unfold logged_in_order in *.
      destruct (Transfer.updates rest (Some lg) s1) as [r s2]; simpl in *.
      destruct IH as (evs2 & E2 & L2 & Le & Hr).
      eexists. rewrite E2, E1. rewrite <- !app_assoc. split; [reflexivity|].
      rewrite !logged_steps_app, (logged_steps_not_log _ O1), L2. simpl.
      rewrite N1 in *. split; [|split; [lia|intros Hret; rewrite (Hr Hret); lia]].
      replace (Transfer.niter s2.1 - Transfer.niter st.1)
        with (S (Transfer.niter s2.1 - (Transfer.niter st.1 + 1))) by lia.
      apply seq_cons_shift.
    + destruct H1 as (evs & E1 & O1 & N1).
      exists evs. simpl. rewrite (logged_steps_not_log _ O1), N1, Nat.sub_diag.
      repeat split; auto; intros; discriminate.
Qed.

End Logging.

(** ** Which parameters the joint estimator's optimizers write *)

Section Wiring.
Context `{T : Torch}.

Lemma Adam_new_param_groups {S : Type} params lr (s s' : S) opt :
  lift (Adam_new params lr) s = (Return opt, s') -> param_groups opt = params /\ s' = s.
Proof.
  unfold lift. destruct params; simpl; [discriminate|]. intros [= <- <-]. auto.
Qed.

Lemma Joint_init_wired p lr w est w' :
  Joint.init p lr w = (Return est, w') -> joint_wired est.
Proof.
  unfold Joint.init. intros H.
  apply bind_Return in H as (n1 & w1 & E1 & H).
  apply bind_Return in H as (n2 & w2 & E2 & H).
  apply bind_Return in H as (n3 & w3 & E3 & H).
  apply bind_Return in H as (o1 & w4 & O1 & H).
  apply bind_Return in H as (o2 & w5 & O2 & H).
  apply bind_Return in H as (o3 & w6 & O3 & H).
  apply Adam_new_param_groups in O1 as [O1 _], O2 as [O2 _], O3 as [O3 _].
  injection H as <- _.
  rewrite MLPNetwork_new_eq in E1. injection E1 as <- <-.
  rewrite MLPNetwork_new_eq in E2. injection E2 as <- <-.
  rewrite MLPNetwork_new_eq in E3. injection E3 as <- _.
  unfold joint_wired. simpl in *.
  repeat split; try assumption.
  rewrite !length_app, !length_map.
  rewrite <- !seq_app. apply NoDup_seq.
Qed.

Lemma joint_wired_wiring est est' :
  joint_wiring est' = joint_wiring est -> joint_wired est -> joint_wired est'.
Proof.
  unfold joint_wiring, joint_wired.
  intros [= -> -> -> -> -> ->]. auto.
Qed.

Lemma step_keeps_joint_wiring :
  (forall e h, on joint_wiring e
     (Joint.set_transition_optimizer (fst (step (Joint.transition_optimizer e) h)) e)) /\
  (forall e h, on joint_wiring e
     (Joint.set_planning_optimizer (fst (step (Joint.planning_optimizer e) h)) e)) /\
  (forall e h, on joint_wiring e
     (Joint.set_source_optimizer (fst (step (Joint.source_optimizer e) h)) e)).
Proof.
  repeat split; intros e h; unfold on, joint_wiring; simpl;
    rewrite (proj1 (step_param_groups _ _)); reflexivity.
Qed.

Lemma Joint_update_keeps_wiring sample lg :
  preserves (both (on joint_wiring) (fun _ _ => True)) (Joint.update sample lg).
Proof.
  destruct sample as [[[[[obs acs] rews] emps] next_obs] dones].
  destruct step_keeps_joint_wiring as (K1 & K2 & K3).
  assert (Hs : forall w opt,
             (fun _ _ : World => True) w
               (mkWorld (snd (step opt (heap w))) (torch_rng w) (trace w)))
    by (intros; exact I).
  assert (Hh : forall f, preserves (fun _ _ : World => True) (modify_heap f))
    by (intros f w; exact I).
  assert (Ha : forall lg' tag sc k,
             preserves (fun _ _ : World => True) (add_scalars lg' tag sc k))
    by (intros ? ? ? ? w; exact I).
  assert (H1 : preserves (both (on joint_wiring) (fun _ _ => True))
                 (Joint.update_transition obs acs next_obs))
    by (apply Joint_update_transition_preserves;
        auto using forward_True, gumbel_True; exact _).
  assert (H2 : preserves (both (on joint_wiring) (fun _ _ => True))
                 (Joint.update_planning obs acs next_obs))
    by (apply Joint_update_planning_preserves;
        auto using forward_True, gumbel_True; exact _).
  assert (H3 : preserves (both (on joint_wiring) (fun _ _ => True))
                 (Joint.update_source next_obs))
    by (apply Joint_update_source_preserves;
        auto using forward_True, gumbel_True; exact _).
  unfold Joint.update. pres.
Qed.

(** Step 3 writes no parameter outside those of the source and planning
    approximators. *)
Lemma Joint_update_source_frame next_obs st :
  joint_wired (fst st) ->
  frame_outside (parameters (Joint.source (fst st)) ++ parameters (Joint.planning (fst st)))
                (snd st) (snd (snd (Joint.update_source next_obs st))).
Proof.
  intros (_ & _ & Hgroups & _).
  set (A := parameters (Joint.source (fst st)) ++ parameters (Joint.planning (fst st))) in *.
  set (f := fun e => param_groups (Joint.source_optimizer e)).
  assert (Hloops : forall {X} (c : M _ X),
             preserves (both (on f) (frame_outside A)) c ->
             preserves (guarded_on f A (frame_outside A)) c)
    by (intros X c; apply preserves_guarded).
  assert (Hsrc := fun l => Hloops _ _ (Joint_source_loop_preserves (on f) (frame_outside A)
                              (forward_frame A) (gumbel_frame A) l)).
  assert (Hplan := fun t n i l => Hloops _ _ (Joint_plan_loop_preserves (on f) (frame_outside A)
                              (forward_frame A) (gumbel_frame A) t n i l)).
  assert (Hw : forall {X} (c : M World X), preserves (frame_outside A) c ->
             preserves (guarded_on f A (frame_outside A))
                       (@in_world _ Joint.VariationalJointEmpowerment X c)).
  { intros X c Hc. apply Hloops. apply preserves_in_world; try exact _. exact Hc. }
  assert (Hstep : preserves (guarded_on f A (frame_outside A))
                    (optimizer_step Joint.source_optimizer Joint.set_source_optimizer)).
  { intros [e w] Hk. unfold optimizer_step. simpl in *.
    pose proof (step_param_groups (Joint.source_optimizer e) (heap w)) as [Hg _].
    pose proof (step_length (Joint.source_optimizer e) (heap w)) as Hl.
    pose proof (step_frame (Joint.source_optimizer e) (heap w)) as Hf.
    destruct (step (Joint.source_optimizer e) (heap w)) as [opt' h']. simpl in *.
    unfold f in Hk |- *. simpl. split; [rewrite Hg; exact Hk|].
    split; [exact Hl|]. intros a Ha. apply Hf. rewrite Hk. exact Ha. }
  assert (Hbody : guarded_on f A (frame_outside A) st
                    (snd (Joint.update_source next_obs st))).
  { unfold Joint.update_source.
    change (bind get_self ?k st) with (k (fst st) st).
    match goal with
    | |- guarded_on _ _ _ _ (snd (?c st)) =>
        cut (preserves (guarded_on f A (frame_outside A)) c); [intros Hc; apply Hc|]
    end.
    apply preserves_bind; try exact _.
    { apply Hw. apply zero_grad_frame_outside. intros a Ha. rewrite <- Hgroups. exact Ha. }
    intros _.
    apply preserves_bind; try exact _.
    { apply Hloops. apply preserves_get_rng; exact _. }
    intros noise.
    apply preserves_bind; try exact _; [apply Hsrc|intros [acs_src prob_src]].
    apply preserves_bind; try exact _; [apply preserves_lift; exact _|intros trans_in].
    apply preserves_bind; try exact _; [apply Hw, forward_frame|intros trans_out].
    apply preserves_bind; try exact _; [apply preserves_lift; exact _|intros n_obs].
    apply preserves_bind; try exact _; [apply Hplan|intros prob_plan].
    do 6 (apply preserves_bind; try exact _; [apply preserves_lift; exact _|intros ?]).
    apply preserves_bind; try exact _.
    { apply Hw. apply backward_frame_outside. auto. }
    intros _.
    apply preserves_bind; try exact _; [exact Hstep|intros _].
    apply preserves_ret; exact _. }
  apply Hbody. exact Hgroups.
Qed.

End Wiring.

(** ** Shapes *)

Section Shapes.
Context `{T : Torch}.

Lemma has_shape_width (B c : nat) (t : tensor) :
  has_shape B c t -> 1 <= B -> width t = c.
Proof.
  intros [HB Hc] Hpos. destruct t as [|row t]; simpl in *; [lia|].
  apply Forall_cons in Hc as [Hrow _]. exact Hrow.
Qed.

Lemma has_shape_tabulate (r c : nat) (f : nat -> nat -> scalar) :
  has_shape r c (tabulate r c f).
Proof.
  unfold has_shape, tabulate. split.
  - rewrite length_map, length_seq. reflexivity.
  - apply List.Forall_map, Forall_forall. intros i _.
    rewrite length_map, length_seq. reflexivity.
Qed.

Lemma has_shape_imap (r c : nat) (f : nat -> nat -> scalar) (t : tensor) :
  has_shape r c t ->
  has_shape r c (imap (fun i row => imap (fun j _ => f i j) row) t).
Proof.
  intros [Hr Hc]. split.
  - rewrite length_imap. exact Hr.
  - apply Forall_lookup. intros i row Hi.
    apply list_lookup_imap_Some in Hi as (row0 & E & ->).
    rewrite length_imap.
    exact (proj1 (Forall_lookup _ _) Hc i row0 E).
Qed.

Lemma has_shape_zip_app (B c1 c2 : nat) (t u : tensor) :
  has_shape B c1 t -> has_shape B c2 u -> has_shape B (c1 + c2) (zip_with app t u).
Proof.
  intros [Ht Hct] [Hu Hcu]. split.
  - rewrite length_zip_with. lia.
  - apply Forall_lookup. intros i row Hi.
    apply lookup_zip_with_Some in Hi as (r1 & r2 & -> & H1 & H2).
    rewrite length_app.
    rewrite (proj1 (Forall_lookup _ _) Hct i r1 H1).
    rewrite (proj1 (Forall_lookup _ _) Hcu i r2 H2). reflexivity.
Qed.

Lemma has_shape_fold_zip_app (B c : nat) (cs : list nat) (t : tensor) (rest : list tensor) :
  has_shape B c t ->
  Forall2 (has_shape B) cs rest ->
  has_shape B (c + sum_list cs) (fold_left (zip_with app) rest t).
Proof.
  intros Ht Hrest. revert c t Ht.
  induction Hrest as [|c1 u cs rest Hu Hrest IH]; intros c t Ht; simpl.
  - rewrite Nat.add_0_r. exact Ht.
  - rewrite Nat.add_assoc. apply IH. apply has_shape_zip_app; assumption.
Qed.

Lemma same_rows (B : nat) (cs : list nat) (ts : list tensor) :
  Forall2 (has_shape B) cs ts ->
  forallb (fun u : tensor => length u =? B) ts = true.
Proof.
  induction 1 as [|c u cs ts [Hu _] _ IH]; simpl; [reflexivity|].
  rewrite IH, Hu, Nat.eqb_refl. reflexivity.
Qed.

(** [torch.cat] of tensors with a common number of rows returns, and the
    width of the result is the sum of the widths. *)
Lemma cat1_shape (B : nat) (cs : list nat) (ts : list tensor) :
  ts <> [] ->
  Forall2 (has_shape B) cs ts ->
  exists t, cat1 ts = Return t /\ has_shape B (sum_list cs) t.
Proof.
  intros Hne H. destruct H as [|c t cs rest Ht Hrest]; [congruence|].
  unfold cat1. pose proof (same_rows B cs rest Hrest) as Hall.
  rewrite <- (proj1 Ht) in Hall. rewrite Hall.
  eexists. split; [reflexivity|].
  simpl. apply has_shape_fold_zip_app; assumption.
Qed.

Lemma Forall2_replicate_l {A B' : Type} (P : A -> B' -> Prop) (x : A) (l : list B') :
  Forall (P x) l -> Forall2 P (replicate (length l) x) l.
Proof. induction 1; simpl; constructor; assumption. Qed.

Lemma sum_list_replicate (n c : nat) : sum_list (replicate n c) = n * c.
Proof. induction n as [|n IH]; simpl; [reflexivity|]. rewrite IH. reflexivity. Qed.

(** The uniform case: [n] tensors of one width. *)
Lemma cat1_shape_uniform (B c : nat) (ts : list tensor) :
  ts <> [] ->
  Forall (has_shape B c) ts ->
  exists t, cat1 ts = Return t /\ has_shape B (length ts * c) t.
Proof.
  intros Hne H. rewrite <- sum_list_replicate.
  apply cat1_shape; [exact Hne|]. apply Forall2_replicate_l.
  eapply Forall_impl; [exact H|]. auto.
Qed.

Lemma cat1_pair (B c1 c2 : nat) (x y : tensor) :
  has_shape B c1 x -> has_shape B c2 y ->
  cat1 [x; y] = Return (zip_with app x y) /\
  has_shape B (c1 + c2) (zip_with app x y).
Proof.
  intros Hx Hy. unfold cat1. simpl.
  rewrite (proj1 Hx), (proj1 Hy), Nat.eqb_refl. simpl.
  split; [reflexivity | apply has_shape_zip_app; assumption].
Qed.

Lemma has_shape_slice_cols (B c a b : nat) (t : tensor) :
  has_shape B c t -> a <= b -> b <= c -> has_shape B (b - a) (slice_cols a b t).
Proof.
  intros [HB Hc] Hab Hbc. unfold slice_cols. split.
  - rewrite length_map. exact HB.
  - apply List.Forall_map. eapply Forall_impl; [exact Hc|].
    intros row Hrow. simpl in *. rewrite length_take, length_drop. lia.
Qed.

Lemma expand_id {A : Type} (n : nat) (l : list A) : length l = n -> expand n l = l.
Proof.
  intros H. destruct l as [|a [|b l]]; simpl in *; try reflexivity.
  subst n. reflexivity.
Qed.

Lemma map_expand_id (c : nat) (t : tensor) :
  Forall (fun row => length row = c) t -> map (expand c) t = t.
Proof.
  induction 1 as [|row t Hrow _ IH]; simpl; [reflexivity|].
  rewrite IH, (expand_id c row Hrow). reflexivity.
Qed.

Lemma has_shape_zip_with_op (B c : nat) (op : scalar -> scalar -> scalar) (x y : tensor) :
  has_shape B c x -> has_shape B c y -> has_shape B c (zip_with (zip_with op) x y).
Proof.
  intros [Hx Hcx] [Hy Hcy]. split.
  - rewrite length_zip_with. lia.
  - apply Forall_lookup. intros i row Hi.
    apply lookup_zip_with_Some in Hi as (r1 & r2 & -> & H1 & H2).
    rewrite length_zip_with.
    rewrite (proj1 (Forall_lookup _ _) Hcx i r1 H1).
    rewrite (proj1 (Forall_lookup _ _) Hcy i r2 H2). lia.
Qed.

(** An elementwise operation on two tensors of one shape returns a tensor
    of that shape. *)
Lemma ewise_shape (B c : nat) (op : scalar -> scalar -> scalar) (x y : tensor) :
  1 <= B -> has_shape B c x -> has_shape B c y ->
  exists z, ewise op x y = Return z /\ has_shape B c z.
Proof.
  intros HB Hx Hy. unfold ewise.
  rewrite (has_shape_width B c x Hx HB), (has_shape_width B c y Hy HB).
  rewrite (proj1 Hx), (proj1 Hy). unfold bdim. rewrite !Nat.eqb_refl.
  rewrite (map_expand_id c x (proj2 Hx)), (map_expand_id c y (proj2 Hy)).
  rewrite (expand_id B x (proj1 Hx)), (expand_id B y (proj1 Hy)).
  eexists. split; [reflexivity|]. apply has_shape_zip_with_op; assumption.
Qed.

(** The array [compute] returns. *)
Lemma numpy_scale_ones (s : scalar) (n : nat) :
  numpy (scale s (ones 1 n)) = NDArray [1; n] (replicate n (smul s sone)).
Proof.
  unfold numpy, scale, ones. simpl.
  assert (Hmap : map (smul s) (replicate n sone) = replicate n (smul s sone)).
  { induction n as [|n IH]; simpl; [reflexivity|]. rewrite IH. reflexivity. }
  rewrite Hmap, app_nil_r, length_replicate. reflexivity.
Qed.

End Shapes.

(** ** Well-shaped calls return *)

Section Returns.
Context `{T : Torch}.

Lemma bind_get_self {E B : Type} (k : E -> M (E * World) B) (s : E * World) :
  bind get_self k s = k (fst s) s.
Proof. reflexivity. Qed.

Lemma bind_lift_Return {S A B : Type} (a : A) (k : A -> M S B) (s : S) :
  bind (lift (Return a)) k s = k a s.
Proof. reflexivity. Qed.

Lemma forallb_width (c : nat) (x : tensor) :
  Forall (fun row => length row = c) x ->
  forallb (fun row => length row =? c) x = true.
Proof.
  induction 1 as [|row x Hrow _ IH]; simpl; [reflexivity|].
  rewrite IH, Hrow, Nat.eqb_refl. reflexivity.
Qed.

Lemma forward_returns (net : MLPNetwork) (x : tensor) (w : World) (B : nat) :
  has_shape B (input_dim net) x ->
  forward net x w =
    (Return (forward_value net (heap w) x),
     mkWorld (heap w) (torch_rng w) (trace w ++ [Forward net x])) /\
  has_shape B (out_dim net) (forward_value net (heap w) x).
Proof.
  intros [HB Hc]. unfold forward, bind, emit, modify, get. simpl.
  rewrite (forallb_width _ _ Hc). split; [reflexivity|].
  unfold forward_value. rewrite HB. apply has_shape_tabulate.
Qed.

Lemma in_world_forward_returns {E : Type} (e : E) (net : MLPNetwork) (x : tensor)
    (w : World) (B : nat) :
  has_shape B (input_dim net) x ->
  in_world (forward net x) (e, w) =
    (Return (forward_value net (heap w) x),
     (e, mkWorld (heap w) (torch_rng w) (trace w ++ [Forward net x]))) /\
  has_shape B (out_dim net) (forward_value net (heap w) x).
Proof.
  intros Hx. destruct (forward_returns net x w B Hx) as [E1 S1].
  split; [|exact S1]. unfold in_world. simpl. rewrite E1. reflexivity.
Qed.

Lemma in_world_gumbel_returns {E : Type} (e : E) (logits : tensor) (d : string)
    (h : bool) (w : World) (B c : nat) :
  has_shape B c logits ->
  exists y,
    in_world (gumbel_softmax logits d h) (e, w) =
      (Return y, (e, mkWorld (heap w) (gumbel_next logits (torch_rng w)) (trace w))) /\
    has_shape B c y.
Proof.
  intros Hl. eexists. split; [reflexivity|].
  apply (has_shape_imap B c (gumbel_fn logits d h (torch_rng w))). exact Hl.
Qed.

(** Stacking the columns of a well-formed input. *)

Lemma column_returns (B : nat) (ws : list nat) (next_obs : list (list (list scalar)))
    (i wd : nat) :
  batch_of B ws next_obs -> ws !! i = Some wd ->
  exists col, column i next_obs = Return col /\
              length col = B /\ Forall (fun v => length v = wd) col.
Proof.
  intros [HB Hrows] Hi. subst B.
  induction Hrows as [|row rest Hrow _ IH]; simpl.
  - exists []. repeat split. constructor.
  - destruct (Forall2_lookup_r _ _ _ _ _ Hrow Hi) as (v & Hv & Hlen).
    destruct IH as (col & Ecol & Hcol & Hall).
    rewrite Hv, Ecol. exists (v :: col). repeat split; simpl; auto.
Qed.

Lemma vstack_returns (B wd : nat) (col : list (list scalar)) :
  1 <= B -> length col = B -> Forall (fun v => length v = wd) col ->
  vstack col = Return col /\ has_shape B wd col.
Proof.
  intros HB Hlen Hall. unfold vstack.
  destruct col as [|v rest]; simpl in *; [lia|].
  apply Forall_cons in Hall as Hall'. destruct Hall' as [Hv Hrest].
  assert (Hf : forallb (fun u : list scalar => length u =? length v) rest = true).
  { rewrite Hv. apply forallb_width. exact Hrest. }
  rewrite Hf. split; [reflexivity|]. split; [exact Hlen | exact Hall].
Qed.

Lemma stack_columns_from {E : Type} (B : nat) (ws : list nat)
    (next_obs : list (list (list scalar))) (s : E * World) (suf pre : list nat) :
  1 <= B -> batch_of B ws next_obs -> ws = pre ++ suf ->
  exists nos,
    mapM (fun i => col <- lift (column i next_obs) ;; lift (vstack col))
         (seq (length pre) (length suf)) s = (Return nos, s) /\
    Forall2 (has_shape B) suf nos.
Proof.
  intros HB Hbatch. revert pre.
  induction suf as [|wd suf IH]; intros pre Hws; simpl.
  - exists []. split; [reflexivity | constructor].
  - assert (Hi : ws !! length pre = Some wd).
    { rewrite Hws. rewrite lookup_app_r by lia. rewrite Nat.sub_diag. reflexivity. }
    destruct (column_returns B ws next_obs _ wd Hbatch Hi) as (col & Ecol & Hlen & Hall).
    destruct (vstack_returns B wd col HB Hlen Hall) as [Ev Hsh].
    destruct (IH (pre ++ [wd])) as (nos & Enos & Hnos).
    { rewrite <- app_assoc. exact Hws. }
    rewrite length_app in Enos. simpl in Enos. rewrite Nat.add_1_r in Enos.
    exists (col :: nos). split; [|constructor; assumption].
    assert (Hf : (col <- lift (column (length pre) next_obs) ;; lift (vstack col)) s
                 = (Return col, s)).
    { unfold bind, lift. rewrite Ecol, Ev. reflexivity. }
    rewrite (bind_eq_Return _ _ _ _ _ Hf), (bind_eq_Return _ _ _ _ _ Enos).
    reflexivity.
Qed.

Lemma stack_columns_returns {E : Type} (B : nat) (ws : list nat)
    (next_obs : list (list (list scalar))) (s : E * World) :
  1 <= B -> batch_of B ws next_obs ->
  exists nos,
    mapM (fun i => col <- lift (column i next_obs) ;; lift (vstack col))
         (seq 0 (length ws)) s = (Return nos, s) /\
    Forall2 (has_shape B) ws nos.
Proof.
  intros HB Hbatch. exact (stack_columns_from B ws next_obs s ws [] HB Hbatch eq_refl).
Qed.

(** The joint estimator *)

Lemma Joint_source_loop_returns est (B wd a : nat) (nos : list tensor) (w : World) :
  input_dim (Joint.source est) = wd -> out_dim (Joint.source est) = a ->
  Forall (has_shape B wd) nos ->
  exists acs probs w',
    Joint.source_loop nos (est, w) = (Return (acs, probs), (est, w')) /\
    Forall (has_shape B a) acs /\ Forall (has_shape B a) probs /\
    length acs = length nos /\ length probs = length nos.
Proof.
  intros Hin Hout Hall. revert w.
  induction Hall as [|no rest Hno _ IH]; intros w.
  - exists [], [], w. repeat split; constructor.
  - change (Joint.source_loop (no :: rest)) with
      (self <- get_self ;;
       logits <- in_world (forward (Joint.source self) no) ;;
       a <- in_world (gumbel_softmax logits (Joint.source_dev self) true) ;;
       logits <- in_world (forward (Joint.source self) no) ;;
       p <- in_world (gumbel_softmax logits (Joint.source_dev self) false) ;;
       r <- Joint.source_loop rest ;;
       ret (a :: fst r, p :: snd r)).
    rewrite bind_get_self. cbn [fst snd].
    rewrite <- Hin in Hno.
    destruct (in_world_forward_returns est _ no w B Hno) as [E1 S1].
    rewrite (bind_eq_Return _ _ _ _ _ E1). rewrite Hout in S1.
    destruct (in_world_gumbel_returns est _ (Joint.source_dev est) true
                (mkWorld (heap w) (torch_rng w) (trace w ++ [Forward (Joint.source est) no]))
                B a S1) as (y1 & E2 & S2).
    rewrite (bind_eq_Return _ _ _ _ _ E2).
    match type of E2 with _ = (_, (_, ?w2)) =>
      destruct (in_world_forward_returns est _ no w2 B Hno) as [E3 S3];
      rewrite (bind_eq_Return _ _ _ _ _ E3); rewrite Hout in S3;
      match type of E3 with _ = (_, (_, ?w3)) =>
        destruct (in_world_gumbel_returns est _ (Joint.source_dev est) false w3 B a S3)
          as (y2 & E4 & S4);
        rewrite (bind_eq_Return _ _ _ _ _ E4);
        match type of E4 with _ = (_, (_, ?w4)) =>
          destruct (IH w4) as (acs & probs & w' & E5 & A5 & P5 & L5 & L6)
        end
      end
    end.
    rewrite (bind_eq_Return _ _ _ _ _ E5).
    exists (y1 :: acs), (y2 :: probs), w'. cbn [fst snd length].
    repeat split; try constructor; auto.
Qed.

Lemma Joint_plan_loop_returns est (B wd a c : nat) (trans_out : tensor)
    (nos : list tensor) (i : nat) (w : World) :
  input_dim (Joint.planning est) = wd + wd -> out_dim (Joint.planning est) = a ->
  has_shape B c trans_out -> (i + length nos) * wd <= c ->
  Forall (has_shape B wd) nos ->
  exists probs w',
    Joint.plan_loop trans_out wd i nos (est, w) = (Return probs, (est, w')) /\
    Forall (has_shape B a) probs /\ length probs = length nos.
Proof.
  intros Hin Hout Htrans Hfit Hall. revert i w Hfit.
  induction Hall as [|no rest Hno _ IH]; intros i w Hfit.
  - exists [], w. repeat split; constructor.
  - change (Joint.plan_loop trans_out wd i (no :: rest)) with
      (plan_in <- lift (cat1 [no; slice_cols (i * wd) ((i + 1) * wd) trans_out]) ;;
       self <- get_self ;;
       logits <- in_world (forward (Joint.planning self) plan_in) ;;
       p <- in_world (gumbel_softmax logits (Joint.plan_dev self) false) ;;
       ps <- Joint.plan_loop trans_out wd (S i) rest ;;
       ret (p :: ps)).
    simpl length in Hfit.
    assert (Hslice : has_shape B wd (slice_cols (i * wd) ((i + 1) * wd) trans_out)).
    { replace wd with ((i + 1) * wd - i * wd) at 1 by lia.
      apply (has_shape_slice_cols B c); [exact Htrans | lia | nia]. }
    destruct (cat1_pair B wd wd no _ Hno Hslice) as [Ecat Scat].
    rewrite Ecat, bind_lift_Return, bind_get_self. cbn [fst snd].
    rewrite <- Hin in Scat.
    destruct (in_world_forward_returns est _ _ w B Scat) as [E1 S1].
    rewrite (bind_eq_Return _ _ _ _ _ E1). rewrite Hout in S1.
    match type of E1 with _ = (_, (_, ?w1)) =>
      destruct (in_world_gumbel_returns est _ (Joint.plan_dev est) false w1 B a S1)
        as (y & E2 & S2);
      rewrite (bind_eq_Return _ _ _ _ _ E2);
      match type of E2 with _ = (_, (_, ?w2)) =>
        destruct (IH (S i) w2) as (probs & w' & E3 & P3 & L3); [lia|]
      end
    end.
    rewrite (bind_eq_Return _ _ _ _ _ E3).
    exists (y :: probs), w'. cbn [length].
    repeat split; try constructor; auto.
Qed.

Lemma Forall2_replicate_l_inv {A B' : Type} (P : A -> B' -> Prop) (n : nat) (x : A)
    (l : list B') :
  Forall2 P (replicate n x) l -> Forall (P x) l /\ length l = n.
Proof.
  revert l. induction n as [|n IH]; intros l H; simpl in H.
  - apply Forall2_nil_inv_l in H. subst l. split; [constructor | reflexivity].
  - apply Forall2_cons_inv_l in H as (y & l' & Hy & Hl & ->).
    destruct (IH l' Hl) as [Hall Hlen]. split; [constructor; assumption|].
    simpl. rewrite Hlen. reflexivity.
Qed.

Lemma len_0_0_returns (B wd : nat) (nos : list tensor) :
  1 <= B -> nos <> [] -> Forall (has_shape B wd) nos -> len_0_0 nos = Return wd.
Proof.
  intros HB Hne Hall. destruct nos as [|no nos]; [congruence|].
  apply Forall_cons in Hall as [[Hlen Hrows] _].
  destruct no as [|row no]; simpl in *; [lia|].
  apply Forall_cons in Hrows as [Hrow _]. rewrite Hrow. reflexivity.
Qed.

Lemma nonempty_length {A : Type} (l : list A) : 1 <= length l -> l <> [].
Proof. destruct l; simpl; [lia | congruence]. Qed.

(** [compute] returns on a well-shaped input. *)
Lemma Joint_compute_returns est (n B wd a : nat) (rewards : ndarray)
    (next_obs : list (list (list scalar))) (w : World) :
  joint_sized est n wd a ->
  shape rewards !! 1 = Some n -> 1 <= n -> 1 <= B ->
  batch_of B (replicate n wd) next_obs ->
  exists v w',
    Joint.compute rewards next_obs (est, w) =
      (Return (NDArray [1; n] (replicate n v)), (est, w')).
Proof.
  intros (Ht & Hs & Hp) Hshape Hn HB Hbatch.
  unfold dims in Ht, Hs, Hp.
  injection Ht as Hti Hto. injection Hs as Hsi Hso. injection Hp as Hpi Hpo.
  unfold Joint.compute, shape_at. rewrite Hshape, bind_lift_Return.
  destruct (stack_columns_returns B (replicate n wd) next_obs (est, w) HB Hbatch)
    as (nos & Enos & Hnos).
  rewrite length_replicate in Enos. rewrite (bind_eq_Return _ _ _ _ _ Enos).
  apply Forall2_replicate_l_inv in Hnos as [Hnos Hlen].
  destruct (Joint_source_loop_returns est B wd a nos w Hsi Hso Hnos)
    as (acs & probs & w1 & E1 & Hacs & Hprobs & Lacs & Lprobs).
  rewrite (bind_eq_Return _ _ _ _ _ E1). cbv beta iota.
  assert (Hne : nos <> []) by (apply nonempty_length; lia).
  destruct (cat1_shape B (replicate (length nos) wd ++ replicate (length acs) a)
              (nos ++ acs)) as (trans_in & Ecat & Scat).
  { destruct nos; [congruence | discriminate]. }
  { apply Forall2_app; apply Forall2_replicate_l; assumption. }
  rewrite Ecat, bind_lift_Return, bind_get_self. cbn [fst snd].
  rewrite sum_list_with_app, !sum_list_replicate, Lacs, Hlen in Scat.
  replace (n * wd + n * a) with (input_dim (Joint.transition est)) in Scat by lia.
  destruct (in_world_forward_returns est _ trans_in w1 B Scat) as [E2 S2].
  rewrite (bind_eq_Return _ _ _ _ _ E2). rewrite Hto in S2.
  rewrite (len_0_0_returns B wd nos HB Hne Hnos), bind_lift_Return.
  match type of E2 with _ = (Return ?t, (_, ?w2)) =>
    destruct (Joint_plan_loop_returns est B wd a (n * wd) t nos 0 w2)
      as (plans & w3 & E3 & Hplans & Lplans); auto; try lia
  end.
  rewrite (bind_eq_Return _ _ _ _ _ E3).
  destruct (cat1_shape_uniform B a plans) as (pp & Epp & Spp);
    [apply nonempty_length; lia | exact Hplans |].
  destruct (cat1_shape_uniform B a probs) as (ps & Eps & Sps);
    [apply nonempty_length; lia | exact Hprobs |].
  destruct (cat1_shape_uniform B a acs) as (as' & Eas & Sas);
    [apply nonempty_length; lia | exact Hacs |].
  rewrite Epp, bind_lift_Return, Eps, bind_lift_Return, Eas, bind_lift_Return.
  rewrite Lplans in Spp. rewrite Lprobs in Sps. rewrite Lacs in Sas.
  destruct (ewise_shape B _ smul as' pp HB Sas Spp) as (x & Ex & Sx).
  destruct (ewise_shape B _ smul as' ps HB Sas Sps) as (y & Ey & Sy).
  destruct (ewise_shape B _ ssub x y HB Sx Sy) as (z & Ez & Sz).
  rewrite Ex, bind_lift_Return, Ey, bind_lift_Return, Ez, bind_lift_Return.
  rewrite numpy_scale_ones. eexists _, w3. reflexivity.
Qed.

(** The transfer estimator *)

Lemma Transfer_source_loop_returns est (B : nat) (ws acts : list nat)
    (nos : list tensor) (nets : list MLPNetwork) (w : World) :
  Forall2 (has_shape B) ws nos ->
  map input_dim nets = ws -> map out_dim nets = acts ->
  exists acs probs w',
    Transfer.source_loop (zip nos nets) (est, w) = (Return (acs, probs), (est, w')) /\
    Forall2 (has_shape B) acts acs /\ Forall2 (has_shape B) acts probs.
Proof.
  intros Hall. revert nets acts w.
  induction Hall as [|wd no ws nos Hno _ IH]; intros nets acts w Hin Hout.
  - destruct nets; [|discriminate]. simpl in Hout. subst acts.
    exists [], [], w. repeat split; constructor.
  - destruct nets as [|net nets]; [discriminate|].
    simpl in Hin, Hout. injection Hin as Hi Hin. subst acts.
    change (Transfer.source_loop (zip (no :: nos) (net :: nets))) with
      (self <- get_self ;;
       logits <- in_world (forward net no) ;;
       a <- in_world (gumbel_softmax logits (Transfer.source_dev self) true) ;;
       logits <- in_world (forward net no) ;;
       p <- in_world (gumbel_softmax logits (Transfer.source_dev self) false) ;;
       r <- Transfer.source_loop (zip nos nets) ;;
       ret (a :: fst r, p :: snd r)).
    rewrite bind_get_self. cbn [fst snd].
    rewrite <- Hi in Hno.
    destruct (in_world_forward_returns est net no w B Hno) as [E1 S1].
    rewrite (bind_eq_Return _ _ _ _ _ E1).
    match type of E1 with _ = (_, (_, ?w1)) =>
      destruct (in_world_gumbel_returns est _ (Transfer.source_dev est) true w1 B _ S1)
        as (y1 & E2 & S2);
      rewrite (bind_eq_Return _ _ _ _ _ E2)
    end.
    match type of E2 with _ = (_, (_, ?w2)) =>
      destruct (in_world_forward_returns est net no w2 B Hno) as [E3 S3];
      rewrite (bind_eq_Return _ _ _ _ _ E3)
    end.
    match type of E3 with _ = (_, (_, ?w3)) =>
      destruct (in_world_gumbel_returns est _ (Transfer.source_dev est) false w3 B _ S3)
        as (y2 & E4 & S4);
      rewrite (bind_eq_Return _ _ _ _ _ E4)
    end.
    match type of E4 with _ = (_, (_, ?w4)) =>
      destruct (IH nets (map out_dim nets) w4 Hin eq_refl)
        as (acs & probs & w' & E5 & A5 & P5)
    end.
    rewrite (bind_eq_Return _ _ _ _ _ E5).
    exists (y1 :: acs), (y2 :: probs), w'. cbn [fst snd].
    repeat split; constructor; auto.
Qed.

Lemma Transfer_compute_plan_loop_returns est (B c : nat) (ws acts : list nat)
    (trans_out : tensor) (nos : list tensor) (nets : list MLPNetwork) (w : World) :
  1 <= B -> has_shape B c trans_out -> Forall (fun wd => wd <= c) ws ->
  Forall2 (has_shape B) ws nos ->
  map input_dim nets = map (fun wd => 2 * wd) ws -> map out_dim nets = acts ->
  exists probs w',
    Transfer.compute_plan_loop trans_out 0 (zip nos nets) (est, w)
      = (Return probs, (est, w')) /\
    Forall2 (has_shape B) acts probs.
Proof.
  intros HB Htrans Hfit Hall. revert nets acts w Hfit.
  induction Hall as [|wd no ws nos Hno _ IH]; intros nets acts w Hfit Hin Hout.
  - destruct nets; [|discriminate]. simpl in Hout. subst acts.
    exists [], w. repeat split; constructor.
  - destruct nets as [|net nets]; [discriminate|].
    simpl in Hin, Hout. injection Hin as Hi Hin. subst acts.
    apply Forall_cons in Hfit as [Hwd Hfit].
    change (Transfer.compute_plan_loop trans_out 0 (zip (no :: nos) (net :: nets))) with
      (plan_in <- lift (cat1 [no; slice_cols 0 (0 + width no) trans_out]) ;;
       self <- get_self ;;
       logits <- in_world (forward net plan_in) ;;
       p <- in_world (gumbel_softmax logits (Transfer.plan_dev self) false) ;;
       ps <- Transfer.compute_plan_loop trans_out 0 (zip nos nets) ;;
       ret (p :: ps)).
    rewrite (has_shape_width B wd no Hno HB).
    assert (Hslice : has_shape B wd (slice_cols 0 (0 + wd) trans_out)).
    { replace wd with (0 + wd - 0) at 1 by lia.
      apply (has_shape_slice_cols B c); [exact Htrans | lia | lia]. }
    destruct (cat1_pair B wd wd no _ Hno Hslice) as [Ecat Scat].
    rewrite Ecat, bind_lift_Return, bind_get_self. cbn [fst snd].
    replace (wd + wd) with (input_dim net) in Scat by lia.
    destruct (in_world_forward_returns est net _ w B Scat) as [E1 S1].
    rewrite (bind_eq_Return _ _ _ _ _ E1).
    match type of E1 with _ = (_, (_, ?w1)) =>
      destruct (in_world_gumbel_returns est _ (Transfer.plan_dev est) false w1 B _ S1)
        as (y & E2 & S2);
      rewrite (bind_eq_Return _ _ _ _ _ E2)
    end.
    match type of E2 with _ = (_, (_, ?w2)) =>
      destruct (IH nets (map out_dim nets) w2 Hfit Hin eq_refl) as (probs & w' & E3 & P3)
    end.
    rewrite (bind_eq_Return _ _ _ _ _ E3).
    exists (y :: probs), w'. split; [reflexivity | constructor; auto].
Qed.

Lemma elem_le_sum_list (ws : list nat) : Forall (fun wd => wd <= sum_list ws) ws.
Proof.
  induction ws as [|wd ws IH]; simpl; constructor; [lia|].
  eapply Forall_impl; [exact IH|]. simpl. intros; lia.
Qed.

Lemma sum_list_fst_snd (agents : list (nat * nat)) :
  sum_list (map (fun wa => fst wa + snd wa) agents) =
  sum_list (map fst agents) + sum_list (map snd agents).
Proof. induction agents as [|[a b] l IH]; simpl; [reflexivity|]. rewrite IH. lia. Qed.

Lemma Forall2_length_nonempty {A B' : Type} (P : A -> B' -> Prop) l k :
  Forall2 P l k -> l <> [] -> k <> [].
Proof. destruct 1; congruence. Qed.

(** [compute] returns on a well-shaped input. *)
Lemma Transfer_compute_returns est (B : nat) (agents : list (nat * nat))
    (rewards : ndarray) (next_obs : list (list (list scalar))) (w : World) :
  transfer_sized est agents ->
  shape rewards !! 1 = Some (length agents) -> 1 <= length agents -> 1 <= B ->
  batch_of B (map fst agents) next_obs ->
  exists v w',
    Transfer.compute rewards next_obs (est, w) =
      (Return (NDArray [1; length agents] (replicate (length agents) v)), (est, w')).
Proof.
  intros (Ht & Hs & Hp) Hshape Hn HB Hbatch.
  unfold dims in Ht. injection Ht as Hti Hto.
  assert (Hsi : map input_dim (Transfer.source est) = map fst agents).
  { rewrite <- Hs, !map_map. reflexivity. }
  assert (Hso : map out_dim (Transfer.source est) = map snd agents).
  { rewrite <- Hs, !map_map. reflexivity. }
  assert (Hpi : map input_dim (Transfer.planning est)
                = map (fun wd => 2 * wd) (map fst agents)).
  { rewrite map_map.
    transitivity (map fst (map dims (Transfer.planning est)));
      [rewrite map_map; reflexivity|].
    rewrite Hp, map_map. reflexivity. }
  assert (Hpo : map out_dim (Transfer.planning est) = map snd agents).
  { transitivity (map snd (map dims (Transfer.planning est)));
      [rewrite map_map; reflexivity|].
    rewrite Hp, map_map. reflexivity. }
  assert (Hne : map fst agents <> []).
  { destruct agents; simpl in *; [lia | congruence]. }
  unfold Transfer.compute, shape_at. rewrite Hshape, bind_lift_Return.
  destruct (stack_columns_returns B (map fst agents) next_obs (est, w) HB Hbatch)
    as (nos & Enos & Hnos).
  rewrite length_map in Enos. rewrite (bind_eq_Return _ _ _ _ _ Enos).
  rewrite bind_get_self. cbn [fst snd].
  destruct (Transfer_source_loop_returns est B _ _ nos _ w Hnos Hsi Hso)
    as (acs & probs & w1 & E1 & Hacs & Hprobs).
  rewrite (bind_eq_Return _ _ _ _ _ E1). cbv beta iota.
  destruct (cat1_shape B (map fst agents ++ map snd agents) (nos ++ acs))
    as (trans_in & Ecat & Scat).
  { pose proof (Forall2_length_nonempty _ _ _ Hnos Hne). destruct nos; [congruence|discriminate]. }
  { apply Forall2_app; assumption. }
  rewrite Ecat, bind_lift_Return.
  rewrite sum_list_with_app, <- sum_list_fst_snd, <- Hti in Scat.
  destruct (in_world_forward_returns est _ trans_in w1 B Scat) as [E2 S2].
  rewrite (bind_eq_Return _ _ _ _ _ E2). rewrite Hto in S2.
  match type of E2 with _ = (Return ?t, (_, ?w2)) =>
    destruct (Transfer_compute_plan_loop_returns est B _ (map fst agents) (map snd agents)
                t nos (Transfer.planning est) w2 HB S2 (elem_le_sum_list _) Hnos Hpi Hpo)
      as (plans & w3 & E3 & Hplans)
  end.
  rewrite (bind_eq_Return _ _ _ _ _ E3).
  assert (Hne' : map snd agents <> []).
  { destruct agents; simpl in *; [lia | congruence]. }
  destruct (cat1_shape B _ plans (Forall2_length_nonempty _ _ _ Hplans Hne') Hplans)
    as (pp & Epp & Spp).
  destruct (cat1_shape B _ probs (Forall2_length_nonempty _ _ _ Hprobs Hne') Hprobs)
    as (ps & Eps & Sps).
  destruct (cat1_shape B _ acs (Forall2_length_nonempty _ _ _ Hacs Hne') Hacs)
    as (as' & Eas & Sas).
  rewrite Epp, bind_lift_Return, Eps, bind_lift_Return, Eas, bind_lift_Return.
  destruct (ewise_shape B _ smul as' pp HB Sas Spp) as (x & Ex & Sx).
  destruct (ewise_shape B _ smul as' ps HB Sas Sps) as (y & Ey & Sy).
  destruct (ewise_shape B _ ssub x y HB Sx Sy) as (z & Ez & Sz).
  rewrite Ex, bind_lift_Return, Ey, bind_lift_Return, Ez, bind_lift_Return.
  rewrite numpy_scale_ones. eexists _, w3. reflexivity.
Qed.

End Returns.

(** ** The calls made by the passes over the agents *)

Section Traces.
Context `{T : Torch}.

Lemma in_world_forward_inv {E : Type} (net : MLPNetwork) (x y : tensor)
    (s s' : E * World) :
  in_world (forward net x) s = (Return y, s') ->
  y = forward_value net (heap (snd s)) x /\
  s' = (fst s, mkWorld (heap (snd s)) (torch_rng (snd s))
                       (trace (snd s) ++ [Forward net x])).
Proof.
  destruct s as [e w]. unfold in_world, forward, bind, emit, modify, get. simpl.
  destruct (forallb _ x); simpl; intros [= <- <-]; auto.
Qed.

Lemma in_world_gumbel_inv {E : Type} (l y : tensor) (d : string) (h : bool)
    (s s' : E * World) :
  in_world (gumbel_softmax l d h) s = (Return y, s') ->
  s' = (fst s, mkWorld (heap (snd s)) (gumbel_next l (torch_rng (snd s)))
                       (trace (snd s))).
Proof. destruct s as [e w]. unfold in_world. simpl. intros [= _ <-]. reflexivity. Qed.

Lemma lift_inv {S A : Type} (r : result A) (a : A) (s s' : S) :
  lift r s = (Return a, s') -> r = Return a /\ s' = s.
Proof. unfold lift. intros [= -> ->]. auto. Qed.

Lemma get_self_inv {E : Type} (e : E) (s s' : E * World) :
  get_self s = (Return e, s') -> e = fst s /\ s' = s.
Proof. unfold get_self. intros [= -> ->]. auto. Qed.

Lemma ret_inv {S A : Type} (a b : A) (s s' : S) :
  ret a s = (Return b, s') -> b = a /\ s' = s.
Proof. unfold ret. intros [= -> ->]. auto. Qed.

Lemma cat1_pair_inv (x y z : tensor) :
  cat1 [x; y] = Return z -> z = zip_with app x y.
Proof.
  unfold cat1. simpl. destruct (length y =? length x); simpl; [|discriminate].
  intros [= <-]. reflexivity.
Qed.

End Traces.

(** Inversion of a computation that returned, one [bind] at a time. *)
Ltac inv_step H :=
  first
    [ apply ret_inv in H as [? ?]
    | apply lift_inv in H as [? ?]
    | apply get_self_inv in H as [? ?]
    | let a := fresh "a" in let s := fresh "s" in let H1 := fresh "H" in
      apply bind_Return in H as (a & s & H1 & H) ].

Section TracesOfPasses.
Context `{T : Torch}.

Lemma Joint_source_loop_trace nos st r st' :
  Joint.source_loop nos st = (Return r, st') ->
  fst st' = fst st /\ heap (snd st') = heap (snd st) /\
  trace (snd st') =
    trace (snd st) ++ source_calls (map (fun no => (Joint.source (fst st), no)) nos).
Proof.
  revert st r st'. induction nos as [|no rest IH]; intros st r st' H.
  - apply ret_inv in H as [-> ->]. simpl. rewrite app_nil_r. auto.
  - change (Joint.source_loop (no :: rest)) with
      (self <- get_self ;;
       logits <- in_world (forward (Joint.source self) no) ;;
       a <- in_world (gumbel_softmax logits (Joint.source_dev self) true) ;;
       logits <- in_world (forward (Joint.source self) no) ;;
       p <- in_world (gumbel_softmax logits (Joint.source_dev self) false) ;;
       r <- Joint.source_loop rest ;;
       ret (a :: fst r, p :: snd r)) in H.
    apply bind_Return in H as (self & s0 & H0 & H). apply get_self_inv in H0 as [-> ->].
    apply bind_Return in H as (l1 & s1 & H1 & H). apply in_world_forward_inv in H1 as [_ ->].
    apply bind_Return in H as (y1 & s2 & H2 & H). apply in_world_gumbel_inv in H2 as ->.
    apply bind_Return in H as (l2 & s3 & H3 & H). apply in_world_forward_inv in H3 as [_ ->].
    apply bind_Return in H as (y2 & s4 & H4 & H). apply in_world_gumbel_inv in H4 as ->.
    apply bind_Return in H as (r' & s5 & H5 & H). apply ret_inv in H as [-> ->].
    apply IH in H5 as (F5 & Hh5 & T5). simpl in F5, Hh5, T5.
    rewrite F5, Hh5, T5. simpl. rewrite <- !app_assoc. auto.
Qed.

Lemma Joint_plan_loop_trace trans_out n_obs i nos st probs st' :
  Joint.plan_loop trans_out n_obs i nos st = (Return probs, st') ->
  fst st' = fst st /\ heap (snd st') = heap (snd st) /\
  trace (snd st') =
    trace (snd st) ++
    imap (fun k no => planning_call (Joint.planning (fst st)) no trans_out
                        (uniform_block n_obs (i + k))) nos.
Proof.
  revert i st probs st'. induction nos as [|no rest IH]; intros i st probs st' H.
  - apply ret_inv in H as [-> ->]. simpl. rewrite app_nil_r. auto.
  - change (Joint.plan_loop trans_out n_obs i (no :: rest)) with
      (plan_in <- lift (cat1 [no; slice_cols (i * n_obs) ((i + 1) * n_obs) trans_out]) ;;
       self <- get_self ;;
       logits <- in_world (forward (Joint.planning self) plan_in) ;;
       p <- in_world (gumbel_softmax logits (Joint.plan_dev self) false) ;;
       ps <- Joint.plan_loop trans_out n_obs (S i) rest ;;
       ret (p :: ps)) in H.
    apply bind_Return in H as (plan_in & s0 & H0 & H). apply lift_inv in H0 as [Hcat ->].
    apply cat1_pair_inv in Hcat as ->.
    apply bind_Return in H as (self & s1 & H1 & H). apply get_self_inv in H1 as [-> ->].
    apply bind_Return in H as (l1 & s2 & H2 & H). apply in_world_forward_inv in H2 as [_ ->].
    apply bind_Return in H as (y1 & s3 & H3 & H). apply in_world_gumbel_inv in H3 as ->.
    apply bind_Return in H as (ps & s4 & H4 & H). apply ret_inv in H as [-> ->].
    apply IH in H4 as (F4 & Hh4 & T4). cbn [fst snd heap trace] in F4, Hh4, T4.
    rewrite F4, Hh4, T4. cbn [fst snd]. rewrite <- app_assoc.
    repeat split. f_equal.
    change (imap ?f (no :: rest)) with (f 0 no :: imap (f ∘ S) rest).
    cbn [app]. f_equal.
    + unfold planning_call, uniform_block. cbn [fst snd]. rewrite Nat.add_0_r. reflexivity.
    + apply imap_ext. intros k no' _. unfold compose.
      rewrite Nat.add_succ_r. reflexivity.
Qed.

Lemma stack_columns_state {E : Type} (next_obs : list (list (list scalar)))
    (l : list nat) (s : E * World) :
  snd (mapM (fun i => col <- lift (column i next_obs) ;; lift (vstack col)) l s) = s.
Proof. symmetry. apply (stack_columns_preserves eq next_obs l s). Qed.

Lemma in_world_modify_heap_inv {E : Type} (f : list cell -> list cell) (u : unit)
    (s s' : E * World) :
  in_world (modify_heap f) s = (Return u, s') ->
  s' = (fst s, mkWorld (f (heap (snd s))) (torch_rng (snd s)) (trace (snd s))).
Proof. destruct s as [e w]. unfold in_world. simpl. intros [= _ <-]. reflexivity. Qed.

Lemma get_rng_inv {E : Type} (g : rng) (s s' : E * World) :
  get_rng s = (Return g, s') -> s' = s.
Proof. unfold get_rng. intros [= _ ->]. reflexivity. Qed.

Lemma optimizer_step_trace {E : Type} (opt_of : E -> Adam) (set_opt : Adam -> E -> E)
    (s : E * World) :
  trace (snd (snd (optimizer_step opt_of set_opt s))) = trace (snd s).
Proof.
  unfold optimizer_step. destruct (step (opt_of (fst s)) (heap (snd s))). reflexivity.
Qed.

(** The calls [compute] makes when it returns, and the array it returns. *)
Lemma Joint_compute_trace rewards next_obs st arr st' :
  Joint.compute rewards next_obs st = (Return arr, st') ->
  exists n nos trans_in n_obs v,
    shape rewards !! 1 = Some n /\
    mapM (fun i => col <- lift (column i next_obs) ;; lift (vstack col)) (seq 0 n) st
      = (Return nos, st) /\
    len_0_0 nos = Return n_obs /\
    arr = NDArray [1; n] (replicate n v) /\
    trace (snd st') =
      trace (snd st)
      ++ source_calls (map (fun no => (Joint.source (fst st), no)) nos)
      ++ [Forward (Joint.transition (fst st)) trans_in]
      ++ imap (fun i no =>
                 planning_call (Joint.planning (fst st)) no
                   (forward_value (Joint.transition (fst st)) (heap (snd st)) trans_in)
                   (uniform_block n_obs i)) nos.
Proof.
  unfold Joint.compute. intros H.
  apply bind_Return in H as (n & s0 & H0 & H). apply lift_inv in H0 as [Hn ->].
  unfold shape_at in Hn. destruct (shape rewards !! 1) as [n'|] eqn:Hshape; [|discriminate].
  injection Hn as ->.
  apply bind_Return in H as (nos & s1 & H1 & H).
  pose proof (stack_columns_state next_obs (seq 0 n) st) as Hst. rewrite H1 in Hst.
  simpl in Hst. subst s1.
  apply bind_Return in H as ([acs probs] & s2 & H2 & H).
  apply Joint_source_loop_trace in H2 as (F2 & Hh2 & T2).
  apply bind_Return in H as (trans_in & s3 & H3 & H). apply lift_inv in H3 as [_ ->].
  apply bind_Return in H as (self & s4 & H4 & H). apply get_self_inv in H4 as [-> ->].
  apply bind_Return in H as (trans_out & s5 & H5 & H).
  apply in_world_forward_inv in H5 as [-> ->].
  apply bind_Return in H as (n_obs & s6 & H6 & H). apply lift_inv in H6 as [Hlen ->].
  apply bind_Return in H as (plans & s7 & H7 & H).
  apply Joint_plan_loop_trace in H7 as (F7 & Hh7 & T7).
  cbn [fst snd heap trace] in F7, Hh7, T7.
  repeat (let a := fresh "x" in let s := fresh "s" in let Hl := fresh "Hl" in
          apply bind_Return in H as (a & s & Hl & H); apply lift_inv in Hl as [_ ->]).
  apply ret_inv in H as [-> ->].
  rewrite numpy_scale_ones.
  exists n, nos, trans_in, n_obs. eexists.
  split; [reflexivity|]. split; [exact H1|]. split; [exact Hlen|]. split; [reflexivity|].
  rewrite T7, T2, F2, Hh2. rewrite <- !app_assoc. simpl. reflexivity.
Qed.

(** The calls step 3 of [update] makes when it returns. *)
Lemma Joint_update_source_trace next_obs st i_rews st' :
  Joint.update_source next_obs st = (Return i_rews, st') ->
  exists trans_in n_obs,
    len_0_0 next_obs = Return n_obs /\
    trace (snd st') =
      trace (snd st)
      ++ source_calls (map (fun no => (Joint.source (fst st), no)) next_obs)
      ++ [Forward (Joint.transition (fst st)) trans_in]
      ++ imap (fun i no =>
                 planning_call (Joint.planning (fst st)) no
                   (forward_value (Joint.transition (fst st))
                      (zero_grad (Joint.source_optimizer (fst st)) (heap (snd st)))
                      trans_in)
                   (uniform_block n_obs i)) next_obs.
Proof.
  unfold Joint.update_source. intros H.
  apply bind_Return in H as (self & s0 & H0 & H). apply get_self_inv in H0 as [-> ->].
  apply bind_Return in H as (u & s1 & H1 & H). apply in_world_modify_heap_inv in H1 as ->.
  apply bind_Return in H as (noise & s2 & H2 & H). apply get_rng_inv in H2 as ->.
  apply bind_Return in H as ([acs probs] & s3 & H3 & H).
  apply Joint_source_loop_trace in H3 as (F3 & Hh3 & T3).
  cbn [fst snd heap trace] in F3, Hh3, T3.
  apply bind_Return in H as (trans_in & s4 & H4 & H). apply lift_inv in H4 as [_ ->].
  apply bind_Return in H as (trans_out & s5 & H5 & H).
  apply in_world_forward_inv in H5 as [-> ->].
  apply bind_Return in H as (n_obs & s6 & H6 & H). apply lift_inv in H6 as [Hlen ->].
  apply bind_Return in H as (plans & s7 & H7 & H).
  apply Joint_plan_loop_trace in H7 as (F7 & Hh7 & T7).
  cbn [fst snd heap trace] in F7, Hh7, T7.
  do 6 (let a := fresh "x" in let s := fresh "s" in let Hl := fresh "Hl" in
        apply bind_Return in H as (a & s & Hl & H); apply lift_inv in Hl as [_ ->]).
  apply bind_Return in H as (u2 & s8 & H8 & H). apply in_world_modify_heap_inv in H8 as ->.
  apply bind_Return in H as (u3 & s9 & H9 & H). apply ret_inv in H as [_ ->].
  pose proof (optimizer_step_trace Joint.source_optimizer Joint.set_source_optimizer
                (fst s7, mkWorld (backward "i_rews"
                     (parameters (Joint.source (fst st)) ++ parameters (Joint.planning (fst st)))
                     next_obs noise (heap (snd s7))) (torch_rng (snd s7)) (trace (snd s7))))
    as Hopt.
  rewrite H9 in Hopt. cbn [fst snd trace] in Hopt.
  exists trans_in, n_obs. split; [exact Hlen|].
  rewrite Hopt, T7, T3, Hh3, F3. rewrite <- !app_assoc. reflexivity.
Qed.

(** The transfer estimator *)

Lemma Transfer_source_loop_trace zipped st r st' :
  Transfer.source_loop zipped st = (Return r, st') ->
  fst st' = fst st /\ heap (snd st') = heap (snd st) /\
  trace (snd st') =
    trace (snd st) ++ source_calls (map (fun z => (snd z, fst z)) zipped).
Proof.
  revert st r st'. induction zipped as [|[no net] rest IH]; intros st r st' H.
  - apply ret_inv in H as [-> ->]. simpl. rewrite app_nil_r. auto.
  - change (Transfer.source_loop ((no, net) :: rest)) with
      (self <- get_self ;;
       logits <- in_world (forward net no) ;;
       a <- in_world (gumbel_softmax logits (Transfer.source_dev self) true) ;;
       logits <- in_world (forward net no) ;;
       p <- in_world (gumbel_softmax logits (Transfer.source_dev self) false) ;;
       r <- Transfer.source_loop rest ;;
       ret (a :: fst r, p :: snd r)) in H.
    apply bind_Return in H as (self & s0 & H0 & H). apply get_self_inv in H0 as [-> ->].
    apply bind_Return in H as (l1 & s1 & H1 & H). apply in_world_forward_inv in H1 as [_ ->].
    apply bind_Return in H as (y1 & s2 & H2 & H). apply in_world_gumbel_inv in H2 as ->.
    apply bind_Return in H as (l2 & s3 & H3 & H). apply in_world_forward_inv in H3 as [_ ->].
    apply bind_Return in H as (y2 & s4 & H4 & H). apply in_world_gumbel_inv in H4 as ->.
    apply bind_Return in H as (r' & s5 & H5 & H). apply ret_inv in H as [-> ->].
    apply IH in H5 as (F5 & Hh5 & T5). cbn [fst snd heap trace] in F5, Hh5, T5.
    rewrite F5, Hh5, T5. simpl. rewrite <- !app_assoc. auto.
Qed.

(** In [compute] every agent is paired with the columns from [start] on. *)
Lemma Transfer_compute_plan_loop_trace trans_out start zipped st probs st' :
  Transfer.compute_plan_loop trans_out start zipped st = (Return probs, st') ->
  fst st' = fst st /\ heap (snd st') = heap (snd st) /\
  trace (snd st') =
    trace (snd st) ++
    map (fun z => planning_call (snd z) (fst z) trans_out
                    (start, start + width (fst z))) zipped.
Proof.
  revert st probs st'. induction zipped as [|[no net] rest IH]; intros st probs st' H.
  - apply ret_inv in H as [-> ->]. simpl. rewrite app_nil_r. auto.
  - change (Transfer.compute_plan_loop trans_out start ((no, net) :: rest)) with
      (plan_in <- lift (cat1 [no; slice_cols start (start + width no) trans_out]) ;;
       self <- get_self ;;
       logits <- in_world (forward net plan_in) ;;
       p <- in_world (gumbel_softmax logits (Transfer.plan_dev self) false) ;;
       ps <- Transfer.compute_plan_loop trans_out start rest ;;
       ret (p :: ps)) in H.
    apply bind_Return in H as (plan_in & s0 & H0 & H). apply lift_inv in H0 as [Hcat ->].
    apply cat1_pair_inv in Hcat as ->.
    apply bind_Return in H as (self & s1 & H1 & H). apply get_self_inv in H1 as [-> ->].
    apply bind_Return in H as (l1 & s2 & H2 & H). apply in_world_forward_inv in H2 as [_ ->].
    apply bind_Return in H as (y1 & s3 & H3 & H). apply in_world_gumbel_inv in H3 as ->.
    apply bind_Return in H as (ps & s4 & H4 & H). apply ret_inv in H as [-> ->].
    apply IH in H4 as (F4 & Hh4 & T4). cbn [fst snd heap trace] in F4, Hh4, T4.
    rewrite F4, Hh4, T4. cbn [fst snd]. rewrite <- app_assoc. auto.
Qed.

(** In [update] agent [i] is paired with the columns that start at [start]
    plus the widths of the agents before it. *)
Lemma Transfer_update_plan_loop_trace trans_out start zipped st probs st' :
  Transfer.update_plan_loop trans_out start zipped st = (Return probs, st') ->
  fst st' = fst st /\ heap (snd st') = heap (snd st) /\
  trace (snd st') =
    trace (snd st) ++
    imap (fun i z =>
            let block := cumulative_block (map (fun z => width (fst z)) zipped) i in
            planning_call (snd z) (fst z) trans_out
                          (start + fst block, start + snd block)) zipped.
Proof.
  revert start st probs st'.
  induction zipped as [|[no net] rest IH]; intros start st probs st' H.
  - apply ret_inv in H as [-> ->]. simpl. rewrite app_nil_r. auto.
  - change (Transfer.update_plan_loop trans_out start ((no, net) :: rest)) with
      (plan_in <- lift (cat1 [no; slice_cols start (start + width no) trans_out]) ;;
       self <- get_self ;;
       logits <- in_world (forward net plan_in) ;;
       p <- in_world (gumbel_softmax logits (Transfer.plan_dev self) false) ;;
       ps <- Transfer.update_plan_loop trans_out (start + width no) rest ;;
       ret (p :: ps)) in H.
    apply bind_Return in H as (plan_in & s0 & H0 & H). apply lift_inv in H0 as [Hcat ->].
    apply cat1_pair_inv in Hcat as ->.
    apply bind_Return in H as (self & s1 & H1 & H). apply get_self_inv in H1 as [-> ->].
    apply bind_Return in H as (l1 & s2 & H2 & H). apply in_world_forward_inv in H2 as [_ ->].
    apply bind_Return in H as (y1 & s3 & H3 & H). apply in_world_gumbel_inv in H3 as ->.
    apply bind_Return in H as (ps & s4 & H4 & H). apply ret_inv in H as [-> ->].
    apply IH in H4 as (F4 & Hh4 & T4). cbn [fst snd heap trace] in F4, Hh4, T4.
    rewrite F4, Hh4, T4. cbn [fst snd]. rewrite <- app_assoc.
    repeat split. f_equal.
    change (imap ?f ((no, net) :: rest)) with (f 0 (no, net) :: imap (f ∘ S) rest).
    cbn [app]. f_equal.
    + unfold planning_call, cumulative_block. cbn. rewrite !Nat.add_0_r. reflexivity.
    + apply imap_ext. intros k z _. unfold compose, planning_call, cumulative_block.
      cbn [fst snd map take lookup list_lookup sum_list_with].
      unfold id. rewrite <- !Nat.add_assoc. reflexivity.
Qed.

(** The calls [compute] makes when it returns, and the array it returns. *)
Lemma Transfer_compute_trace rewards next_obs st arr st' :
  Transfer.compute rewards next_obs st = (Return arr, st') ->
  exists n nos trans_in v,
    shape rewards !! 1 = Some n /\
    mapM (fun i => col <- lift (column i next_obs) ;; lift (vstack col)) (seq 0 n) st
      = (Return nos, st) /\
    arr = NDArray [1; n] (replicate n v) /\
    trace (snd st') =
      trace (snd st)
      ++ source_calls (map (fun z => (snd z, fst z)) (zip nos (Transfer.source (fst st))))
      ++ [Forward (Transfer.transition (fst st)) trans_in]
      ++ map (fun z =>
                planning_call (snd z) (fst z)
                  (forward_value (Transfer.transition (fst st)) (heap (snd st)) trans_in)
                  (0, width (fst z)))
             (zip nos (Transfer.planning (fst st))).
Proof.
  unfold Transfer.compute. intros H.
  apply bind_Return in H as (n & s0 & H0 & H). apply lift_inv in H0 as [Hn ->].
  unfold shape_at in Hn. destruct (shape rewards !! 1) as [n'|] eqn:Hshape; [|discriminate].
  injection Hn as ->.
  apply bind_Return in H as (nos & s1 & H1 & H).
  pose proof (stack_columns_state next_obs (seq 0 n) st) as Hst. rewrite H1 in Hst.
  simpl in Hst. subst s1.
  apply bind_Return in H as (self & s4 & H4 & H). apply get_self_inv in H4 as [-> ->].
  apply bind_Return in H as ([acs probs] & s2 & H2 & H).
  apply Transfer_source_loop_trace in H2 as (F2 & Hh2 & T2).
  apply bind_Return in H as (trans_in & s3 & H3 & H). apply lift_inv in H3 as [_ ->].
  apply bind_Return in H as (trans_out & s5 & H5 & H).
  apply in_world_forward_inv in H5 as [-> ->].
  apply bind_Return in H as (plans & s7 & H7 & H).
  apply Transfer_compute_plan_loop_trace in H7 as (F7 & Hh7 & T7).
  cbn [fst snd heap trace] in F7, Hh7, T7.
  repeat (let a := fresh "x" in let s := fresh "s" in let Hl := fresh "Hl" in
          apply bind_Return in H as (a & s & Hl & H); apply lift_inv in Hl as [_ ->]).
  apply ret_inv in H as [-> ->].
  rewrite numpy_scale_ones.
  exists n, nos, trans_in. eexists.
  split; [reflexivity|]. split; [exact H1|]. split; [reflexivity|].
  rewrite T7, T2, Hh2. rewrite <- !app_assoc. reflexivity.
Qed.

(** The calls step 3 of [update] makes when it returns. *)
Lemma Transfer_update_source_trace next_obs st i_rews st' :
  Transfer.update_source next_obs st = (Return i_rews, st') ->
  exists trans_in,
    trace (snd st') =
      trace (snd st)
      ++ source_calls (map (fun z => (snd z, fst z))
                           (zip next_obs (Transfer.source (fst st))))
      ++ [Forward (Transfer.transition (fst st)) trans_in]
      ++ imap (fun i z =>
                 planning_call (snd z) (fst z)
                   (forward_value (Transfer.transition (fst st))
                      (zero_grad (Transfer.source_optimizer (fst st)) (heap (snd st)))
                      trans_in)
                   (cumulative_block
                      (map (fun z => width (fst z))
                           (zip next_obs (Transfer.planning (fst st)))) i))
              (zip next_obs (Transfer.planning (fst st))).
Proof.
  unfold Transfer.update_source. intros H.
  apply bind_Return in H as (self & s0 & H0 & H). apply get_self_inv in H0 as [-> ->].
  apply bind_Return in H as (u & s1 & H1 & H). apply in_world_modify_heap_inv in H1 as ->.
  apply bind_Return in H as (noise & s2 & H2 & H). apply get_rng_inv in H2 as ->.
  apply bind_Return in H as ([acs probs] & s3 & H3 & H).
  apply Transfer_source_loop_trace in H3 as (F3 & Hh3 & T3).
  cbn [fst snd heap trace] in F3, Hh3, T3.
  apply bind_Return in H as (trans_in & s4 & H4 & H). apply lift_inv in H4 as [_ ->].
  apply bind_Return in H as (trans_out & s5 & H5 & H).
  apply in_world_forward_inv in H5 as [-> ->].
  apply bind_Return in H as (plans & s7 & H7 & H).
  apply Transfer_update_plan_loop_trace in H7 as (F7 & Hh7 & T7).
  cbn [fst snd heap trace] in F7, Hh7, T7.
  do 6 (let a := fresh "x" in let s := fresh "s" in let Hl := fresh "Hl" in
        apply bind_Return in H as (a & s & Hl & H); apply lift_inv in Hl as [_ ->]).
  apply bind_Return in H as (u2 & s8 & H8 & H). apply in_world_modify_heap_inv in H8 as ->.
  apply bind_Return in H as (u3 & s9 & H9 & H). apply ret_inv in H as [_ ->].
  match type of H9 with optimizer_step ?g ?f ?s = _ =>
    pose proof (optimizer_step_trace g f s) as Hopt
  end.
  rewrite H9 in Hopt. cbn [fst snd trace] in Hopt.
  exists trans_in.
  rewrite Hopt, T7, T3, Hh3. rewrite <- !app_assoc. reflexivity.
Qed.

End TracesOfPasses.

(** ** The value [compute] returns *)

Section Values.
Context `{T : Torch}.

Lemma in_world_gumbel_drawn {E : Type} (l y : tensor) (d : string) (h : bool)
    (s s' : E * World) :
  in_world (gumbel_softmax l d h) s = (Return y, s') -> drawn l d h y.
Proof.
  destruct s as [e w]. unfold in_world. simpl. intros [= <- _].
  exists (torch_rng w). reflexivity.
Qed.

Lemma stack_columns_stacked {E : Type} (next_obs : list (list (list scalar)))
    (l : list nat) (nos : list tensor) (s s' : E * World) :
  mapM (fun i => col <- lift (column i next_obs) ;; lift (vstack col)) l s
    = (Return nos, s') ->
  Forall2 (fun i no => exists col, column i next_obs = Return col /\ vstack col = Return no)
          l nos.
Proof.
  revert nos s s'. induction l as [|i l IH]; intros nos s s' H.
  - apply ret_inv in H as [-> _]. constructor.
  - simpl in H.
    apply bind_Return in H as (no & s1 & H1 & H).
    apply bind_Return in H1 as (col & s0 & H0 & H1).
    apply lift_inv in H0 as [H0 ->]. apply lift_inv in H1 as [H1 ->].
    apply bind_Return in H as (rest & s2 & H2 & H).
    apply ret_inv in H as [-> ->].
    constructor; [exists col; auto | eapply IH; exact H2].
Qed.

Lemma Joint_source_loop_samples nos st r st' :
  Joint.source_loop nos st = (Return r, st') ->
  Forall2 (fun no y => drawn (forward_value (Joint.source (fst st)) (heap (snd st)) no)
                             (Joint.source_dev (fst st)) true y) nos (fst r) /\
  Forall2 (fun no y => drawn (forward_value (Joint.source (fst st)) (heap (snd st)) no)
                             (Joint.source_dev (fst st)) false y) nos (snd r).
Proof.
  revert st r st'. induction nos as [|no rest IH]; intros st r st' H.
  - apply ret_inv in H as [-> ->]. split; constructor.
  - change (Joint.source_loop (no :: rest)) with
      (self <- get_self ;;
       logits <- in_world (forward (Joint.source self) no) ;;
       a <- in_world (gumbel_softmax logits (Joint.source_dev self) true) ;;
       logits <- in_world (forward (Joint.source self) no) ;;
       p <- in_world (gumbel_softmax logits (Joint.source_dev self) false) ;;
       r <- Joint.source_loop rest ;;
       ret (a :: fst r, p :: snd r)) in H.
    apply bind_Return in H as (self & s0 & H0 & H). apply get_self_inv in H0 as [-> ->].
    apply bind_Return in H as (l1 & s1 & H1 & H). apply in_world_forward_inv in H1 as [-> ->].
    apply bind_Return in H as (y1 & s2 & H2 & H).
    pose proof (in_world_gumbel_drawn _ _ _ _ _ _ H2) as D1.
    apply in_world_gumbel_inv in H2 as ->.
    apply bind_Return in H as (l2 & s3 & H3 & H). apply in_world_forward_inv in H3 as [-> ->].
    apply bind_Return in H as (y2 & s4 & H4 & H).
    pose proof (in_world_gumbel_drawn _ _ _ _ _ _ H4) as D2.
    apply in_world_gumbel_inv in H4 as ->.
    apply bind_Return in H as (r' & s5 & H5 & H). apply ret_inv in H as [-> ->].
    apply IH in H5 as [A5 P5]. cbn [fst snd heap] in *.
    split; constructor; assumption.
Qed.

Lemma Joint_plan_loop_samples trans_out n_obs i nos st probs st' :
  Joint.plan_loop trans_out n_obs i nos st = (Return probs, st') ->
  Forall2 (fun ino y =>
             drawn (forward_value (Joint.planning (fst st)) (heap (snd st))
                      (zip_with app (snd ino)
                         (slice_cols (fst ino * n_obs) ((fst ino + 1) * n_obs) trans_out)))
                   (Joint.plan_dev (fst st)) false y)
          (imap (fun k no => (i + k, no)) nos) probs.
Proof.
  revert i st probs st'. induction nos as [|no rest IH]; intros i st probs st' H.
  - apply ret_inv in H as [-> ->]. constructor.
  - change (Joint.plan_loop trans_out n_obs i (no :: rest)) with
      (plan_in <- lift (cat1 [no; slice_cols (i * n_obs) ((i + 1) * n_obs) trans_out]) ;;
       self <- get_self ;;
       logits <- in_world (forward (Joint.planning self) plan_in) ;;
       p <- in_world (gumbel_softmax logits (Joint.plan_dev self) false) ;;
       ps <- Joint.plan_loop trans_out n_obs (S i) rest ;;
       ret (p :: ps)) in H.
    apply bind_Return in H as (plan_in & s0 & H0 & H). apply lift_inv in H0 as [Hcat ->].
    apply cat1_pair_inv in Hcat as ->.
    apply bind_Return in H as (self & s1 & H1 & H). apply get_self_inv in H1 as [-> ->].
    apply bind_Return in H as (l1 & s2 & H2 & H). apply in_world_forward_inv in H2 as [-> ->].
    apply bind_Return in H as (y1 & s3 & H3 & H).
    pose proof (in_world_gumbel_drawn _ _ _ _ _ _ H3) as D1.
    apply in_world_gumbel_inv in H3 as ->.
    apply bind_Return in H as (ps & s4 & H4 & H). apply ret_inv in H as [-> ->].
    apply IH in H4. cbn [fst snd heap] in *.
    change (imap ?f (no :: rest)) with (f 0 no :: imap (f ∘ S) rest).
    constructor.
    + cbn [fst snd]. rewrite Nat.add_0_r. exact D1.
    + erewrite imap_ext; [exact H4|]. intros k no' _. unfold compose.
      rewrite Nat.add_succ_r. reflexivity.
Qed.

(** When [compute] returns, every entry of the array is the mean of [E]. *)
Lemma Joint_compute_value rewards next_obs est w arr st' :
  Joint.compute rewards next_obs (est, w) = (Return arr, st') ->
  exists n E,
    shape rewards !! 1 = Some n /\
    joint_E est (heap w) n next_obs E /\
    arr = NDArray [1; n] (replicate n (smul (mean E) sone)).
Proof.
  unfold Joint.compute. intros H.
  apply bind_Return in H as (n & s0 & H0 & H). apply lift_inv in H0 as [Hn ->].
  unfold shape_at in Hn. destruct (shape rewards !! 1) as [n'|] eqn:Hshape; [|discriminate].
  injection Hn as ->.
  apply bind_Return in H as (nos & s1 & H1 & H).
  pose proof (stack_columns_state next_obs (seq 0 n) (est, w)) as Hst. rewrite H1 in Hst.
  simpl in Hst. subst s1.
  apply stack_columns_stacked in H1.
  apply bind_Return in H as ([acs probs] & s2 & H2 & H).
  pose proof (Joint_source_loop_samples _ _ _ _ H2) as [Sa Sp].
  apply Joint_source_loop_trace in H2 as (F2 & Hh2 & _).
  cbn [fst snd] in Sa, Sp, F2, Hh2.
  apply bind_Return in H as (trans_in & s3 & H3 & H). apply lift_inv in H3 as [Hti ->].
  apply bind_Return in H as (self & s4 & H4 & H). apply get_self_inv in H4 as [-> ->].
  apply bind_Return in H as (trans_out & s5 & H5 & H).
  apply in_world_forward_inv in H5 as [-> ->].
  apply bind_Return in H as (n_obs & s6 & H6 & H). apply lift_inv in H6 as [Hlen ->].
  apply bind_Return in H as (plans & s7 & H7 & H).
  apply Joint_plan_loop_samples in H7. cbn [fst snd heap] in H7.
  rewrite F2, Hh2 in H7.
  apply bind_Return in H as (pp & s8 & H8 & H). apply lift_inv in H8 as [Hpp ->].
  apply bind_Return in H as (ps & s9 & H9 & H). apply lift_inv in H9 as [Hps ->].
  apply bind_Return in H as (as' & s10 & H10 & H). apply lift_inv in H10 as [Has ->].
  apply bind_Return in H as (a & s11 & H11 & H). apply lift_inv in H11 as [Ha ->].
  apply bind_Return in H as (b & s12 & H12 & H). apply lift_inv in H12 as [Hb ->].
  apply bind_Return in H as (E & s13 & H13 & H). apply lift_inv in H13 as [HE ->].
  apply ret_inv in H as [-> ->].
  rewrite numpy_scale_ones.
  exists n, E. split; [reflexivity|]. split; [|reflexivity].
  exists nos, acs, probs, plans. split; [exact H1|]. split.
  - split; [exact Sa|]. split; [exact Sp|].
    exists trans_in, n_obs. split; [exact Hti|]. split; [exact Hlen|]. exact H7.
  - exists pp, ps, as', a, b. auto 10.
Qed.

(** The transfer estimator *)

Lemma Transfer_source_loop_samples zipped st r st' :
  Transfer.source_loop zipped st = (Return r, st') ->
  Forall2 (fun z y => drawn (forward_value (snd z) (heap (snd st)) (fst z))
                            (Transfer.source_dev (fst st)) true y) zipped (fst r) /\
  Forall2 (fun z y => drawn (forward_value (snd z) (heap (snd st)) (fst z))
                            (Transfer.source_dev (fst st)) false y) zipped (snd r).
Proof.
  revert st r st'. induction zipped as [|[no net] rest IH]; intros st r st' H.
  - apply ret_inv in H as [-> ->]. split; constructor.
  - change (Transfer.source_loop ((no, net) :: rest)) with
      (self <- get_self ;;
       logits <- in_world (forward net no) ;;
       a <- in_world (gumbel_softmax logits (Transfer.source_dev self) true) ;;
       logits <- in_world (forward net no) ;;
       p <- in_world (gumbel_softmax logits (Transfer.source_dev self) false) ;;
       r <- Transfer.source_loop rest ;;
       ret (a :: fst r, p :: snd r)) in H.
    apply bind_Return in H as (self & s0 & H0 & H). apply get_self_inv in H0 as [-> ->].
    apply bind_Return in H as (l1 & s1 & H1 & H). apply in_world_forward_inv in H1 as [-> ->].
    apply bind_Return in H as (y1 & s2 & H2 & H).
    pose proof (in_world_gumbel_drawn _ _ _ _ _ _ H2) as D1.
    apply in_world_gumbel_inv in H2 as ->.
    apply bind_Return in H as (l2 & s3 & H3 & H). apply in_world_forward_inv in H3 as [-> ->].
    apply bind_Return in H as (y2 & s4 & H4 & H).
    pose proof (in_world_gumbel_drawn _ _ _ _ _ _ H4) as D2.
    apply in_world_gumbel_inv in H4 as ->.
    apply bind_Return in H as (r' & s5 & H5 & H). apply ret_inv in H as [-> ->].
    apply IH in H5 as [A5 P5]. cbn [fst snd heap] in *.
    split; constructor; assumption.
Qed.

Lemma Transfer_compute_plan_loop_samples trans_out start zipped st probs st' :
  Transfer.compute_plan_loop trans_out start zipped st = (Return probs, st') ->
  Forall2 (fun z y =>
             drawn (forward_value (snd z) (heap (snd st))
                      (zip_with app (fst z)
                         (slice_cols start (start + width (fst z)) trans_out)))
                   (Transfer.plan_dev (fst st)) false y)
          zipped probs.
Proof.
  revert st probs st'. induction zipped as [|[no net] rest IH]; intros st probs st' H.
  - apply ret_inv in H as [-> ->]. constructor.
  - change (Transfer.compute_plan_loop trans_out start ((no, net) :: rest)) with
      (plan_in <- lift (cat1 [no; slice_cols start (start + width no) trans_out]) ;;
       self <- get_self ;;
       logits <- in_world (forward net plan_in) ;;
       p <- in_world (gumbel_softmax logits (Transfer.plan_dev self) false) ;;
       ps <- Transfer.compute_plan_loop trans_out start rest ;;
       ret (p :: ps)) in H.
    apply bind_Return in H as (plan_in & s0 & H0 & H). apply lift_inv in H0 as [Hcat ->].
    apply cat1_pair_inv in Hcat as ->.
    apply bind_Return in H as (self & s1 & H1 & H). apply get_self_inv in H1 as [-> ->].
    apply bind_Return in H as (l1 & s2 & H2 & H). apply in_world_forward_inv in H2 as [-> ->].
    apply bind_Return in H as (y1 & s3 & H3 & H).
    pose proof (in_world_gumbel_drawn _ _ _ _ _ _ H3) as D1.
    apply in_world_gumbel_inv in H3 as ->.
    apply bind_Return in H as (ps & s4 & H4 & H). apply ret_inv in H as [-> ->].
    apply IH in H4. cbn [fst snd heap] in *.
    constructor; assumption.
Qed.

Lemma Transfer_compute_value rewards next_obs est w arr st' :
  Transfer.compute rewards next_obs (est, w) = (Return arr, st') ->
  exists n E,
    shape rewards !! 1 = Some n /\
    transfer_E est (heap w) n next_obs E /\
    arr = NDArray [1; n] (replicate n (smul (mean E) sone)).
Proof.
  unfold Transfer.compute. intros H.
  apply bind_Return in H as (n & s0 & H0 & H). apply lift_inv in H0 as [Hn ->].
  unfold shape_at in Hn. destruct (shape rewards !! 1) as [n'|] eqn:Hshape; [|discriminate].
  injection Hn as ->.
  apply bind_Return in H as (nos & s1 & H1 & H).
  pose proof (stack_columns_state next_obs (seq 0 n) (est, w)) as Hst. rewrite H1 in Hst.
  simpl in Hst. subst s1.
  apply stack_columns_stacked in H1.
  apply bind_Return in H as (self & s4 & H4 & H). apply get_self_inv in H4 as [-> ->].
  cbn [fst] in H.
  apply bind_Return in H as ([acs probs] & s2 & H2 & H).
  pose proof (Transfer_source_loop_samples _ _ _ _ H2) as [Sa Sp].
  apply Transfer_source_loop_trace in H2 as (F2 & Hh2 & _).
  cbn [fst snd] in Sa, Sp, F2, Hh2.
  apply bind_Return in H as (trans_in & s3 & H3 & H). apply lift_inv in H3 as [Hti ->].
  apply bind_Return in H as (trans_out & s5 & H5 & H).
  apply in_world_forward_inv in H5 as [-> ->].
  apply bind_Return in H as (plans & s7 & H7 & H).
  apply Transfer_compute_plan_loop_samples in H7. cbn [fst snd heap] in H7.
  rewrite F2, Hh2 in H7.
  apply bind_Return in H as (pp & s8 & H8 & H). apply lift_inv in H8 as [Hpp ->].
  apply bind_Return in H as (ps & s9 & H9 & H). apply lift_inv in H9 as [Hps ->].
  apply bind_Return in H as (as' & s10 & H10 & H). apply lift_inv in H10 as [Has ->].
  apply bind_Return in H as (a & s11 & H11 & H). apply lift_inv in H11 as [Ha ->].
  apply bind_Return in H as (b & s12 & H12 & H). apply lift_inv in H12 as [Hb ->].
  apply bind_Return in H as (E & s13 & H13 & H). apply lift_inv in H13 as [HE ->].
  apply ret_inv in H as [-> ->].
  rewrite numpy_scale_ones.
  exists n, E. split; [reflexivity|]. split; [|reflexivity].
  exists nos, acs, probs, plans. split; [exact H1|]. split.
  - split; [exact Sa|]. split; [exact Sp|].
    exists trans_in. split; [exact Hti|]. exact H7.
  - exists pp, ps, as', a, b. auto 10.
Qed.

(** On a well-shaped input [compute] returns the mean of [E], broadcast. *)
Lemma Joint_compute_returns_mean est (n B wd a : nat) (rewards : ndarray)
    (next_obs : list (list (list scalar))) (w : World) :
  joint_sized est n wd a ->
  shape rewards !! 1 = Some n -> 1 <= n -> 1 <= B ->
  batch_of B (replicate n wd) next_obs ->
  exists E w',
    Joint.compute rewards next_obs (est, w) =
      (Return (NDArray [1; n] (replicate n (smul (mean E) sone))), (est, w')) /\
    joint_E est (heap w) n next_obs E.
Proof.
  intros Hs Hn Hn1 HB Hb.
  destruct (Joint_compute_returns est n B wd a rewards next_obs w Hs Hn Hn1 HB Hb)
    as (v & w' & Eq).
  destruct (Joint_compute_value _ _ _ _ _ _ Eq) as (n' & E & Hn' & HE & Harr).
  rewrite Hn in Hn'. injection Hn' as <-.
  exists E, w'. rewrite Eq, Harr. auto.
Qed.

Lemma Transfer_compute_returns_mean est (B : nat) (agents : list (nat * nat))
    (rewards : ndarray) (next_obs : list (list (list scalar))) (w : World) :
  transfer_sized est agents ->
  shape rewards !! 1 = Some (length agents) -> 1 <= length agents -> 1 <= B ->
  batch_of B (map fst agents) next_obs ->
  exists E w',
    Transfer.compute rewards next_obs (est, w) =
      (Return (NDArray [1; length agents]
                 (replicate (length agents) (smul (mean E) sone))), (est, w')) /\
    transfer_E est (heap w) (length agents) next_obs E.
Proof.
  intros Hs Hn Hn1 HB Hb.
  destruct (Transfer_compute_returns est B agents rewards next_obs w Hs Hn Hn1 HB Hb)
    as (v & w' & Eq).
  destruct (Transfer_compute_value _ _ _ _ _ _ Eq) as (n' & E & Hn' & HE & Harr).
  rewrite Hn in Hn'. injection Hn' as <-.
  exists E, w'. rewrite Eq, Harr. auto.
Qed.

End Values.

(** ** The factories: sizing and reconstruction *)

(** C2. For every environment with at least one agent, the joint factory
    sizes the shared source and planning networks from the last agent of
    [zip(env.action_space, env.observation_space)] alone: the stored
    [num_in_src] is that agent's observation width, [num_out_src] its action
    cardinality, [num_in_plan] twice its observation width and
    [num_out_plan] its action cardinality, and the source and planning
    approximators are built with these sizes. *)
Theorem joint_factory_sizes_from_last_agent `{T : Torch}
    (env : gym.Env) (w : World) (acsp : gym.Discrete) (obsp : gym.Box) :
  last (zip (gym.action_space env) (gym.observation_space env)) = Some (acsp, obsp) ->
  exists inst w' d,
    Joint.init_from_env env w = (Return inst, w') /\
    Joint.init_dict inst = Some d /\
    Joint.num_in_src d = fst (gym.shape obsp) /\
    Joint.num_out_src d = gym.n acsp /\
    Joint.num_in_plan d = 2 * fst (gym.shape obsp) /\
    Joint.num_out_plan d = gym.n acsp /\
    dims (Joint.source inst) = (fst (gym.shape obsp), gym.n acsp) /\
    dims (Joint.planning inst) = (2 * fst (gym.shape obsp), gym.n acsp).
Proof.
  intros Hlast.
  destruct (Joint_init_from_env_spec env w) as (inst & w' & E & D & A & _).
  exists inst, w', (Joint.sizing env).
  apply last_Some in Hlast as [agents Hagents].
  destruct (Joint_sizing_last agents acsp obsp (Joint.mkParams 0 0 0 0 0 0))
    as (H1 & H2 & H3 & H4).
  unfold Joint.sizing in *. rewrite Hagents in *.
  unfold Joint.architecture, dims in *.
  injection A as _ _ As1 As2 Ap1 Ap2.
  rewrite As1, As2, Ap1, Ap2, H1, H2, H3, H4.
  repeat split; try reflexivity; assumption.
Qed.

(** C2 at three agents of observation widths 3, 5, 2 with 2 actions each:
    the shared networks are sized for width 2. *)
Lemma joint_factory_sizes_from_last_agent_witness :
  exists inst w' d,
    Joint.init_from_env Stub.env_3_5_2 Stub.world0 = (Return inst, w') /\
    Joint.init_dict inst = Some d /\
    Joint.num_in_src d = 2 /\
    Joint.num_out_src d = 2 /\
    Joint.num_in_plan d = 4 /\
    Joint.num_out_plan d = 2 /\
    dims (Joint.source inst) = (2, 2) /\
    dims (Joint.planning inst) = (4, 2).
Proof.
  apply (joint_factory_sizes_from_last_agent Stub.env_3_5_2 Stub.world0
           (gym.mkDiscrete 2) (gym.mkBox (2, []))).
  reflexivity.
Defined.







(** ** [update]: the logger and the step counter *)

(** C5, as stated, at a call that supplies a logger and does not invoke it.
    The joint estimator the factory builds for agents of observation widths
    3, 5, 2 has its shared planning network sized for the last agent; on a
    batch of these agents step 2 of [update] raises, in the first call and
    in every later one: the logger is never invoked and the counter stays
    at 0. *)
Lemma update_with_a_logger_logs_nothing_when_it_raises :
  let st := Stub.joint_of Stub.env_3_5_2 in
  let out := Joint.update Stub.sample_3_5_2 (Some 7) st in
  let out2 := Joint.update Stub.sample_3_5_2 (Some 7) (snd out) in
  fst out = Raise RuntimeError /\
  logged_steps (trace (snd (snd out))) = [] /\
  Joint.niter (fst (snd out)) = 0 /\
  fst out2 = Raise RuntimeError /\
  logged_steps (trace (snd (snd out2))) = [] /\
  Joint.niter (fst (snd out2)) = 0.
Proof. vm_compute. repeat split; reflexivity. Qed.

(** C5, amended.  In both variants, a call of [update] with a logger that
    returns has run its three steps and has then invoked the logger exactly
    once, with the three losses these steps returned in this call (as
    [trans_loss], [plan_loss], [i_rews]) and the value of the step counter
    before the call, and has then advanced the counter by one; a call that
    raises has not invoked the logger and has not advanced the counter.  An
    estimator built by the factory (in the transfer variant for an
    environment with at least one agent) starts at counter 0, so over any
    training loop on it the logged step indices are 0, 1, 2, ... in this
    order, one per completed call. *)
Theorem update_logs_once_per_call_with_consecutive_steps `{T : Torch} :
  (forall obs acs rews emps next_obs dones lg st,
      logged_once Joint.niter
        (Joint.update_transition obs acs next_obs)
        (Joint.update_planning obs acs next_obs)
        (Joint.update_source next_obs) lg st
        (Joint.update (obs, acs, rews, emps, next_obs, dones) (Some lg) st)) /\
  (forall env w, exists inst w',
      Joint.init_from_env env w = (Return inst, w') /\ Joint.niter inst = 0) /\
  (forall samples lg st,
      logged_in_order Joint.niter samples st (Joint.updates samples (Some lg) st)) /\
  (forall obs acs rews emps next_obs dones lg st,
      logged_once Transfer.niter
        (Transfer.update_transition obs acs next_obs)
        (Transfer.update_planning obs acs next_obs)
        (Transfer.update_source next_obs) lg st
        (Transfer.update (obs, acs, rews, emps, next_obs, dones) (Some lg) st)) /\
  (forall env lr hidden_dim recurrent convolutional w,
      zip (gym.action_space env) (gym.observation_space env) <> [] ->
      exists inst w',
        Transfer.init_from_env env lr hidden_dim recurrent convolutional w
          = (Return inst, w') /\
        Transfer.niter inst = 0) /\
  (forall samples lg st,
      logged_in_order Transfer.niter samples st (Transfer.updates samples (Some lg) st)).
Proof.
  split; [|split; [|split; [|split; [|split]]]].
  - apply Joint_update_logged_once.
  - intros env w. destruct (Joint_init_from_env_spec env w) as (inst & w' & E & _ & _ & N).
    exists inst, w'. auto.
  - apply Joint_updates_logged_in_order.
  - apply Transfer_update_logged_once.
  - intros env lr hd r c w Hne.
    destruct (Transfer_init_from_env_spec env lr hd r c w Hne)
      as (inst & w' & E & _ & _ & N).
    exists inst, w'. auto.
  - apply Transfer_updates_logged_in_order.
Qed.

(** C5 on the transfer factory at three agents of observation widths 3, 5,
    2: the estimator it builds starts at counter 0. *)
Lemma update_logs_once_per_call_with_consecutive_steps_witness :
  exists inst w',
    Transfer.init_from_env Stub.env_3_5_2 lr_default 64 false false Stub.world0
      = (Return inst, w') /\
    Transfer.niter inst = 0.
Proof.
  apply (proj1 (proj2 (proj2 (proj2 (proj2
           update_logs_once_per_call_with_consecutive_steps))))
           Stub.env_3_5_2 lr_default 64 false false Stub.world0).
  discriminate.
Defined.

(** Three updates of the joint estimator for two agents of observation width
    4 return and log the steps 0, 1, 2; the counter ends at 3. *)
Lemma joint_three_updates_log_0_1_2 :
  let out := Joint.updates [Stub.sample_4_4; Stub.sample_4_4; Stub.sample_4_4]
                           (Some 7) Stub.joint_4_4 in
  fst out = Return tt /\
  logged_steps (trace (snd (snd out))) = [0; 1; 2] /\
  Joint.niter (fst (snd out)) = 3.
Proof. vm_compute. repeat split; reflexivity. Qed.

(** Three updates of the transfer estimator for agents of observation widths
    3, 5, 2 return and log the steps 0, 1, 2; the counter ends at 3. *)
Lemma transfer_three_updates_log_0_1_2 :
  let out := Transfer.updates [Stub.sample_3_5_2; Stub.sample_3_5_2; Stub.sample_3_5_2]
                              (Some 7) (Stub.transfer_of Stub.env_3_5_2) in
  fst out = Return tt /\
  logged_steps (trace (snd (snd out))) = [0; 1; 2] /\
  Transfer.niter (fst (snd out)) = 3.
Proof. vm_compute. repeat split; reflexivity. Qed.

(** ** The joint estimator's source optimizer *)

(** C7. In the joint variant the constructor gives the source optimizer
    exactly the parameters of the source approximator followed by those of
    the planning approximator, and no parameter of the transition
    approximator is among them; every call of [update] keeps this wiring.
    In such a state the optimizer step of step 3 overwrites every source and
    planning parameter that has a gradient with its Adam update, and the
    whole of step 3 leaves every parameter outside the source and planning
    approximators, so every parameter of the transition approximator, as it
    was. *)
Theorem source_optimizer_covers_source_and_planning `{T : Torch} :
  (forall p lr w est w',
      Joint.init p lr w = (Return est, w') ->
      joint_wired est /\
      param_groups (Joint.source_optimizer est) =
        parameters (Joint.source est) ++ parameters (Joint.planning est) /\
      forall a, a ∈ parameters (Joint.transition est) ->
                a ∉ param_groups (Joint.source_optimizer est)) /\
  (forall sample lg st,
      joint_wired (fst st) -> joint_wired (fst (snd (Joint.update sample lg st)))) /\
  (forall est h k a s v g,
      joint_wired est ->
      (parameters (Joint.source est) ++ parameters (Joint.planning est)) !! k = Some a ->
      slots (Joint.source_optimizer est) !! k = Some s ->
      h !! a = Some (Cell v (Some g)) ->
      snd (step (Joint.source_optimizer est) h) !! a =
        Some (Cell (fst (adam (rate (Joint.source_optimizer est)) s v g)) (Some g))) /\
  (forall next_obs st,
      joint_wired (fst st) ->
      let st' := snd (Joint.update_source next_obs st) in
      frame_outside (parameters (Joint.source (fst st)) ++ parameters (Joint.planning (fst st)))
                    (snd st) (snd st') /\
      forall a, a ∈ parameters (Joint.transition (fst st)) ->
                heap (snd st') !! a = heap (snd st) !! a).
Proof.
  assert (Hdisj : forall est a, joint_wired est ->
            a ∈ parameters (Joint.transition est) ->
            a ∉ parameters (Joint.source est) ++ parameters (Joint.planning est)).
  { intros est a (_ & _ & _ & Hnd) Ha Hin.
    apply NoDup_app in Hnd as (_ & Hd & _). exact (Hd a Ha Hin). }
  split; [|split; [|split]].
  - intros p lr w est w' Hinit.
    pose proof (Joint_init_wired _ _ _ _ _ Hinit) as Hw.
    split; [exact Hw|]. destruct Hw as (H1 & H2 & H3 & H4) eqn:E. split; [exact H3|].
    intros a Ha. rewrite H3. apply Hdisj; [|exact Ha]. repeat split; assumption.
  - intros sample lg st Hw.
    destruct (Joint_update_keeps_wiring sample lg st) as [Hk _].
    apply (joint_wired_wiring (fst st)); [exact Hk | exact Hw].
  - intros est h k a s v g (_ & _ & Hg & Hnd) Hk Hs Ha.
    apply (step_writes _ h k a s v g); [|rewrite Hg; exact Hk|exact Hs|exact Ha].
    rewrite Hg. apply NoDup_app in Hnd as (_ & _ & Hnd). exact Hnd.
  - intros next_obs st Hw st'.
    pose proof (Joint_update_source_frame next_obs st Hw) as Hfr.
    split; [exact Hfr|]. intros a Ha. apply Hfr. apply Hdisj; assumption.
Qed.

(** On the estimator for two agents of observation width 4, step 3 changes a
    source parameter (address 2) and a planning parameter (address 4) and
    leaves the transition parameters (addresses 0 and 1) as they were. *)
Lemma joint_step_3_changes_source_and_planning :
  let st := Stub.joint_4_4 in
  let st' := snd (Joint.update_source (T := Stub.torch) [Stub.obs_4; Stub.obs_4] st) in
  let values := fun s : Joint.VariationalJointEmpowerment * World =>
                  map value (heap (snd s)) in
  parameters (Joint.transition (fst st)) = [0; 1] /\
  parameters (Joint.source (fst st)) = [2; 3] /\
  parameters (Joint.planning (fst st)) = [4; 5] /\
  values st = [1; 0; 1; 0; 1; 0]%Q /\
  values st' = [1; 0; 99 # 100; -1 # 100; 99 # 100; -1 # 100]%Q.
Proof. vm_compute. repeat split; reflexivity. Qed.

(** ** [compute] *)

(** C3, as stated, at two inputs with matching batch sizes.  The joint
    estimator the factory builds for agents of observation widths 3, 5, 2
    has its shared networks sized for width 2; on one row of observations
    of these agents [compute] raises at the first source call.  On an empty
    batch [np.vstack] raises, here in the transfer variant. *)
Lemma compute_raises_on_inputs_that_do_not_fit :
  shape Stub.rewards_1_3 !! 1 = Some 3 /\
  fst (Joint.compute Stub.rewards_1_3 [Stub.next_obs_3_5_2] (Stub.joint_of Stub.env_3_5_2))
    = Raise RuntimeError /\
  shape Stub.rewards_0_3 !! 1 = Some 3 /\
  fst (Transfer.compute Stub.rewards_0_3 [] (Stub.transfer_of Stub.env_3_5_2))
    = Raise ValueError.
Proof. vm_compute. repeat split; reflexivity. Qed.

(** C3, amended.  [compute] returns, in both variants, an array of shape
    (1, n) whose [n] entries are one and the same scalar, the mean of [E]
    (times one), under these conditions: [rewards] has [n >= 1] agents along
    its second axis; [next_obs] has at least one row, every row holding one
    observation vector per agent; and the approximators are sized for these
    agents as the factory sizes them -- in the joint variant for [n] agents
    that all have observation width [wd] and [a] actions ([joint_sized]),
    every vector of width [wd]; in the transfer variant for agents of the
    given widths and action cardinalities ([transfer_sized]), the vector of
    agent [i] of width [wd_i].  [E] is formed from the samples drawn in the
    call: per agent a hard and a soft sample of the source output and a soft
    sample of the planning output, joined along dimension 1, and
    [E = acs_src * prob_plan - acs_src * prob_src].  Whenever [compute]
    returns at all, what it returns is such an array for the number of
    agents [rewards.shape[1]].  The joint factory builds an estimator sized
    in this sense for an environment with at least one agent whose agents
    all have one observation width and one action cardinality, the transfer
    factory for every environment with at least one agent. *)
Theorem compute_returns_one_broadcast_value_per_agent `{T : Torch} :
  (forall est n wd a B rewards next_obs w,
      joint_sized est n wd a ->
      shape rewards !! 1 = Some n -> 1 <= n -> 1 <= B ->
      batch_of B (replicate n wd) next_obs ->
      exists E w',
        Joint.compute rewards next_obs (est, w) =
          (Return (NDArray [1; n] (replicate n (smul (mean E) sone))), (est, w')) /\
        joint_E est (heap w) n next_obs E) /\
  (forall est agents B rewards next_obs w,
      transfer_sized est agents ->
      shape rewards !! 1 = Some (length agents) -> 1 <= length agents -> 1 <= B ->
      batch_of B (map fst agents) next_obs ->
      exists E w',
        Transfer.compute rewards next_obs (est, w) =
          (Return (NDArray [1; length agents]
                     (replicate (length agents) (smul (mean E) sone))), (est, w')) /\
        transfer_E est (heap w) (length agents) next_obs E) /\
  (forall rewards next_obs est w arr st',
      Joint.compute rewards next_obs (est, w) = (Return arr, st') ->
      exists n E,
        shape rewards !! 1 = Some n /\
        joint_E est (heap w) n next_obs E /\
        arr = NDArray [1; n] (replicate n (smul (mean E) sone))) /\
  (forall rewards next_obs est w arr st',
      Transfer.compute rewards next_obs (est, w) = (Return arr, st') ->
      exists n E,
        shape rewards !! 1 = Some n /\
        transfer_E est (heap w) n next_obs E /\
        arr = NDArray [1; n] (replicate n (smul (mean E) sone))) /\
  (forall env w wd a,
      let agents := zip (gym.action_space env) (gym.observation_space env) in
      agents <> [] ->
      Forall (fun sp => fst (gym.shape (snd sp)) = wd /\ gym.n (fst sp) = a) agents ->
      exists inst w',
        Joint.init_from_env env w = (Return inst, w') /\
        joint_sized inst (length agents) wd a) /\
  (forall env lr hidden_dim recurrent convolutional w,
      let agents := zip (gym.action_space env) (gym.observation_space env) in
      agents <> [] ->
      exists inst w',
        Transfer.init_from_env env lr hidden_dim recurrent convolutional w
          = (Return inst, w') /\
        transfer_sized inst
          (map (fun sp => (fst (gym.shape (snd sp)), gym.n (fst sp))) agents)).
Proof.
  split; [|split; [|split; [|split; [|split]]]].
  - intros. eapply Joint_compute_returns_mean; eassumption.
  - intros. eapply Transfer_compute_returns_mean; eassumption.
  - intros rewards next_obs est w arr st' H.
    exact (Joint_compute_value _ _ _ _ _ _ H).
  - intros rewards next_obs est w arr st' H.
    exact (Transfer_compute_value _ _ _ _ _ _ H).
  - intros env w wd a. apply Joint_factory_sized.
  - intros env lr hd r c w. apply Transfer_factory_sized.
Qed.

(** C3 on the joint estimator for two agents of observation width 4 and a
    batch of two rows. *)
Lemma compute_returns_one_broadcast_value_per_agent_witness :
  exists E w',
    Joint.compute Stub.rewards_2_2 Stub.next_obs_4_4
                  (fst Stub.joint_4_4, snd Stub.joint_4_4) =
      (Return (NDArray [1; 2] (replicate 2 (smul (mean E) sone))),
       (fst Stub.joint_4_4, w')) /\
    joint_E (fst Stub.joint_4_4) (heap (snd Stub.joint_4_4)) 2 Stub.next_obs_4_4 E.
Proof.
  apply (proj1 compute_returns_one_broadcast_value_per_agent
           (fst Stub.joint_4_4) 2 4 3 2 Stub.rewards_2_2 Stub.next_obs_4_4
           (snd Stub.joint_4_4)).
  - vm_compute. repeat split; reflexivity.
  - reflexivity.
  - lia.
  - lia.
  - split; [reflexivity|]. repeat constructor.
Defined.

(** C8, as stated, at a call that returns no value: the joint estimator
    built for agents of observation widths 3, 5, 2, called on one row of
    observations of these agents, raises; the estimator object and the
    parameter memory are as before the call. *)
Lemma compute_returns_no_value_when_it_raises :
  let st := Stub.joint_of Stub.env_3_5_2 in
  let out := Joint.compute Stub.rewards_1_3 [Stub.next_obs_3_5_2] st in
  fst out = Raise RuntimeError /\
  fst (snd out) = fst st /\ heap (snd (snd out)) = heap (snd st).
Proof. vm_compute. repeat split; reflexivity. Qed.

(** C8, amended.  In both variants a call of [compute], whether it returns
    or raises, leaves the estimator object (approximators with their modes
    and devices, optimizers, the three device tags, the counter [niter], the
    stored [init_dict]) and the parameter memory (values and gradients) as
    they were; only the random state and the record of calls change.  The
    call returns an array with one value per agent when [rewards] has
    [n >= 1] agents along its second axis, [next_obs] has at least one row
    with one observation vector per agent, and the approximators are sized
    for these agents as the factory sizes them: in the joint variant for
    [n] agents that all have observation width [wd] and [a] actions
    ([joint_sized]), every vector of width [wd]; in the transfer variant for
    agents of the given widths and action cardinalities
    ([transfer_sized]), the vector of agent [i] of width [wd_i].  Whenever a
    call returns, the array holds [rewards.shape[1]] values. *)
Theorem compute_changes_no_estimator_state `{T : Torch} :
  (forall rewards next_obs st,
      let st' := snd (Joint.compute rewards next_obs st) in
      fst st' = fst st /\ heap (snd st') = heap (snd st)) /\
  (forall rewards next_obs st,
      let st' := snd (Transfer.compute rewards next_obs st) in
      fst st' = fst st /\ heap (snd st') = heap (snd st)) /\
  (forall est n wd a B rewards next_obs w,
      joint_sized est n wd a ->
      shape rewards !! 1 = Some n -> 1 <= n -> 1 <= B ->
      batch_of B (replicate n wd) next_obs ->
      exists arr w',
        Joint.compute rewards next_obs (est, w) = (Return arr, (est, w')) /\
        length (items arr) = n) /\
  (forall est agents B rewards next_obs w,
      transfer_sized est agents ->
      shape rewards !! 1 = Some (length agents) -> 1 <= length agents -> 1 <= B ->
      batch_of B (map fst agents) next_obs ->
      exists arr w',
        Transfer.compute rewards next_obs (est, w) = (Return arr, (est, w')) /\
        length (items arr) = length agents) /\
  (forall rewards next_obs st arr st',
      Joint.compute rewards next_obs st = (Return arr, st') ->
      exists n, shape rewards !! 1 = Some n /\ length (items arr) = n) /\
  (forall rewards next_obs st arr st',
      Transfer.compute rewards next_obs st = (Return arr, st') ->
      exists n, shape rewards !! 1 = Some n /\ length (items arr) = n).
Proof.
  split; [|split; [|split; [|split; [|split]]]].
  - intros rewards next_obs st st'.
    destruct (Joint_compute_preserves eq same_heap forward_same_heap gumbel_same_heap
                rewards next_obs st) as [H1 H2].
    split; [symmetry; exact H1 | exact H2].
  - intros rewards next_obs st st'.
    destruct (Transfer_compute_preserves eq same_heap forward_same_heap gumbel_same_heap
                rewards next_obs st) as [H1 H2].
    split; [symmetry; exact H1 | exact H2].
  - intros est n wd a B rewards next_obs w Hs Hn Hn1 HB Hb.
    destruct (Joint_compute_returns est n B wd a rewards next_obs w Hs Hn Hn1 HB Hb)
      as (v & w' & E).
    eexists _, w'. split; [exact E|]. simpl. apply length_replicate.
  - intros est agents B rewards next_obs w Hs Hn Hn1 HB Hb.
    destruct (Transfer_compute_returns est B agents rewards next_obs w Hs Hn Hn1 HB Hb)
      as (v & w' & E).
    eexists _, w'. split; [exact E|]. simpl. apply length_replicate.
  - intros rewards next_obs st arr st' H.
    apply Joint_compute_trace in H as (n & _ & _ & _ & v & Hn & _ & _ & -> & _).
    exists n. split; [exact Hn|]. simpl. apply length_replicate.
  - intros rewards next_obs st arr st' H.
    apply Transfer_compute_trace in H as (n & _ & _ & v & Hn & _ & -> & _).
    exists n. split; [exact Hn|]. simpl. apply length_replicate.
Qed.

(** C8 on the transfer estimator for agents of observation widths 3, 5, 2
    and one row of observations: the call returns three values. *)
Lemma compute_changes_no_estimator_state_witness :
  exists arr w',
    Transfer.compute Stub.rewards_1_3 [Stub.next_obs_3_5_2]
                     (fst (Stub.transfer_of Stub.env_3_5_2),
                      snd (Stub.transfer_of Stub.env_3_5_2)) =
      (Return arr, (fst (Stub.transfer_of Stub.env_3_5_2), w')) /\
    length (items arr) = 3.
Proof.
  apply (proj1 (proj2 (proj2 (proj2 compute_changes_no_estimator_state)))
           (fst (Stub.transfer_of Stub.env_3_5_2)) [(3, 2); (5, 2); (2, 2)] 1
           Stub.rewards_1_3 [Stub.next_obs_3_5_2]
           (snd (Stub.transfer_of Stub.env_3_5_2))).
  - vm_compute. repeat split; reflexivity.
  - reflexivity.
  - simpl. lia.
  - lia.
  - split; [reflexivity|]. repeat constructor.
Defined.

(** ** Slicing of the transition output *)

Section Blocks.
Context `{T : Torch}.

Lemma len_0_0_inv (nos : list tensor) (n_obs : nat) :
  len_0_0 nos = Return n_obs ->
  exists no row, nos !! 0 = Some no /\ no !! 0 = Some row /\ n_obs = length row.
Proof.
  destruct nos as [|[|row no] nos]; simpl; try discriminate.
  intros [= <-]. exists (row :: no), row. auto.
Qed.

Lemma uniform_is_cumulative (ws : list nat) (w0 i : nat) :
  Forall (fun wd => wd = w0) ws -> i < length ws ->
  uniform_block w0 i = cumulative_block ws i.
Proof.
  intros Hall Hi. unfold uniform_block, cumulative_block.
  assert (Hsum : sum_list (take i ws) = i * w0).
  { rewrite <- (map_id (take i ws)).
    rewrite (sum_list_const id w0); [rewrite length_take; f_equal; lia|].
    apply Forall_take. exact Hall. }
  destruct (lookup_lt_is_Some_2 ws i Hi) as [wd Hwd].
  rewrite Hsum, Hwd. simpl.
  rewrite (proj1 (Forall_lookup _ _) Hall i wd Hwd). f_equal. lia.
Qed.

End Blocks.

(** C10. In the joint variant, [compute] and step 3 of [update], when they
    return, have called the planning approximator for agent [i] on that
    agent's next observation joined with the columns
    [i * w0 : (i + 1) * w0] of the transition output, where [w0] is the
    length of the first row of the first agent's next observation.  These
    blocks are the agents' own segments when all observation widths equal
    [w0]; for the widths 3, 5, 2 the block of the second agent is [3 : 6]
    while its own segment is [3 : 8]. *)
Theorem joint_slices_uniform_blocks_of_first_width `{T : Torch} :
  (forall rewards next_obs st arr st',
      Joint.compute rewards next_obs st = (Return arr, st') ->
      exists n nos trans_in w0,
        shape rewards !! 1 = Some n /\
        mapM (fun i => col <- lift (column i next_obs) ;; lift (vstack col)) (seq 0 n) st
          = (Return nos, st) /\
        len_0_0 nos = Return w0 /\
        trace (snd st') =
          trace (snd st)
          ++ source_calls (map (fun no => (Joint.source (fst st), no)) nos)
          ++ [Forward (Joint.transition (fst st)) trans_in]
          ++ imap (fun i no =>
                     planning_call (Joint.planning (fst st)) no
                       (forward_value (Joint.transition (fst st)) (heap (snd st)) trans_in)
                       (uniform_block w0 i)) nos) /\
  (forall next_obs st i_rews st',
      Joint.update_source next_obs st = (Return i_rews, st') ->
      exists trans_in w0,
        len_0_0 next_obs = Return w0 /\
        trace (snd st') =
          trace (snd st)
          ++ source_calls (map (fun no => (Joint.source (fst st), no)) next_obs)
          ++ [Forward (Joint.transition (fst st)) trans_in]
          ++ imap (fun i no =>
                     planning_call (Joint.planning (fst st)) no
                       (forward_value (Joint.transition (fst st))
                          (zero_grad (Joint.source_optimizer (fst st)) (heap (snd st)))
                          trans_in)
                       (uniform_block w0 i)) next_obs) /\
  (forall (nos : list tensor) w0,
      len_0_0 nos = Return w0 ->
      exists no row, nos !! 0 = Some no /\ no !! 0 = Some row /\ w0 = length row) /\
  (forall ws w0 i,
      Forall (fun wd => wd = w0) ws -> i < length ws ->
      uniform_block w0 i = cumulative_block ws i) /\
  uniform_block 3 1 = (3, 6) /\ cumulative_block [3; 5; 2] 1 = (3, 8).
Proof.
  split; [|split; [|split; [|split; [|split]]]].
  - intros rewards next_obs st arr st' H.
    apply Joint_compute_trace in H as (n & nos & trans_in & w0 & v & H1 & H2 & H3 & _ & H5).
    exists n, nos, trans_in, w0. auto.
  - apply Joint_update_source_trace.
  - apply len_0_0_inv.
  - apply uniform_is_cumulative.
  - reflexivity.
  - reflexivity.
Qed.

(** C1 (the code departs from the claim in [compute]).  In the transfer
    variant, [compute] pairs every agent with the columns [0 : w] of the
    transition output, [w] being that agent's own observation width: the
    offset [start] is never advanced.  With a stub transition approximator
    whose output row is 0, 1, ..., 9 and agents of observation widths 3, 5, 2
    the planning approximators receive the columns [0:3], [0:5], [0:2]. *)
Theorem transfer_compute_pairs_every_agent_with_the_first_columns :
  (forall (T : Torch) rewards next_obs st arr st',
      Transfer.compute rewards next_obs st = (Return arr, st') ->
      exists n nos trans_in,
        shape rewards !! 1 = Some n /\
        mapM (fun i => col <- lift (column i next_obs) ;; lift (vstack col)) (seq 0 n) st
          = (Return nos, st) /\
        trace (snd st') =
          trace (snd st)
          ++ source_calls (map (fun z => (snd z, fst z)) (zip nos (Transfer.source (fst st))))
          ++ [Forward (Transfer.transition (fst st)) trans_in]
          ++ map (fun z =>
                    planning_call (snd z) (fst z)
                      (forward_value (Transfer.transition (fst st)) (heap (snd st)) trans_in)
                      (0, width (fst z)))
                 (zip nos (Transfer.planning (fst st)))) /\
  (let st := Stub.transfer_of Stub.env_3_5_2 in
   let out := Transfer.compute Stub.rewards_1_3 [Stub.next_obs_3_5_2] st in
   (exists arr, fst out = Return arr) /\
   forward_value (Transfer.transition (fst st)) (heap (snd st)) [[]]
     = [[0; 1; 2; 3; 4; 5; 6; 7; 8; 9]]%Q /\
   inputs_to (Transfer.planning (fst st)) (trace (snd (snd out))) =
     [[[100; 101; 102; 0; 1; 2]];
      [[200; 201; 202; 203; 204; 0; 1; 2; 3; 4]];
      [[300; 301; 0; 1]]]%Q).
Proof.
  split.
  - intros T rewards next_obs st arr st' H.
    apply Transfer_compute_trace in H as (n & nos & trans_in & v & H1 & H2 & _ & H4).
    exists n, nos, trans_in. auto.
  - vm_compute. split; [eexists; reflexivity|]. split; reflexivity.
Qed.

(** In the transfer variant, step 3 of [update], when it returns, has called
    the planning approximator of agent [i] on that agent's next observation
    joined with the columns of the transition output that start at the sum
    of the observation widths of the agents before [i] and span agent [i]'s
    own width.  For the widths 3, 5, 2 and the stub transition output
    0, 1, ..., 9 these are the columns [0:3], [3:8], [8:10]. *)
Theorem transfer_update_slices_at_cumulative_offsets :
  (forall (T : Torch) next_obs st i_rews st',
      Transfer.update_source next_obs st = (Return i_rews, st') ->
      exists trans_in,
        trace (snd st') =
          trace (snd st)
          ++ source_calls (map (fun z => (snd z, fst z))
                               (zip next_obs (Transfer.source (fst st))))
          ++ [Forward (Transfer.transition (fst st)) trans_in]
          ++ imap (fun i z =>
                     planning_call (snd z) (fst z)
                       (forward_value (Transfer.transition (fst st))
                          (zero_grad (Transfer.source_optimizer (fst st)) (heap (snd st)))
                          trans_in)
                       (cumulative_block
                          (map (fun z => width (fst z))
                               (zip next_obs (Transfer.planning (fst st)))) i))
                  (zip next_obs (Transfer.planning (fst st)))) /\
  (map (cumulative_block [3; 5; 2]) [0; 1; 2] = [(0, 3); (3, 8); (8, 10)]) /\
  (let st := Stub.transfer_of Stub.env_3_5_2 in
   let out := Transfer.update_source (T := Stub.torch)
                [[[100; 101; 102]]; [[200; 201; 202; 203; 204]]; [[300; 301]]]%Q st in
   (exists i_rews, fst out = Return i_rews) /\
   inputs_to (Transfer.planning (fst st)) (trace (snd (snd out))) =
     [[[100; 101; 102; 0; 1; 2]];
      [[200; 201; 202; 203; 204; 3; 4; 5; 6; 7]];
      [[300; 301; 8; 9]]]%Q).
Proof.
  split; [|split].
  - intros T. apply Transfer_update_source_trace.
  - reflexivity.
  - vm_compute. split; [eexists; reflexivity | reflexivity].
Qed.

(** ** Training mode and device placement *)

Section Modes.
Context `{T : Torch}.

Lemma Joint_prep_training_spec device st :
  let out := Joint.prep_training device st in
  let self := fst st in
  let self' := fst (snd out) in
  fst out = Return tt /\
  training (Joint.transition self') = true /\
  training (Joint.source self') = true /\
  training (Joint.planning self') = true /\
  Joint.trans_dev self' = device /\
  Joint.source_dev self' = device /\
  Joint.plan_dev self' = device /\
  heap (snd (snd out)) = heap (snd st) /\
  trace (snd (snd out)) =
    trace (snd st)
    ++ (if bool_decide (Joint.trans_dev self = device) then []
        else [transfer_event device (train (Joint.transition self))])
    ++ (if bool_decide (Joint.source_dev self = device) then []
        else [transfer_event device (train (Joint.source self))])
    ++ (if bool_decide (Joint.plan_dev self = device) then []
        else [transfer_event device (train (Joint.planning self))]).
Proof.
  destruct st as [[tr src pl o1 o2 o3 d1 d2 d3 k dict] w].
  unfold Joint.prep_training, Joint.move_groups, Joint.fn, transfer_event.
  unfold bind, modify_self, get_self, in_world, cuda, cpu, emit, modify, ret.
  repeat (cbn; case_bool_decide); cbn;
    rewrite <- ?app_assoc, ?app_nil_r; cbn; repeat split; congruence.
Qed.

Lemma train_trained (net : MLPNetwork) : training net = true -> train net = net.
Proof. destruct net as [i o ps tr pl]. simpl. intros ->. reflexivity. Qed.

(** A call with the device the tags already name, on approximators that are
    in training mode, changes nothing. *)
Lemma Joint_prep_training_noop device st :
  Joint.trans_dev (fst st) = device -> Joint.source_dev (fst st) = device ->
  Joint.plan_dev (fst st) = device ->
  training (Joint.transition (fst st)) = true ->
  training (Joint.source (fst st)) = true ->
  training (Joint.planning (fst st)) = true ->
  Joint.prep_training device st = (Return tt, st).
Proof.
  destruct st as [[tr src pl o1 o2 o3 d1 d2 d3 k dict] w]. cbn [fst Joint.trans_dev
    Joint.source_dev Joint.plan_dev Joint.transition Joint.source Joint.planning].
  intros -> -> -> H1 H2 H3.
  unfold Joint.prep_training, Joint.move_groups, Joint.fn.
  unfold bind, modify_self, get_self, in_world, cuda, cpu, emit, modify, ret.
  repeat (progress (cbn; rewrite ?(bool_decide_eq_true_2 (device = device)) by reflexivity)).
  rewrite (train_trained tr H1), (train_trained src H2), (train_trained pl H3).
  reflexivity.
Qed.

Lemma Joint_prep_training_idempotent device st :
  let st1 := snd (Joint.prep_training device st) in
  Joint.prep_training device st1 = (Return tt, st1).
Proof.
  intros st1.
  destruct (Joint_prep_training_spec device st) as (_ & H1 & H2 & H3 & H4 & H5 & H6 & _).
  apply Joint_prep_training_noop; assumption.
Qed.

(** The transfer estimator *)

Lemma fn_returns device (net : MLPNetwork) (w : World) :
  Transfer.fn device net w =
  (Return (moved device net),
   mkWorld (heap w) (torch_rng w) (trace w ++ [transfer_event device net])).
Proof.
  unfold Transfer.fn, moved, transfer_event, cuda, cpu, bind, emit, modify, ret.
  case_bool_decide; reflexivity.
Qed.

Lemma move_and_train_returns device (nets : list MLPNetwork) (w : World) :
  mapM (fun net => x <- Transfer.fn device net ;; ret (train x)) nets w =
  (Return (map (fun net => train (moved device net)) nets),
   mkWorld (heap w) (torch_rng w) (trace w ++ map (transfer_event device) nets)).
Proof.
  revert w. induction nets as [|net nets IH]; intros w; simpl.
  - rewrite app_nil_r. destruct w; reflexivity.
  - unfold bind at 1. unfold bind at 1. rewrite fn_returns. unfold ret at 1.
    unfold bind. rewrite IH. simpl. rewrite <- app_assoc. reflexivity.
Qed.

Lemma move_and_train_returns_unfolded device (nets : list MLPNetwork) (w : World) :
  mapM (fun (net : MLPNetwork) (s : World) =>
          let (r, s') := Transfer.fn device net s in
          match r with
          | Return a => ret (train a) s'
          | Raise e => (Raise e, s')
          end) nets w =
  (Return (map (fun net => train (moved device net)) nets),
   mkWorld (heap w) (torch_rng w) (trace w ++ map (transfer_event device) nets)).
Proof. exact (move_and_train_returns device nets w). Qed.

Lemma Transfer_prep_training_spec device st :
  let out := Transfer.prep_training device st in
  let self := fst st in
  let self' := fst (snd out) in
  fst out = Return tt /\
  training (Transfer.transition self') = true /\
  Transfer.source self' =
    (if bool_decide (Transfer.source_dev self = device) then Transfer.source self
     else map (fun net => train (moved device net)) (Transfer.source self)) /\
  Transfer.planning self' =
    (if bool_decide (Transfer.plan_dev self = device) then Transfer.planning self
     else map (fun net => train (moved device net)) (Transfer.planning self)) /\
  Transfer.trans_dev self' = device /\
  Transfer.source_dev self' = device /\
  Transfer.plan_dev self' = device /\
  heap (snd (snd out)) = heap (snd st) /\
  trace (snd (snd out)) =
    trace (snd st)
    ++ (if bool_decide (Transfer.trans_dev self = device) then []
        else [transfer_event device (train (Transfer.transition self))])
    ++ (if bool_decide (Transfer.source_dev self = device) then []
        else map (transfer_event device) (Transfer.source self))
    ++ (if bool_decide (Transfer.plan_dev self = device) then []
        else map (transfer_event device) (Transfer.planning self)).
Proof.
  destruct st as [[tr src pl o1 o2 o3 d1 d2 d3 k dict] w].
  unfold Transfer.prep_training.
  unfold bind, modify_self, get_self, in_world. cbn [fst snd].
  cbn [Transfer.set_transition Transfer.trans_dev Transfer.source_dev Transfer.plan_dev
       Transfer.transition Transfer.source Transfer.planning].
  repeat (cbn [fst snd negb Transfer.set_transition Transfer.set_source
               Transfer.set_planning Transfer.set_trans_dev Transfer.set_source_dev
               Transfer.set_plan_dev Transfer.trans_dev Transfer.source_dev
               Transfer.plan_dev Transfer.transition Transfer.source Transfer.planning
               heap trace torch_rng ret];
          first [rewrite fn_returns | rewrite move_and_train_returns_unfolded
                | case_bool_decide]);
    cbn; rewrite <- ?app_assoc, ?app_nil_r; cbn; repeat split; congruence.
Qed.

Lemma Transfer_prep_training_idempotent device st :
  let st1 := snd (Transfer.prep_training device st) in
  Transfer.prep_training device st1 = (Return tt, st1).
Proof.
  intros st1.
  destruct (Transfer_prep_training_spec device st)
    as (_ & H1 & _ & _ & H4 & H5 & H6 & _).
  fold st1 in H1, H4, H5, H6.
  destruct st1 as [[tr src pl o1 o2 o3 d1 d2 d3 k dict] w].
  cbn in H1, H4, H5, H6. subst d1 d2 d3.
  unfold Transfer.prep_training.
  unfold bind, modify_self, get_self, in_world, ret.
  repeat (progress (cbn; rewrite ?(bool_decide_eq_true_2 (device = device)) by reflexivity)).
  rewrite (train_trained tr H1). reflexivity.
Qed.

End Modes.

(** C4 (the code departs from the claim in the transfer variant).  There
    [prep_training] puts the per-agent source and planning approximators in
    training mode only inside the branch that moves them: when the stored
    tag of a group already names the requested device, the group is left as
    it is, in evaluation mode if it was.  After [prep_rollouts("cpu")] on a
    fresh estimator, [prep_training("cpu")] returns with the transition
    approximator in training mode and every source and planning approximator
    still in evaluation mode. *)
Theorem transfer_prep_training_leaves_eval_mode :
  (forall (T : Torch) device st,
      Transfer.source_dev (fst st) = device -> Transfer.plan_dev (fst st) = device ->
      let self' := fst (snd (Transfer.prep_training device st)) in
      Transfer.source self' = Transfer.source (fst st) /\
      Transfer.planning self' = Transfer.planning (fst st)) /\
  (let st0 := Stub.transfer_of Stub.env_3_5_2 in
   let st1 := snd (Transfer.prep_rollouts "cpu" st0) in
   let out := Transfer.prep_training "cpu" st1 in
   fst out = Return tt /\
   training (Transfer.transition (fst (snd out))) = true /\
   map training (Transfer.source (fst (snd out))) = [false; false; false] /\
   map training (Transfer.planning (fst (snd out))) = [false; false; false]).
Proof.
  split.
  - intros T device st Hs Hp self'.
    destruct (Transfer_prep_training_spec device st) as (_ & _ & H2 & H3 & _).
    rewrite (bool_decide_eq_true_2 _ Hs) in H2.
    rewrite (bool_decide_eq_true_2 _ Hp) in H3. auto.
  - vm_compute. repeat split; reflexivity.
Qed.

(** In the joint variant every call of [prep_training] returns with the
    three approximators in training mode and the three tags naming the
    requested device; it transfers exactly the groups whose tag differed,
    touches no parameter, and a second call with the same device changes
    nothing. *)
Theorem joint_prep_training_trains_and_moves_once `{T : Torch} (device : string)
    (st : Joint.VariationalJointEmpowerment * World) :
  let out := Joint.prep_training device st in
  let self := fst st in
  let self' := fst (snd out) in
  (fst out = Return tt /\
   training (Joint.transition self') = true /\
   training (Joint.source self') = true /\
   training (Joint.planning self') = true /\
   Joint.trans_dev self' = device /\
   Joint.source_dev self' = device /\
   Joint.plan_dev self' = device /\
   heap (snd (snd out)) = heap (snd st) /\
   trace (snd (snd out)) =
     trace (snd st)
     ++ (if bool_decide (Joint.trans_dev self = device) then []
         else [transfer_event device (train (Joint.transition self))])
     ++ (if bool_decide (Joint.source_dev self = device) then []
         else [transfer_event device (train (Joint.source self))])
     ++ (if bool_decide (Joint.plan_dev self = device) then []
         else [transfer_event device (train (Joint.planning self))])) /\
  Joint.prep_training device (snd out) = (Return tt, snd out).
Proof.
  split; [apply Joint_prep_training_spec | apply Joint_prep_training_idempotent].
Qed.

(** In the transfer variant every call of [prep_training] returns with the
    transition approximator in training mode and the three tags naming the
    requested device; it transfers exactly the groups whose tag differed,
    touches no parameter, and a second call with the same device changes
    nothing. *)
Theorem transfer_prep_training_moves_once `{T : Torch} (device : string)
    (st : Transfer.VariationalTransferEmpowerment * World) :
  let out := Transfer.prep_training device st in
  let self := fst st in
  let self' := fst (snd out) in
  (fst out = Return tt /\
   training (Transfer.transition self') = true /\
   Transfer.trans_dev self' = device /\
   Transfer.source_dev self' = device /\
   Transfer.plan_dev self' = device /\
   heap (snd (snd out)) = heap (snd st) /\
   trace (snd (snd out)) =
     trace (snd st)
     ++ (if bool_decide (Transfer.trans_dev self = device) then []
         else [transfer_event device (train (Transfer.transition self))])
     ++ (if bool_decide (Transfer.source_dev self = device) then []
         else map (transfer_event device) (Transfer.source self))
     ++ (if bool_decide (Transfer.plan_dev self = device) then []
         else map (transfer_event device) (Transfer.planning self))) /\
  Transfer.prep_training device (snd out) = (Return tt, snd out).
Proof.
  split; [|apply Transfer_prep_training_idempotent].
  destruct (Transfer_prep_training_spec device st)
    as (H0 & H1 & _ & _ & H4 & H5 & H6 & H7 & H8).
  repeat split; assumption.
Qed.

(** ** Evaluation mode: [prep_rollouts] *)

Section Rollouts.
Context `{T : Torch}.

Lemma eval_evaled (net : MLPNetwork) : training net = false -> eval net = net.
Proof. destruct net as [i o ps tr pl]. simpl. intros ->. reflexivity. Qed.

Lemma map_eval_evaled (nets : list MLPNetwork) :
  Forall (fun net => training net = false) nets -> map eval nets = nets.
Proof.
  induction 1 as [|net nets H _ IH]; simpl; [reflexivity|].
  rewrite IH, (eval_evaled net H). reflexivity.
Qed.

Lemma Forall_map_eval (nets : list MLPNetwork) :
  Forall (fun net => training net = false) (map eval nets).
Proof. apply List.Forall_map, Forall_forall. intros net _. reflexivity. Qed.

Lemma Joint_prep_rollouts_spec device st :
  let out := Joint.prep_rollouts device st in
  let self := fst st in
  let self' := fst (snd out) in
  fst out = Return tt /\
  training (Joint.transition self') = false /\
  training (Joint.source self') = false /\
  training (Joint.planning self') = false /\
  Joint.trans_dev self' = device /\
  Joint.source_dev self' = device /\
  Joint.plan_dev self' = device /\
  heap (snd (snd out)) = heap (snd st) /\
  trace (snd (snd out)) =
    trace (snd st)
    ++ (if bool_decide (Joint.trans_dev self = device) then []
        else [transfer_event device (eval (Joint.transition self))])
    ++ (if bool_decide (Joint.source_dev self = device) then []
        else [transfer_event device (eval (Joint.source self))])
    ++ (if bool_decide (Joint.plan_dev self = device) then []
        else [transfer_event device (eval (Joint.planning self))]).
Proof.
  destruct st as [[tr src pl o1 o2 o3 d1 d2 d3 k dict] w].
  unfold Joint.prep_rollouts, Joint.move_groups, Joint.fn, transfer_event.
  unfold bind, modify_self, get_self, in_world, cuda, cpu, emit, modify, ret.
  repeat (cbn; case_bool_decide); cbn;
    rewrite <- ?app_assoc, ?app_nil_r; cbn; repeat split; congruence.
Qed.

Lemma Joint_prep_rollouts_noop device st :
  Joint.trans_dev (fst st) = device -> Joint.source_dev (fst st) = device ->
  Joint.plan_dev (fst st) = device ->
  training (Joint.transition (fst st)) = false ->
  training (Joint.source (fst st)) = false ->
  training (Joint.planning (fst st)) = false ->
  Joint.prep_rollouts device st = (Return tt, st).
Proof.
  destruct st as [[tr src pl o1 o2 o3 d1 d2 d3 k dict] w]. cbn [fst Joint.trans_dev
    Joint.source_dev Joint.plan_dev Joint.transition Joint.source Joint.planning].
  intros -> -> -> H1 H2 H3.
  unfold Joint.prep_rollouts, Joint.move_groups, Joint.fn.
  unfold bind, modify_self, get_self, in_world, cuda, cpu, emit, modify, ret.
  repeat (progress (cbn; rewrite ?(bool_decide_eq_true_2 (device = device)) by reflexivity)).
  rewrite (eval_evaled tr H1), (eval_evaled src H2), (eval_evaled pl H3).
  reflexivity.
Qed.

Lemma move_returns device (nets : list MLPNetwork) (w : World) :
  mapM (Transfer.fn device) nets w =
  (Return (map (moved device) nets),
   mkWorld (heap w) (torch_rng w) (trace w ++ map (transfer_event device) nets)).
Proof.
  revert w. induction nets as [|net nets IH]; intros w; simpl.
  - rewrite app_nil_r. destruct w; reflexivity.
  - unfold bind at 1. rewrite fn_returns.
    unfold bind. rewrite IH. simpl. rewrite <- app_assoc. reflexivity.
Qed.

Lemma Transfer_prep_rollouts_spec device st :
  let out := Transfer.prep_rollouts device st in
  let self := fst st in
  let self' := fst (snd out) in
  fst out = Return tt /\
  Transfer.transition self' =
    (if bool_decide (Transfer.trans_dev self = device) then eval (Transfer.transition self)
     else eval (moved device (eval (Transfer.transition self)))) /\
  Transfer.source self' =
    map eval (if bool_decide (Transfer.source_dev self = device) then Transfer.source self
              else map (moved device) (Transfer.source self)) /\
  Transfer.planning self' =
    map eval (if bool_decide (Transfer.plan_dev self = device) then Transfer.planning self
              else map (moved device) (Transfer.planning self)) /\
  Transfer.trans_dev self' = device /\
  Transfer.source_dev self' = device /\
  Transfer.plan_dev self' = device /\
  heap (snd (snd out)) = heap (snd st) /\
  trace (snd (snd out)) =
    trace (snd st)
    ++ (if bool_decide (Transfer.trans_dev self = device) then []
        else [transfer_event device (eval (Transfer.transition self))])
    ++ (if bool_decide (Transfer.source_dev self = device) then []
        else map (transfer_event device) (Transfer.source self))
    ++ (if bool_decide (Transfer.plan_dev self = device) then []
        else map (transfer_event device) (Transfer.planning self)).
Proof.
  destruct st as [[tr src pl o1 o2 o3 d1 d2 d3 k dict] w].
  unfold Transfer.prep_rollouts.
  unfold bind, modify_self, get_self, in_world. cbn [fst snd].
  cbn [Transfer.set_transition Transfer.trans_dev Transfer.source_dev Transfer.plan_dev
       Transfer.transition Transfer.source Transfer.planning].
  repeat (cbn [fst snd negb Transfer.set_transition Transfer.set_source
               Transfer.set_planning Transfer.set_trans_dev Transfer.set_source_dev
               Transfer.set_plan_dev Transfer.trans_dev Transfer.source_dev
               Transfer.plan_dev Transfer.transition Transfer.source Transfer.planning
               heap trace torch_rng ret];
          first [rewrite fn_returns | rewrite move_returns
                | case_bool_decide]);
    cbn; rewrite <- ?app_assoc, ?app_nil_r; cbn; repeat split; congruence.
Qed.

Lemma Transfer_prep_rollouts_noop device st :
  Transfer.trans_dev (fst st) = device -> Transfer.source_dev (fst st) = device ->
  Transfer.plan_dev (fst st) = device ->
  training (Transfer.transition (fst st)) = false ->
  Forall (fun net => training net = false) (Transfer.source (fst st)) ->
  Forall (fun net => training net = false) (Transfer.planning (fst st)) ->
  Transfer.prep_rollouts device st = (Return tt, st).
Proof.
  destruct st as [[tr src pl o1 o2 o3 d1 d2 d3 k dict] w]. cbn [fst Transfer.trans_dev
    Transfer.source_dev Transfer.plan_dev Transfer.transition Transfer.source
    Transfer.planning].
  intros -> -> -> H1 H2 H3.
  unfold Transfer.prep_rollouts.
  unfold bind, modify_self, get_self, in_world, ret.
  repeat (progress (cbn; rewrite ?(bool_decide_eq_true_2 (device = device)) by reflexivity)).
  rewrite (eval_evaled tr H1), (map_eval_evaled src H2), (map_eval_evaled pl H3).
  rewrite (eval_evaled tr H1). reflexivity.
Qed.

Lemma transfer_event_cpu device net :
  device <> "gpu" -> transfer_event device net = ToCpu net.
Proof. intros H. unfold transfer_event. rewrite bool_decide_eq_false_2 by exact H. reflexivity. Qed.

Lemma forallb_if_nil {A : Type} (p : A -> bool) (b : bool) (l : list A) :
  forallb p l = true -> forallb p (if b then [] else l) = true.
Proof. destruct b; auto. Qed.

Lemma forallb_map_transfer_cpu device (nets : list MLPNetwork) :
  device <> "gpu" -> forallb is_to_cpu (map (transfer_event device) nets) = true.
Proof.
  intros H. induction nets as [|net nets IH]; simpl; [reflexivity|].
  rewrite (transfer_event_cpu device net H), IH. reflexivity.
Qed.

Lemma forallb_map_transfer_cuda (nets : list MLPNetwork) :
  forallb is_to_cuda (map (transfer_event "gpu") nets) = true.
Proof. induction nets as [|net nets IH]; simpl; [reflexivity | exact IH]. Qed.

End Rollouts.

(** ** What [update] keeps in the estimator object *)

Section UpdateWhole.
Context `{T : Torch}.

Section JointWhole.
Context (RE : relation Joint.VariationalJointEmpowerment) (RW : relation World).
Context `{!PreOrder RE, !PreOrder RW}.
Context (logger : option nat).
Hypothesis Hforward : forall net x, preserves RW (forward net x).
Hypothesis Hgumbel : forall l d h, preserves RW (gumbel_softmax l d h).
Hypothesis Hheap : forall f, preserves RW (modify_heap f).
Hypothesis Hstep :
  forall w opt, RW w (mkWorld (snd (step opt (heap w))) (torch_rng w) (trace w)).
Hypothesis Htrans :
  forall e h, RE e (Joint.set_transition_optimizer (fst (step (Joint.transition_optimizer e) h)) e).
Hypothesis Hplan :
  forall e h, RE e (Joint.set_planning_optimizer (fst (step (Joint.planning_optimizer e) h)) e).
Hypothesis Hsrc :
  forall e h, RE e (Joint.set_source_optimizer (fst (step (Joint.source_optimizer e) h)) e).
Hypothesis Hlog :
  forall lg tag sc k, logger = Some lg -> preserves RW (add_scalars lg tag sc k).
Hypothesis Hniter : forall e, RE e (Joint.set_niter (Joint.niter e + 1) e).

Lemma Joint_update_preserves sample :
  preserves (both RE RW) (Joint.update sample logger).
Proof.
  destruct sample as [[[[[obs acs] rews] emps] next_obs] dones].
  assert (H1 : preserves (both RE RW) (Joint.update_transition obs acs next_obs))
    by (apply Joint_update_transition_preserves; auto; exact _).
  assert (H2 : preserves (both RE RW) (Joint.update_planning obs acs next_obs))
    by (apply Joint_update_planning_preserves; auto; exact _).
  assert (H3 : preserves (both RE RW) (Joint.update_source next_obs))
    by (apply Joint_update_source_preserves; auto; exact _).
  unfold Joint.update.
  apply preserves_bind; try exact _; [exact H1 | intros tl].
  apply preserves_bind; try exact _; [exact H2 | intros pl].
  apply preserves_bind; try exact _; [exact H3 | intros ir].
  apply preserves_bind; try exact _.
  - destruct logger as [lg|].
    + apply preserves_bind; try exact _; [apply preserves_get_self; exact _ | intros self].
      apply preserves_in_world; try exact _. apply (Hlog lg). reflexivity.
    + apply preserves_ret; exact _.
  - intros _. apply preserves_modify_self; try exact _. exact Hniter.
Qed.

End JointWhole.

Section TransferWhole.
Context (RE : relation Transfer.VariationalTransferEmpowerment) (RW : relation World).
Context `{!PreOrder RE, !PreOrder RW}.
Context (logger : option nat).
Hypothesis Hforward : forall net x, preserves RW (forward net x).
Hypothesis Hgumbel : forall l d h, preserves RW (gumbel_softmax l d h).
Hypothesis Hheap : forall f, preserves RW (modify_heap f).
Hypothesis Hstep :
  forall w opt, RW w (mkWorld (snd (step opt (heap w))) (torch_rng w) (trace w)).
Hypothesis Htrans :
  forall e h, RE e (Transfer.set_transition_optimizer (fst (step (Transfer.transition_optimizer e) h)) e).
Hypothesis Hplan :
  forall e h, RE e (Transfer.set_planning_optimizer (fst (step (Transfer.planning_optimizer e) h)) e).
Hypothesis Hsrc :
  forall e h, RE e (Transfer.set_source_optimizer (fst (step (Transfer.source_optimizer e) h)) e).
Hypothesis Hlog :
  forall lg tag sc k, logger = Some lg -> preserves RW (add_scalars lg tag sc k).
Hypothesis Hniter : forall e, RE e (Transfer.set_niter (Transfer.niter e + 1) e).

Lemma Transfer_update_preserves sample :
  preserves (both RE RW) (Transfer.update sample logger).
Proof.
  destruct sample as [[[[[obs acs] rews] emps] next_obs] dones].
  assert (H1 : preserves (both RE RW) (Transfer.update_transition obs acs next_obs))
    by (apply Transfer_update_transition_preserves; auto; exact _).
  assert (H2 : preserves (both RE RW) (Transfer.update_planning obs acs next_obs))
    by (apply Transfer_update_planning_preserves; auto; exact _).
  assert (H3 : preserves (both RE RW) (Transfer.update_source next_obs))
    by (apply Transfer_update_source_preserves; auto; exact _).
  unfold Transfer.update.
  apply preserves_bind; try exact _; [exact H1 | intros tl].
  apply preserves_bind; try exact _; [exact H2 | intros pl].
  apply preserves_bind; try exact _; [exact H3 | intros ir].
  apply preserves_bind; try exact _.
  - destruct logger as [lg|].
    + apply preserves_bind; try exact _; [apply preserves_get_self; exact _ | intros self].
      apply preserves_in_world; try exact _. apply (Hlog lg). reflexivity.
    + apply preserves_ret; exact _.
  - intros _. apply preserves_modify_self; try exact _. exact Hniter.
Qed.

End TransferWhole.

Lemma True_heap f : preserves (fun _ _ : World => True) (modify_heap f).
Proof. intros w. exact I. Qed.

Lemma True_add_scalars lg tag sc k :
  preserves (fun _ _ : World => True) (add_scalars lg tag sc k).
Proof. intros w. exact I. Qed.

Lemma Joint_update_fixed sample logger :
  preserves (both (on joint_fixed) (fun _ _ => True)) (Joint.update sample logger).
Proof.
  apply Joint_update_preserves;
    auto using forward_True, gumbel_True, True_heap, True_add_scalars; try exact _;
    intros; unfold on, joint_fixed; simpl;
    rewrite ?(proj1 (step_param_groups _ _)), ?(proj2 (step_param_groups _ _));
    reflexivity.
Qed.

Lemma Transfer_update_fixed sample logger :
  preserves (both (on transfer_fixed) (fun _ _ => True)) (Transfer.update sample logger).
Proof.
  apply Transfer_update_preserves;
    auto using forward_True, gumbel_True, True_heap, True_add_scalars; try exact _;
    intros; unfold on, transfer_fixed; simpl;
    rewrite ?(proj1 (step_param_groups _ _)), ?(proj2 (step_param_groups _ _));
    reflexivity.
Qed.

End UpdateWhole.

(** ** Which parameters each step of [update] writes *)

Section Frames.
Context `{T : Torch}.

#[global] Instance values_outside_preorder (A : list nat) : PreOrder (values_outside A).
Proof.
  split.
  - intros w. split; auto.
  - intros a b c [L1 F1] [L2 F2]. split; [congruence|].
    intros x Hx. rewrite F2, F1; auto.
Qed.

Lemma frame_outside_mono (A A' : list nat) (w w' : World) :
  (forall a, a ∈ A -> a ∈ A') -> frame_outside A w w' -> frame_outside A' w w'.
Proof. intros Hsub [L F]. split; [exact L|]. intros a Ha. apply F. auto. Qed.

Lemma frame_values (A : list nat) (w w' : World) :
  frame_outside A w w' -> values_outside A w w'.
Proof. intros [L F]. split; [exact L|]. intros a Ha. rewrite F by exact Ha. reflexivity. Qed.

Lemma fold_alter_value (F : nat -> cell -> cell) (l : list nat) (h : list cell) (x : nat) :
  (forall a c, value (F a c) = value c) ->
  value <$> fold_left (fun h a => alter (F a) a h) l h !! x = value <$> h !! x.
Proof.
  intros HF. revert h. induction l as [|a l IH]; intros h; simpl; [reflexivity|].
  rewrite IH. destruct (decide (a = x)) as [->|Hne].
  - rewrite list_lookup_alter_eq. destruct (h !! x) as [c|]; simpl; [|reflexivity].
    rewrite HF. reflexivity.
  - rewrite list_lookup_alter_ne by exact Hne. reflexivity.
Qed.

Lemma zero_grad_value (opt : Adam) (h : list cell) (x : nat) :
  value <$> zero_grad opt h !! x = value <$> h !! x.
Proof.
  unfold zero_grad.
  apply (fold_alter_value (fun _ c => Cell (value c) (grad c ≫= zero_of))).
  reflexivity.
Qed.

Lemma backward_value loss leaves data noise (h : list cell) (x : nat) :
  value <$> backward loss leaves data noise h !! x = value <$> h !! x.
Proof.
  unfold backward.
  apply (fold_alter_value
           (fun a c => Cell (value c)
                         (Some (match grad c with
                                | Some g0 => padd g0 (autograd loss (map value h) data noise a)
                                | None => autograd loss (map value h) data noise a
                                end)))).
  reflexivity.
Qed.

Lemma zero_grad_values_outside (A : list nat) (opt : Adam) :
  preserves (values_outside A) (modify_heap (zero_grad opt)).
Proof.
  intros w. split; simpl; [apply zero_grad_length|]. intros a _. apply zero_grad_value.
Qed.

Lemma backward_values_outside (A : list nat) loss leaves data noise :
  preserves (values_outside A) (modify_heap (backward loss leaves data noise)).
Proof.
  intros w. split; simpl; [apply backward_length|]. intros a _. apply backward_value.
Qed.

Lemma forward_values A net x : preserves (values_outside A) (forward net x).
Proof. intros w. rewrite forward_world. split; auto. Qed.

Lemma gumbel_values A l d h : preserves (values_outside A) (gumbel_softmax l d h).
Proof. intros w. split; auto. Qed.

Lemma step_frame_outside (A : list nat) (w : World) (opt : Adam) :
  (forall a, a ∈ param_groups opt -> a ∈ A) ->
  frame_outside A w (mkWorld (snd (step opt (heap w))) (torch_rng w) (trace w)).
Proof.
  intros Hsub. split; simpl; [apply step_length|].
  intros a Ha. apply step_frame. intros Hin. apply Ha, Hsub, Hin.
Qed.

Lemma add_scalars_frame A lg tag sc k :
  preserves (frame_outside A) (add_scalars lg tag sc k).
Proof. intros w. split; auto. Qed.

(** The object is only read by the passes; the optimizer step reads the
    optimizer of the current object, whose parameters are [k]. *)
Section Guarded.
Context {E : Type} (f : E -> list nat) (k : list nat) (RW : relation World).
Context `{!PreOrder RW}.

Lemma guarded_in_world {X : Type} (c : M World X) :
  preserves RW c -> preserves (guarded_on f k RW) (@in_world _ E X c).
Proof.
  intros Hc. apply preserves_guarded.
  apply preserves_in_world; try exact _. exact Hc.
Qed.

Lemma guarded_get_rng : preserves (guarded_on f k RW) (@get_rng _ E).
Proof. apply preserves_guarded. apply preserves_get_rng; exact _. Qed.

Lemma guarded_optimizer_step (opt_of : E -> Adam) (set_opt : Adam -> E -> E) :
  (forall e, f e = param_groups (opt_of e)) ->
  (forall e o, f (set_opt o e) = param_groups o) ->
  (forall w opt, param_groups opt = k ->
                 RW w (mkWorld (snd (step opt (heap w))) (torch_rng w) (trace w))) ->
  preserves (guarded_on f k RW) (optimizer_step opt_of set_opt).
Proof.
  intros Hf Hset Hstep [e w] Hk. unfold optimizer_step. simpl in *.
  pose proof (step_param_groups (opt_of e) (heap w)) as [Hg _].
  specialize (Hstep w (opt_of e)).
  destruct (step (opt_of e) (heap w)) as [opt' h']. simpl in *.
  split.
  - rewrite Hset, Hg, <- Hf. exact Hk.
  - apply Hstep. rewrite <- Hf. exact Hk.
Qed.

End Guarded.

Lemma zip_params_subset {X : Type} (xs : list X) (nets : list MLPNetwork) (a : nat) :
  a ∈ concat (map (fun z => parameters (snd z)) (zip xs nets)) -> a ∈ parameters_of nets.
Proof.
  unfold parameters_of. revert nets.
  induction xs as [|x xs IH]; intros [|net nets]; simpl; try (intros H; inversion H; fail).
  rewrite !elem_of_app. intros [H|H]; [left; exact H | right; apply IH; exact H].
Qed.

Lemma zip_zip_params_subset {X Y : Type} (xs : list X) (ys : list Y)
    (nets : list MLPNetwork) (a : nat) :
  a ∈ concat (map (fun z => parameters (snd (snd z))) (zip xs (zip ys nets))) ->
  a ∈ parameters_of nets.
Proof.
  unfold parameters_of. revert ys nets.
  induction xs as [|x xs IH]; intros [|y ys] [|net nets]; simpl;
    try (intros H; inversion H; fail).
  rewrite !elem_of_app. intros [H|H]; [left; exact H | right; apply (IH ys); exact H].
Qed.

(** *** The joint estimator *)

Lemma Joint_update_transition_frame obs acs next_obs st :
  param_groups (Joint.transition_optimizer (fst st)) = parameters (Joint.transition (fst st)) ->
  frame_outside (parameters (Joint.transition (fst st))) (snd st)
                (snd (snd (Joint.update_transition obs acs next_obs st))).
Proof.
  intros Hg.
  set (A := parameters (Joint.transition (fst st))) in *.
  set (f := fun e => param_groups (Joint.transition_optimizer e)).
  assert (Hfwd : forall net x,
             preserves (guarded_on f A (frame_outside A))
                       (@in_world _ Joint.VariationalJointEmpowerment _ (forward net x)))
    by (intros; apply guarded_in_world; try exact _; apply forward_frame).
  pose proof (guarded_get_rng (E := Joint.VariationalJointEmpowerment) f A (frame_outside A))
    as Hrng.
  assert (Hzero : preserves (guarded_on f A (frame_outside A))
                    (@in_world _ Joint.VariationalJointEmpowerment _
                       (modify_heap (zero_grad (Joint.transition_optimizer (fst st)))))).
  { apply guarded_in_world; try exact _. apply zero_grad_frame_outside.
    intros a Ha. rewrite <- Hg. exact Ha. }
  assert (Hback : forall loss data noise,
             preserves (guarded_on f A (frame_outside A))
               (@in_world _ Joint.VariationalJointEmpowerment _
                  (modify_heap (backward loss (parameters (Joint.transition (fst st)))
                                         data noise)))).
  { intros. apply guarded_in_world; try exact _. apply backward_frame_outside. auto. }
  assert (Hstep : preserves (guarded_on f A (frame_outside A))
                    (optimizer_step Joint.transition_optimizer
                                    Joint.set_transition_optimizer)).
  { apply guarded_optimizer_step; try exact _; try reflexivity.
    intros w opt Hopt. apply step_frame_outside. intros a Ha. rewrite <- Hopt. exact Ha. }
  unfold Joint.update_transition.
  change (bind get_self ?k st) with (k (fst st) st).
  match goal with
  | |- frame_outside _ _ (snd (snd (?c st))) =>
      cut (preserves (guarded_on f A (frame_outside A)) c);
      [intros Hc; apply (Hc st); exact Hg|]
  end.
  pres.
Qed.

Lemma Joint_update_planning_frame obs acs next_obs st :
  param_groups (Joint.planning_optimizer (fst st)) = parameters (Joint.planning (fst st)) ->
  frame_outside (parameters (Joint.planning (fst st))) (snd st)
                (snd (snd (Joint.update_planning obs acs next_obs st))).
Proof.
  intros Hg.
  set (A := parameters (Joint.planning (fst st))) in *.
  set (f := fun e => param_groups (Joint.planning_optimizer e)).
  assert (Hloop : forall pairs,
             preserves (guarded_on f A (frame_outside A)) (Joint.acs_plan_loop pairs)).
  { intros pairs. apply preserves_guarded.
    apply Joint_acs_plan_loop_preserves; try exact _;
      [apply forward_frame | apply gumbel_frame]. }
  pose proof (guarded_get_rng (E := Joint.VariationalJointEmpowerment) f A (frame_outside A))
    as Hrng.
  assert (Hzero : preserves (guarded_on f A (frame_outside A))
                    (@in_world _ Joint.VariationalJointEmpowerment _
                       (modify_heap (zero_grad (Joint.planning_optimizer (fst st)))))).
  { apply guarded_in_world; try exact _. apply zero_grad_frame_outside.
    intros a Ha. rewrite <- Hg. exact Ha. }
  assert (Hback : forall loss data noise,
             preserves (guarded_on f A (frame_outside A))
               (@in_world _ Joint.VariationalJointEmpowerment _
                  (modify_heap (backward loss (parameters (Joint.planning (fst st)))
                                         data noise)))).
  { intros. apply guarded_in_world; try exact _. apply backward_frame_outside. auto. }
  assert (Hstep : preserves (guarded_on f A (frame_outside A))
                    (optimizer_step Joint.planning_optimizer
                                    Joint.set_planning_optimizer)).
  { apply guarded_optimizer_step; try exact _; try reflexivity.
    intros w opt Hopt. apply step_frame_outside. intros a Ha. rewrite <- Hopt. exact Ha. }
  unfold Joint.update_planning.
  change (bind get_self ?k st) with (k (fst st) st).
  match goal with
  | |- frame_outside _ _ (snd (snd (?c st))) =>
      cut (preserves (guarded_on f A (frame_outside A)) c);
      [intros Hc; apply (Hc st); exact Hg|]
  end.
  pres.
Qed.

End Frames.

(** ** The whole of [update]: nothing outside the estimator's own
    parameters is written *)

Section UpdateFrames.
Context `{T : Torch}.

Lemma Joint_steps_fixed obs acs next_obs :
  preserves (both (on joint_fixed) (fun _ _ => True))
            (Joint.update_transition obs acs next_obs) /\
  preserves (both (on joint_fixed) (fun _ _ => True))
            (Joint.update_planning obs acs next_obs) /\
  preserves (both (on joint_fixed) (fun _ _ => True))
            (Joint.update_source next_obs).
Proof.
  split; [|split].
  - apply Joint_update_transition_preserves;
      auto using forward_True, gumbel_True, True_heap; try exact _;
      intros; unfold on, joint_fixed; simpl;
      rewrite ?(proj1 (step_param_groups _ _)), ?(proj2 (step_param_groups _ _));
      reflexivity.
  - apply Joint_update_planning_preserves;
      auto using forward_True, gumbel_True, True_heap; try exact _;
      intros; unfold on, joint_fixed; simpl;
      rewrite ?(proj1 (step_param_groups _ _)), ?(proj2 (step_param_groups _ _));
      reflexivity.
  - apply Joint_update_source_preserves;
      auto using forward_True, gumbel_True, True_heap; try exact _;
      intros; unfold on, joint_fixed; simpl;
      rewrite ?(proj1 (step_param_groups _ _)), ?(proj2 (step_param_groups _ _));
      reflexivity.
Qed.

Lemma joint_fixed_inv e e0 :
  joint_fixed e = joint_fixed e0 ->
  Joint.transition e = Joint.transition e0 /\
  Joint.source e = Joint.source e0 /\
  Joint.planning e = Joint.planning e0 /\
  param_groups (Joint.transition_optimizer e) = param_groups (Joint.transition_optimizer e0) /\
  param_groups (Joint.planning_optimizer e) = param_groups (Joint.planning_optimizer e0) /\
  param_groups (Joint.source_optimizer e) = param_groups (Joint.source_optimizer e0).
Proof. unfold joint_fixed. intros H. injection H. intros. repeat split; assumption. Qed.

Lemma joint_fixed_wired e e0 :
  joint_fixed e = joint_fixed e0 -> joint_wired e0 -> joint_wired e.
Proof.
  intros H Hw. apply joint_fixed_inv in H as (H1 & H2 & H3 & H4 & H5 & H6).
  unfold joint_wired in *. rewrite H1, H2, H3, H4, H5, H6. exact Hw.
Qed.

Lemma Joint_update_frame sample logger st :
  joint_wired (fst st) ->
  frame_outside (parameters (Joint.transition (fst st))
                 ++ parameters (Joint.source (fst st))
                 ++ parameters (Joint.planning (fst st)))
                (snd st) (snd (snd (Joint.update sample logger st))).
Proof.
  intros Hw.
  set (A := parameters (Joint.transition (fst st)) ++ parameters (Joint.source (fst st))
            ++ parameters (Joint.planning (fst st))).
  set (K := joint_fixed (fst st)).
  cut (preserves (guarded_on joint_fixed K (frame_outside A)) (Joint.update sample logger)).
  { intros Hc. apply (Hc st). reflexivity. }
  destruct sample as [[[[[obs acs] rews] emps] next_obs] dones].
  destruct (Joint_steps_fixed obs acs next_obs) as (F1 & F2 & F3).
  assert (H1 : preserves (guarded_on joint_fixed K (frame_outside A))
                 (Joint.update_transition obs acs next_obs)).
  { intros s Hk. split; [rewrite <- Hk; apply (F1 s)|].
    pose proof (joint_fixed_wired _ _ Hk Hw) as (G1 & _).
    apply joint_fixed_inv in Hk as (E1 & _).
    eapply frame_outside_mono; [|apply Joint_update_transition_frame; exact G1].
    intros a Ha. unfold A. rewrite <- E1. apply elem_of_app. left. exact Ha. }
  assert (H2 : preserves (guarded_on joint_fixed K (frame_outside A))
                 (Joint.update_planning obs acs next_obs)).
  { intros s Hk. split; [rewrite <- Hk; apply (F2 s)|].
    pose proof (joint_fixed_wired _ _ Hk Hw) as (_ & G2 & _).
    apply joint_fixed_inv in Hk as (_ & _ & E3 & _).
    eapply frame_outside_mono; [|apply Joint_update_planning_frame; exact G2].
    intros a Ha. unfold A. rewrite <- E3. rewrite !elem_of_app. auto. }
  assert (H3 : preserves (guarded_on joint_fixed K (frame_outside A))
                 (Joint.update_source next_obs)).
  { intros s Hk. split; [rewrite <- Hk; apply (F3 s)|].
    pose proof (joint_fixed_wired _ _ Hk Hw) as G.
    apply joint_fixed_inv in Hk as (_ & E2 & E3 & _).
    eapply frame_outside_mono; [|apply Joint_update_source_frame; exact G].
    intros a Ha. unfold A. rewrite <- E2, <- E3. rewrite !elem_of_app in *. tauto. }
  unfold Joint.update.
  apply preserves_bind; try exact _; [exact H1 | intros tl].
  apply preserves_bind; try exact _; [exact H2 | intros pl].
  apply preserves_bind; try exact _; [exact H3 | intros ir].
  apply preserves_bind; try exact _.
  - apply preserves_guarded. destruct logger as [lg|].
    + apply preserves_bind; try exact _; [apply preserves_get_self; exact _ | intros self].
      apply preserves_in_world; try exact _. apply add_scalars_frame.
    + apply preserves_ret; exact _.
  - intros _. apply preserves_guarded.
    apply preserves_modify_self; try exact _. intros e. reflexivity.
Qed.

(** *** The transfer estimator: construction *)

Lemma mapM_new_parameters {X : Type} (f g : X -> nat) (l : list X) (w : World) nets w' :
  mapM (fun p => MLPNetwork_new (f p) (g p)) l w = (Return nets, w') ->
  exists k, parameters_of nets = seq (length (heap w)) k /\
            length (heap w') = length (heap w) + k.
Proof.
  revert w nets w'. induction l as [|p l IH]; intros w nets w'; simpl.
  - intros [= <- <-]. exists 0. split; [reflexivity | lia].
  - unfold bind at 1. rewrite MLPNetwork_new_eq.
    set (k1 := length (fst (mlp_init (f p) (g p) (torch_rng w)))).
    set (w1 := mkWorld _ _ _).
    intros H. apply bind_Return in H as (rest & w2 & Hrest & H).
    apply ret_inv in H as [-> ->].
    destruct (IH _ _ _ Hrest) as (k2 & Hp & Hl).
    exists (k1 + k2). unfold parameters_of in *. simpl. rewrite Hp, Hl.
    unfold w1. simpl. rewrite length_app, length_map. fold k1.
    split; [rewrite seq_app; reflexivity | lia].
Qed.

Lemma Transfer_init_wired ps i o lr hd r c w est w' :
  Transfer.init ps i o lr hd r c w = (Return est, w') -> transfer_wired est.
Proof.
  unfold Transfer.init. unfold bind at 1. rewrite MLPNetwork_new_eq.
  set (k0 := length (fst (mlp_init i o (torch_rng w)))).
  set (w0 := mkWorld _ _ _).
  intros H. apply bind_Return in H as (src & w1 & Hsrc & H).
  apply bind_Return in H as (pl & w2 & Hpl & H).
  apply bind_Return in H as (o1 & w3 & O1 & H).
  apply bind_Return in H as (o2 & w4 & O2 & H).
  apply bind_Return in H as (o3 & w5 & O3 & H).
  apply Adam_new_param_groups in O1 as [O1 _], O2 as [O2 _], O3 as [O3 _].
  apply ret_inv in H as [-> ->].
  destruct (mapM_new_parameters _ _ _ _ _ _ Hsrc) as (k1 & P1 & L1).
  destruct (mapM_new_parameters _ _ _ _ _ _ Hpl) as (k2 & P2 & L2).
  unfold transfer_wired. simpl. fold (parameters_of pl). fold (parameters_of src).
  repeat split; try assumption.
  rewrite P1, P2, L1. unfold w0. simpl. rewrite length_app, length_map. fold k0.
  rewrite <- !seq_app. apply NoDup_seq.
Qed.

Lemma Transfer_init_from_env_wired env lr hd r c w est w' :
  Transfer.init_from_env env lr hd r c w = (Return est, w') -> transfer_wired est.
Proof.
  unfold Transfer.init_from_env. destruct (Transfer.sizing env) as [[ps i] o].
  unfold Transfer.from_init_dict. simpl. intros H.
  apply bind_Return in H as (inst & w1 & Hinit & H).
  apply ret_inv in H as [-> ->].
  apply Transfer_init_wired in Hinit. exact Hinit.
Qed.

Lemma Transfer_steps_fixed obs acs next_obs :
  preserves (both (on transfer_fixed) (fun _ _ => True))
            (Transfer.update_transition obs acs next_obs) /\
  preserves (both (on transfer_fixed) (fun _ _ => True))
            (Transfer.update_planning obs acs next_obs) /\
  preserves (both (on transfer_fixed) (fun _ _ => True))
            (Transfer.update_source next_obs).
Proof.
  split; [|split].
  - apply Transfer_update_transition_preserves;
      auto using forward_True, gumbel_True, True_heap; try exact _;
      intros; unfold on, transfer_fixed; simpl;
      rewrite ?(proj1 (step_param_groups _ _)), ?(proj2 (step_param_groups _ _));
      reflexivity.
  - apply Transfer_update_planning_preserves;
      auto using forward_True, gumbel_True, True_heap; try exact _;
      intros; unfold on, transfer_fixed; simpl;
      rewrite ?(proj1 (step_param_groups _ _)), ?(proj2 (step_param_groups _ _));
      reflexivity.
  - apply Transfer_update_source_preserves;
      auto using forward_True, gumbel_True, True_heap; try exact _;
      intros; unfold on, transfer_fixed; simpl;
      rewrite ?(proj1 (step_param_groups _ _)), ?(proj2 (step_param_groups _ _));
      reflexivity.
Qed.

Lemma transfer_fixed_inv e e0 :
  transfer_fixed e = transfer_fixed e0 ->
  Transfer.transition e = Transfer.transition e0 /\
  Transfer.source e = Transfer.source e0 /\
  Transfer.planning e = Transfer.planning e0 /\
  param_groups (Transfer.transition_optimizer e)
    = param_groups (Transfer.transition_optimizer e0) /\
  param_groups (Transfer.planning_optimizer e)
    = param_groups (Transfer.planning_optimizer e0) /\
  param_groups (Transfer.source_optimizer e)
    = param_groups (Transfer.source_optimizer e0).
Proof. unfold transfer_fixed. intros H. injection H. intros. repeat split; assumption. Qed.

Lemma transfer_fixed_wired e e0 :
  transfer_fixed e = transfer_fixed e0 -> transfer_wired e0 -> transfer_wired e.
Proof.
  intros H Hw. apply transfer_fixed_inv in H as (H1 & H2 & H3 & H4 & H5 & H6).
  unfold transfer_wired in *. rewrite H1, H2, H3, H4, H5, H6. exact Hw.
Qed.

(** *** The transfer estimator: the three steps *)

Lemma Transfer_update_transition_frame obs acs next_obs st :
  param_groups (Transfer.transition_optimizer (fst st))
    = parameters (Transfer.transition (fst st)) ->
  frame_outside (parameters (Transfer.transition (fst st))) (snd st)
                (snd (snd (Transfer.update_transition obs acs next_obs st))).
Proof.
  intros Hg.
  set (A := parameters (Transfer.transition (fst st))) in *.
  set (f := fun e => param_groups (Transfer.transition_optimizer e)).
  assert (Hfwd : forall net x,
             preserves (guarded_on f A (frame_outside A))
                       (@in_world _ Transfer.VariationalTransferEmpowerment _ (forward net x)))
    by (intros; apply guarded_in_world; try exact _; apply forward_frame).
  pose proof (guarded_get_rng (E := Transfer.VariationalTransferEmpowerment) f A
                (frame_outside A)) as Hrng.
  assert (Hzero : preserves (guarded_on f A (frame_outside A))
                    (@in_world _ Transfer.VariationalTransferEmpowerment _
                       (modify_heap (zero_grad (Transfer.transition_optimizer (fst st)))))).
  { apply guarded_in_world; try exact _. apply zero_grad_frame_outside.
    intros a Ha. rewrite <- Hg. exact Ha. }
  assert (Hback : forall loss data noise,
             preserves (guarded_on f A (frame_outside A))
               (@in_world _ Transfer.VariationalTransferEmpowerment _
                  (modify_heap (backward loss (parameters (Transfer.transition (fst st)))
                                         data noise)))).
  { intros. apply guarded_in_world; try exact _. apply backward_frame_outside. auto. }
  assert (Hstep : preserves (guarded_on f A (frame_outside A))
                    (optimizer_step Transfer.transition_optimizer
                                    Transfer.set_transition_optimizer)).
  { apply guarded_optimizer_step; try exact _; try reflexivity.
    intros w opt Hopt. apply step_frame_outside. intros a Ha. rewrite <- Hopt. exact Ha. }
  unfold Transfer.update_transition.
  change (bind get_self ?k st) with (k (fst st) st).
  match goal with
  | |- frame_outside _ _ (snd (snd (?c st))) =>
      cut (preserves (guarded_on f A (frame_outside A)) c);
      [intros Hc; apply (Hc st); exact Hg|]
  end.
  pres.
Qed.

Lemma Transfer_update_planning_frame obs acs next_obs st :
  param_groups (Transfer.planning_optimizer (fst st))
    = parameters_of (Transfer.planning (fst st)) ->
  frame_outside (parameters_of (Transfer.planning (fst st))) (snd st)
                (snd (snd (Transfer.update_planning obs acs next_obs st))).
Proof.
  intros Hg.
  set (A := parameters_of (Transfer.planning (fst st))) in *.
  set (f := fun e => param_groups (Transfer.planning_optimizer e)).
  assert (Hloop : forall zipped,
             preserves (guarded_on f A (frame_outside A)) (Transfer.acs_plan_loop zipped)).
  { intros zipped. apply preserves_guarded.
    apply Transfer_acs_plan_loop_preserves; try exact _;
      [apply forward_frame | apply gumbel_frame]. }
  pose proof (guarded_get_rng (E := Transfer.VariationalTransferEmpowerment) f A
                (frame_outside A)) as Hrng.
  assert (Hzero : preserves (guarded_on f A (frame_outside A))
                    (@in_world _ Transfer.VariationalTransferEmpowerment _
                       (modify_heap (zero_grad (Transfer.planning_optimizer (fst st)))))).
  { apply guarded_in_world; try exact _. apply zero_grad_frame_outside.
    intros a Ha. rewrite <- Hg. exact Ha. }
  assert (Hback : forall loss data noise,
             preserves (guarded_on f A (frame_outside A))
               (@in_world _ Transfer.VariationalTransferEmpowerment _
                  (modify_heap
                     (backward loss
                        (concat (map (fun z => parameters (snd (snd z)))
                                     (zip obs (zip next_obs (Transfer.planning (fst st))))))
                        data noise)))).
  { intros. apply guarded_in_world; try exact _. apply backward_frame_outside.
    intros a Ha. apply (zip_zip_params_subset obs next_obs). exact Ha. }
  assert (Hstep : preserves (guarded_on f A (frame_outside A))
                    (optimizer_step Transfer.planning_optimizer
                                    Transfer.set_planning_optimizer)).
  { apply guarded_optimizer_step; try exact _; try reflexivity.
    intros w opt Hopt. apply step_frame_outside. intros a Ha. rewrite <- Hopt. exact Ha. }
  unfold Transfer.update_planning.
  change (bind get_self ?k st) with (k (fst st) st).
  match goal with
  | |- frame_outside _ _ (snd (snd (?c st))) =>
      cut (preserves (guarded_on f A (frame_outside A)) c);
      [intros Hc; apply (Hc st); exact Hg|]
  end.
  cbv zeta. pres.
Qed.

(** Step 3: gradients are accumulated into the source and the planning
    parameters, values are written only at the source parameters. *)
Lemma Transfer_update_source_guarded next_obs st (RW : relation World)
    `{!PreOrder RW} :
  (forall net x, preserves RW (forward net x)) ->
  (forall l d h, preserves RW (gumbel_softmax l d h)) ->
  preserves RW (modify_heap (zero_grad (Transfer.source_optimizer (fst st)))) ->
  (forall loss data noise,
      preserves RW
        (modify_heap
           (backward loss
              (concat (map (fun z => parameters (snd z))
                           (zip next_obs (Transfer.source (fst st))))
               ++ concat (map (fun z => parameters (snd z))
                              (zip next_obs (Transfer.planning (fst st)))))
              data noise))) ->
  (forall w opt, param_groups opt = param_groups (Transfer.source_optimizer (fst st)) ->
                 RW w (mkWorld (snd (step opt (heap w))) (torch_rng w) (trace w))) ->
  RW (snd st) (snd (snd (Transfer.update_source next_obs st))).
Proof.
  intros Hforward Hgumbel Hz Hb Hs.
  set (K := param_groups (Transfer.source_optimizer (fst st))) in *.
  set (f := fun e => param_groups (Transfer.source_optimizer e)).
  assert (Hsrc : forall zipped,
             preserves (guarded_on f K RW) (Transfer.source_loop zipped)).
  { intros zipped. apply preserves_guarded.
    apply Transfer_source_loop_preserves; try exact _; assumption. }
  assert (Hplan : forall t s zipped,
             preserves (guarded_on f K RW) (Transfer.update_plan_loop t s zipped)).
  { intros t s zipped. apply preserves_guarded.
    apply Transfer_update_plan_loop_preserves; try exact _; assumption. }
  assert (Hfwd : forall net x,
             preserves (guarded_on f K RW)
                       (@in_world _ Transfer.VariationalTransferEmpowerment _ (forward net x)))
    by (intros; apply guarded_in_world; try exact _; apply Hforward).
  pose proof (guarded_get_rng (E := Transfer.VariationalTransferEmpowerment) f K RW)
    as Hrng.
  assert (Hzero : preserves (guarded_on f K RW)
                    (@in_world _ Transfer.VariationalTransferEmpowerment _
                       (modify_heap (zero_grad (Transfer.source_optimizer (fst st))))))
    by (apply guarded_in_world; try exact _; exact Hz).
  assert (Hback : forall loss data noise,
             preserves (guarded_on f K RW)
               (@in_world _ Transfer.VariationalTransferEmpowerment _
                  (modify_heap
                     (backward loss
                        (concat (map (fun z => parameters (snd z))
                                     (zip next_obs (Transfer.source (fst st))))
                         ++ concat (map (fun z => parameters (snd z))
                                        (zip next_obs (Transfer.planning (fst st)))))
                        data noise))))
    by (intros; apply guarded_in_world; try exact _; apply Hb).
  assert (Hstep : preserves (guarded_on f K RW)
                    (optimizer_step Transfer.source_optimizer
                                    Transfer.set_source_optimizer)).
  { apply guarded_optimizer_step; try exact _; try reflexivity. exact Hs. }
  unfold Transfer.update_source.
  change (bind get_self ?k st) with (k (fst st) st).
  match goal with
  | |- RW _ (snd (snd (?c st))) =>
      cut (preserves (guarded_on f K RW) c);
      [intros Hc; apply (Hc st); reflexivity|]
  end.
  pres.
Qed.

Lemma Transfer_update_source_frame next_obs st :
  param_groups (Transfer.source_optimizer (fst st))
    = parameters_of (Transfer.source (fst st)) ->
  frame_outside (parameters_of (Transfer.source (fst st))
                 ++ parameters_of (Transfer.planning (fst st)))
                (snd st) (snd (snd (Transfer.update_source next_obs st))) /\
  values_outside (parameters_of (Transfer.source (fst st)))
                 (snd st) (snd (snd (Transfer.update_source next_obs st))).
Proof.
  intros Hg. split.
  - apply Transfer_update_source_guarded; try exact _.
    + apply forward_frame.
    + apply gumbel_frame.
    + apply zero_grad_frame_outside. intros a Ha. rewrite Hg in Ha.
      apply elem_of_app. left. exact Ha.
    + intros. apply backward_frame_outside. intros a Ha.
      rewrite !elem_of_app in *. destruct Ha as [Ha|Ha]; [left|right];
        eapply zip_params_subset; exact Ha.
    + intros w opt Hopt. apply step_frame_outside. intros a Ha.
      rewrite Hopt, Hg in Ha. apply elem_of_app. left. exact Ha.
  - apply Transfer_update_source_guarded; try exact _.
    + apply forward_values.
    + apply gumbel_values.
    + apply zero_grad_values_outside.
    + intros. apply backward_values_outside.
    + intros w opt Hopt. apply frame_values. apply step_frame_outside.
      intros a Ha. rewrite Hopt, Hg in Ha. exact Ha.
Qed.

Lemma Transfer_update_frame sample logger st :
  transfer_wired (fst st) ->
  frame_outside (parameters (Transfer.transition (fst st))
                 ++ parameters_of (Transfer.source (fst st))
                 ++ parameters_of (Transfer.planning (fst st)))
                (snd st) (snd (snd (Transfer.update sample logger st))).
Proof.
  intros Hw.
  set (A := parameters (Transfer.transition (fst st))
            ++ parameters_of (Transfer.source (fst st))
            ++ parameters_of (Transfer.planning (fst st))).
  set (K := transfer_fixed (fst st)).
  cut (preserves (guarded_on transfer_fixed K (frame_outside A))
                 (Transfer.update sample logger)).
  { intros Hc. apply (Hc st). reflexivity. }
  destruct sample as [[[[[obs acs] rews] emps] next_obs] dones].
  destruct (Transfer_steps_fixed obs acs next_obs) as (F1 & F2 & F3).
  assert (H1 : preserves (guarded_on transfer_fixed K (frame_outside A))
                 (Transfer.update_transition obs acs next_obs)).
  { intros s Hk. split; [rewrite <- Hk; apply (F1 s)|].
    pose proof (transfer_fixed_wired _ _ Hk Hw) as (G1 & _).
    apply transfer_fixed_inv in Hk as (E1 & _).
    eapply frame_outside_mono; [|apply Transfer_update_transition_frame; exact G1].
    intros a Ha. unfold A. rewrite <- E1. apply elem_of_app. left. exact Ha. }
  assert (H2 : preserves (guarded_on transfer_fixed K (frame_outside A))
                 (Transfer.update_planning obs acs next_obs)).
  { intros s Hk. split; [rewrite <- Hk; apply (F2 s)|].
    pose proof (transfer_fixed_wired _ _ Hk Hw) as (_ & G2 & _).
    apply transfer_fixed_inv in Hk as (_ & _ & E3 & _).
    eapply frame_outside_mono; [|apply Transfer_update_planning_frame; exact G2].
    intros a Ha. unfold A. rewrite <- E3. rewrite !elem_of_app. auto. }
  assert (H3 : preserves (guarded_on transfer_fixed K (frame_outside A))
                 (Transfer.update_source next_obs)).
  { intros s Hk. split; [rewrite <- Hk; apply (F3 s)|].
    pose proof (transfer_fixed_wired _ _ Hk Hw) as (_ & _ & G3 & _).
    apply transfer_fixed_inv in Hk as (_ & E2 & E3 & _).
    eapply frame_outside_mono; [|apply Transfer_update_source_frame; exact G3].
    intros a Ha. unfold A. rewrite <- E2, <- E3. rewrite !elem_of_app in *. tauto. }
  unfold Transfer.update.
  apply preserves_bind; try exact _; [exact H1 | intros tl].
  apply preserves_bind; try exact _; [exact H2 | intros pl].
  apply preserves_bind; try exact _; [exact H3 | intros ir].
  apply preserves_bind; try exact _.
  - apply preserves_guarded. destruct logger as [lg|].
    + apply preserves_bind; try exact _; [apply preserves_get_self; exact _ | intros self].
      apply preserves_in_world; try exact _. apply add_scalars_frame.
    + apply preserves_ret; exact _.
  - intros _. apply preserves_guarded.
    apply preserves_modify_self; try exact _. intros e. reflexivity.
Qed.

End UpdateFrames.

(** ** Well-shaped batches: [update] returns *)

Section UpdateReturns.
Context `{T : Torch}.

Lemma in_world_modify_heap_eq {E : Type} (f : list cell -> list cell) (e : E) (w : World) :
  in_world (modify_heap f) (e, w) =
  (Return tt, (e, mkWorld (f (heap w)) (torch_rng w) (trace w))).
Proof. reflexivity. Qed.

Lemma get_rng_eq {E : Type} (e : E) (w : World) :
  get_rng (e, w) = (Return (torch_rng w), (e, w)).
Proof. reflexivity. Qed.

Lemma optimizer_step_eq {E : Type} (opt_of : E -> Adam) (set_opt : Adam -> E -> E)
    (e : E) (w : World) :
  optimizer_step opt_of set_opt (e, w) =
  (Return tt,
   (set_opt (fst (step (opt_of e) (heap w))) e,
    mkWorld (snd (step (opt_of e) (heap w))) (torch_rng w) (trace w))).
Proof.
  unfold optimizer_step. simpl. destruct (step (opt_of e) (heap w)). reflexivity.
Qed.

Lemma MSELoss_returns (B c : nat) (x y : tensor) :
  1 <= B -> has_shape B c x -> has_shape B c y -> exists v, MSELoss x y = Return v.
Proof.
  intros HB Hx Hy. unfold MSELoss.
  destruct (ewise_shape B c ssub x y HB Hx Hy) as (d & -> & _). eexists. reflexivity.
Qed.

Lemma Forall2_nonempty_r {A B' : Type} (P : A -> B' -> Prop) l k :
  Forall2 P l k -> 1 <= length l -> k <> [].
Proof. destruct 1; simpl; [lia | congruence]. Qed.

(** *** The joint estimator *)

Lemma Joint_update_transition_returns est (B : nat) (agents : list (nat * nat))
    (obs acs next_obs : list tensor) (w : World) :
  dims (Joint.transition est) =
    (sum_list (map (fun wa => fst wa + snd wa) agents), sum_list (map fst agents)) ->
  1 <= length agents -> 1 <= B ->
  Forall2 (has_shape B) (map fst agents) obs ->
  Forall2 (has_shape B) (map snd agents) acs ->
  Forall2 (has_shape B) (map fst agents) next_obs ->
  exists loss opt' w',
    Joint.update_transition obs acs next_obs (est, w) =
      (Return loss, (Joint.set_transition_optimizer opt' est, w')).
Proof.
  intros Hd Hn HB Hobs Hacs Hnext. unfold dims in Hd. injection Hd as Hi Ho.
  unfold Joint.update_transition.
  rewrite bind_get_self. cbn [fst].
  rewrite (bind_eq_Return _ _ _ _ _ (in_world_modify_heap_eq _ est w)).
  rewrite (bind_eq_Return _ _ _ _ _ (get_rng_eq est _)).
  destruct (cat1_shape B (map fst agents ++ map snd agents) (obs ++ acs))
    as (trans_in & Ecat & Scat).
  { assert (obs <> []) by (eapply Forall2_nonempty_r; [exact Hobs | rewrite length_map; lia]).
    destruct obs; [congruence | discriminate]. }
  { apply Forall2_app; assumption. }
  rewrite Ecat, bind_lift_Return.
  rewrite sum_list_with_app, <- sum_list_fst_snd, <- Hi in Scat.
  match goal with |- context [bind (in_world (forward _ _)) _ (est, ?w1)] =>
    destruct (in_world_forward_returns est _ trans_in w1 B Scat) as [E2 S2]
  end.
  rewrite (bind_eq_Return _ _ _ _ _ E2). rewrite Ho in S2.
  destruct (cat1_shape B (map fst agents) next_obs) as (target & Et & St).
  { eapply Forall2_nonempty_r; [exact Hnext | rewrite length_map; lia]. }
  { exact Hnext. }
  rewrite Et, bind_lift_Return.
  destruct (MSELoss_returns B _ _ _ HB S2 St) as (loss & El).
  rewrite El, bind_lift_Return.
  rewrite (bind_eq_Return _ _ _ _ _ (in_world_modify_heap_eq _ est _)).
  rewrite (bind_eq_Return _ _ _ _ _ (optimizer_step_eq _ _ est _)).
  eexists _, _, _. reflexivity.
Qed.

Lemma Joint_acs_plan_loop_returns est (B wd a : nat) (obs next_obs : list tensor)
    (w : World) :
  input_dim (Joint.planning est) = wd + wd -> out_dim (Joint.planning est) = a ->
  Forall (has_shape B wd) obs -> Forall (has_shape B wd) next_obs ->
  length obs = length next_obs ->
  exists acs w',
    Joint.acs_plan_loop (zip obs next_obs) (est, w) = (Return acs, (est, w')) /\
    Forall (has_shape B a) acs /\ length acs = length obs.
Proof.
  intros Hin Hout Hobs. revert next_obs w.
  induction Hobs as [|o obs Ho _ IH]; intros next_obs w Hnext Hlen.
  - exists [], w. repeat split; constructor.
  - destruct Hnext as [|no next_obs Hno Hnext]; [discriminate Hlen|].
    simpl in Hlen. injection Hlen as Hlen.
    change (Joint.acs_plan_loop (zip (o :: obs) (no :: next_obs))) with
      (plan_in <- lift (cat1 [o; no]) ;;
       self <- get_self ;;
       logits <- in_world (forward (Joint.planning self) plan_in) ;;
       a <- in_world (gumbel_softmax logits (Joint.plan_dev self) true) ;;
       acs <- Joint.acs_plan_loop (zip obs next_obs) ;;
       ret (a :: acs)).
    destruct (cat1_pair B wd wd o no Ho Hno) as [Ecat Scat].
    rewrite Ecat, bind_lift_Return, bind_get_self. cbn [fst snd].
    rewrite <- Hin in Scat.
    destruct (in_world_forward_returns est _ _ w B Scat) as [E1 S1].
    rewrite (bind_eq_Return _ _ _ _ _ E1). rewrite Hout in S1.
    match type of E1 with _ = (_, (_, ?w1)) =>
      destruct (in_world_gumbel_returns est _ (Joint.plan_dev est) true w1 B a S1)
        as (y & E2 & S2);
      rewrite (bind_eq_Return _ _ _ _ _ E2);
      match type of E2 with _ = (_, (_, ?w2)) =>
        destruct (IH next_obs w2 Hnext Hlen) as (acs & w' & E3 & P3 & L3)
      end
    end.
    rewrite (bind_eq_Return _ _ _ _ _ E3).
    exists (y :: acs), w'. cbn [length].
    repeat split; try constructor; auto.
Qed.

Lemma Joint_update_planning_returns est (n B wd a : nat)
    (obs acs next_obs : list tensor) (w : World) :
  dims (Joint.planning est) = (2 * wd, a) ->
  1 <= n -> 1 <= B ->
  Forall (has_shape B wd) obs -> length obs = n ->
  Forall (has_shape B a) acs -> length acs = n ->
  Forall (has_shape B wd) next_obs -> length next_obs = n ->
  exists loss opt' w',
    Joint.update_planning obs acs next_obs (est, w) =
      (Return loss, (Joint.set_planning_optimizer opt' est, w')).
Proof.
  intros Hd Hn HB Hobs Lobs Hacs Lacs Hnext Lnext.
  unfold dims in Hd. injection Hd as Hi Ho.
  unfold Joint.update_planning.
  rewrite bind_get_self. cbn [fst].
  rewrite (bind_eq_Return _ _ _ _ _ (in_world_modify_heap_eq _ est w)).
  rewrite (bind_eq_Return _ _ _ _ _ (get_rng_eq est _)).
  match goal with |- context [bind (Joint.acs_plan_loop _) _ (est, ?w1)] =>
    destruct (Joint_acs_plan_loop_returns est B wd a obs next_obs w1)
      as (plans & w2 & E1 & Hplans & Lplans); auto; try lia
  end.
  rewrite (bind_eq_Return _ _ _ _ _ E1).
  destruct (cat1_shape_uniform B a plans) as (pp & Epp & Spp);
    [apply nonempty_length; lia | exact Hplans |].
  destruct (cat1_shape_uniform B a acs) as (aa & Eaa & Saa);
    [apply nonempty_length; lia | exact Hacs |].
  rewrite Epp, bind_lift_Return, Eaa, bind_lift_Return.
  rewrite Lplans, Lobs in Spp. rewrite Lacs in Saa.
  destruct (MSELoss_returns B _ _ _ HB Spp Saa) as (loss & El).
  rewrite El, bind_lift_Return.
  rewrite (bind_eq_Return _ _ _ _ _ (in_world_modify_heap_eq _ est _)).
  rewrite (bind_eq_Return _ _ _ _ _ (optimizer_step_eq _ _ est _)).
  eexists _, _, _. reflexivity.
Qed.

Lemma Joint_update_source_returns est (n B wd a : nat) (next_obs : list tensor)
    (w : World) :
  joint_sized est n wd a -> 1 <= n -> 1 <= B ->
  Forall (has_shape B wd) next_obs -> length next_obs = n ->
  exists i_rews opt' w',
    Joint.update_source next_obs (est, w) =
      (Return i_rews, (Joint.set_source_optimizer opt' est, w')).
Proof.
  intros (Ht & Hs & Hp) Hn HB Hnos Hlen.
  unfold dims in Ht, Hs, Hp.
  injection Ht as Hti Hto. injection Hs as Hsi Hso. injection Hp as Hpi Hpo.
  unfold Joint.update_source.
  rewrite bind_get_self. cbn [fst].
  rewrite (bind_eq_Return _ _ _ _ _ (in_world_modify_heap_eq _ est w)).
  rewrite (bind_eq_Return _ _ _ _ _ (get_rng_eq est _)).
  match goal with |- context [bind (Joint.source_loop _) _ (est, ?w0)] =>
    destruct (Joint_source_loop_returns est B wd a next_obs w0 Hsi Hso Hnos)
      as (acs & probs & w1 & E1 & Hacs & Hprobs & Lacs & Lprobs)
  end.
  rewrite (bind_eq_Return _ _ _ _ _ E1). cbv beta iota.
  assert (Hne : next_obs <> []) by (apply nonempty_length; lia).
  destruct (cat1_shape B (replicate (length next_obs) wd ++ replicate (length acs) a)
              (next_obs ++ acs)) as (trans_in & Ecat & Scat).
  { destruct next_obs; [congruence | discriminate]. }
  { apply Forall2_app; apply Forall2_replicate_l; assumption. }
  rewrite Ecat, bind_lift_Return.
  rewrite sum_list_with_app, !sum_list_replicate, Lacs, Hlen in Scat.
  replace (n * wd + n * a) with (input_dim (Joint.transition est)) in Scat by lia.
  destruct (in_world_forward_returns est _ trans_in w1 B Scat) as [E2 S2].
  rewrite (bind_eq_Return _ _ _ _ _ E2). rewrite Hto in S2.
  rewrite (len_0_0_returns B wd next_obs HB Hne Hnos), bind_lift_Return.
  match type of E2 with _ = (Return ?t, (_, ?w2)) =>
    destruct (Joint_plan_loop_returns est B wd a (n * wd) t next_obs 0 w2)
      as (plans & w3 & E3 & Hplans & Lplans); auto; try lia
  end.
  rewrite (bind_eq_Return _ _ _ _ _ E3).
  destruct (cat1_shape_uniform B a plans) as (pp & Epp & Spp);
    [apply nonempty_length; lia | exact Hplans |].
  destruct (cat1_shape_uniform B a probs) as (ps & Eps & Sps);
    [apply nonempty_length; lia | exact Hprobs |].
  destruct (cat1_shape_uniform B a acs) as (as' & Eas & Sas);
    [apply nonempty_length; lia | exact Hacs |].
  rewrite Epp, bind_lift_Return, Eps, bind_lift_Return, Eas, bind_lift_Return.
  rewrite Lplans in Spp. rewrite Lprobs in Sps. rewrite Lacs in Sas.
  destruct (ewise_shape B _ smul as' pp HB Sas Spp) as (x & Ex & Sx).
  destruct (ewise_shape B _ smul as' ps HB Sas Sps) as (y & Ey & Sy).
  destruct (ewise_shape B _ ssub x y HB Sx Sy) as (z & Ez & Sz).
  rewrite Ex, bind_lift_Return, Ey, bind_lift_Return, Ez, bind_lift_Return.
  cbv zeta.
  rewrite (bind_eq_Return _ _ _ _ _ (in_world_modify_heap_eq _ est _)).
  rewrite (bind_eq_Return _ _ _ _ _ (optimizer_step_eq _ _ est _)).
  eexists _, _, _. reflexivity.
Qed.

Lemma map_fst_replicate {A B' : Type} (n : nat) (x : A) (y : B') :
  map fst (replicate n (x, y)) = replicate n x /\
  map snd (replicate n (x, y)) = replicate n y.
Proof. induction n as [|n [IH1 IH2]]; simpl; [auto|]. rewrite IH1, IH2. auto. Qed.

Lemma sum_list_map_replicate {A : Type} (f : A -> nat) (n : nat) (x : A) :
  sum_list (map f (replicate n x)) = n * f x.
Proof. induction n as [|n IH]; simpl; [reflexivity|]. rewrite IH. reflexivity. Qed.

(** [update] on a well-shaped batch returns, having advanced the counter by
    one and changed nothing else in the object but the optimizers' state. *)
Lemma Joint_update_returns est (n B wd a : nat) (sample : Sample)
    (logger : option nat) (w : World) :
  joint_sized est n wd a -> 1 <= n -> 1 <= B ->
  sample_of B (replicate n (wd, a)) sample ->
  exists est' w',
    Joint.update sample logger (est, w) = (Return tt, (est', w')) /\
    Joint.niter est' = Joint.niter est + 1 /\
    joint_fixed est' = joint_fixed est.
Proof.
  intros Hs Hn HB Hsample.
  destruct sample as [[[[[obs acs] rews] emps] next_obs] dones].
  destruct Hsample as (Hobs & Hacs & Hnext).
  destruct (map_fst_replicate n wd a) as [Mf Ms].
  pose proof Hs as (Hdt & Hds & Hdp).
  unfold Joint.update.
  destruct (Joint_update_transition_returns est B (replicate n (wd, a)) obs acs next_obs w)
    as (tl & o1 & w1 & E1); auto.
  { rewrite Hdt, Mf, sum_list_replicate, sum_list_map_replicate. reflexivity. }
  { rewrite length_replicate. exact Hn. }
  rewrite (bind_eq_Return _ _ _ _ _ E1).
  rewrite Mf in Hobs, Hnext. rewrite Ms in Hacs.
  apply Forall2_replicate_l_inv in Hobs as [Hobs Lobs].
  apply Forall2_replicate_l_inv in Hacs as [Hacs Lacs].
  apply Forall2_replicate_l_inv in Hnext as [Hnext Lnext].
  destruct (Joint_update_planning_returns (Joint.set_transition_optimizer o1 est)
              n B wd a obs acs next_obs w1) as (pl & o2 & w2 & E2); auto.
  rewrite (bind_eq_Return _ _ _ _ _ E2).
  destruct (Joint_update_source_returns
              (Joint.set_planning_optimizer o2 (Joint.set_transition_optimizer o1 est))
              n B wd a next_obs w2) as (ir & o3 & w3 & E3); auto.
  rewrite (bind_eq_Return _ _ _ _ _ E3).
  pose proof (Joint_steps_fixed obs acs next_obs) as (F1 & F2 & F3).
  specialize (F1 (est, w)). rewrite E1 in F1. destruct F1 as [F1 _].
  specialize (F2 (Joint.set_transition_optimizer o1 est, w1)). rewrite E2 in F2.
  destruct F2 as [F2 _].
  specialize (F3 (Joint.set_planning_optimizer o2 (Joint.set_transition_optimizer o1 est), w2)).
  rewrite E3 in F3. destruct F3 as [F3 _].
  unfold on in F1, F2, F3. cbn [fst snd] in F1, F2, F3.
  destruct logger as [lg|].
  - eexists _, _. split; [reflexivity|]. split; [reflexivity|].
    etransitivity; [|exact F1]. etransitivity; [|exact F2]. etransitivity; [|exact F3].
    reflexivity.
  - eexists _, _. split; [reflexivity|]. split; [reflexivity|].
    etransitivity; [|exact F1]. etransitivity; [|exact F2]. etransitivity; [|exact F3].
    reflexivity.
Qed.

(** *** The transfer estimator *)

Lemma Transfer_update_transition_returns est (B : nat) (agents : list (nat * nat))
    (obs acs next_obs : list tensor) (w : World) :
  dims (Transfer.transition est) =
    (sum_list (map (fun wa => fst wa + snd wa) agents), sum_list (map fst agents)) ->
  1 <= length agents -> 1 <= B ->
  Forall2 (has_shape B) (map fst agents) obs ->
  Forall2 (has_shape B) (map snd agents) acs ->
  Forall2 (has_shape B) (map fst agents) next_obs ->
  exists loss opt' w',
    Transfer.update_transition obs acs next_obs (est, w) =
      (Return loss, (Transfer.set_transition_optimizer opt' est, w')).
Proof.
  intros Hd Hn HB Hobs Hacs Hnext. unfold dims in Hd. injection Hd as Hi Ho.
  unfold Transfer.update_transition.
  rewrite bind_get_self. cbn [fst].
  rewrite (bind_eq_Return _ _ _ _ _ (in_world_modify_heap_eq _ est w)).
  rewrite (bind_eq_Return _ _ _ _ _ (get_rng_eq est _)).
  destruct (cat1_shape B (map fst agents ++ map snd agents) (obs ++ acs))
    as (trans_in & Ecat & Scat).
  { assert (obs <> []) by (eapply Forall2_nonempty_r; [exact Hobs | rewrite length_map; lia]).
    destruct obs; [congruence | discriminate]. }
  { apply Forall2_app; assumption. }
  rewrite Ecat, bind_lift_Return.
  rewrite sum_list_with_app, <- sum_list_fst_snd, <- Hi in Scat.
  match goal with |- context [bind (in_world (forward _ _)) _ (est, ?w1)] =>
    destruct (in_world_forward_returns est _ trans_in w1 B Scat) as [E2 S2]
  end.
  rewrite (bind_eq_Return _ _ _ _ _ E2). rewrite Ho in S2.
  destruct (cat1_shape B (map fst agents) next_obs) as (target & Et & St).
  { eapply Forall2_nonempty_r; [exact Hnext | rewrite length_map; lia]. }
  { exact Hnext. }
  rewrite Et, bind_lift_Return.
  destruct (MSELoss_returns B _ _ _ HB S2 St) as (loss & El).
  rewrite El, bind_lift_Return.
  rewrite (bind_eq_Return _ _ _ _ _ (in_world_modify_heap_eq _ est _)).
  rewrite (bind_eq_Return _ _ _ _ _ (optimizer_step_eq _ _ est _)).
  eexists _, _, _. reflexivity.
Qed.

Lemma Transfer_acs_plan_loop_returns est (B : nat) (ws acts : list nat)
    (obs next_obs : list tensor) (nets : list MLPNetwork) (w : World) :
  Forall2 (has_shape B) ws obs -> Forall2 (has_shape B) ws next_obs ->
  map input_dim nets = map (fun wd => 2 * wd) ws -> map out_dim nets = acts ->
  exists acs w',
    Transfer.acs_plan_loop (zip obs (zip next_obs nets)) (est, w)
      = (Return acs, (est, w')) /\
    Forall2 (has_shape B) acts acs.
Proof.
  intros Hobs. revert next_obs nets acts w.
  induction Hobs as [|wd o ws obs Ho _ IH]; intros next_obs nets acts w Hnext Hin Hout.
  - destruct nets; [|discriminate]. simpl in Hout. subst acts.
    exists [], w. repeat split; constructor.
  - apply Forall2_cons_inv_l in Hnext as (no & next_obs' & Hno & Hnext & ->).
    destruct nets as [|net nets]; [discriminate|].
    simpl in Hin, Hout. injection Hin as Hi Hin. subst acts.
    change (Transfer.acs_plan_loop (zip (o :: obs) (zip (no :: next_obs') (net :: nets))))
      with
      (plan_in <- lift (cat1 [o; no]) ;;
       self <- get_self ;;
       logits <- in_world (forward net plan_in) ;;
       a <- in_world (gumbel_softmax logits (Transfer.plan_dev self) true) ;;
       acs <- Transfer.acs_plan_loop (zip obs (zip next_obs' nets)) ;;
       ret (a :: acs)).
    destruct (cat1_pair B wd wd o no Ho Hno) as [Ecat Scat].
    rewrite Ecat, bind_lift_Return, bind_get_self. cbn [fst snd].
    replace (wd + wd) with (input_dim net) in Scat by lia.
    destruct (in_world_forward_returns est net _ w B Scat) as [E1 S1].
    rewrite (bind_eq_Return _ _ _ _ _ E1).
    match type of E1 with _ = (_, (_, ?w1)) =>
      destruct (in_world_gumbel_returns est _ (Transfer.plan_dev est) true w1 B _ S1)
        as (y & E2 & S2);
      rewrite (bind_eq_Return _ _ _ _ _ E2)
    end.
    match type of E2 with _ = (_, (_, ?w2)) =>
      destruct (IH next_obs' nets (map out_dim nets) w2 Hnext Hin eq_refl)
        as (acs & w' & E3 & P3)
    end.
    rewrite (bind_eq_Return _ _ _ _ _ E3).
    exists (y :: acs), w'. split; [reflexivity | constructor; auto].
Qed.

Lemma Transfer_update_plan_loop_returns est (B c : nat) (ws acts : list nat)
    (trans_out : tensor) (nos : list tensor) (nets : list MLPNetwork)
    (start : nat) (w : World) :
  1 <= B -> has_shape B c trans_out -> start + sum_list ws <= c ->
  Forall2 (has_shape B) ws nos ->
  map input_dim nets = map (fun wd => 2 * wd) ws -> map out_dim nets = acts ->
  exists probs w',
    Transfer.update_plan_loop trans_out start (zip nos nets) (est, w)
      = (Return probs, (est, w')) /\
    Forall2 (has_shape B) acts probs.
Proof.
  intros HB Htrans Hfit Hall. revert nets acts start w Hfit.
  induction Hall as [|wd no ws nos Hno _ IH]; intros nets acts start w Hfit Hin Hout.
  - destruct nets; [|discriminate]. simpl in Hout. subst acts.
    exists [], w. repeat split; constructor.
  - destruct nets as [|net nets]; [discriminate|].
    simpl in Hin, Hout, Hfit. injection Hin as Hi Hin. subst acts.
    change (Transfer.update_plan_loop trans_out start (zip (no :: nos) (net :: nets))) with
      (plan_in <- lift (cat1 [no; slice_cols start (start + width no) trans_out]) ;;
       self <- get_self ;;
       logits <- in_world (forward net plan_in) ;;
       p <- in_world (gumbel_softmax logits (Transfer.plan_dev self) false) ;;
       ps <- Transfer.update_plan_loop trans_out (start + width no) (zip nos nets) ;;
       ret (p :: ps)).
    rewrite (has_shape_width B wd no Hno HB).
    assert (Hslice : has_shape B wd (slice_cols start (start + wd) trans_out)).
    { replace wd with (start + wd - start) at 1 by lia.
      apply (has_shape_slice_cols B c); [exact Htrans | lia | lia]. }
    destruct (cat1_pair B wd wd no _ Hno Hslice) as [Ecat Scat].
    rewrite Ecat, bind_lift_Return, bind_get_self. cbn [fst snd].
    replace (wd + wd) with (input_dim net) in Scat by lia.
    destruct (in_world_forward_returns est net _ w B Scat) as [E1 S1].
    rewrite (bind_eq_Return _ _ _ _ _ E1).
    match type of E1 with _ = (_, (_, ?w1)) =>
      destruct (in_world_gumbel_returns est _ (Transfer.plan_dev est) false w1 B _ S1)
        as (y & E2 & S2);
      rewrite (bind_eq_Return _ _ _ _ _ E2)
    end.
    match type of E2 with _ = (_, (_, ?w2)) =>
      destruct (IH nets (map out_dim nets) (start + wd) w2) as (probs & w' & E3 & P3);
        [lia | exact Hin | reflexivity |]
    end.
    rewrite (bind_eq_Return _ _ _ _ _ E3).
    exists (y :: probs), w'. split; [reflexivity | constructor; auto].
Qed.

Lemma transfer_sized_dims est (agents : list (nat * nat)) :
  transfer_sized est agents ->
  map input_dim (Transfer.source est) = map fst agents /\
  map out_dim (Transfer.source est) = map snd agents /\
  map input_dim (Transfer.planning est) = map (fun wd => 2 * wd) (map fst agents) /\
  map out_dim (Transfer.planning est) = map snd agents.
Proof.
  intros (_ & Hs & Hp). repeat split.
  - rewrite <- Hs, !map_map. reflexivity.
  - rewrite <- Hs, !map_map. reflexivity.
  - rewrite map_map.
    transitivity (map fst (map dims (Transfer.planning est)));
      [rewrite map_map; reflexivity|].
    rewrite Hp, map_map. reflexivity.
  - transitivity (map snd (map dims (Transfer.planning est)));
      [rewrite map_map; reflexivity|].
    rewrite Hp, map_map. reflexivity.
Qed.

Lemma Transfer_update_planning_returns est (B : nat) (agents : list (nat * nat))
    (obs acs next_obs : list tensor) (w : World) :
  transfer_sized est agents -> 1 <= length agents -> 1 <= B ->
  Forall2 (has_shape B) (map fst agents) obs ->
  Forall2 (has_shape B) (map snd agents) acs ->
  Forall2 (has_shape B) (map fst agents) next_obs ->
  exists loss opt' w',
    Transfer.update_planning obs acs next_obs (est, w) =
      (Return loss, (Transfer.set_planning_optimizer opt' est, w')).
Proof.
  intros Hs Hn HB Hobs Hacs Hnext.
  destruct (transfer_sized_dims est agents Hs) as (_ & _ & Hpi & Hpo).
  unfold Transfer.update_planning.
  rewrite bind_get_self. cbn [fst].
  rewrite (bind_eq_Return _ _ _ _ _ (in_world_modify_heap_eq _ est w)).
  rewrite (bind_eq_Return _ _ _ _ _ (get_rng_eq est _)).
  cbv zeta.
  match goal with |- context [bind (Transfer.acs_plan_loop _) _ (est, ?w1)] =>
    destruct (Transfer_acs_plan_loop_returns est B _ _ obs next_obs
                (Transfer.planning est) w1 Hobs Hnext Hpi Hpo)
      as (plans & w2 & E1 & Hplans)
  end.
  rewrite (bind_eq_Return _ _ _ _ _ E1).
  assert (Hne : 1 <= length (map snd agents)) by (rewrite length_map; exact Hn).
  destruct (cat1_shape B _ plans (Forall2_nonempty_r _ _ _ Hplans Hne) Hplans)
    as (pp & Epp & Spp).
  destruct (cat1_shape B _ acs (Forall2_nonempty_r _ _ _ Hacs Hne) Hacs)
    as (aa & Eaa & Saa).
  rewrite Epp, bind_lift_Return, Eaa, bind_lift_Return.
  destruct (MSELoss_returns B _ _ _ HB Spp Saa) as (loss & El).
  rewrite El, bind_lift_Return.
  rewrite (bind_eq_Return _ _ _ _ _ (in_world_modify_heap_eq _ est _)).
  rewrite (bind_eq_Return _ _ _ _ _ (optimizer_step_eq _ _ est _)).
  eexists _, _, _. reflexivity.
Qed.

Lemma Transfer_update_source_returns est (B : nat) (agents : list (nat * nat))
    (next_obs : list tensor) (w : World) :
  transfer_sized est agents -> 1 <= length agents -> 1 <= B ->
  Forall2 (has_shape B) (map fst agents) next_obs ->
  exists i_rews opt' w',
    Transfer.update_source next_obs (est, w) =
      (Return i_rews, (Transfer.set_source_optimizer opt' est, w')).
Proof.
  intros Hs Hn HB Hnos.
  destruct (transfer_sized_dims est agents Hs) as (Hsi & Hso & Hpi & Hpo).
  destruct Hs as (Ht & _ & _). unfold dims in Ht. injection Ht as Hti Hto.
  assert (Hne : 1 <= length (map fst agents)) by (rewrite length_map; exact Hn).
  assert (Hne' : 1 <= length (map snd agents)) by (rewrite length_map; exact Hn).
  unfold Transfer.update_source.
  rewrite bind_get_self. cbn [fst].
  rewrite (bind_eq_Return _ _ _ _ _ (in_world_modify_heap_eq _ est w)).
  rewrite (bind_eq_Return _ _ _ _ _ (get_rng_eq est _)).
  match goal with |- context [bind (Transfer.source_loop _) _ (est, ?w0)] =>
    destruct (Transfer_source_loop_returns est B _ _ next_obs _ w0 Hnos Hsi Hso)
      as (acs & probs & w1 & E1 & Hacs & Hprobs)
  end.
  rewrite (bind_eq_Return _ _ _ _ _ E1). cbv beta iota.
  destruct (cat1_shape B (map fst agents ++ map snd agents) (next_obs ++ acs))
    as (trans_in & Ecat & Scat).
  { pose proof (Forall2_nonempty_r _ _ _ Hnos Hne).
    destruct next_obs; [congruence | discriminate]. }
  { apply Forall2_app; assumption. }
  rewrite Ecat, bind_lift_Return.
  rewrite sum_list_with_app, <- sum_list_fst_snd, <- Hti in Scat.
  destruct (in_world_forward_returns est _ trans_in w1 B Scat) as [E2 S2].
  rewrite (bind_eq_Return _ _ _ _ _ E2). rewrite Hto in S2.
  match type of E2 with _ = (Return ?t, (_, ?w2)) =>
    destruct (Transfer_update_plan_loop_returns est B _ (map fst agents) (map snd agents)
                t next_obs (Transfer.planning est) 0 w2 HB S2 (Nat.le_refl _) Hnos Hpi Hpo)
      as (plans & w3 & E3 & Hplans)
  end.
  rewrite (bind_eq_Return _ _ _ _ _ E3).
  destruct (cat1_shape B _ plans (Forall2_nonempty_r _ _ _ Hplans Hne') Hplans)
    as (pp & Epp & Spp).
  destruct (cat1_shape B _ probs (Forall2_nonempty_r _ _ _ Hprobs Hne') Hprobs)
    as (ps & Eps & Sps).
  destruct (cat1_shape B _ acs (Forall2_nonempty_r _ _ _ Hacs Hne') Hacs)
    as (as' & Eas & Sas).
  rewrite Epp, bind_lift_Return, Eps, bind_lift_Return, Eas, bind_lift_Return.
  destruct (ewise_shape B _ smul as' pp HB Sas Spp) as (x & Ex & Sx).
  destruct (ewise_shape B _ smul as' ps HB Sas Sps) as (y & Ey & Sy).
  destruct (ewise_shape B _ ssub x y HB Sx Sy) as (z & Ez & Sz).
  rewrite Ex, bind_lift_Return, Ey, bind_lift_Return, Ez, bind_lift_Return.
  cbv zeta.
  rewrite (bind_eq_Return _ _ _ _ _ (in_world_modify_heap_eq _ est _)).
  rewrite (bind_eq_Return _ _ _ _ _ (optimizer_step_eq _ _ est _)).
  eexists _, _, _. reflexivity.
Qed.

Lemma Transfer_update_returns est (B : nat) (agents : list (nat * nat))
    (sample : Sample) (logger : option nat) (w : World) :
  transfer_sized est agents -> 1 <= length agents -> 1 <= B ->
  sample_of B agents sample ->
  exists est' w',
    Transfer.update sample logger (est, w) = (Return tt, (est', w')) /\
    Transfer.niter est' = Transfer.niter est + 1 /\
    transfer_fixed est' = transfer_fixed est.
Proof.
  intros Hs Hn HB Hsample.
  destruct sample as [[[[[obs acs] rews] emps] next_obs] dones].
  destruct Hsample as (Hobs & Hacs & Hnext).
  pose proof Hs as (Hdt & Hds & Hdp).
  unfold Transfer.update.
  destruct (Transfer_update_transition_returns est B agents obs acs next_obs w)
    as (tl & o1 & w1 & E1); auto.
  rewrite (bind_eq_Return _ _ _ _ _ E1).
  destruct (Transfer_update_planning_returns (Transfer.set_transition_optimizer o1 est)
              B agents obs acs next_obs w1) as (pl & o2 & w2 & E2); auto.
  rewrite (bind_eq_Return _ _ _ _ _ E2).
  destruct (Transfer_update_source_returns
              (Transfer.set_planning_optimizer o2 (Transfer.set_transition_optimizer o1 est))
              B agents next_obs w2) as (ir & o3 & w3 & E3); auto.
  rewrite (bind_eq_Return _ _ _ _ _ E3).
  pose proof (Transfer_steps_fixed obs acs next_obs) as (F1 & F2 & F3).
  specialize (F1 (est, w)). rewrite E1 in F1. destruct F1 as [F1 _].
  specialize (F2 (Transfer.set_transition_optimizer o1 est, w1)). rewrite E2 in F2.
  destruct F2 as [F2 _].
  specialize (F3 (Transfer.set_planning_optimizer o2
                    (Transfer.set_transition_optimizer o1 est), w2)).
  rewrite E3 in F3. destruct F3 as [F3 _].
  unfold on in F1, F2, F3. cbn [fst snd] in F1, F2, F3.
  destruct logger as [lg|].
  - eexists _, _. split; [reflexivity|]. split; [reflexivity|].
    etransitivity; [|exact F1]. etransitivity; [|exact F2]. etransitivity; [|exact F3].
    reflexivity.
  - eexists _, _. split; [reflexivity|]. split; [reflexivity|].
    etransitivity; [|exact F1]. etransitivity; [|exact F2]. etransitivity; [|exact F3].
    reflexivity.
Qed.

End UpdateReturns.

(** ** The step counter without a logger *)

Section Counter.
Context `{T : Torch}.

Lemma Joint_update_counter sample st :
  let out := Joint.update sample None st in
  (exists evs, trace (snd (snd out)) = trace (snd st) ++ evs /\
               forallb not_log evs = true) /\
  Joint.niter (fst (snd out)) =
    match fst out with
    | Return _ => Joint.niter (fst st) + 1
    | Raise _ => Joint.niter (fst st)
    end.
Proof.
  destruct sample as [[[[[obs acs] rews] emps] next_obs] dones].
  destruct (quiet_niter_Joint_update_steps obs acs next_obs) as (H1 & H2 & H3).
  cbv zeta. unfold Joint.update, bind.
  specialize (H1 st).
  destruct (Joint.update_transition obs acs next_obs st) as [[tl|e] s1];
    destruct H1 as [N1 (e1 & E1 & O1)]; simpl in N1, E1;
    [|simpl; split; [exists e1; auto | exact N1]].
  specialize (H2 s1).
  destruct (Joint.update_planning obs acs next_obs s1) as [[pl|e] s2];
    destruct H2 as [N2 (e2 & E2 & O2)]; simpl in N2, E2;
    [|simpl; split; [exists (e1 ++ e2); rewrite E2, E1, app_assoc, forallb_app, O1, O2; auto
             |unfold on in *; simpl; congruence]].
  specialize (H3 s2).
  destruct (Joint.update_source next_obs s2) as [[ir|e] s3];
    destruct H3 as [N3 (e3 & E3 & O3)]; simpl in N3, E3;
    [|simpl; split; [exists (e1 ++ e2 ++ e3);
              rewrite E3, E2, E1, !app_assoc, !forallb_app, O1, O2, O3; auto
             |unfold on in *; simpl; congruence]].
  simpl. split.
  - exists (e1 ++ e2 ++ e3).
    rewrite E3, E2, E1, !app_assoc, !forallb_app, O1, O2, O3. auto.
  - unfold on in *. congruence.
Qed.

Lemma Transfer_update_counter sample st :
  let out := Transfer.update sample None st in
  (exists evs, trace (snd (snd out)) = trace (snd st) ++ evs /\
               forallb not_log evs = true) /\
  Transfer.niter (fst (snd out)) =
    match fst out with
    | Return _ => Transfer.niter (fst st) + 1
    | Raise _ => Transfer.niter (fst st)
    end.
Proof.
  destruct sample as [[[[[obs acs] rews] emps] next_obs] dones].
  destruct (quiet_niter_Transfer_update_steps obs acs next_obs) as (H1 & H2 & H3).
  cbv zeta. unfold Transfer.update, bind.
  specialize (H1 st).
  destruct (Transfer.update_transition obs acs next_obs st) as [[tl|e] s1];
    destruct H1 as [N1 (e1 & E1 & O1)]; simpl in N1, E1;
    [|simpl; split; [exists e1; auto | exact N1]].
  specialize (H2 s1).
  destruct (Transfer.update_planning obs acs next_obs s1) as [[pl|e] s2];
    destruct H2 as [N2 (e2 & E2 & O2)]; simpl in N2, E2;
    [|simpl; split; [exists (e1 ++ e2); rewrite E2, E1, app_assoc, forallb_app, O1, O2; auto
             |unfold on in *; simpl; congruence]].
  specialize (H3 s2).
  destruct (Transfer.update_source next_obs s2) as [[ir|e] s3];
    destruct H3 as [N3 (e3 & E3 & O3)]; simpl in N3, E3;
    [|simpl; split; [exists (e1 ++ e2 ++ e3);
              rewrite E3, E2, E1, !app_assoc, !forallb_app, O1, O2, O3; auto
             |unfold on in *; simpl; congruence]].
  simpl. split.
  - exists (e1 ++ e2 ++ e3).
    rewrite E3, E2, E1, !app_assoc, !forallb_app, O1, O2, O3. auto.
  - unfold on in *. congruence.
Qed.

End Counter.

(** ** [compute]: what of its inputs it reads, and malformed inputs *)

Section ComputeInputs.
Context `{T : Torch}.

Lemma stack_columns_raises {E : Type} (next_obs : list (list (list scalar)))
    (s : E * World) (i k len : nat) (e : exn) :
  k <= i < k + len -> column i next_obs = Raise e ->
  exists e', mapM (fun i => col <- lift (column i next_obs) ;; lift (vstack col))
                  (seq k len) s = (Raise e', s).
Proof.
  revert k. induction len as [|len IH]; intros k Hi Hcol; [lia|].
  simpl.
  assert (Hk : exists r, (col <- lift (column k next_obs) ;; lift (vstack col)) s = (r, s)).
  { unfold bind, lift. destruct (column k next_obs) as [col|e0]; eexists; reflexivity. }
  destruct Hk as ([t|e0] & Hk).
  - rewrite (bind_eq_Return _ _ _ _ _ Hk).
    destruct (decide (i = k)) as [->|Hne].
    + unfold bind, lift in Hk. rewrite Hcol in Hk. discriminate Hk.
    + destruct (IH (S k)) as (e' & He'); [lia | exact Hcol|].
      rewrite (bind_eq_Raise _ _ _ _ _ He'). exists e'. reflexivity.
  - rewrite (bind_eq_Raise _ _ _ _ _ Hk). exists e0. reflexivity.
Qed.

Lemma column_short_row (next_obs : list (list (list scalar))) (row : list (list scalar))
    (i : nat) :
  row ∈ next_obs -> length row <= i -> exists e, column i next_obs = Raise e.
Proof.
  induction next_obs as [|r rest IH]; intros Hin Hlen; [inversion Hin|].
  simpl. destruct (r !! i) as [v|] eqn:Hr; [|eexists; reflexivity].
  apply elem_of_cons in Hin as [->|Hin].
  - apply lookup_lt_Some in Hr. lia.
  - destruct (IH Hin Hlen) as (e & ->). eexists; reflexivity.
Qed.

Lemma stack_columns_empty_batch {E : Type} (s : E * World) (n : nat) :
  1 <= n ->
  mapM (fun i => col <- lift (column i ([] : list (list (list scalar)))) ;;
                 lift (vstack col)) (seq 0 n) s = (Raise ValueError, s).
Proof. destruct n as [|n]; [lia|]. intros _. reflexivity. Qed.

End ComputeInputs.

(** ** The factories: agents are the pairs of [zip] *)

Section Zip.

Lemma zip_take_min {A B : Type} (l : list A) (k : list B) :
  zip l k = zip (take (min (length l) (length k)) l) (take (min (length l) (length k)) k).
Proof.
  revert k. induction l as [|a l IH]; intros [|b k]; simpl; try reflexivity.
  rewrite <- IH. reflexivity.
Qed.

End Zip.

(** ** The calls made by steps 1 and 2 of [update] *)

Section UpdateTraces.
Context `{T : Torch}.

Lemma Joint_acs_plan_loop_trace pairs st acs st' :
  Joint.acs_plan_loop pairs st = (Return acs, st') ->
  fst st' = fst st /\ heap (snd st') = heap (snd st) /\
  trace (snd st') =
    trace (snd st) ++
    map (fun p => Forward (Joint.planning (fst st)) (zip_with app (fst p) (snd p))) pairs.
Proof.
  revert st acs st'. induction pairs as [|[o no] rest IH]; intros st acs st' H.
  - apply ret_inv in H as [-> ->]. simpl. rewrite app_nil_r. auto.
  - change (Joint.acs_plan_loop ((o, no) :: rest)) with
      (plan_in <- lift (cat1 [o; no]) ;;
       self <- get_self ;;
       logits <- in_world (forward (Joint.planning self) plan_in) ;;
       a <- in_world (gumbel_softmax logits (Joint.plan_dev self) true) ;;
       acs <- Joint.acs_plan_loop rest ;;
       ret (a :: acs)) in H.
    apply bind_Return in H as (plan_in & s0 & H0 & H). apply lift_inv in H0 as [Hcat ->].
    apply cat1_pair_inv in Hcat as ->.
    apply bind_Return in H as (self & s1 & H1 & H). apply get_self_inv in H1 as [-> ->].
    apply bind_Return in H as (l1 & s2 & H2 & H). apply in_world_forward_inv in H2 as [_ ->].
    apply bind_Return in H as (y1 & s3 & H3 & H). apply in_world_gumbel_inv in H3 as ->.
    apply bind_Return in H as (ps & s4 & H4 & H). apply ret_inv in H as [-> ->].
    apply IH in H4 as (F4 & Hh4 & T4). cbn [fst snd heap trace] in F4, Hh4, T4.
    rewrite F4, Hh4, T4. cbn [fst snd map]. rewrite <- app_assoc.
    repeat split.
Qed.

Lemma Transfer_acs_plan_loop_trace zipped st acs st' :
  Transfer.acs_plan_loop zipped st = (Return acs, st') ->
  fst st' = fst st /\ heap (snd st') = heap (snd st) /\
  trace (snd st') =
    trace (snd st) ++
    map (fun z => Forward (snd (snd z)) (zip_with app (fst z) (fst (snd z)))) zipped.
Proof.
  revert st acs st'. induction zipped as [|[o [no net]] rest IH]; intros st acs st' H.
  - apply ret_inv in H as [-> ->]. simpl. rewrite app_nil_r. auto.
  - change (Transfer.acs_plan_loop ((o, (no, net)) :: rest)) with
      (plan_in <- lift (cat1 [o; no]) ;;
       self <- get_self ;;
       logits <- in_world (forward net plan_in) ;;
       a <- in_world (gumbel_softmax logits (Transfer.plan_dev self) true) ;;
       acs <- Transfer.acs_plan_loop rest ;;
       ret (a :: acs)) in H.
    apply bind_Return in H as (plan_in & s0 & H0 & H). apply lift_inv in H0 as [Hcat ->].
    apply cat1_pair_inv in Hcat as ->.
    apply bind_Return in H as (self & s1 & H1 & H). apply get_self_inv in H1 as [-> ->].
    apply bind_Return in H as (l1 & s2 & H2 & H). apply in_world_forward_inv in H2 as [_ ->].
    apply bind_Return in H as (y1 & s3 & H3 & H). apply in_world_gumbel_inv in H3 as ->.
    apply bind_Return in H as (ps & s4 & H4 & H). apply ret_inv in H as [-> ->].
    apply IH in H4 as (F4 & Hh4 & T4). cbn [fst snd heap trace] in F4, Hh4, T4.
    rewrite F4, Hh4, T4. cbn [fst snd map]. rewrite <- app_assoc.
    repeat split.
Qed.

Lemma Joint_update_transition_trace obs acs next_obs st loss st' :
  Joint.update_transition obs acs next_obs st = (Return loss, st') ->
  exists trans_in target,
    cat1 (obs ++ acs) = Return trans_in /\
    cat1 next_obs = Return target /\
    MSELoss (forward_value (Joint.transition (fst st))
               (zero_grad (Joint.transition_optimizer (fst st)) (heap (snd st))) trans_in)
            target = Return loss /\
    trace (snd st') = trace (snd st) ++ [Forward (Joint.transition (fst st)) trans_in].
Proof.
  unfold Joint.update_transition. intros H.
  apply bind_Return in H as (self & s0 & H0 & H). apply get_self_inv in H0 as [-> ->].
  apply bind_Return in H as (u & s1 & H1 & H). apply in_world_modify_heap_inv in H1 as ->.
  apply bind_Return in H as (noise & s2 & H2 & H). apply get_rng_inv in H2 as ->.
  apply bind_Return in H as (trans_in & s4 & H4 & H). apply lift_inv in H4 as [Hcat ->].
  apply bind_Return in H as (pred & s5 & H5 & H).
  apply in_world_forward_inv in H5 as [-> ->].
  apply bind_Return in H as (target & s6 & H6 & H). apply lift_inv in H6 as [Htgt ->].
  apply bind_Return in H as (l & s7 & H7 & H). apply lift_inv in H7 as [Hloss ->].
  apply bind_Return in H as (u2 & s8 & H8 & H). apply in_world_modify_heap_inv in H8 as ->.
  apply bind_Return in H as (u3 & s9 & H9 & H). apply ret_inv in H as [-> ->].
  match type of H9 with optimizer_step ?a ?b ?s = _ =>
    pose proof (optimizer_step_trace a b s) as Hopt
  end.
  rewrite H9 in Hopt. cbn [fst snd trace heap] in Hopt, Hloss.
  exists trans_in, target. repeat split; assumption.
Qed.

Lemma Transfer_update_transition_trace obs acs next_obs st loss st' :
  Transfer.update_transition obs acs next_obs st = (Return loss, st') ->
  exists trans_in target,
    cat1 (obs ++ acs) = Return trans_in /\
    cat1 next_obs = Return target /\
    MSELoss (forward_value (Transfer.transition (fst st))
               (zero_grad (Transfer.transition_optimizer (fst st)) (heap (snd st))) trans_in)
            target = Return loss /\
    trace (snd st') = trace (snd st) ++ [Forward (Transfer.transition (fst st)) trans_in].
Proof.
  unfold Transfer.update_transition. intros H.
  apply bind_Return in H as (self & s0 & H0 & H). apply get_self_inv in H0 as [-> ->].
  apply bind_Return in H as (u & s1 & H1 & H). apply in_world_modify_heap_inv in H1 as ->.
  apply bind_Return in H as (noise & s2 & H2 & H). apply get_rng_inv in H2 as ->.
  apply bind_Return in H as (trans_in & s4 & H4 & H). apply lift_inv in H4 as [Hcat ->].
  apply bind_Return in H as (pred & s5 & H5 & H).
  apply in_world_forward_inv in H5 as [-> ->].
  apply bind_Return in H as (target & s6 & H6 & H). apply lift_inv in H6 as [Htgt ->].
  apply bind_Return in H as (l & s7 & H7 & H). apply lift_inv in H7 as [Hloss ->].
  apply bind_Return in H as (u2 & s8 & H8 & H). apply in_world_modify_heap_inv in H8 as ->.
  apply bind_Return in H as (u3 & s9 & H9 & H). apply ret_inv in H as [-> ->].
  match type of H9 with optimizer_step ?a ?b ?s = _ =>
    pose proof (optimizer_step_trace a b s) as Hopt
  end.
  rewrite H9 in Hopt. cbn [fst snd trace heap] in Hopt, Hloss.
  exists trans_in, target. repeat split; assumption.
Qed.

Lemma Joint_update_planning_trace obs acs next_obs st loss st' :
  Joint.update_planning obs acs next_obs st = (Return loss, st') ->
  trace (snd st') =
    trace (snd st) ++
    map (fun p => Forward (Joint.planning (fst st)) (zip_with app (fst p) (snd p)))
        (zip obs next_obs).
Proof.
  unfold Joint.update_planning. intros H.
  apply bind_Return in H as (self & s0 & H0 & H). apply get_self_inv in H0 as [-> ->].
  apply bind_Return in H as (u & s1 & H1 & H). apply in_world_modify_heap_inv in H1 as ->.
  apply bind_Return in H as (noise & s2 & H2 & H). apply get_rng_inv in H2 as ->.
  apply bind_Return in H as (plans & s3 & H3 & H).
  apply Joint_acs_plan_loop_trace in H3 as (F3 & Hh3 & T3).
  cbn [fst snd heap trace] in F3, Hh3, T3.
  do 3 (let a := fresh "x" in let s := fresh "s" in let Hl := fresh "Hl" in
        apply bind_Return in H as (a & s & Hl & H); apply lift_inv in Hl as [_ ->]).
  apply bind_Return in H as (u2 & s8 & H8 & H). apply in_world_modify_heap_inv in H8 as ->.
  apply bind_Return in H as (u3 & s9 & H9 & H). apply ret_inv in H as [_ ->].
  match type of H9 with optimizer_step ?a ?b ?s = _ =>
    pose proof (optimizer_step_trace a b s) as Hopt
  end.
  rewrite H9 in Hopt. cbn [fst snd trace] in Hopt.
  rewrite Hopt, T3. reflexivity.
Qed.

Lemma Transfer_update_planning_trace obs acs next_obs st loss st' :
  Transfer.update_planning obs acs next_obs st = (Return loss, st') ->
  trace (snd st') =
    trace (snd st) ++
    map (fun z => Forward (snd (snd z)) (zip_with app (fst z) (fst (snd z))))
        (zip obs (zip next_obs (Transfer.planning (fst st)))).
Proof.
  unfold Transfer.update_planning. intros H.
  apply bind_Return in H as (self & s0 & H0 & H). apply get_self_inv in H0 as [-> ->].
  apply bind_Return in H as (u & s1 & H1 & H). apply in_world_modify_heap_inv in H1 as ->.
  apply bind_Return in H as (noise & s2 & H2 & H). apply get_rng_inv in H2 as ->.
  cbv zeta in H.
  apply bind_Return in H as (plans & s3 & H3 & H).
  apply Transfer_acs_plan_loop_trace in H3 as (F3 & Hh3 & T3).
  cbn [fst snd heap trace] in F3, Hh3, T3.
  do 3 (let a := fresh "x" in let s := fresh "s" in let Hl := fresh "Hl" in
        apply bind_Return in H as (a & s & Hl & H); apply lift_inv in Hl as [_ ->]).
  apply bind_Return in H as (u2 & s8 & H8 & H). apply in_world_modify_heap_inv in H8 as ->.
  apply bind_Return in H as (u3 & s9 & H9 & H). apply ret_inv in H as [_ ->].
  match type of H9 with optimizer_step ?a ?b ?s = _ =>
    pose proof (optimizer_step_trace a b s) as Hopt
  end.
  rewrite H9 in Hopt. cbn [fst snd trace] in Hopt.
  rewrite Hopt, T3. reflexivity.
Qed.

End UpdateTraces.

(** ** The plotting utility: keys, columns and rows *)

Section Split.
Import Stdlib.Strings.Ascii.
Variable sep : ascii.

Lemma split_nonempty (s : string) : PlotTrainingCurve.split sep s <> [].
Proof.
  destruct s as [|c s]; simpl; [discriminate|].
  destruct (Ascii.eqb c sep); [discriminate|].
  destruct (PlotTrainingCurve.split sep s); discriminate.
Qed.

Lemma split_pieces_without_sep (s : string) :
  Forall (fun piece => occurs sep piece = false) (PlotTrainingCurve.split sep s).
Proof.
  induction s as [|c s IH]; simpl.
  - repeat constructor.
  - destruct (Ascii.eqb c sep) eqn:Hc.
    + constructor; [reflexivity | exact IH].
    + destruct (PlotTrainingCurve.split sep s) as [|piece rest].
      * repeat constructor. simpl. rewrite Hc. reflexivity.
      * apply Forall_cons in IH as [Hp Hr]. constructor; [|exact Hr].
        simpl. rewrite Hc, Hp. reflexivity.
Qed.

Lemma join_split (s : string) : join sep (PlotTrainingCurve.split sep s) = s.
Proof.
  induction s as [|c s IH]; simpl; [reflexivity|].
  destruct (Ascii.eqb c sep) eqn:Hc.
  - apply Ascii.eqb_eq in Hc. subst c.
    pose proof (split_nonempty s) as Hne.
    destruct (PlotTrainingCurve.split sep s) as [|piece rest]; [congruence|].
    change (join sep ("" :: piece :: rest))
      with (String.append "" (String sep (join sep (piece :: rest)))).
    rewrite IH. reflexivity.
  - pose proof (split_nonempty s) as Hne.
    destruct (PlotTrainingCurve.split sep s) as [|piece rest]; [congruence|].
    destruct rest as [|piece' rest].
    + simpl in *. rewrite IH. reflexivity.
    + change (join sep (String c piece :: piece' :: rest))
        with (String c (String.append piece (String sep (join sep (piece' :: rest))))).
      change (join sep (piece :: piece' :: rest))
        with (String.append piece (String sep (join sep (piece' :: rest)))) in IH.
      rewrite IH. reflexivity.
Qed.

Lemma split_without_sep (s : string) :
  occurs sep s = false -> PlotTrainingCurve.split sep s = [s].
Proof.
  induction s as [|c s IH]; simpl; [reflexivity|].
  intros H. apply orb_false_iff in H as [Hc Hs]. rewrite Hc, (IH Hs). reflexivity.
Qed.

Lemma split_app (dir t : string) :
  PlotTrainingCurve.split sep (String.append dir (String sep t)) =
  PlotTrainingCurve.split sep dir ++ PlotTrainingCurve.split sep t.
Proof.
  induction dir as [|c dir IH]; simpl.
  - rewrite Ascii.eqb_refl. reflexivity.
  - rewrite IH. destruct (Ascii.eqb c sep); [reflexivity|].
    pose proof (split_nonempty dir) as Hne.
    destruct (PlotTrainingCurve.split sep dir) as [|piece rest]; [congruence|].
    reflexivity.
Qed.

Lemma join_snoc (pieces : list string) (piece : string) :
  join sep (pieces ++ [piece]) =
  match pieces with
  | [] => piece
  | _ => String.append (join sep pieces) (String sep piece)
  end.
Proof.
  induction pieces as [|p pieces IH]; [reflexivity|].
  destruct pieces as [|p' pieces]; [reflexivity|].
  change (join sep ((p :: p' :: pieces) ++ [piece]))
    with (String.append p (String sep (join sep ((p' :: pieces) ++ [piece])))).
  rewrite IH.
  change (join sep (p :: p' :: pieces))
    with (String.append p (String sep (join sep (p' :: pieces)))).
  generalize (join sep (p' :: pieces)). intros j.
  induction p as [|c p IHp]; [reflexivity|].
  change (String c (String.append p (String sep (String.append j (String sep piece))))
          = String c (String.append (String.append p (String sep j)) (String sep piece))).
  rewrite IHp. reflexivity.
Qed.

(** The last piece of a split is the part after the last separator. *)
Lemma last_split (s segment : string) :
  last (PlotTrainingCurve.split sep s) = Some segment <->
  occurs sep segment = false /\
  (s = segment \/ exists dir, s = String.append dir (String sep segment)).
Proof.
  split.
  - intros Hlast.
    apply last_Some in Hlast as (init & Hsplit).
    pose proof (split_pieces_without_sep s) as Hall.
    pose proof (join_split s) as Hjoin.
    rewrite Hsplit in Hall, Hjoin.
    apply Forall_app in Hall as [_ Hseg]. apply Forall_cons in Hseg as [Hseg _].
    split; [exact Hseg|].
    rewrite join_snoc in Hjoin. destruct init as [|p init].
    + left. symmetry. exact Hjoin.
    + right. eexists. symmetry. exact Hjoin.
  - intros [Hseg [->| [dir ->]]].
    + rewrite (split_without_sep _ Hseg). reflexivity.
    + rewrite split_app, (split_without_sep _ Hseg). apply last_snoc.
Qed.

End Split.

Section Loader.
Context `{N : Numpy}.

Lemma last_item_split (key : string) :
  exists segment,
    PlotTrainingCurve.last_item (PlotTrainingCurve.split PlotTrainingCurve.slash key)
    = Return segment.
Proof.
  unfold PlotTrainingCurve.last_item.
  pose proof (split_nonempty PlotTrainingCurve.slash key) as Hne.
  apply last_is_Some in Hne as [segment ->]. exists segment. reflexivity.
Qed.

Lemma selects_iff (name key : string) :
  selects name key <->
  occurs PlotTrainingCurve.slash name = false /\ ends_with_segment key name.
Proof.
  unfold selects, ends_with_segment, PlotTrainingCurve.last_item.
  rewrite <- last_split.
  destruct (last (PlotTrainingCurve.split PlotTrainingCurve.slash key)) as [seg|].
  - split; [intros [= ->]; reflexivity | intros [= ->]; reflexivity].
  - split; discriminate.
Qed.

Lemma load_data_no_match data name agent_num :
  Forall (fun kv => ~ selects name (fst kv)) data ->
  PlotTrainingCurve.load_data data name agent_num = Return None.
Proof.
  induction 1 as [|[key value] rest Hk _ IH]; simpl; [reflexivity|].
  destruct (last_item_split key) as (segment & Hseg). rewrite Hseg.
  case_bool_decide as Heq; [|exact IH].
  exfalso. apply Hk. unfold selects. simpl. rewrite Hseg, Heq. reflexivity.
Qed.

Lemma load_data_first_match before key value after name agent_num :
  Forall (fun kv => ~ selects name (fst kv)) before ->
  selects name key ->
  PlotTrainingCurve.load_data (before ++ (key, value) :: after) name agent_num =
  match PlotTrainingCurve.cast_column_2 value with
  | Return d => Return (Some d)
  | Raise e => Raise e
  end.
Proof.
  intros Hb Hk. induction Hb as [|[k v] rest Hkv _ IH]; simpl.
  - unfold selects in Hk. rewrite Hk. rewrite bool_decide_eq_true_2 by reflexivity.
    reflexivity.
  - destruct (last_item_split k) as (segment & Hseg). rewrite Hseg.
    case_bool_decide as Heq; [|exact IH].
    exfalso. apply Hkv. unfold selects. simpl. rewrite Hseg, Heq. reflexivity.
Qed.

Lemma column_2_returns (rows : list (list num)) :
  Forall (fun r => 3 <= length r) rows ->
  exists d, PlotTrainingCurve.column_2 rows = Return d /\
            length d = length rows /\
            forall i r, rows !! i = Some r -> d !! i = r !! 2.
Proof.
  induction 1 as [|r rows Hr _ IH]; simpl.
  - exists []. repeat split. intros i r Hi. discriminate Hi.
  - destruct (lookup_lt_is_Some_2 r 2) as [v Hv]; [lia|].
    destruct IH as (d & -> & Hlen & Hd). rewrite Hv.
    exists (v :: d). split; [reflexivity|]. split; [simpl; rewrite Hlen; reflexivity|].
    intros [|i] r' Hi; simpl in *.
    + injection Hi as <-. symmetry. exact Hv.
    + apply Hd. exact Hi.
Qed.

Lemma column_2_short (rows : list (list num)) :
  Exists (fun r => length r < 3) rows ->
  PlotTrainingCurve.column_2 rows = Raise IndexError.
Proof.
  induction rows as [|r rows IH]; intros H; [inversion H|]. simpl.
  destruct (r !! 2) as [v|] eqn:Hv; [|reflexivity].
  apply Exists_cons in H as [H|H].
  - apply lookup_lt_Some in Hv. lia.
  - rewrite (IH H). reflexivity.
Qed.

Lemma cast_column_2_returns (row : list json_number) (rest : list (list json_number)) :
  3 <= length row -> Forall (fun r => length r = length row) rest ->
  exists d, PlotTrainingCurve.cast_column_2 (row :: rest) = Return d /\
            length d = S (length rest) /\
            forall i r, (row :: rest) !! i = Some r ->
                        d !! i = np_element (row :: rest) <$> r !! 2.
Proof.
  intros Hrow Hrest. unfold PlotTrainingCurve.cast_column_2.
  assert (Hf : forallb (fun r : list json_number => length r =? length row) rest = true).
  { apply forallb_forall. intros r Hr. apply Nat.eqb_eq.
    apply (proj1 (Forall_forall _ _) Hrest). apply list_elem_of_In. exact Hr. }
  rewrite Hf.
  destruct (column_2_returns (map (map (np_element (row :: rest))) (row :: rest)))
    as (d & Hd & Hlen & Hent).
  { apply Forall_map. constructor; [rewrite length_map; exact Hrow|].
    eapply Forall_impl; [exact Hrest|]. simpl. intros r Hr.
    rewrite length_map, Hr. exact Hrow. }
  exists d. split; [exact Hd|]. split.
  - rewrite Hlen, length_map. reflexivity.
  - intros i r Hi. rewrite (Hent i (map (np_element (row :: rest)) r)).
    + apply list_lookup_fmap.
    + rewrite list_lookup_fmap, Hi. reflexivity.
Qed.

Lemma cast_column_2_narrow (row : list json_number) (rest : list (list json_number)) :
  length row < 3 -> Forall (fun r => length r = length row) rest ->
  PlotTrainingCurve.cast_column_2 (row :: rest) = Raise IndexError.
Proof.
  intros Hrow Hrest. unfold PlotTrainingCurve.cast_column_2.
  assert (Hf : forallb (fun r : list json_number => length r =? length row) rest = true).
  { apply forallb_forall. intros r Hr. apply Nat.eqb_eq.
    apply (proj1 (Forall_forall _ _) Hrest). apply list_elem_of_In. exact Hr. }
  rewrite Hf. apply column_2_short. apply Exists_cons_hd.
  rewrite length_map. exact Hrow.
Qed.

Lemma cast_column_2_ragged (row : list json_number) (rest : list (list json_number)) :
  Exists (fun r => length r <> length row) rest ->
  PlotTrainingCurve.cast_column_2 (row :: rest) = Raise ragged.
Proof.
  intros H. unfold PlotTrainingCurve.cast_column_2.
  assert (Hf : forallb (fun r : list json_number => length r =? length row) rest = false).
  { apply not_true_is_false. intros Ht.
    apply Exists_exists in H as (r & Hin & Hne). apply Hne.
    apply Nat.eqb_eq. apply (proj1 (forallb_forall _ _) Ht).
    apply list_elem_of_In. exact Hin. }
  rewrite Hf. reflexivity.
Qed.

(** Rows of fifty *)

Lemma rows_of_50_spec (k : nat) (y : list num) :
  length y = 50 * k ->
  PlotTrainingCurve.rows_of_50 k y = map (fun i => take 50 (drop (50 * i) y)) (seq 0 k) /\
  concat (PlotTrainingCurve.rows_of_50 k y) = y /\
  Forall (fun row => length row = 50) (PlotTrainingCurve.rows_of_50 k y).
Proof.
  revert y. induction k as [|k IH]; intros y Hlen.
  - destruct y; [|simpl in Hlen; lia]. repeat split. constructor.
  - cbn [PlotTrainingCurve.rows_of_50].
    destruct (IH (drop 50 y)) as (H1 & H2 & H3); [rewrite length_drop; lia|].
    split; [|split].
    + rewrite H1. cbn [seq map]. f_equal.
      rewrite <- seq_shift, map_map. apply map_ext. intros i.
      rewrite drop_drop. f_equal. f_equal. lia.
    + cbn [concat]. rewrite H2. apply take_drop.
    + constructor; [rewrite length_take; lia | exact H3].
Qed.

Lemma reshape_50_returns (y : list num) (k : nat) :
  length y = 50 * k ->
  PlotTrainingCurve.reshape_50 y = Return (PlotTrainingCurve.rows_of_50 k y).
Proof.
  intros Hlen. unfold PlotTrainingCurve.reshape_50.
  assert (Hmod : length y mod 50 = 0).
  { rewrite Hlen, Nat.mul_comm. apply Nat.Div0.mod_mul. }
  assert (Hdiv : length y / 50 = k).
  { rewrite Hlen, Nat.mul_comm. apply Nat.div_mul. lia. }
  rewrite Hmod, Hdiv. reflexivity.
Qed.

Lemma reshape_50_raises (y : list num) :
  length y mod 50 <> 0 -> PlotTrainingCurve.reshape_50 y = Raise ValueError.
Proof.
  intros H. unfold PlotTrainingCurve.reshape_50.
  destruct (Nat.eqb_spec (length y mod 50) 0); [contradiction | reflexivity].
Qed.

End Loader.

(** ** Evaluation mode and device placement *)

(** In the joint variant every call of [prep_rollouts] returns with the
    three approximators in evaluation mode and the three tags naming the
    requested device; it transfers exactly the approximators whose tag
    differed, touches no parameter, and a second call with the same device
    changes nothing. *)
Theorem joint_prep_rollouts_evals_and_moves_once `{T : Torch} (device : string)
    (st : Joint.VariationalJointEmpowerment * World) :
  let out := Joint.prep_rollouts device st in
  let self := fst st in
  let self' := fst (snd out) in
  (fst out = Return tt /\
   training (Joint.transition self') = false /\
   training (Joint.source self') = false /\
   training (Joint.planning self') = false /\
   Joint.trans_dev self' = device /\
   Joint.source_dev self' = device /\
   Joint.plan_dev self' = device /\
   heap (snd (snd out)) = heap (snd st) /\
   trace (snd (snd out)) =
     trace (snd st)
     ++ (if bool_decide (Joint.trans_dev self = device) then []
         else [transfer_event device (eval (Joint.transition self))])
     ++ (if bool_decide (Joint.source_dev self = device) then []
         else [transfer_event device (eval (Joint.source self))])
     ++ (if bool_decide (Joint.plan_dev self = device) then []
         else [transfer_event device (eval (Joint.planning self))])) /\
  Joint.prep_rollouts device (snd out) = (Return tt, snd out).
Proof.
  split; [apply Joint_prep_rollouts_spec|].
  destruct (Joint_prep_rollouts_spec device st) as (_ & H1 & H2 & H3 & H4 & H5 & H6 & _).
  apply Joint_prep_rollouts_noop; assumption.
Qed.

(** In the transfer variant every call of [prep_rollouts] returns with the
    transition approximator and every per-agent source and planning
    approximator in evaluation mode, whether or not a group is moved, and
    with the three tags naming the requested device; it transfers exactly
    the groups whose tag differed, touches no parameter, and a second call
    with the same device changes nothing. *)
Theorem transfer_prep_rollouts_evals_every_approximator `{T : Torch} (device : string)
    (st : Transfer.VariationalTransferEmpowerment * World) :
  let out := Transfer.prep_rollouts device st in
  let self := fst st in
  let self' := fst (snd out) in
  (fst out = Return tt /\
   training (Transfer.transition self') = false /\
   Forall (fun net => training net = false) (Transfer.source self') /\
   Forall (fun net => training net = false) (Transfer.planning self') /\
   map dims (Transfer.source self') = map dims (Transfer.source self) /\
   map dims (Transfer.planning self') = map dims (Transfer.planning self) /\
   Transfer.trans_dev self' = device /\
   Transfer.source_dev self' = device /\
   Transfer.plan_dev self' = device /\
   heap (snd (snd out)) = heap (snd st) /\
   trace (snd (snd out)) =
     trace (snd st)
     ++ (if bool_decide (Transfer.trans_dev self = device) then []
         else [transfer_event device (eval (Transfer.transition self))])
     ++ (if bool_decide (Transfer.source_dev self = device) then []
         else map (transfer_event device) (Transfer.source self))
     ++ (if bool_decide (Transfer.plan_dev self = device) then []
         else map (transfer_event device) (Transfer.planning self))) /\
  Transfer.prep_rollouts device (snd out) = (Return tt, snd out).
Proof.
  destruct (Transfer_prep_rollouts_spec device st)
    as (H0 & H1 & H2 & H3 & H4 & H5 & H6 & H7 & H8).
  assert (Ht : training (Transfer.transition (fst (snd (Transfer.prep_rollouts device st))))
               = false).
  { rewrite H1. destruct (bool_decide (Transfer.trans_dev _ = device)); reflexivity. }
  assert (Hs : Forall (fun net => training net = false)
                 (Transfer.source (fst (snd (Transfer.prep_rollouts device st))))).
  { rewrite H2. apply Forall_map_eval. }
  assert (Hp : Forall (fun net => training net = false)
                 (Transfer.planning (fst (snd (Transfer.prep_rollouts device st))))).
  { rewrite H3. apply Forall_map_eval. }
  split; [|apply Transfer_prep_rollouts_noop; assumption].
  repeat split; try assumption.
  - rewrite H2. destruct (bool_decide (Transfer.source_dev _ = device));
      rewrite !map_map; reflexivity.
  - rewrite H3. destruct (bool_decide (Transfer.plan_dev _ = device));
      rewrite !map_map; reflexivity.
Qed.

(** Only the device string ["gpu"] selects a transfer to the accelerator.
    For every other string, in both variants, every transfer that
    [prep_training] or [prep_rollouts] performs is a [.cpu()] call, while
    the tags are nevertheless set to the requested string; for ["gpu"] every
    transfer is a [.cuda()] call. *)
Theorem only_the_string_gpu_selects_cuda `{T : Torch} (device : string) :
  (device <> "gpu" ->
   (forall st,
       grows_by is_to_cpu (snd st) (snd (snd (Joint.prep_training device st))) /\
       grows_by is_to_cpu (snd st) (snd (snd (Joint.prep_rollouts device st))) /\
       Joint.trans_dev (fst (snd (Joint.prep_training device st))) = device) /\
   (forall st,
       grows_by is_to_cpu (snd st) (snd (snd (Transfer.prep_training device st))) /\
       grows_by is_to_cpu (snd st) (snd (snd (Transfer.prep_rollouts device st))) /\
       Transfer.trans_dev (fst (snd (Transfer.prep_training device st))) = device)) /\
  (device = "gpu" ->
   (forall st,
       grows_by is_to_cuda (snd st) (snd (snd (Joint.prep_training device st))) /\
       grows_by is_to_cuda (snd st) (snd (snd (Joint.prep_rollouts device st)))) /\
   (forall st,
       grows_by is_to_cuda (snd st) (snd (snd (Transfer.prep_training device st))) /\
       grows_by is_to_cuda (snd st) (snd (snd (Transfer.prep_rollouts device st))))).
Proof.
  split.
  - intros Hd. split; intros st.
    + destruct (Joint_prep_training_spec device st) as (_ & _ & _ & _ & D & _ & _ & _ & Tr).
      destruct (Joint_prep_rollouts_spec device st) as (_ & _ & _ & _ & _ & _ & _ & _ & Tr').
      split; [|split; [|exact D]].
      * eexists. split; [exact Tr|].
        rewrite !forallb_app.
        rewrite !forallb_if_nil by (simpl; rewrite transfer_event_cpu by exact Hd; reflexivity).
        reflexivity.
      * eexists. split; [exact Tr'|].
        rewrite !forallb_app.
        rewrite !forallb_if_nil by (simpl; rewrite transfer_event_cpu by exact Hd; reflexivity).
        reflexivity.
    + destruct (Transfer_prep_training_spec device st)
        as (_ & _ & _ & _ & D & _ & _ & _ & Tr).
      destruct (Transfer_prep_rollouts_spec device st)
        as (_ & _ & _ & _ & _ & _ & _ & _ & Tr').
      split; [|split; [|exact D]].
      * eexists. split; [exact Tr|].
        rewrite !forallb_app.
        rewrite !forallb_if_nil;
          first [apply forallb_map_transfer_cpu; exact Hd
                | simpl; rewrite transfer_event_cpu by exact Hd; reflexivity
                | reflexivity].
      * eexists. split; [exact Tr'|].
        rewrite !forallb_app.
        rewrite !forallb_if_nil;
          first [apply forallb_map_transfer_cpu; exact Hd
                | simpl; rewrite transfer_event_cpu by exact Hd; reflexivity
                | reflexivity].
  - intros ->. split; intros st.
    + destruct (Joint_prep_training_spec "gpu" st) as (_ & _ & _ & _ & _ & _ & _ & _ & Tr).
      destruct (Joint_prep_rollouts_spec "gpu" st) as (_ & _ & _ & _ & _ & _ & _ & _ & Tr').
      split.
      * eexists. split; [exact Tr|].
        rewrite !forallb_app. rewrite !forallb_if_nil by reflexivity. reflexivity.
      * eexists. split; [exact Tr'|].
        rewrite !forallb_app. rewrite !forallb_if_nil by reflexivity. reflexivity.
    + destruct (Transfer_prep_training_spec "gpu" st)
        as (_ & _ & _ & _ & _ & _ & _ & _ & Tr).
      destruct (Transfer_prep_rollouts_spec "gpu" st)
        as (_ & _ & _ & _ & _ & _ & _ & _ & Tr').
      split.
      * eexists. split; [exact Tr|].
        rewrite !forallb_app.
        rewrite !forallb_if_nil;
          first [apply forallb_map_transfer_cuda | reflexivity].
      * eexists. split; [exact Tr'|].
        rewrite !forallb_app.
        rewrite !forallb_if_nil;
          first [apply forallb_map_transfer_cuda | reflexivity].
Qed.

(** On a fresh joint estimator [prep_training("cuda")] issues three
    transfers, all of them [.cpu()] calls, and leaves the tag ["cuda"]. *)
Lemma only_the_string_gpu_selects_cuda_witness :
  grows_by (T := Stub.torch) is_to_cpu (snd Stub.joint_4_4)
           (snd (snd (Joint.prep_training "cuda" Stub.joint_4_4))) /\
  grows_by (T := Stub.torch) is_to_cpu (snd Stub.joint_4_4)
           (snd (snd (Joint.prep_rollouts "cuda" Stub.joint_4_4))) /\
  Joint.trans_dev (fst (snd (Joint.prep_training (T := Stub.torch) "cuda" Stub.joint_4_4)))
    = "cuda".
Proof.
  apply (proj1 (proj1 (only_the_string_gpu_selects_cuda (T := Stub.torch) "cuda")
                  ltac:(discriminate)) Stub.joint_4_4).
Defined.

(** ** [update]: what it writes and what it keeps *)

Section WiredFactories.
Context `{T : Torch}.

Lemma Joint_init_from_env_wired env w est w' :
  Joint.init_from_env env w = (Return est, w') -> joint_wired est.
Proof.
  unfold Joint.init_from_env. intros H.
  apply bind_Return in H as (inst & w1 & Hinit & H).
  apply ret_inv in H as [-> ->].
  apply Joint_init_wired in Hinit. exact Hinit.
Qed.

Lemma wired_transition_not_planning est a :
  joint_wired est -> a ∈ parameters (Joint.transition est) ->
  a ∉ parameters (Joint.planning est).
Proof.
  intros (_ & _ & _ & Hnd) Ha Hin.
  apply NoDup_app in Hnd as (_ & Hd & _). apply (Hd a Ha).
  apply elem_of_app. right. exact Hin.
Qed.

Lemma transfer_wired_disjoint est :
  transfer_wired est ->
  (forall a, a ∈ parameters (Transfer.transition est) ->
             (a ∉ parameters_of (Transfer.source est)) /\
             (a ∉ parameters_of (Transfer.planning est))) /\
  (forall a, a ∈ parameters_of (Transfer.planning est) ->
             a ∉ parameters_of (Transfer.source est)).
Proof.
  intros (_ & _ & _ & Hnd).
  apply NoDup_app in Hnd as (_ & Hd & Hnd).
  apply NoDup_app in Hnd as (_ & Hd2 & _).
  split.
  - intros a Ha. specialize (Hd a Ha). rewrite elem_of_app in Hd. tauto.
  - intros a Ha Hin. exact (Hd2 a Hin Ha).
Qed.

End WiredFactories.

(** In the joint variant, on an estimator wired as the constructor wires it,
    step 1 of [update] writes no parameter cell outside the transition
    approximator's parameters and step 2 none outside the planning
    approximator's, whatever the batch and whether the step returns or
    raises. *)
Theorem joint_update_steps_write_their_own_parameters `{T : Torch}
    (obs acs next_obs : list tensor) (st : Joint.VariationalJointEmpowerment * World) :
  joint_wired (fst st) ->
  frame_outside (parameters (Joint.transition (fst st))) (snd st)
                (snd (snd (Joint.update_transition obs acs next_obs st))) /\
  frame_outside (parameters (Joint.planning (fst st))) (snd st)
                (snd (snd (Joint.update_planning obs acs next_obs st))).
Proof.
  intros (H1 & H2 & _). split.
  - apply Joint_update_transition_frame. exact H1.
  - apply Joint_update_planning_frame. exact H2.
Qed.

Lemma joint_4_4_built :
  Joint.init_from_env Stub.env_4_4 Stub.world0 =
  (Return (fst Stub.joint_4_4), snd Stub.joint_4_4).
Proof. vm_compute. reflexivity. Defined.

Lemma transfer_3_5_2_built :
  Transfer.init_from_env Stub.env_3_5_2 lr_default 64 false false Stub.world0 =
  (Return (fst (Stub.transfer_of Stub.env_3_5_2)), snd (Stub.transfer_of Stub.env_3_5_2)).
Proof. vm_compute. reflexivity. Defined.

Lemma joint_update_steps_write_their_own_parameters_witness :
  frame_outside (T := Stub.torch)
    (parameters (Joint.transition (fst Stub.joint_4_4))) (snd Stub.joint_4_4)
    (snd (snd (Joint.update_transition [Stub.obs_4; Stub.obs_4] [Stub.acs_3; Stub.acs_3]
                 [Stub.obs_4; Stub.obs_4] Stub.joint_4_4))) /\
  frame_outside (T := Stub.torch)
    (parameters (Joint.planning (fst Stub.joint_4_4))) (snd Stub.joint_4_4)
    (snd (snd (Joint.update_planning [Stub.obs_4; Stub.obs_4] [Stub.acs_3; Stub.acs_3]
                 [Stub.obs_4; Stub.obs_4] Stub.joint_4_4))).
Proof.
  apply (joint_update_steps_write_their_own_parameters (T := Stub.torch)).
  exact (Joint_init_from_env_wired _ _ _ _ joint_4_4_built).
Defined.

(** The transfer constructor gives each optimizer the parameters of its own
    group only: the transition optimizer those of the transition
    approximator, the planning optimizer those of all planning approximators,
    the source optimizer those of all source approximators and, unlike in
    the joint variant, no planning parameter; no parameter belongs to two
    approximators.  The factory builds estimators wired this way and every
    call of [update] keeps the wiring. *)
Theorem transfer_optimizers_hold_their_own_group `{T : Torch} :
  (forall ps i o lr hd r c w est w',
      Transfer.init ps i o lr hd r c w = (Return est, w') ->
      transfer_wired est /\
      forall a, a ∈ parameters_of (Transfer.planning est) ->
                a ∉ param_groups (Transfer.source_optimizer est)) /\
  (forall env lr hd r c w est w',
      Transfer.init_from_env env lr hd r c w = (Return est, w') -> transfer_wired est) /\
  (forall sample logger st,
      transfer_wired (fst st) ->
      transfer_wired (fst (snd (Transfer.update sample logger st)))).
Proof.
  split; [|split].
  - intros ps i o lr hd r c w est w' H.
    pose proof (Transfer_init_wired _ _ _ _ _ _ _ _ _ _ H) as Hw.
    split; [exact Hw|]. intros a Ha.
    pose proof Hw as (_ & _ & Hg & _). rewrite Hg.
    apply (transfer_wired_disjoint est); [exact Hw | exact Ha].
  - apply Transfer_init_from_env_wired.
  - intros sample logger st Hw.
    destruct (Transfer_update_fixed sample logger st) as [Hk _].
    apply (transfer_fixed_wired _ (fst st)); [exact Hk | exact Hw].
Qed.

Lemma transfer_optimizers_hold_their_own_group_witness :
  transfer_wired (T := Stub.torch) (fst (Stub.transfer_of Stub.env_3_5_2)).
Proof.
  exact (proj1 (proj2 (transfer_optimizers_hold_their_own_group (T := Stub.torch)))
           _ _ _ _ _ _ _ _ transfer_3_5_2_built).
Defined.

(** In the transfer variant, on an estimator wired as the constructor wires
    it, step 1 of [update] writes no parameter cell outside the transition
    approximator's parameters and step 2 none outside the planning
    approximators'.  Step 3 writes no cell outside the source and planning
    approximators' parameters, and of these it changes the value of source
    parameters only: the planning parameters receive gradients, but their
    values, like those of the transition parameters, are as before. *)
Theorem transfer_update_steps_write_their_own_parameters `{T : Torch}
    (obs acs next_obs : list tensor)
    (st : Transfer.VariationalTransferEmpowerment * World) :
  transfer_wired (fst st) ->
  frame_outside (parameters (Transfer.transition (fst st))) (snd st)
                (snd (snd (Transfer.update_transition obs acs next_obs st))) /\
  frame_outside (parameters_of (Transfer.planning (fst st))) (snd st)
                (snd (snd (Transfer.update_planning obs acs next_obs st))) /\
  (let st' := snd (Transfer.update_source next_obs st) in
   frame_outside (parameters_of (Transfer.source (fst st))
                  ++ parameters_of (Transfer.planning (fst st))) (snd st) (snd st') /\
   values_outside (parameters_of (Transfer.source (fst st))) (snd st) (snd st') /\
   (forall a, a ∈ parameters_of (Transfer.planning (fst st)) ->
              value <$> heap (snd st') !! a = value <$> heap (snd st) !! a) /\
   (forall a, a ∈ parameters (Transfer.transition (fst st)) ->
              heap (snd st') !! a = heap (snd st) !! a)).
Proof.
  intros Hw. pose proof Hw as (H1 & H2 & H3 & _).
  destruct (transfer_wired_disjoint _ Hw) as [Dt Dp].
  split; [apply Transfer_update_transition_frame; exact H1|].
  split; [apply Transfer_update_planning_frame; exact H2|].
  destruct (Transfer_update_source_frame next_obs st H3) as [Hf Hv].
  cbv zeta. split; [exact Hf|]. split; [exact Hv|]. split.
  - intros a Ha. apply Hv. apply Dp. exact Ha.
  - intros a Ha. apply Hf. destruct (Dt a Ha) as [N1 N2].
    rewrite elem_of_app. tauto.
Qed.

Lemma transfer_update_steps_write_their_own_parameters_witness :
  let st := Stub.transfer_of Stub.env_3_5_2 in
  let next_obs : list (list (list (@scalar Stub.torch))) :=
    [[[100; 101; 102]]; [[200; 201; 202; 203; 204]]; [[300; 301]]]%Q in
  let acs : list (list (list (@scalar Stub.torch))) := [[[1; 0]]; [[0; 1]]; [[1; 0]]]%Q in
  frame_outside (T := Stub.torch) (parameters (Transfer.transition (fst st))) (snd st)
                (snd (snd (Transfer.update_transition next_obs acs next_obs st))) /\
  frame_outside (T := Stub.torch) (parameters_of (Transfer.planning (fst st))) (snd st)
                (snd (snd (Transfer.update_planning next_obs acs next_obs st))) /\
  (let st' := snd (Transfer.update_source next_obs st) in
   frame_outside (T := Stub.torch)
                 (parameters_of (Transfer.source (fst st))
                  ++ parameters_of (Transfer.planning (fst st))) (snd st) (snd st') /\
   values_outside (T := Stub.torch)
                  (parameters_of (Transfer.source (fst st))) (snd st) (snd st') /\
   (forall a, a ∈ parameters_of (Transfer.planning (fst st)) ->
              value <$> heap (snd st') !! a = value <$> heap (snd st) !! a) /\
   (forall a, a ∈ parameters (Transfer.transition (fst st)) ->
              heap (snd st') !! a = heap (snd st) !! a)).
Proof.
  apply (transfer_update_steps_write_their_own_parameters (T := Stub.torch)).
  exact (Transfer_init_from_env_wired _ _ _ _ _ _ _ _ transfer_3_5_2_built).
Defined.

(** On the transfer estimator for agents of observation widths 3, 5, 2,
    step 3 changes the values of the six source parameters (addresses 2 to
    7), leaves the values of the planning parameters (addresses 8 to 13) and
    of the transition parameters (addresses 0 and 1) as they were, and
    leaves a gradient on every planning parameter. *)
Lemma transfer_step_3_changes_source_values_only :
  let st := Stub.transfer_of Stub.env_3_5_2 in
  let st' := snd (Transfer.update_source (T := Stub.torch)
                    [[[100; 101; 102]]; [[200; 201; 202; 203; 204]]; [[300; 301]]]%Q st) in
  parameters_of (Transfer.source (fst st)) = [2; 3; 4; 5; 6; 7] /\
  parameters_of (Transfer.planning (fst st)) = [8; 9; 10; 11; 12; 13] /\
  map value (heap (snd st)) = [1; 0; 1; 0; 1; 0; 1; 0; 1; 0; 1; 0; 1; 0]%Q /\
  map value (heap (snd st')) =
    [1; 0; 99 # 100; -1 # 100; 99 # 100; -1 # 100; 99 # 100; -1 # 100;
     1; 0; 1; 0; 1; 0]%Q /\
  map grad (drop 8 (heap (snd st))) = replicate 6 None /\
  map grad (drop 8 (heap (snd st'))) = replicate 6 (Some 1%Q).
Proof. vm_compute. repeat split; reflexivity. Qed.

(** In both variants, on an estimator wired as the constructor wires it, a
    call of [update] writes no memory cell outside the parameters of the
    estimator's own approximators and does not change the size of the
    memory, whatever the batch and the logger and whether the call returns
    or raises; the factories build estimators wired this way. *)
Theorem update_writes_only_the_estimators_parameters `{T : Torch} :
  (forall sample logger st,
      joint_wired (fst st) ->
      frame_outside (parameters (Joint.transition (fst st))
                     ++ parameters (Joint.source (fst st))
                     ++ parameters (Joint.planning (fst st)))
                    (snd st) (snd (snd (Joint.update sample logger st)))) /\
  (forall sample logger st,
      transfer_wired (fst st) ->
      frame_outside (parameters (Transfer.transition (fst st))
                     ++ parameters_of (Transfer.source (fst st))
                     ++ parameters_of (Transfer.planning (fst st)))
                    (snd st) (snd (snd (Transfer.update sample logger st)))) /\
  (forall env w est w',
      Joint.init_from_env env w = (Return est, w') -> joint_wired est) /\
  (forall env lr hd r c w est w',
      Transfer.init_from_env env lr hd r c w = (Return est, w') -> transfer_wired est).
Proof.
  split; [|split; [|split]].
  - intros. apply Joint_update_frame. assumption.
  - intros. apply Transfer_update_frame. assumption.
  - apply Joint_init_from_env_wired.
  - apply Transfer_init_from_env_wired.
Qed.

Lemma update_writes_only_the_estimators_parameters_witness :
  frame_outside (T := Stub.torch)
    (parameters (Joint.transition (fst Stub.joint_4_4))
     ++ parameters (Joint.source (fst Stub.joint_4_4))
     ++ parameters (Joint.planning (fst Stub.joint_4_4)))
    (snd Stub.joint_4_4)
    (snd (snd (Joint.update Stub.sample_4_4 (Some 7) Stub.joint_4_4))).
Proof.
  apply (proj1 (update_writes_only_the_estimators_parameters (T := Stub.torch))).
  exact (Joint_init_from_env_wired _ _ _ _ joint_4_4_built).
Defined.

(** In both variants a call of [update], whether it returns or raises,
    changes in the estimator object nothing but the state of the optimizers
    and the step counter: the approximators with their sizes, parameters,
    modes and devices, the three device tags, the stored [init_dict], and
    the parameter list and learning rate of each optimizer are as before. *)
Theorem update_keeps_approximators_tags_and_optimizer_settings `{T : Torch} :
  (forall sample logger st,
      joint_fixed (fst (snd (Joint.update sample logger st))) = joint_fixed (fst st)) /\
  (forall sample logger st,
      transfer_fixed (fst (snd (Transfer.update sample logger st)))
      = transfer_fixed (fst st)).
Proof.
  split; intros sample logger st.
  - apply (Joint_update_fixed sample logger st).
  - apply (Transfer_update_fixed sample logger st).
Qed.

(** In both variants a call of [update] without a logger makes no logger
    call; it advances the step counter by one when it returns and leaves it
    as it was when it raises. *)
Theorem update_without_logger_counts_without_logging `{T : Torch} :
  (forall sample st,
      let out := Joint.update sample None st in
      (exists evs, trace (snd (snd out)) = trace (snd st) ++ evs /\
                   forallb not_log evs = true) /\
      Joint.niter (fst (snd out)) =
        match fst out with
        | Return _ => Joint.niter (fst st) + 1
        | Raise _ => Joint.niter (fst st)
        end) /\
  (forall sample st,
      let out := Transfer.update sample None st in
      (exists evs, trace (snd (snd out)) = trace (snd st) ++ evs /\
                   forallb not_log evs = true) /\
      Transfer.niter (fst (snd out)) =
        match fst out with
        | Return _ => Transfer.niter (fst st) + 1
        | Raise _ => Transfer.niter (fst st)
        end).
Proof. split; [apply Joint_update_counter | apply Transfer_update_counter]. Qed.

(** ** [update] on well-shaped and on malformed batches *)

(** In the joint variant, on an estimator sized for [n >= 1] agents of one
    observation width and one action cardinality, [update] on a batch of
    [B >= 1] transitions with one observation, action and next-observation
    tensor of the matching width per agent returns, with or without a
    logger; it has advanced the step counter by one and changed nothing
    else in the object but the state of the optimizers. *)
Theorem joint_update_returns_on_well_shaped_batches `{T : Torch}
    (est : Joint.VariationalJointEmpowerment) (n B wd a : nat) (sample : Sample)
    (logger : option nat) (w : World) :
  joint_sized est n wd a -> 1 <= n -> 1 <= B ->
  sample_of B (replicate n (wd, a)) sample ->
  exists est' w',
    Joint.update sample logger (est, w) = (Return tt, (est', w')) /\
    Joint.niter est' = Joint.niter est + 1 /\
    joint_fixed est' = joint_fixed est.
Proof. apply Joint_update_returns. Qed.

Lemma joint_update_returns_on_well_shaped_batches_witness :
  exists est' w',
    Joint.update (T := Stub.torch) Stub.sample_4_4 (Some 7)
                 (fst Stub.joint_4_4, snd Stub.joint_4_4) = (Return tt, (est', w')) /\
    Joint.niter est' = Joint.niter (fst Stub.joint_4_4) + 1 /\
    joint_fixed est' = joint_fixed (fst Stub.joint_4_4).
Proof.
  apply (joint_update_returns_on_well_shaped_batches (T := Stub.torch)
           (fst Stub.joint_4_4) 2 2 4 3 Stub.sample_4_4 (Some 7) (snd Stub.joint_4_4)).
  - vm_compute. repeat split; reflexivity.
  - lia.
  - lia.
  - repeat split; repeat constructor.
Defined.

(** In the transfer variant, on an estimator sized for agents of any
    observation widths and action cardinalities (at least one agent),
    [update] on a batch of [B >= 1] transitions with one observation, action
    and next-observation tensor of the agent's own width per agent returns,
    with or without a logger; it has advanced the step counter by one and
    changed nothing else in the object but the state of the optimizers. *)
Theorem transfer_update_returns_on_well_shaped_batches `{T : Torch}
    (est : Transfer.VariationalTransferEmpowerment) (B : nat)
    (agents : list (nat * nat)) (sample : Sample) (logger : option nat) (w : World) :
  transfer_sized est agents -> 1 <= length agents -> 1 <= B ->
  sample_of B agents sample ->
  exists est' w',
    Transfer.update sample logger (est, w) = (Return tt, (est', w')) /\
    Transfer.niter est' = Transfer.niter est + 1 /\
    transfer_fixed est' = transfer_fixed est.
Proof. apply Transfer_update_returns. Qed.

Lemma transfer_update_returns_on_well_shaped_batches_witness :
  exists est' w',
    Transfer.update (T := Stub.torch) Stub.sample_3_5_2 None
                    (fst (Stub.transfer_of Stub.env_3_5_2),
                     snd (Stub.transfer_of Stub.env_3_5_2)) = (Return tt, (est', w')) /\
    Transfer.niter est' = Transfer.niter (fst (Stub.transfer_of Stub.env_3_5_2)) + 1 /\
    transfer_fixed est' = transfer_fixed (fst (Stub.transfer_of Stub.env_3_5_2)).
Proof.
  apply (transfer_update_returns_on_well_shaped_batches (T := Stub.torch)
           (fst (Stub.transfer_of Stub.env_3_5_2)) 1 [(3, 2); (5, 2); (2, 2)]
           Stub.sample_3_5_2 None (snd (Stub.transfer_of Stub.env_3_5_2))).
  - vm_compute. repeat split; reflexivity.
  - simpl. lia.
  - lia.
  - repeat split; repeat constructor.
Defined.

(** [update] is not atomic.  In the joint variant, when step 1 has returned
    and step 2 raises, [update] raises the same exception in the state
    step 2 left: the step counter is as before the call, and on an estimator
    wired as the constructor wires it every transition parameter keeps what
    step 1 wrote to it. *)
Theorem joint_update_keeps_step_1_when_step_2_raises `{T : Torch}
    (obs acs rews emps next_obs dones : list tensor) (logger : option nat)
    (st s1 s2 : Joint.VariationalJointEmpowerment * World) (tl : scalar) (e : exn) :
  Joint.update_transition obs acs next_obs st = (Return tl, s1) ->
  Joint.update_planning obs acs next_obs s1 = (Raise e, s2) ->
  Joint.update (obs, acs, rews, emps, next_obs, dones) logger st = (Raise e, s2) /\
  Joint.niter (fst s2) = Joint.niter (fst st) /\
  (joint_wired (fst st) ->
   forall a, a ∈ parameters (Joint.transition (fst st)) ->
             heap (snd s2) !! a = heap (snd s1) !! a).
Proof.
  intros E1 E2.
  destruct (Joint_steps_fixed obs acs next_obs) as (F1 & F2 & _).
  specialize (F1 st). rewrite E1 in F1. destruct F1 as [F1 _].
  specialize (F2 s1). rewrite E2 in F2. destruct F2 as [F2 _].
  unfold on in F1, F2. cbn [fst snd] in F1, F2.
  destruct (quiet_niter_Joint_update_steps obs acs next_obs) as (N1 & N2 & _).
  specialize (N1 st). rewrite E1 in N1. destruct N1 as [N1 _].
  specialize (N2 s1). rewrite E2 in N2. destruct N2 as [N2 _].
  unfold on in N1, N2. cbn [fst snd] in N1, N2.
  split; [|split].
  - unfold Joint.update.
    rewrite (bind_eq_Return _ _ _ _ _ E1). rewrite (bind_eq_Raise _ _ _ _ _ E2).
    reflexivity.
  - congruence.
  - intros Hw a Ha.
    pose proof (joint_fixed_wired _ _ F1 Hw) as Hw1.
    pose proof Hw1 as (_ & G2 & _).
    pose proof (Joint_update_planning_frame obs acs next_obs s1 G2) as [_ Hf].
    rewrite E2 in Hf. cbn [fst snd] in Hf. apply Hf.
    apply wired_transition_not_planning; [exact Hw1|].
    apply joint_fixed_inv in F1 as (-> & _). exact Ha.
Qed.

Lemma joint_update_keeps_step_1_when_step_2_raises_witness :
  let st := Stub.joint_4_4 in
  let s1 := snd (Joint.update_transition (T := Stub.torch) [Stub.obs_4; Stub.obs_4]
                   [Stub.acs_3; Stub.acs_3] [[[1]; [2]]]%Q st) in
  let s2 := snd (Joint.update_planning (T := Stub.torch) [Stub.obs_4; Stub.obs_4]
                   [Stub.acs_3; Stub.acs_3] [[[1]; [2]]]%Q s1) in
  Joint.update StubMore.sample_bad_next None st = (Raise RuntimeError, s2) /\
  Joint.niter (fst s2) = Joint.niter (fst st) /\
  (joint_wired (fst st) ->
   forall a, a ∈ parameters (Joint.transition (fst st)) ->
             heap (snd s2) !! a = heap (snd s1) !! a).
Proof.
  eapply (joint_update_keeps_step_1_when_step_2_raises (T := Stub.torch)).
  - vm_compute. reflexivity.
  - vm_compute. reflexivity.
Defined.

(** On the malformed batch the call raises with the step counter still 0
    and with the transition parameters (addresses 0 and 1) already
    updated. *)
Lemma joint_update_on_bad_batch_has_moved_the_transition_model :
  let st := Stub.joint_4_4 in
  let out := Joint.update (T := Stub.torch) StubMore.sample_bad_next None st in
  fst out = Raise RuntimeError /\
  Joint.niter (fst (snd out)) = 0 /\
  map value (heap (snd st)) = [1; 0; 1; 0; 1; 0]%Q /\
  map value (heap (snd (snd out))) = [99 # 100; -1 # 100; 1; 0; 1; 0]%Q.
Proof. vm_compute. repeat split; reflexivity. Qed.

(** The calls of steps 1 and 2.  In both variants step 1 of [update], when
    it returns, has evaluated the transition approximator exactly once, on
    the observations and actions of all agents joined column-wise, and its
    loss is the mean squared error of that prediction against the joined
    next observations.  Step 2, when it returns, has evaluated the planning
    approximator (in the transfer variant: agent [i]'s planning
    approximator) once per agent, on the agent's observation joined with its
    next observation, for the agents of the common prefix of the zipped
    sequences. *)
Theorem update_steps_1_and_2_call_transition_and_planning `{T : Torch} :
  (forall obs acs next_obs st loss st',
      Joint.update_transition obs acs next_obs st = (Return loss, st') ->
      exists trans_in target,
        cat1 (obs ++ acs) = Return trans_in /\
        cat1 next_obs = Return target /\
        MSELoss (forward_value (Joint.transition (fst st))
                   (zero_grad (Joint.transition_optimizer (fst st)) (heap (snd st)))
                   trans_in) target = Return loss /\
        trace (snd st') = trace (snd st) ++ [Forward (Joint.transition (fst st)) trans_in]) /\
  (forall obs acs next_obs st loss st',
      Joint.update_planning obs acs next_obs st = (Return loss, st') ->
      trace (snd st') =
        trace (snd st) ++
        map (fun p => Forward (Joint.planning (fst st)) (zip_with app (fst p) (snd p)))
            (zip obs next_obs)) /\
  (forall obs acs next_obs st loss st',
      Transfer.update_transition obs acs next_obs st = (Return loss, st') ->
      exists trans_in target,
        cat1 (obs ++ acs) = Return trans_in /\
        cat1 next_obs = Return target /\
        MSELoss (forward_value (Transfer.transition (fst st))
                   (zero_grad (Transfer.transition_optimizer (fst st)) (heap (snd st)))
                   trans_in) target = Return loss /\
        trace (snd st') =
          trace (snd st) ++ [Forward (Transfer.transition (fst st)) trans_in]) /\
  (forall obs acs next_obs st loss st',
      Transfer.update_planning obs acs next_obs st = (Return loss, st') ->
      trace (snd st') =
        trace (snd st) ++
        map (fun z => Forward (snd (snd z)) (zip_with app (fst z) (fst (snd z))))
            (zip obs (zip next_obs (Transfer.planning (fst st))))).
Proof.
  split; [|split; [|split]].
  - apply Joint_update_transition_trace.
  - apply Joint_update_planning_trace.
  - apply Transfer_update_transition_trace.
  - apply Transfer_update_planning_trace.
Qed.

Lemma update_steps_1_and_2_call_transition_and_planning_witness :
  let st := Stub.transfer_of Stub.env_3_5_2 in
  let obs : list (list (list (@scalar Stub.torch))) :=
    [[[100; 101; 102]]; [[200; 201; 202; 203; 204]]; [[300; 301]]]%Q in
  let acs : list (list (list (@scalar Stub.torch))) := [[[1; 0]]; [[0; 1]]; [[1; 0]]]%Q in
  trace (snd (snd (Transfer.update_planning obs acs obs st))) =
    trace (snd st) ++
    map (fun z => Forward (snd (snd z)) (zip_with app (fst z) (fst (snd z))))
        (zip obs (zip obs (Transfer.planning (fst st)))).
Proof.
  intros st obs acs.
  apply (proj2 (proj2 (proj2
           (update_steps_1_and_2_call_transition_and_planning (T := Stub.torch))))
           obs acs obs st
           (match fst (Transfer.update_planning obs acs obs st) with
            | Return l => l
            | Raise _ => 0%Q
            end)
           (snd (Transfer.update_planning obs acs obs st))).
  vm_compute. reflexivity.
Defined.

(** ** [compute] on malformed inputs *)

(** In both variants [compute] raises, before any approximator is evaluated
    and before any sample is drawn (the state is exactly as before the
    call): with [IndexError] when [rewards] has no second axis; with
    [ValueError] on an empty batch for at least one agent; with the
    exception that [torch.cat] raises on an empty sequence of tensors (its
    class depends on the version of the library) when [rewards] has a
    second axis of length 0; and with some exception when a row of
    [next_obs] holds fewer observation vectors than [rewards] has agents. *)
Theorem compute_raises_on_malformed_input_before_any_call `{T : Torch} :
  (forall rewards next_obs,
      shape rewards !! 1 = None ->
      (forall st, Joint.compute rewards next_obs st = (Raise IndexError, st)) /\
      (forall st, Transfer.compute rewards next_obs st = (Raise IndexError, st))) /\
  (forall rewards n,
      shape rewards !! 1 = Some n -> 1 <= n ->
      (forall st, Joint.compute rewards [] st = (Raise ValueError, st)) /\
      (forall st, Transfer.compute rewards [] st = (Raise ValueError, st))) /\
  (forall rewards next_obs,
      shape rewards !! 1 = Some 0 ->
      (forall st, Joint.compute rewards next_obs st = (Raise cat_empty, st)) /\
      (forall st, Transfer.compute rewards next_obs st = (Raise cat_empty, st))) /\
  (forall rewards n next_obs row,
      shape rewards !! 1 = Some n -> row ∈ next_obs -> length row < n ->
      (forall st, exists e, Joint.compute rewards next_obs st = (Raise e, st)) /\
      (forall st, exists e, Transfer.compute rewards next_obs st = (Raise e, st))).
Proof.
  split; [|split; [|split]].
  - intros rewards next_obs Hs. split; intros st;
      [unfold Joint.compute | unfold Transfer.compute];
      unfold shape_at; rewrite Hs; reflexivity.
  - intros rewards n Hs Hn. split; intros st;
      [unfold Joint.compute | unfold Transfer.compute];
      unfold shape_at; rewrite Hs, bind_lift_Return;
      rewrite (bind_eq_Raise _ _ _ _ _ (stack_columns_empty_batch st n Hn)); reflexivity.
  - intros rewards next_obs Hs. split; intros st;
      [unfold Joint.compute | unfold Transfer.compute];
      unfold shape_at; rewrite Hs; reflexivity.
  - intros rewards n next_obs row Hs Hin Hlen.
    destruct (column_short_row next_obs row (length row) Hin (Nat.le_refl _)) as (e0 & Hcol).
    split; intros st;
      destruct (stack_columns_raises next_obs st (length row) 0 n e0) as (e & He);
      try lia; try exact Hcol; exists e;
      [unfold Joint.compute | unfold Transfer.compute];
      unfold shape_at; rewrite Hs, bind_lift_Return;
      rewrite (bind_eq_Raise _ _ _ _ _ He); reflexivity.
Qed.

Lemma compute_raises_on_malformed_input_before_any_call_witness :
  (forall st, Joint.compute (T := Stub.torch) StubMore.rewards_flat
                [Stub.next_obs_3_5_2] st = (Raise IndexError, st)) /\
  (forall st, Transfer.compute (T := Stub.torch) StubMore.rewards_flat
                [Stub.next_obs_3_5_2] st = (Raise IndexError, st)).
Proof.
  apply (proj1 (compute_raises_on_malformed_input_before_any_call (T := Stub.torch))
           StubMore.rewards_flat [Stub.next_obs_3_5_2]).
  reflexivity.
Defined.

(** ** The factories pair the spaces by position *)

(** Both factories take the agents to be the pairs of
    [zip(env.action_space, env.observation_space)]: when the two sequences
    differ in length, the spaces beyond the shorter one are ignored.  The
    sizes computed, and the outcome of the factory, are those for the
    environment cut to the common length [k].  For [k >= 1] the transfer
    factory returns an estimator with one source and one planning
    approximator per pair; for [k = 0], that is when one of the two
    sequences is empty, it raises [ValueError], as it does for an
    environment without any space. *)
Theorem factories_ignore_unpaired_spaces `{T : Torch}
    (acs : list gym.Discrete) (obs : list gym.Box) :
  let k := min (length acs) (length obs) in
  let env := gym.mkEnv acs obs in
  let cut := gym.mkEnv (take k acs) (take k obs) in
  Joint.sizing env = Joint.sizing cut /\
  Transfer.sizing env = Transfer.sizing cut /\
  (forall w, Joint.init_from_env env w = Joint.init_from_env cut w) /\
  (forall lr hd r c w,
      Transfer.init_from_env env lr hd r c w = Transfer.init_from_env cut lr hd r c w) /\
  (1 <= k ->
   forall lr hd r c w,
      exists inst w',
        Transfer.init_from_env env lr hd r c w = (Return inst, w') /\
        length (Transfer.source inst) = k /\
        length (Transfer.planning inst) = k) /\
  (k = 0 ->
   forall lr hd r c w,
      exists w', Transfer.init_from_env env lr hd r c w = (Raise ValueError, w')).
Proof.
  intros k env cut.
  assert (Hj : Joint.sizing env = Joint.sizing cut).
  { unfold Joint.sizing, env, cut. simpl. rewrite (zip_take_min acs obs) at 1. reflexivity. }
  assert (Ht : Transfer.sizing env = Transfer.sizing cut).
  { unfold Transfer.sizing, env, cut. simpl. rewrite (zip_take_min acs obs) at 1.
    reflexivity. }
  assert (Hlen : length (zip acs obs) = k).
  { unfold k. rewrite length_zip. reflexivity. }
  split; [exact Hj|]. split; [exact Ht|]. split; [|split; [|split]].
  - intros w. unfold Joint.init_from_env. rewrite Hj. reflexivity.
  - intros lr hd r c w. unfold Transfer.init_from_env. rewrite Ht. reflexivity.
  - intros Hk lr hd r c w.
    assert (Hne : zip (gym.action_space env) (gym.observation_space env) <> []).
    { unfold env. simpl. intros Hnil. rewrite Hnil in Hlen. simpl in Hlen. lia. }
    destruct (Transfer_init_from_env_spec env lr hd r c w Hne)
      as (inst & w' & E & _ & A & _).
    exists inst, w'. split; [exact E|].
    unfold Transfer.architecture in A.
    pose proof (f_equal (fun x => length (snd (fst x))) A) as A2.
    pose proof (f_equal (fun x => length (snd x)) A) as A3.
    cbn [fst snd] in A2, A3. rewrite !length_map in A2, A3.
    unfold env in A2, A3. simpl in A2, A3.
    split; [rewrite A2; exact Hlen | rewrite A3; exact Hlen].
  - intros Hk lr hd r c w. apply Transfer_init_from_env_no_agents.
    unfold env. simpl. apply length_zero_iff_nil. rewrite Hlen. exact Hk.
Qed.

(** Three action spaces and two observation spaces: the transfer factory
    builds two source and two planning approximators. *)
Lemma factories_ignore_unpaired_spaces_witness :
  exists inst w',
    Transfer.init_from_env
      (gym.mkEnv [gym.mkDiscrete 2; gym.mkDiscrete 3; gym.mkDiscrete 4]
                 [gym.mkBox (3, []); gym.mkBox (5, [])])
      lr_default 64 false false Stub.world0 = (Return inst, w') /\
    length (Transfer.source inst) = 2 /\
    length (Transfer.planning inst) = 2.
Proof.
  apply (proj1 (proj2 (proj2 (proj2 (proj2
           (factories_ignore_unpaired_spaces
              [gym.mkDiscrete 2; gym.mkDiscrete 3; gym.mkDiscrete 4]
              [gym.mkBox (3, []); gym.mkBox (5, [])])))))).
  simpl. lia.
Defined.

(** ** The plotting utility *)

(** [load_data] selects a key by the part after its last slash.  Taking the
    last piece of [key.split('/')] never fails; the piece equals [name]
    exactly when [name] contains no slash and the key is [name] itself or
    ends with a slash followed by [name].  Hence for a [name] that contains
    a slash no key is ever selected and [load_data] returns [None],
    whatever the file holds. *)
Theorem load_data_selects_keys_by_last_path_segment `{N : Numpy} :
  (forall key, exists segment,
      PlotTrainingCurve.last_item (PlotTrainingCurve.split PlotTrainingCurve.slash key)
      = Return segment) /\
  (forall name key,
      selects name key <->
      occurs PlotTrainingCurve.slash name = false /\ ends_with_segment key name) /\
  (forall data name agent_num,
      occurs PlotTrainingCurve.slash name = true ->
      PlotTrainingCurve.load_data data name agent_num = Return None).
Proof.
  split; [|split].
  - apply last_item_split.
  - apply selects_iff.
  - intros data name agent_num Hocc. apply load_data_no_match.
    apply Forall_forall. intros kv _ Hsel.
    apply selects_iff in Hsel as [Hno _]. congruence.
Qed.

Lemma load_data_selects_keys_by_last_path_segment_witness :
  PlotTrainingCurve.load_data (N := StubMore.numpy) StubMore.logged "agent0/rew_loss" 0
  = Return None.
Proof.
  apply (proj2 (proj2 (load_data_selects_keys_by_last_path_segment (N := StubMore.numpy)))).
  reflexivity.
Defined.

(** [load_data] returns the third column of the first selected series.
    When no key of the dictionary is selected it returns [None].  Otherwise
    the first selected key decides, whatever follows it: when its value
    has at least one row and all rows have one length of at least 3, the
    result holds, one per row in order, the third entry of the row as
    [np.array] stores it ([np.array] gives all entries of the value one
    element type, so what is stored for a number depends on the other
    numbers of the value); an empty value and rows of fewer than 3 entries
    give [IndexError], rows of unequal lengths the exception [np.array] or
    the indexing raises on them.  The argument [agent_num] has no effect. *)
Theorem load_data_returns_third_column_of_first_match `{N : Numpy} :
  (forall data name agent_num,
      Forall (fun kv => ~ selects name (fst kv)) data ->
      PlotTrainingCurve.load_data data name agent_num = Return None) /\
  (forall before key value after name agent_num,
      Forall (fun kv => ~ selects name (fst kv)) before ->
      selects name key ->
      PlotTrainingCurve.load_data (before ++ (key, value) :: after) name agent_num =
      match PlotTrainingCurve.cast_column_2 value with
      | Return d => Return (Some d)
      | Raise e => Raise e
      end) /\
  (forall row rest,
      3 <= length row -> Forall (fun r => length r = length row) rest ->
      exists d, PlotTrainingCurve.cast_column_2 (row :: rest) = Return d /\
                length d = S (length rest) /\
                forall i r, (row :: rest) !! i = Some r ->
                            d !! i = np_element (row :: rest) <$> r !! 2) /\
  PlotTrainingCurve.cast_column_2 [] = Raise IndexError /\
  (forall row rest,
      length row < 3 -> Forall (fun r => length r = length row) rest ->
      PlotTrainingCurve.cast_column_2 (row :: rest) = Raise IndexError) /\
  (forall row rest,
      Exists (fun r => length r <> length row) rest ->
      PlotTrainingCurve.cast_column_2 (row :: rest) = Raise ragged) /\
  (forall data name agent_num agent_num',
      PlotTrainingCurve.load_data data name agent_num
      = PlotTrainingCurve.load_data data name agent_num').
Proof.
  split; [|split; [|split; [|split; [|split; [|split]]]]].
  - apply load_data_no_match.
  - apply load_data_first_match.
  - apply cast_column_2_returns.
  - reflexivity.
  - apply cast_column_2_narrow.
  - apply cast_column_2_ragged.
  - intros data name a a'. induction data as [|[key value] rest IH]; simpl; [reflexivity|].
    rewrite IH. reflexivity.
Qed.

Lemma load_data_returns_third_column_of_first_match_witness :
  PlotTrainingCurve.load_data (N := StubMore.numpy)
    ([("run1/logs/agent0/losses/pol_loss", [[10; 0; 5]; [11; 1; 4]; [12; 2; 3]]%Q)]
     ++ ("run1/logs/agent0/rew_loss", [[10; 0; 7]; [11; 1; 8]; [12; 2; 9]]%Q) :: [])
    "rew_loss" 0 =
  match PlotTrainingCurve.cast_column_2 (N := StubMore.numpy)
          [[10; 0; 7]; [11; 1; 8]; [12; 2; 9]]%Q with
  | Return d => Return (Some d)
  | Raise e => Raise e
  end.
Proof.
  apply (proj1 (proj2 (load_data_returns_third_column_of_first_match
                         (N := StubMore.numpy)))).
  - repeat constructor. simpl. unfold selects. vm_compute. discriminate.
  - vm_compute. reflexivity.
Defined.

(** On the logged dictionary of the stub, the series named [rew_loss] is
    the second one, and its third column is 7, 8, 9. *)
Lemma load_data_reads_rew_loss :
  PlotTrainingCurve.load_data (N := StubMore.numpy) StubMore.logged "rew_loss" 0
  = Return (Some [7; 8; 9]%Q).
Proof. vm_compute. reflexivity. Qed.

(** [plot_data] draws one point per fifty samples.  When the length of [y]
    is [50 * k], the call returns after exactly four calls on the axes, in
    this order: a curve through the means of the [k] consecutive blocks of
    fifty samples at the abscissae 0, ..., k-1, with the given colour and
    label; a band between mean minus spread and mean plus spread of each
    block; the grid; the x-label.  The blocks partition [y].  When the
    length of [y] is not a multiple of 50, the call raises [ValueError]
    and nothing is drawn. *)
Theorem plot_data_draws_one_point_per_fifty_samples `{N : Numpy} :
  (forall y alg_name color ax k,
      length y = 50 * k ->
      let rows := map (fun i => take 50 (drop (50 * i) y)) (seq 0 k) in
      let mean := map np_mean rows in
      let std := map np_std rows in
      PlotTrainingCurve.plot_data y alg_name color ax =
        (Return tt,
         ax ++ [PlotTrainingCurve.plot (seq 0 k) mean color alg_name;
                PlotTrainingCurve.fill_between (seq 0 k)
                  (zip_with np_sub mean std) (zip_with np_add mean std) color alpha_0_2;
                PlotTrainingCurve.grid "on";
                PlotTrainingCurve.set_xlabel "TrainSteps"]) /\
      concat rows = y /\ Forall (fun row => length row = 50) rows) /\
  (forall y alg_name color ax,
      length y mod 50 <> 0 ->
      PlotTrainingCurve.plot_data y alg_name color ax = (Raise ValueError, ax)).
Proof.
  split.
  - intros y alg_name color ax k Hlen rows mean std.
    destruct (rows_of_50_spec k y Hlen) as (Hrows & Hcat & Hall).
    fold rows in Hrows. rewrite Hrows in Hcat, Hall.
    split; [|split; assumption].
    unfold PlotTrainingCurve.plot_data.
    rewrite (reshape_50_returns y k Hlen), Hrows.
    unfold bind, lift, modify. cbn [fst snd].
    fold mean. fold std.
    assert (Hk : length mean = k).
    { unfold mean, rows. rewrite !length_map, length_seq. reflexivity. }
    rewrite Hk. rewrite <- !app_assoc. reflexivity.
  - intros y alg_name color ax Hmod.
    unfold PlotTrainingCurve.plot_data. rewrite (reshape_50_raises y Hmod). reflexivity.
Qed.

Lemma plot_data_draws_one_point_per_fifty_samples_witness :
  PlotTrainingCurve.plot_data (N := StubMore.numpy) [7; 8; 9]%Q "MADDPG" 0 []
  = (Raise ValueError, []).
Proof.
  apply (proj2 (plot_data_draws_one_point_per_fifty_samples (N := StubMore.numpy))).
  vm_compute. discriminate.
Defined.

(** ** Switching between training and rollouts on one device *)

Section RoundTrips.
Context `{T : Torch}.

Lemma train_eval (net : MLPNetwork) : training net = true -> train (eval net) = net.
Proof. destruct net as [i o ps tr pl]. simpl. intros ->. reflexivity. Qed.

Lemma eval_train (net : MLPNetwork) : training net = false -> eval (train net) = net.
Proof. destruct net as [i o ps tr pl]. simpl. intros ->. reflexivity. Qed.

Lemma Joint_rollouts_then_training device st :
  joint_settled true device (fst st) ->
  Joint.prep_training device (snd (Joint.prep_rollouts device st)) = (Return tt, st).
Proof.
  destruct st as [[tr src pl o1 o2 o3 d1 d2 d3 k dict] w].
  unfold joint_settled. cbn [fst Joint.trans_dev
    Joint.source_dev Joint.plan_dev Joint.transition Joint.source Joint.planning].
  intros (-> & -> & -> & H1 & H2 & H3).
  unfold Joint.prep_training, Joint.prep_rollouts, Joint.move_groups, Joint.fn.
  unfold bind, modify_self, get_self, in_world, cuda, cpu, emit, modify, ret.
  repeat (progress (cbn; rewrite ?(bool_decide_eq_true_2 (device = device)) by reflexivity)).
  rewrite (train_eval tr H1), (train_eval src H2), (train_eval pl H3).
  reflexivity.
Qed.

Lemma Joint_training_then_rollouts device st :
  joint_settled false device (fst st) ->
  Joint.prep_rollouts device (snd (Joint.prep_training device st)) = (Return tt, st).
Proof.
  destruct st as [[tr src pl o1 o2 o3 d1 d2 d3 k dict] w].
  unfold joint_settled. cbn [fst Joint.trans_dev
    Joint.source_dev Joint.plan_dev Joint.transition Joint.source Joint.planning].
  intros (-> & -> & -> & H1 & H2 & H3).
  unfold Joint.prep_training, Joint.prep_rollouts, Joint.move_groups, Joint.fn.
  unfold bind, modify_self, get_self, in_world, cuda, cpu, emit, modify, ret.
  repeat (progress (cbn; rewrite ?(bool_decide_eq_true_2 (device = device)) by reflexivity)).
  rewrite (eval_train tr H1), (eval_train src H2), (eval_train pl H3).
  reflexivity.
Qed.

Lemma Transfer_training_then_rollouts device st :
  transfer_settled false device (fst st) ->
  Transfer.prep_rollouts device (snd (Transfer.prep_training device st)) = (Return tt, st).
Proof.
  destruct st as [[tr src pl o1 o2 o3 d1 d2 d3 k dict] w].
  unfold transfer_settled. cbn [fst Transfer.trans_dev
    Transfer.source_dev Transfer.plan_dev Transfer.transition Transfer.source
    Transfer.planning].
  intros (-> & -> & -> & H1 & H2 & H3).
  unfold Transfer.prep_training, Transfer.prep_rollouts.
  unfold bind, modify_self, get_self, in_world, ret.
  repeat (progress (cbn; rewrite ?(bool_decide_eq_true_2 (device = device)) by reflexivity)).
  rewrite (eval_train tr H1), (map_eval_evaled src H2), (map_eval_evaled pl H3).
  rewrite (eval_evaled tr H1). reflexivity.
Qed.

(** *** No device transfer outside the two mode switches *)

Lemma forward_stays net x : preserves (grows_by not_transfer) (forward net x).
Proof. apply forward_grows. reflexivity. Qed.

Lemma step_stays (w : World) (opt : Adam) :
  grows_by not_transfer w (mkWorld (snd (step opt (heap w))) (torch_rng w) (trace w)).
Proof. exists []. split; [symmetry; apply app_nil_r | reflexivity]. Qed.

Lemma add_scalars_stays lg tag sc k :
  preserves (grows_by not_transfer) (add_scalars lg tag sc k).
Proof. intros w. exists [AddScalars lg tag sc k]. split; reflexivity. Qed.

End RoundTrips.

(** In the joint variant the two mode switches undo each other on one
    device: from a state whose tags name [device] and whose approximators
    are all in training mode, [prep_rollouts(device)] followed by
    [prep_training(device)] returns to exactly that state, object and world,
    and likewise in the other order from a state in evaluation mode.  In the
    transfer variant this holds for [prep_training(device)] followed by
    [prep_rollouts(device)] from a state in evaluation mode. *)
Theorem mode_switches_undo_each_other_on_one_device `{T : Torch} (device : string) :
  (forall st, joint_settled true device (fst st) ->
              Joint.prep_training device (snd (Joint.prep_rollouts device st))
              = (Return tt, st)) /\
  (forall st, joint_settled false device (fst st) ->
              Joint.prep_rollouts device (snd (Joint.prep_training device st))
              = (Return tt, st)) /\
  (forall st, transfer_settled false device (fst st) ->
              Transfer.prep_rollouts device (snd (Transfer.prep_training device st))
              = (Return tt, st)).
Proof.
  split; [|split].
  - apply Joint_rollouts_then_training.
  - apply Joint_training_then_rollouts.
  - apply Transfer_training_then_rollouts.
Qed.

Lemma mode_switches_undo_each_other_on_one_device_witness :
  Joint.prep_training (T := Stub.torch) "cpu"
    (snd (Joint.prep_rollouts "cpu" Stub.joint_4_4)) = (Return tt, Stub.joint_4_4).
Proof.
  apply (proj1 (mode_switches_undo_each_other_on_one_device (T := Stub.torch) "cpu")).
  vm_compute. repeat split; reflexivity.
Defined.

(** In both variants neither [compute] nor [update] ever moves an
    approximator: whatever their inputs and outcome, they add no [.cuda()]
    and no [.cpu()] call to the record of calls.  Device placement is
    changed by [prep_training] and [prep_rollouts] only. *)
Theorem compute_and_update_never_move_approximators `{T : Torch} :
  (forall rewards next_obs st,
      grows_by not_transfer (snd st) (snd (snd (Joint.compute rewards next_obs st)))) /\
  (forall sample logger st,
      grows_by not_transfer (snd st) (snd (snd (Joint.update sample logger st)))) /\
  (forall rewards next_obs st,
      grows_by not_transfer (snd st) (snd (snd (Transfer.compute rewards next_obs st)))) /\
  (forall sample logger st,
      grows_by not_transfer (snd st) (snd (snd (Transfer.update sample logger st)))).
Proof.
  split; [|split; [|split]].
  - intros rewards next_obs st.
    apply (Joint_compute_preserves (fun _ _ => True) (grows_by not_transfer));
      auto using forward_stays, gumbel_grows.
  - intros sample logger st.
    apply (Joint_update_preserves (fun _ _ => True) (grows_by not_transfer) logger);
      auto using forward_stays, gumbel_grows, modify_heap_grows, step_stays,
        add_scalars_stays.
  - intros rewards next_obs st.
    apply (Transfer_compute_preserves (fun _ _ => True) (grows_by not_transfer));
      auto using forward_stays, gumbel_grows.
  - intros sample logger st.
    apply (Transfer_update_preserves (fun _ _ => True) (grows_by not_transfer) logger);
      auto using forward_stays, gumbel_grows, modify_heap_grows, step_stays,
        add_scalars_stays.
Qed.

(** [update] on a batch without agents.  In both variants, when the batch
    holds no observation, action and next-observation tensors, [update]
    raises in step 1, where nothing is there to join, with the exception
    that [torch.cat] raises on an empty sequence of tensors (its class
    depends on the version of the library): no approximator has been
    evaluated, no parameter value has changed and the step counter is as
    before; the only effect is that the gradients of the transition
    optimizer's parameters have been reset. *)
Theorem update_on_a_batch_without_agents_raises `{T : Torch} :
  (forall rews emps dones logger st,
      Joint.update ([], [], rews, emps, [], dones) logger st =
      (Raise cat_empty,
       (fst st, mkWorld (zero_grad (Joint.transition_optimizer (fst st)) (heap (snd st)))
                        (torch_rng (snd st)) (trace (snd st))))) /\
  (forall rews emps dones logger st,
      Transfer.update ([], [], rews, emps, [], dones) logger st =
      (Raise cat_empty,
       (fst st, mkWorld (zero_grad (Transfer.transition_optimizer (fst st)) (heap (snd st)))
                        (torch_rng (snd st)) (trace (snd st))))) /\
  (forall opt h a, value <$> zero_grad opt h !! a = value <$> h !! a).
Proof.
  split; [|split].
  - intros rews emps dones logger [e w]. reflexivity.
  - intros rews emps dones logger [e w]. reflexivity.
  - intros opt h a. apply zero_grad_value.
Qed.
